(** * Element-anchored persistent chat engine

    A shallow embedding of the logic of [src/components/ElementChatWindow.tsx]:
    the streaming aggregator ([separateAssistantResponse]), the message list
    maintained by [sendMessageToAPI], the dispatch queue ([handleSendMessage],
    [processQueue]), the descriptor resolver ([resolveElementForDescriptor]),
    the anchor registry ([ensureAnchorPosition] and the anchor chip handler)
    and the collapse-state machine of the window.

    JavaScript strings are sequences of UTF-16 code units ([list N]); numbers
    that carry pixel geometry are exact rationals ([Q]); arrays that the code
    shares between several names live in an explicit store of array objects,
    so that an in-place [splice] is seen through every alias.  React state
    is kept apart from the refs: a ref is written at once, a state setter
    called after an [await] is queued, and the queue is applied, functional
    updaters included, by the next render. *)

From Stdlib Require Import String Ascii NArith ZArith QArith Qabs Qminmax Qround Lia List Bool
  DecimalString.
From stdpp Require Import base option list gmap.

Set Default Proof Using "Type".

(* ===================================================================== *)
(** ** JavaScript strings *)
(* ===================================================================== *)

Module JS.

(** A JS string: its UTF-16 code units. *)
Definition jsstring : Type := list N.

(** An ASCII literal as a JS string. *)
Definition lit (s : string) : jsstring :=
  map N_of_ascii (list_ascii_of_string s).

(** Truthiness of a string value: the empty string is falsy. *)
Definition truthy (s : jsstring) : bool :=
  match s with [] => false | _ :: _ => true end.

(** [\s] of a regular expression and the characters removed by
    [String.prototype.trim]: ECMAScript WhiteSpace and LineTerminator. *)
Definition is_ws (c : N) : bool :=
  ((9 <=? c) && (c <=? 13) || (c =? 32) || (c =? 160) || (c =? 5760)
   || (8192 <=? c) && (c <=? 8202) || (c =? 8232) || (c =? 8233)
   || (c =? 8239) || (c =? 8287) || (c =? 12288) || (c =? 65279))%N.

(** [s.replace(/^\s+/, '')] *)
Fixpoint trimStart (s : jsstring) : jsstring :=
  match s with
  | c :: t => if is_ws c then trimStart t else s
  | [] => []
  end.

Definition trimEnd (s : jsstring) : jsstring := rev (trimStart (rev s)).

(** [s.trim()] *)
Definition trim (s : jsstring) : jsstring := trimEnd (trimStart s).

Fixpoint startsWith (pat s : jsstring) : bool :=
  match pat, s with
  | [], _ => true
  | p :: pat', c :: s' => (p =? c)%N && startsWith pat' s'
  | _ :: _, [] => false
  end.

(** [s.indexOf(pat)]; [None] stands for the result [-1]. *)
Fixpoint indexOf (pat s : jsstring) : option nat :=
  if startsWith pat s then Some 0
  else match s with
       | [] => None
       | _ :: s' => S <$> indexOf pat s'
       end.

(** [s.slice(0, i)] and [s.slice(i)] for [0 <= i]. *)
Definition slice_to (i : nat) (s : jsstring) : jsstring := take i s.
Definition slice_from (i : nat) (s : jsstring) : jsstring := drop i s.

(** [chunks.join('')] *)
Definition join (chunks : list jsstring) : jsstring := concat chunks.

Definition CR : N := 13.
Definition LF : N := 10.

(** The literal ['\n\n']. *)
Definition double_break : jsstring := [LF; LF].

(** [parts.join('|')]-style joining with a separator. *)
Fixpoint join_with (sep : jsstring) (parts : list jsstring) : jsstring :=
  match parts with
  | [] => []
  | [p] => p
  | p :: ps => p ++ sep ++ join_with sep ps
  end.

(** A string all of whose code units are whitespace (possibly empty). *)
Definition blank (s : jsstring) : Prop := Forall (fun c => is_ws c = true) s.

End JS.

Import JS.

(* ===================================================================== *)
(** ** Streaming aggregator *)
(* ===================================================================== *)

Module Aggregator.

(** [normalizeNewlines]: [value.replace(/\r\n/g, '\n')]. *)
Fixpoint normalizeNewlines (value : jsstring) : jsstring :=
  match value with
  | [] => []
  | c :: t =>
      match t with
      | d :: t' =>
          if (c =? CR)%N && (d =? LF)%N
          then LF :: normalizeNewlines t'
          else c :: normalizeNewlines t
      | [] => [c]
      end
  end.

(** The result object [{ answer, thinking? }]. *)
Record Separated : Type := mkSeparated {
  answer : jsstring;
  thinking : option jsstring;
}.

(** The double-newline branch of [separateAssistantResponse]; [None] when
    the branch does not return. *)
Definition split_at_double_break (normalizedFull : jsstring) : option Separated :=
  match indexOf double_break normalizedFull with
  | Some doubleBreakIndex =>
      let thinkingCandidate := trim (slice_to doubleBreakIndex normalizedFull) in
      let answerRaw := slice_from (doubleBreakIndex + 2) normalizedFull in
      let answerCandidate := trimStart answerRaw in
      if truthy thinkingCandidate && (0 <? length (trim answerCandidate))
      then Some {| answer := answerCandidate; thinking := Some thinkingCandidate |}
      else None
  | None => None
  end.

(** The fragment branch of [separateAssistantResponse]. *)
Definition split_at_first_chunk (deltaHistory : list jsstring) : option Separated :=
  if 1 <? length deltaHistory then
    match map normalizeNewlines deltaHistory with
    | firstChunk :: restChunks =>
        let thinkingCandidate := trim firstChunk in
        let restCombinedRaw := join restChunks in
        let restCombinedNormalized := normalizeNewlines restCombinedRaw in
        let answerCandidate := trimStart restCombinedNormalized in
        if truthy thinkingCandidate && (0 <? length (trim answerCandidate))
        then Some {| answer := answerCandidate; thinking := Some thinkingCandidate |}
        else None
    | [] => None
    end
  else None.

Definition separateAssistantResponse
    (fullContent : jsstring) (deltaHistory : list jsstring) : Separated :=
  let normalizedFull := normalizeNewlines fullContent in
  let trimmedFull := trim normalizedFull in
  if negb (truthy trimmedFull) then {| answer := []; thinking := None |}
  else
    match split_at_double_break normalizedFull with
    | Some r => r
    | None =>
        match split_at_first_chunk deltaHistory with
        | Some r => r
        | None => {| answer := trimStart normalizedFull; thinking := None |}
        end
    end.


(** The first double newline of a text, said without [indexOf]: the text is
    [before ++ "\n\n" ++ after] and no double newline starts inside
    [before]. *)
Definition double_break_at (text : jsstring) (k : nat) : Prop :=
  text !! k = Some LF ∧ text !! S k = Some LF.

Definition first_double_break (text before after : jsstring) : Prop :=
  text = before ++ double_break ++ after ∧
  ∀ k, k < length before → ¬ double_break_at text k.

Definition no_double_break (text : jsstring) : Prop :=
  ∀ k, ¬ double_break_at text k.




End Aggregator.

(* ===================================================================== *)
(** ** Messages of a session *)
(* ===================================================================== *)

Module Chat.

Import Aggregator.

Inductive Role : Type := user | assistant.

#[global] Instance Role_eq_dec : EqDecision Role.
Proof. solve_decision. Defined.

Record PendingImage : Type := mkImage {
  dataURL : jsstring;
  image_width : Z;
  image_height : Z;
}.

(** [ChatMessage] of [types/elementChat.ts]; an absent optional property is
    [None]. *)
Record ChatMessage : Type := mkMessage {
  id : jsstring;
  role : Role;
  content : jsstring;
  timestamp : Z;
  turnId : option jsstring;
  images : option (list PendingImage);
  thinking : option jsstring;
}.

Definition is_assistant (m : ChatMessage) : bool :=
  match role m with assistant => true | user => false end.

(** Decimal rendering of an integer inside a template string. *)
Definition decimal (z : Z) : jsstring := lit (NilEmpty.string_of_int (Z.to_int z)).

(** [`msg-${Date.now()}-${Math.random().toString(36).substring(2, 9)}`],
    the clock reading and the random suffix being inputs. *)
Definition msg_id (now : Z) (rnd : jsstring) : jsstring :=
  lit "msg-" ++ decimal now ++ lit "-" ++ rnd.

Definition queued_id (now : Z) (rnd : jsstring) : jsstring :=
  lit "queued-" ++ decimal now ++ lit "-" ++ rnd.

Definition forced_duplicate_id (now : Z) (rnd : jsstring) : jsstring :=
  lit "forced-duplicate-" ++ decimal now ++ lit "-" ++ rnd.

(** [dedupeMessagesById]: the loop with its [Set] of seen ids. *)
Fixpoint dedupe_from (seen : gset jsstring) (messages : list ChatMessage)
    : list ChatMessage :=
  match messages with
  | [] => []
  | message :: rest =>
      if decide (id message ∈ seen) then dedupe_from seen rest
      else message :: dedupe_from ({[id message]} ∪ seen) rest
  end.

Definition dedupeMessagesById (messages : list ChatMessage) : list ChatMessage :=
  dedupe_from ∅ messages.

(** The loop [for (i = length - 1; i >= 0; i--) if (a[i].role === 'assistant')
    { a.splice(i, 1); break; }]: scanning from the end is scanning the
    reversed array from the front. *)
Fixpoint remove_first_assistant (messages : list ChatMessage) : list ChatMessage :=
  match messages with
  | [] => []
  | m :: rest => if is_assistant m then rest else m :: remove_first_assistant rest
  end.

Definition remove_last_assistant (messages : list ChatMessage) : list ChatMessage :=
  rev (remove_first_assistant (rev messages)).

(** [messages.findIndex(message => message.id === wanted)]; [None] is [-1]. *)
Fixpoint findIndex_id (wanted : jsstring) (messages : list ChatMessage) : option nat :=
  match messages with
  | [] => None
  | m :: rest =>
      if decide (id m = wanted) then Some 0 else S <$> findIndex_id wanted rest
  end.

(** [messages.find(message => message.id === wanted)] *)
Fixpoint find_id (wanted : jsstring) (messages : list ChatMessage) : option ChatMessage :=
  match messages with
  | [] => None
  | m :: rest => if decide (id m = wanted) then Some m else find_id wanted rest
  end.

(** The effect that rebuilds [assistantTurnMapRef] whenever [messages]
    changes: later assistant messages of a turn overwrite earlier ones. *)
Definition turn_map_step (m : gmap jsstring jsstring) (message : ChatMessage)
    : gmap jsstring jsstring :=
  match role message, turnId message with
  | assistant, Some t => if truthy t then <[t := id message]> m else m
  | _, _ => m
  end.

Definition turn_map_of (messages : list ChatMessage) : gmap jsstring jsstring :=
  foldl turn_map_step ∅ messages.

(** [{ ...message, content, thinking, timestamp, turnId }] *)
Definition with_answer (message : ChatMessage) (newContent : jsstring)
    (newThinking : option jsstring) (newTimestamp : Z) (turn : jsstring) : ChatMessage :=
  {| id := id message; role := role message; content := newContent;
     timestamp := newTimestamp; turnId := Some turn; images := images message;
     thinking := newThinking |}.

Definition assistant_message (newId content : jsstring) (newThinking : option jsstring)
    (newTimestamp : Z) (turn : jsstring) : ChatMessage :=
  {| id := newId; role := assistant; content := content; timestamp := newTimestamp;
     turnId := Some turn; images := None; thinking := newThinking |}.

Definition user_message (turn content : jsstring) (newTimestamp : Z)
    (imagesForStorage : option (list PendingImage)) : ChatMessage :=
  {| id := turn; role := user; content := content; timestamp := newTimestamp;
     turnId := Some turn; images := imagesForStorage; thinking := None |}.

(** The text of the synthetic error message; its first code unit is the
    cross mark U+274C. *)
Definition error_content : jsstring :=
  [10060%N] ++ lit " Error: Could not connect to API. Please check your backend is running or API key is configured.".

Definition error_message (now : Z) (rnd : jsstring) (stamp : Z) : ChatMessage :=
  {| id := msg_id now rnd; role := assistant; content := error_content;
     timestamp := stamp; turnId := None; images := None; thinking := None |}.

(** [contentForStorage] of [sendMessageToAPI] and [content] of
    [handleSendMessage]. *)
Definition content_for_storage (text : jsstring) (attached : list PendingImage) : jsstring :=
  let trimmed := trim text in
  if truthy trimmed then trimmed
  else if 0 <? length attached then lit "(Image attached)" else [].

(** The value of [duplicateTestConfig ?? window.__NABOKOV_TEST_FORCE_DUPLICATE__]:
    absent, [true], or a configuration object. *)
Inductive TestConfig : Type :=
| ConfigAbsent
| ConfigTrue
| ConfigObject (mockContent : option jsstring) (persist : bool) (duplicate : option bool).

Definition config_mock_content (c : TestConfig) : option jsstring :=
  match c with ConfigObject mock _ _ => mock | _ => None end.

(** [shouldForceDuplicate] *)
Definition shouldForceDuplicate (c : TestConfig) : bool :=
  match c with
  | ConfigAbsent => false
  | ConfigTrue => true
  | ConfigObject _ _ (Some false) => false
  | ConfigObject _ _ _ => true
  end.

Definition config_persist (c : TestConfig) : bool :=
  match c with ConfigObject _ p _ => p | _ => false end.

(** What is stored for a completed stream: [assistantContentForStorage] and
    [assistantThinkingForStorage]; [None] when the normalised answer is empty
    and the turn is dropped. *)
Definition answer_for_storage (assistantContent : jsstring)
    (deltaHistorySnapshot : list jsstring) : option (jsstring * option jsstring) :=
  let sep := separateAssistantResponse assistantContent deltaHistorySnapshot in
  let assistantAnswerRaw := answer sep in
  let assistantThinkingRaw := Aggregator.thinking sep in
  let assistantContentForStorage :=
    if 0 <? length (trim assistantAnswerRaw) then assistantAnswerRaw
    else trimStart assistantContent in
  let normalisedAssistant := trim assistantContentForStorage in
  if negb (truthy normalisedAssistant) then None
  else
    let assistantThinkingForStorage :=
      match assistantThinkingRaw with
      | Some t =>
          if (0 <? length (trim assistantAnswerRaw)) && truthy t then Some (trim t) else None
      | None => None
      end in
    Some (assistantContentForStorage, assistantThinkingForStorage).

(** The readings of [Date.now()] and [Math.random()] taken while a stream
    is completed, in the order the code takes them. *)
Record Stamps : Type := mkStamps {
  forced_id_now : Z;
  forced_rnd : jsstring;
  forced_now : Z;
  assistant_now : Z;
  message_id_now : Z;
  message_rnd : jsstring;
}.

(** What the three-way turn correlation of [sendMessageToAPI] produces:
    the final list, the write to [session.messages[sessionIndex]] when
    there is one (the id looked up and the element stored), and the id the
    branch sets for the turn in [assistantTurnMapRef] when it sets one. *)
Record Correlated : Type := mkCorrelated {
  finalMessages : list ChatMessage;
  sessionWrite : option (jsstring * ChatMessage);
  turnEntry : option jsstring;
}.

(** A new assistant message is appended. *)
Definition append_assistant (baseMessages : list ChatMessage) (turn : jsstring)
    (assistantContentForStorage : jsstring)
    (assistantThinkingForStorage : option jsstring) (t : Stamps) : Correlated :=
  let assistantMessageId := msg_id (message_id_now t) (message_rnd t) in
  let assistantMessage :=
    assistant_message assistantMessageId assistantContentForStorage
      assistantThinkingForStorage (assistant_now t) turn in
  {| finalMessages := dedupeMessagesById (baseMessages ++ [assistantMessage]);
     sessionWrite := None; turnEntry := Some assistantMessageId |}.

(** No message of the turn was found: the last message is updated when
    it is an assistant message with the same text, else a new message is
    appended. *)
Definition correlate_new_turn (baseMessages : list ChatMessage) (turn : jsstring)
    (assistantContent assistantContentForStorage : jsstring)
    (assistantThinkingForStorage : option jsstring) (t : Stamps) : Correlated :=
  let normalisedAssistant := trim assistantContentForStorage in
  match last baseMessages with
  | Some lastMessage =>
      let lastMessageContentTrimmed := trim (content lastMessage) in
      if is_assistant lastMessage && truthy lastMessageContentTrimmed
         && (bool_decide (lastMessageContentTrimmed = normalisedAssistant)
             || bool_decide (lastMessageContentTrimmed = trim assistantContent))
      then
        let updatedLast :=
          with_answer lastMessage assistantContentForStorage
            assistantThinkingForStorage (assistant_now t) turn in
        {| finalMessages :=
             dedupeMessagesById (removelast baseMessages ++ [updatedLast]);
           sessionWrite := Some (id lastMessage, updatedLast);
           turnEntry := Some (id updatedLast) |}
      else
        append_assistant baseMessages turn assistantContentForStorage
          assistantThinkingForStorage t
  | None =>
      append_assistant baseMessages turn assistantContentForStorage
        assistantThinkingForStorage t
  end.

(** The message of the turn is updated where it stands. *)
Definition update_existing (baseMessages : list ChatMessage) (eid turn : jsstring)
    (assistantContentForStorage : jsstring)
    (assistantThinkingForStorage : option jsstring) (t : Stamps) : Correlated :=
  let updatedMessages :=
    map (fun message =>
           if decide (id message = eid)
           then with_answer message assistantContentForStorage
                  assistantThinkingForStorage (assistant_now t) turn
           else message) baseMessages in
  let final := dedupeMessagesById updatedMessages in
  {| finalMessages := final;
     sessionWrite := (fun m => (eid, m)) <$> find_id eid final;
     turnEntry := None |}.

Definition correlate_turn (baseMessages : list ChatMessage)
    (turnMap : gmap jsstring jsstring) (turn : jsstring)
    (assistantContent assistantContentForStorage : jsstring)
    (assistantThinkingForStorage : option jsstring) (t : Stamps) : Correlated :=
  let existingAssistantId := turnMap !! turn in
  let existingAssistantIndex :=
    match existingAssistantId with
    | Some eid => if truthy eid then findIndex_id eid baseMessages else None
    | None => None
    end in
  match existingAssistantId, existingAssistantIndex with
  | Some eid, Some _ =>
      update_existing baseMessages eid turn assistantContentForStorage
        assistantThinkingForStorage t
  | _, _ =>
      correlate_new_turn baseMessages turn assistantContent
        assistantContentForStorage assistantThinkingForStorage t
  end.

(** *** The invariant of a session's message list *)

(** An assistant message that answers turn [t]. *)
Definition answers_turn (t : jsstring) (m : ChatMessage) : bool :=
  is_assistant m && bool_decide (turnId m = Some t).

(** No two messages share an id. *)
Definition unique_ids (messages : list ChatMessage) : Prop :=
  NoDup (id <$> messages).

(** At most one assistant message per turn id; an empty string is no turn
    id (the code tests [message.turnId] for truthiness). *)
Definition one_answer_per_turn (messages : list ChatMessage) : Prop :=
  ∀ t, truthy t = true → length (List.filter (answers_turn t) messages) ≤ 1.

(** Assistant messages carry a non-empty id, as every id the window
    generates does. *)
Definition assistants_identified (messages : list ChatMessage) : Prop :=
  ∀ m, m ∈ messages → is_assistant m = true → truthy (id m) = true.

Definition session_ok (messages : list ChatMessage) : Prop :=
  unique_ids messages ∧ one_answer_per_turn messages ∧ assistants_identified messages.

(** Any two assistant messages of one turn have the same id. *)
Definition turn_pairwise (messages : list ChatMessage) : Prop :=
  ∀ t m1 m2, truthy t = true → m1 ∈ messages → m2 ∈ messages →
    answers_turn t m1 = true → answers_turn t m2 = true → id m1 = id m2.

End Chat.

(* ===================================================================== *)
(** ** The chat window as a machine of events *)
(* ===================================================================== *)

Module Window.

Import Aggregator Chat.

(** [QueuedMessage] *)
Record QueuedMessage : Type := mkQueued {
  q_id : jsstring;
  q_content : jsstring;
  q_images : option (list PendingImage);
  q_createdAt : Z;
  q_messageId : jsstring;
}.

(** The submission signature [JSON.stringify({ content, images })]: two
    signatures are equal strings exactly when the content and the list of
    data URLs are equal, so the pair stands for the string. *)
Definition Signature : Type := (jsstring * list jsstring)%type.

Record Submission : Type := mkSubmission {
  sub_signature : Signature;
  sub_timestamp : Z;
  sub_messageId : jsstring;
}.

(** Who awaits a call of [sendMessageToAPI]: [handleSendMessage] or
    [processQueue]. *)
Inductive Origin : Type :=
| FromInput (signature : Signature) (messageId : jsstring)
| FromQueue.

(** How far a call of [sendMessageToAPI] has come: before the user message
    is stored, or streaming, with the array [newMessages] it captured and
    the text accumulated in [assistantContent]. *)
Inductive Stage : Type :=
| Starting
| Streaming (newMessages : nat) (assistantContent : jsstring).

Record Request : Type := mkRequest {
  rid : nat;
  r_turnId : jsstring;
  r_content : jsstring;
  r_images : list PendingImage;
  r_origin : Origin;
  r_stage : Stage;
}.

(** A call of a state setter that React has queued.  [setMessages(a)] and
    [setStreamingDeltas([])] carry a value; the [catch] block of
    [sendMessageToAPI] and the streaming loop pass an updater function,
    which React runs on the state of that moment when it renders:
    [prev => { next = dedupeMessagesById([...prev, errorMessage]);
    messagesRef.current = next; return next }] and
    [prev => { next = [...prev, chunk]; applyStreamingSnapshot(next);
    return next }]. *)
Inductive MessagesUpdate : Type :=
| SetMessagesTo (a : nat)
| AppendError (errorMessage : ChatMessage).

Inductive DeltasUpdate : Type :=
| SetDeltasTo (value : list jsstring)
| AppendDelta (chunk : jsstring).

(** The state of one mounted [ElementChatWindow] that the dispatch queue
    and the message list depend on.  Refs are written at once.  A state
    set after an [await] of [sendMessageToAPI] is queued and takes effect
    at the next render; the queue state, which the click and key handlers
    set, is rendered before the next event and is held as its ref. *)
Record Component : Type := mkComponent {
  heap : gmap nat (list ChatMessage);  (* array objects holding messages, by identity *)
  next_loc : nat;  (* identity of the next array to be created *)
  messagesRef : nat;  (* [messagesRef.current] *)
  session_messages : option nat;  (* [session.messages] of the session object, once there is one *)
  assistantTurnMap : gmap jsstring jsstring;  (* [assistantTurnMapRef.current] *)
  streamingDeltaHistory : list jsstring;  (* [streamingDeltaHistoryRef.current] *)
  clearPreviousAssistant : bool;  (* the replace-last-assistant-reply preference *)
  testDuplicateConfig : TestConfig;  (* the test-harness configuration *)
  messageQueue : list QueuedMessage;  (* [messageQueueRef.current] *)
  isProcessingQueue : bool;  (* [isProcessingQueueRef.current] *)
  isSending : bool;  (* [isSendingRef.current] *)
  isStreaming : bool;  (* the [isStreaming] state of the last render, which [handleSendMessage] reads *)
  activeQueuedId : option jsstring;
  lastSubmittedMessage : option Submission;  (* [lastSubmittedMessageRef.current] *)
  queueExpanded : bool;
  isMounted : bool;  (* [isMountedRef.current] *)
  requests : list Request;  (* calls of [sendMessageToAPI] that have not settled yet *)
  next_rid : nat;
  timers : nat;  (* pending [setTimeout(processQueue, 100)] callbacks *)
  dispatched : list jsstring;  (* turn ids in the order [sendMessageToAPI] was called *)
  messagesState : nat;  (* the array held by the [messages] state of the last render *)
  pendingMessages : list MessagesUpdate;  (* [setMessages] calls that wait for the next render *)
  streamingDeltas : list jsstring;  (* the [streamingDeltas] state of the last render *)
  pendingDeltas : list DeltasUpdate;  (* [setStreamingDeltas] calls that wait for the next render *)
  pendingIsStreaming : option bool;  (* the last [setIsStreaming] call that waits for the next render *)
}.

Definition set_heap (v : gmap nat (list ChatMessage)) (st : Component) : Component :=
  {| heap := v; next_loc := next_loc st; messagesRef := messagesRef st;
     session_messages := session_messages st; assistantTurnMap := assistantTurnMap st;
     streamingDeltaHistory := streamingDeltaHistory st;
     clearPreviousAssistant := clearPreviousAssistant st;
     testDuplicateConfig := testDuplicateConfig st; messageQueue := messageQueue st;
     isProcessingQueue := isProcessingQueue st; isSending := isSending st;
     isStreaming := isStreaming st; activeQueuedId := activeQueuedId st;
     lastSubmittedMessage := lastSubmittedMessage st; queueExpanded := queueExpanded st;
     isMounted := isMounted st; requests := requests st; next_rid := next_rid st;
     timers := timers st; dispatched := dispatched st; messagesState := messagesState st;
     pendingMessages := pendingMessages st; streamingDeltas := streamingDeltas st;
     pendingDeltas := pendingDeltas st; pendingIsStreaming := pendingIsStreaming st |}.

Definition set_next_loc (v : nat) (st : Component) : Component :=
  {| heap := heap st; next_loc := v; messagesRef := messagesRef st;
     session_messages := session_messages st; assistantTurnMap := assistantTurnMap st;
     streamingDeltaHistory := streamingDeltaHistory st;
     clearPreviousAssistant := clearPreviousAssistant st;
     testDuplicateConfig := testDuplicateConfig st; messageQueue := messageQueue st;
     isProcessingQueue := isProcessingQueue st; isSending := isSending st;
     isStreaming := isStreaming st; activeQueuedId := activeQueuedId st;
     lastSubmittedMessage := lastSubmittedMessage st; queueExpanded := queueExpanded st;
     isMounted := isMounted st; requests := requests st; next_rid := next_rid st;
     timers := timers st; dispatched := dispatched st; messagesState := messagesState st;
     pendingMessages := pendingMessages st; streamingDeltas := streamingDeltas st;
     pendingDeltas := pendingDeltas st; pendingIsStreaming := pendingIsStreaming st |}.

Definition set_messagesRef (v : nat) (st : Component) : Component :=
  {| heap := heap st; next_loc := next_loc st; messagesRef := v;
     session_messages := session_messages st; assistantTurnMap := assistantTurnMap st;
     streamingDeltaHistory := streamingDeltaHistory st;
     clearPreviousAssistant := clearPreviousAssistant st;
     testDuplicateConfig := testDuplicateConfig st; messageQueue := messageQueue st;
     isProcessingQueue := isProcessingQueue st; isSending := isSending st;
     isStreaming := isStreaming st; activeQueuedId := activeQueuedId st;
     lastSubmittedMessage := lastSubmittedMessage st; queueExpanded := queueExpanded st;
     isMounted := isMounted st; requests := requests st; next_rid := next_rid st;
     timers := timers st; dispatched := dispatched st; messagesState := messagesState st;
     pendingMessages := pendingMessages st; streamingDeltas := streamingDeltas st;
     pendingDeltas := pendingDeltas st; pendingIsStreaming := pendingIsStreaming st |}.

Definition set_session_messages (v : option nat) (st : Component) : Component :=
  {| heap := heap st; next_loc := next_loc st; messagesRef := messagesRef st;
     session_messages := v; assistantTurnMap := assistantTurnMap st;
     streamingDeltaHistory := streamingDeltaHistory st;
     clearPreviousAssistant := clearPreviousAssistant st;
     testDuplicateConfig := testDuplicateConfig st; messageQueue := messageQueue st;
     isProcessingQueue := isProcessingQueue st; isSending := isSending st;
     isStreaming := isStreaming st; activeQueuedId := activeQueuedId st;
     lastSubmittedMessage := lastSubmittedMessage st; queueExpanded := queueExpanded st;
     isMounted := isMounted st; requests := requests st; next_rid := next_rid st;
     timers := timers st; dispatched := dispatched st; messagesState := messagesState st;
     pendingMessages := pendingMessages st; streamingDeltas := streamingDeltas st;
     pendingDeltas := pendingDeltas st; pendingIsStreaming := pendingIsStreaming st |}.

Definition set_assistantTurnMap (v : gmap jsstring jsstring) (st : Component) : Component :=
  {| heap := heap st; next_loc := next_loc st; messagesRef := messagesRef st;
     session_messages := session_messages st; assistantTurnMap := v;
     streamingDeltaHistory := streamingDeltaHistory st;
     clearPreviousAssistant := clearPreviousAssistant st;
     testDuplicateConfig := testDuplicateConfig st; messageQueue := messageQueue st;
     isProcessingQueue := isProcessingQueue st; isSending := isSending st;
     isStreaming := isStreaming st; activeQueuedId := activeQueuedId st;
     lastSubmittedMessage := lastSubmittedMessage st; queueExpanded := queueExpanded st;
     isMounted := isMounted st; requests := requests st; next_rid := next_rid st;
     timers := timers st; dispatched := dispatched st; messagesState := messagesState st;
     pendingMessages := pendingMessages st; streamingDeltas := streamingDeltas st;
     pendingDeltas := pendingDeltas st; pendingIsStreaming := pendingIsStreaming st |}.

Definition set_streamingDeltaHistory (v : list jsstring) (st : Component) : Component :=
  {| heap := heap st; next_loc := next_loc st; messagesRef := messagesRef st;
     session_messages := session_messages st; assistantTurnMap := assistantTurnMap st;
     streamingDeltaHistory := v; clearPreviousAssistant := clearPreviousAssistant st;
     testDuplicateConfig := testDuplicateConfig st; messageQueue := messageQueue st;
     isProcessingQueue := isProcessingQueue st; isSending := isSending st;
     isStreaming := isStreaming st; activeQueuedId := activeQueuedId st;
     lastSubmittedMessage := lastSubmittedMessage st; queueExpanded := queueExpanded st;
     isMounted := isMounted st; requests := requests st; next_rid := next_rid st;
     timers := timers st; dispatched := dispatched st; messagesState := messagesState st;
     pendingMessages := pendingMessages st; streamingDeltas := streamingDeltas st;
     pendingDeltas := pendingDeltas st; pendingIsStreaming := pendingIsStreaming st |}.

Definition set_clearPreviousAssistant (v : bool) (st : Component) : Component :=
  {| heap := heap st; next_loc := next_loc st; messagesRef := messagesRef st;
     session_messages := session_messages st; assistantTurnMap := assistantTurnMap st;
     streamingDeltaHistory := streamingDeltaHistory st; clearPreviousAssistant := v;
     testDuplicateConfig := testDuplicateConfig st; messageQueue := messageQueue st;
     isProcessingQueue := isProcessingQueue st; isSending := isSending st;
     isStreaming := isStreaming st; activeQueuedId := activeQueuedId st;
     lastSubmittedMessage := lastSubmittedMessage st; queueExpanded := queueExpanded st;
     isMounted := isMounted st; requests := requests st; next_rid := next_rid st;
     timers := timers st; dispatched := dispatched st; messagesState := messagesState st;
     pendingMessages := pendingMessages st; streamingDeltas := streamingDeltas st;
     pendingDeltas := pendingDeltas st; pendingIsStreaming := pendingIsStreaming st |}.

Definition set_testDuplicateConfig (v : TestConfig) (st : Component) : Component :=
  {| heap := heap st; next_loc := next_loc st; messagesRef := messagesRef st;
     session_messages := session_messages st; assistantTurnMap := assistantTurnMap st;
     streamingDeltaHistory := streamingDeltaHistory st;
     clearPreviousAssistant := clearPreviousAssistant st; testDuplicateConfig := v;
     messageQueue := messageQueue st; isProcessingQueue := isProcessingQueue st;
     isSending := isSending st; isStreaming := isStreaming st;
     activeQueuedId := activeQueuedId st; lastSubmittedMessage := lastSubmittedMessage st;
     queueExpanded := queueExpanded st; isMounted := isMounted st; requests := requests st;
     next_rid := next_rid st; timers := timers st; dispatched := dispatched st;
     messagesState := messagesState st; pendingMessages := pendingMessages st;
     streamingDeltas := streamingDeltas st; pendingDeltas := pendingDeltas st;
     pendingIsStreaming := pendingIsStreaming st |}.

Definition set_messageQueue (v : list QueuedMessage) (st : Component) : Component :=
  {| heap := heap st; next_loc := next_loc st; messagesRef := messagesRef st;
     session_messages := session_messages st; assistantTurnMap := assistantTurnMap st;
     streamingDeltaHistory := streamingDeltaHistory st;
     clearPreviousAssistant := clearPreviousAssistant st;
     testDuplicateConfig := testDuplicateConfig st; messageQueue := v;
     isProcessingQueue := isProcessingQueue st; isSending := isSending st;
     isStreaming := isStreaming st; activeQueuedId := activeQueuedId st;
     lastSubmittedMessage := lastSubmittedMessage st; queueExpanded := queueExpanded st;
     isMounted := isMounted st; requests := requests st; next_rid := next_rid st;
     timers := timers st; dispatched := dispatched st; messagesState := messagesState st;
     pendingMessages := pendingMessages st; streamingDeltas := streamingDeltas st;
     pendingDeltas := pendingDeltas st; pendingIsStreaming := pendingIsStreaming st |}.

Definition set_isProcessingQueue (v : bool) (st : Component) : Component :=
  {| heap := heap st; next_loc := next_loc st; messagesRef := messagesRef st;
     session_messages := session_messages st; assistantTurnMap := assistantTurnMap st;
     streamingDeltaHistory := streamingDeltaHistory st;
     clearPreviousAssistant := clearPreviousAssistant st;
     testDuplicateConfig := testDuplicateConfig st; messageQueue := messageQueue st;
     isProcessingQueue := v; isSending := isSending st; isStreaming := isStreaming st;
     activeQueuedId := activeQueuedId st; lastSubmittedMessage := lastSubmittedMessage st;
     queueExpanded := queueExpanded st; isMounted := isMounted st; requests := requests st;
     next_rid := next_rid st; timers := timers st; dispatched := dispatched st;
     messagesState := messagesState st; pendingMessages := pendingMessages st;
     streamingDeltas := streamingDeltas st; pendingDeltas := pendingDeltas st;
     pendingIsStreaming := pendingIsStreaming st |}.

Definition set_isSending (v : bool) (st : Component) : Component :=
  {| heap := heap st; next_loc := next_loc st; messagesRef := messagesRef st;
     session_messages := session_messages st; assistantTurnMap := assistantTurnMap st;
     streamingDeltaHistory := streamingDeltaHistory st;
     clearPreviousAssistant := clearPreviousAssistant st;
     testDuplicateConfig := testDuplicateConfig st; messageQueue := messageQueue st;
     isProcessingQueue := isProcessingQueue st; isSending := v;
     isStreaming := isStreaming st; activeQueuedId := activeQueuedId st;
     lastSubmittedMessage := lastSubmittedMessage st; queueExpanded := queueExpanded st;
     isMounted := isMounted st; requests := requests st; next_rid := next_rid st;
     timers := timers st; dispatched := dispatched st; messagesState := messagesState st;
     pendingMessages := pendingMessages st; streamingDeltas := streamingDeltas st;
     pendingDeltas := pendingDeltas st; pendingIsStreaming := pendingIsStreaming st |}.

Definition set_isStreaming (v : bool) (st : Component) : Component :=
  {| heap := heap st; next_loc := next_loc st; messagesRef := messagesRef st;
     session_messages := session_messages st; assistantTurnMap := assistantTurnMap st;
     streamingDeltaHistory := streamingDeltaHistory st;
     clearPreviousAssistant := clearPreviousAssistant st;
     testDuplicateConfig := testDuplicateConfig st; messageQueue := messageQueue st;
     isProcessingQueue := isProcessingQueue st; isSending := isSending st;
     isStreaming := v; activeQueuedId := activeQueuedId st;
     lastSubmittedMessage := lastSubmittedMessage st; queueExpanded := queueExpanded st;
     isMounted := isMounted st; requests := requests st; next_rid := next_rid st;
     timers := timers st; dispatched := dispatched st; messagesState := messagesState st;
     pendingMessages := pendingMessages st; streamingDeltas := streamingDeltas st;
     pendingDeltas := pendingDeltas st; pendingIsStreaming := pendingIsStreaming st |}.

Definition set_activeQueuedId (v : option jsstring) (st : Component) : Component :=
  {| heap := heap st; next_loc := next_loc st; messagesRef := messagesRef st;
     session_messages := session_messages st; assistantTurnMap := assistantTurnMap st;
     streamingDeltaHistory := streamingDeltaHistory st;
     clearPreviousAssistant := clearPreviousAssistant st;
     testDuplicateConfig := testDuplicateConfig st; messageQueue := messageQueue st;
     isProcessingQueue := isProcessingQueue st; isSending := isSending st;
     isStreaming := isStreaming st; activeQueuedId := v;
     lastSubmittedMessage := lastSubmittedMessage st; queueExpanded := queueExpanded st;
     isMounted := isMounted st; requests := requests st; next_rid := next_rid st;
     timers := timers st; dispatched := dispatched st; messagesState := messagesState st;
     pendingMessages := pendingMessages st; streamingDeltas := streamingDeltas st;
     pendingDeltas := pendingDeltas st; pendingIsStreaming := pendingIsStreaming st |}.

Definition set_lastSubmittedMessage (v : option Submission) (st : Component) : Component :=
  {| heap := heap st; next_loc := next_loc st; messagesRef := messagesRef st;
     session_messages := session_messages st; assistantTurnMap := assistantTurnMap st;
     streamingDeltaHistory := streamingDeltaHistory st;
     clearPreviousAssistant := clearPreviousAssistant st;
     testDuplicateConfig := testDuplicateConfig st; messageQueue := messageQueue st;
     isProcessingQueue := isProcessingQueue st; isSending := isSending st;
     isStreaming := isStreaming st; activeQueuedId := activeQueuedId st;
     lastSubmittedMessage := v; queueExpanded := queueExpanded st;
     isMounted := isMounted st; requests := requests st; next_rid := next_rid st;
     timers := timers st; dispatched := dispatched st; messagesState := messagesState st;
     pendingMessages := pendingMessages st; streamingDeltas := streamingDeltas st;
     pendingDeltas := pendingDeltas st; pendingIsStreaming := pendingIsStreaming st |}.

Definition set_queueExpanded (v : bool) (st : Component) : Component :=
  {| heap := heap st; next_loc := next_loc st; messagesRef := messagesRef st;
     session_messages := session_messages st; assistantTurnMap := assistantTurnMap st;
     streamingDeltaHistory := streamingDeltaHistory st;
     clearPreviousAssistant := clearPreviousAssistant st;
     testDuplicateConfig := testDuplicateConfig st; messageQueue := messageQueue st;
     isProcessingQueue := isProcessingQueue st; isSending := isSending st;
     isStreaming := isStreaming st; activeQueuedId := activeQueuedId st;
     lastSubmittedMessage := lastSubmittedMessage st; queueExpanded := v;
     isMounted := isMounted st; requests := requests st; next_rid := next_rid st;
     timers := timers st; dispatched := dispatched st; messagesState := messagesState st;
     pendingMessages := pendingMessages st; streamingDeltas := streamingDeltas st;
     pendingDeltas := pendingDeltas st; pendingIsStreaming := pendingIsStreaming st |}.

Definition set_isMounted (v : bool) (st : Component) : Component :=
  {| heap := heap st; next_loc := next_loc st; messagesRef := messagesRef st;
     session_messages := session_messages st; assistantTurnMap := assistantTurnMap st;
     streamingDeltaHistory := streamingDeltaHistory st;
     clearPreviousAssistant := clearPreviousAssistant st;
     testDuplicateConfig := testDuplicateConfig st; messageQueue := messageQueue st;
     isProcessingQueue := isProcessingQueue st; isSending := isSending st;
     isStreaming := isStreaming st; activeQueuedId := activeQueuedId st;
     lastSubmittedMessage := lastSubmittedMessage st; queueExpanded := queueExpanded st;
     isMounted := v; requests := requests st; next_rid := next_rid st; timers := timers st;
     dispatched := dispatched st; messagesState := messagesState st;
     pendingMessages := pendingMessages st; streamingDeltas := streamingDeltas st;
     pendingDeltas := pendingDeltas st; pendingIsStreaming := pendingIsStreaming st |}.

Definition set_requests (v : list Request) (st : Component) : Component :=
  {| heap := heap st; next_loc := next_loc st; messagesRef := messagesRef st;
     session_messages := session_messages st; assistantTurnMap := assistantTurnMap st;
     streamingDeltaHistory := streamingDeltaHistory st;
     clearPreviousAssistant := clearPreviousAssistant st;
     testDuplicateConfig := testDuplicateConfig st; messageQueue := messageQueue st;
     isProcessingQueue := isProcessingQueue st; isSending := isSending st;
     isStreaming := isStreaming st; activeQueuedId := activeQueuedId st;
     lastSubmittedMessage := lastSubmittedMessage st; queueExpanded := queueExpanded st;
     isMounted := isMounted st; requests := v; next_rid := next_rid st;
     timers := timers st; dispatched := dispatched st; messagesState := messagesState st;
     pendingMessages := pendingMessages st; streamingDeltas := streamingDeltas st;
     pendingDeltas := pendingDeltas st; pendingIsStreaming := pendingIsStreaming st |}.

Definition set_next_rid (v : nat) (st : Component) : Component :=
  {| heap := heap st; next_loc := next_loc st; messagesRef := messagesRef st;
     session_messages := session_messages st; assistantTurnMap := assistantTurnMap st;
     streamingDeltaHistory := streamingDeltaHistory st;
     clearPreviousAssistant := clearPreviousAssistant st;
     testDuplicateConfig := testDuplicateConfig st; messageQueue := messageQueue st;
     isProcessingQueue := isProcessingQueue st; isSending := isSending st;
     isStreaming := isStreaming st; activeQueuedId := activeQueuedId st;
     lastSubmittedMessage := lastSubmittedMessage st; queueExpanded := queueExpanded st;
     isMounted := isMounted st; requests := requests st; next_rid := v;
     timers := timers st; dispatched := dispatched st; messagesState := messagesState st;
     pendingMessages := pendingMessages st; streamingDeltas := streamingDeltas st;
     pendingDeltas := pendingDeltas st; pendingIsStreaming := pendingIsStreaming st |}.

Definition set_timers (v : nat) (st : Component) : Component :=
  {| heap := heap st; next_loc := next_loc st; messagesRef := messagesRef st;
     session_messages := session_messages st; assistantTurnMap := assistantTurnMap st;
     streamingDeltaHistory := streamingDeltaHistory st;
     clearPreviousAssistant := clearPreviousAssistant st;
     testDuplicateConfig := testDuplicateConfig st; messageQueue := messageQueue st;
     isProcessingQueue := isProcessingQueue st; isSending := isSending st;
     isStreaming := isStreaming st; activeQueuedId := activeQueuedId st;
     lastSubmittedMessage := lastSubmittedMessage st; queueExpanded := queueExpanded st;
     isMounted := isMounted st; requests := requests st; next_rid := next_rid st;
     timers := v; dispatched := dispatched st; messagesState := messagesState st;
     pendingMessages := pendingMessages st; streamingDeltas := streamingDeltas st;
     pendingDeltas := pendingDeltas st; pendingIsStreaming := pendingIsStreaming st |}.

Definition set_dispatched (v : list jsstring) (st : Component) : Component :=
  {| heap := heap st; next_loc := next_loc st; messagesRef := messagesRef st;
     session_messages := session_messages st; assistantTurnMap := assistantTurnMap st;
     streamingDeltaHistory := streamingDeltaHistory st;
     clearPreviousAssistant := clearPreviousAssistant st;
     testDuplicateConfig := testDuplicateConfig st; messageQueue := messageQueue st;
     isProcessingQueue := isProcessingQueue st; isSending := isSending st;
     isStreaming := isStreaming st; activeQueuedId := activeQueuedId st;
     lastSubmittedMessage := lastSubmittedMessage st; queueExpanded := queueExpanded st;
     isMounted := isMounted st; requests := requests st; next_rid := next_rid st;
     timers := timers st; dispatched := v; messagesState := messagesState st;
     pendingMessages := pendingMessages st; streamingDeltas := streamingDeltas st;
     pendingDeltas := pendingDeltas st; pendingIsStreaming := pendingIsStreaming st |}.

Definition set_messagesState (v : nat) (st : Component) : Component :=
  {| heap := heap st; next_loc := next_loc st; messagesRef := messagesRef st;
     session_messages := session_messages st; assistantTurnMap := assistantTurnMap st;
     streamingDeltaHistory := streamingDeltaHistory st;
     clearPreviousAssistant := clearPreviousAssistant st;
     testDuplicateConfig := testDuplicateConfig st; messageQueue := messageQueue st;
     isProcessingQueue := isProcessingQueue st; isSending := isSending st;
     isStreaming := isStreaming st; activeQueuedId := activeQueuedId st;
     lastSubmittedMessage := lastSubmittedMessage st; queueExpanded := queueExpanded st;
     isMounted := isMounted st; requests := requests st; next_rid := next_rid st;
     timers := timers st; dispatched := dispatched st; messagesState := v;
     pendingMessages := pendingMessages st; streamingDeltas := streamingDeltas st;
     pendingDeltas := pendingDeltas st; pendingIsStreaming := pendingIsStreaming st |}.

Definition set_pendingMessages (v : list MessagesUpdate) (st : Component) : Component :=
  {| heap := heap st; next_loc := next_loc st; messagesRef := messagesRef st;
     session_messages := session_messages st; assistantTurnMap := assistantTurnMap st;
     streamingDeltaHistory := streamingDeltaHistory st;
     clearPreviousAssistant := clearPreviousAssistant st;
     testDuplicateConfig := testDuplicateConfig st; messageQueue := messageQueue st;
     isProcessingQueue := isProcessingQueue st; isSending := isSending st;
     isStreaming := isStreaming st; activeQueuedId := activeQueuedId st;
     lastSubmittedMessage := lastSubmittedMessage st; queueExpanded := queueExpanded st;
     isMounted := isMounted st; requests := requests st; next_rid := next_rid st;
     timers := timers st; dispatched := dispatched st; messagesState := messagesState st;
     pendingMessages := v; streamingDeltas := streamingDeltas st;
     pendingDeltas := pendingDeltas st; pendingIsStreaming := pendingIsStreaming st |}.

Definition set_streamingDeltas (v : list jsstring) (st : Component) : Component :=
  {| heap := heap st; next_loc := next_loc st; messagesRef := messagesRef st;
     session_messages := session_messages st; assistantTurnMap := assistantTurnMap st;
     streamingDeltaHistory := streamingDeltaHistory st;
     clearPreviousAssistant := clearPreviousAssistant st;
     testDuplicateConfig := testDuplicateConfig st; messageQueue := messageQueue st;
     isProcessingQueue := isProcessingQueue st; isSending := isSending st;
     isStreaming := isStreaming st; activeQueuedId := activeQueuedId st;
     lastSubmittedMessage := lastSubmittedMessage st; queueExpanded := queueExpanded st;
     isMounted := isMounted st; requests := requests st; next_rid := next_rid st;
     timers := timers st; dispatched := dispatched st; messagesState := messagesState st;
     pendingMessages := pendingMessages st; streamingDeltas := v;
     pendingDeltas := pendingDeltas st; pendingIsStreaming := pendingIsStreaming st |}.

Definition set_pendingDeltas (v : list DeltasUpdate) (st : Component) : Component :=
  {| heap := heap st; next_loc := next_loc st; messagesRef := messagesRef st;
     session_messages := session_messages st; assistantTurnMap := assistantTurnMap st;
     streamingDeltaHistory := streamingDeltaHistory st;
     clearPreviousAssistant := clearPreviousAssistant st;
     testDuplicateConfig := testDuplicateConfig st; messageQueue := messageQueue st;
     isProcessingQueue := isProcessingQueue st; isSending := isSending st;
     isStreaming := isStreaming st; activeQueuedId := activeQueuedId st;
     lastSubmittedMessage := lastSubmittedMessage st; queueExpanded := queueExpanded st;
     isMounted := isMounted st; requests := requests st; next_rid := next_rid st;
     timers := timers st; dispatched := dispatched st; messagesState := messagesState st;
     pendingMessages := pendingMessages st; streamingDeltas := streamingDeltas st;
     pendingDeltas := v; pendingIsStreaming := pendingIsStreaming st |}.

Definition set_pendingIsStreaming (v : option bool) (st : Component) : Component :=
  {| heap := heap st; next_loc := next_loc st; messagesRef := messagesRef st;
     session_messages := session_messages st; assistantTurnMap := assistantTurnMap st;
     streamingDeltaHistory := streamingDeltaHistory st;
     clearPreviousAssistant := clearPreviousAssistant st;
     testDuplicateConfig := testDuplicateConfig st; messageQueue := messageQueue st;
     isProcessingQueue := isProcessingQueue st; isSending := isSending st;
     isStreaming := isStreaming st; activeQueuedId := activeQueuedId st;
     lastSubmittedMessage := lastSubmittedMessage st; queueExpanded := queueExpanded st;
     isMounted := isMounted st; requests := requests st; next_rid := next_rid st;
     timers := timers st; dispatched := dispatched st; messagesState := messagesState st;
     pendingMessages := pendingMessages st; streamingDeltas := streamingDeltas st;
     pendingDeltas := pendingDeltas st; pendingIsStreaming := v |}.

(** Contents of an array object. *)
Definition read (st : Component) (l : nat) : list ChatMessage :=
  default [] (heap st !! l).

(** The message list the code works on: the array of [messagesRef.current]. *)
Definition messages (st : Component) : list ChatMessage := read st (messagesRef st).

(** The message list on display: the [messages] state of the last render. *)
Definition rendered (st : Component) : list ChatMessage := read st (messagesState st).

(** In-place mutation of an array object. *)
Definition write (l : nat) (contents : list ChatMessage) (st : Component) : Component :=
  set_heap (<[l := contents]> (heap st)) st.

(** A freshly created array. *)
Definition alloc (contents : list ChatMessage) (st : Component) : nat * Component :=
  (next_loc st, set_next_loc (S (next_loc st)) (write (next_loc st) contents st)).

(** [setMessages(a); messagesRef.current = a] for a new array [a]: the
    ref holds the array at once, the state at the next render. *)
Definition setMessages (contents : list ChatMessage) (st : Component) : nat * Component :=
  let '(l, st) := alloc contents st in
  (l, set_pendingMessages (pendingMessages st ++ [SetMessagesTo l]) (set_messagesRef l st)).

(** [resetStreamingSnapshot]: [streamingDeltaHistoryRef.current = [];
    setStreamingDeltas([])]. *)
Definition resetStreamingSnapshot (st : Component) : Component :=
  set_pendingDeltas (pendingDeltas st ++ [SetDeltasTo []]) (set_streamingDeltaHistory [] st).

(** [sendMessageToAPI] up to its first [await]. *)
Definition start_request (text : jsstring) (attached : list PendingImage)
    (messageId : jsstring) (o : Origin) (st : Component) : Component :=
  let r := {| rid := next_rid st; r_turnId := messageId;
              r_content := content_for_storage text attached;
              r_images := attached; r_origin := o; r_stage := Starting |} in
  set_dispatched (dispatched st ++ [messageId])
    (set_next_rid (S (next_rid st))
       (set_requests (requests st ++ [r]) (set_isSending true st))).

Definition processQueue (st : Component) : Component :=
  if negb (isMounted st) then st
  else
    match messageQueue st with
    | [] => st
    | nextMessage :: rest =>
        if isProcessingQueue st then st
        else
          let st := set_messageQueue rest st in
          let st := set_isProcessingQueue true st in
          let st := set_activeQueuedId (Some (q_id nextMessage)) st in
          start_request (q_content nextMessage) (default [] (q_images nextMessage))
            (q_messageId nextMessage) FromQueue st
    end.

(** [handleSendMessage] *)
Definition handleSendMessage (inputValue : jsstring) (pendingImages : list PendingImage)
    (now : Z) (rnd_message rnd_queued : jsstring) (st : Component) : Component :=
  if negb (truthy (trim inputValue)) && (length pendingImages =? 0) then st
  else
    let text := content_for_storage inputValue pendingImages in
    let signature : Signature := (text, map dataURL pendingImages) in
    let suppressed :=
      match lastSubmittedMessage st with
      | Some lastSubmission =>
          bool_decide (sub_signature lastSubmission = signature)
          && (now - sub_timestamp lastSubmission <? 1500)%Z
      | None => false
      end in
    if suppressed then st
    else
      let messageId := msg_id now rnd_message in
      let queuedMessage :=
        {| q_id := queued_id now rnd_queued; q_content := text;
           q_images := if 0 <? length pendingImages then Some pendingImages else None;
           q_createdAt := now; q_messageId := messageId |} in
      let st := set_lastSubmittedMessage
                  (Some {| sub_signature := signature; sub_timestamp := now;
                           sub_messageId := messageId |}) st in
      if isStreaming st || isProcessingQueue st || isSending st then
        let next :=
          if existsb (fun item => bool_decide (q_messageId item = messageId)) (messageQueue st)
          then messageQueue st
          else messageQueue st ++ [queuedMessage] in
        set_queueExpanded true (set_messageQueue next st)
      else
        start_request text (default [] (q_images queuedMessage)) messageId
          (FromInput signature messageId) st.

(** The [finally] block of [sendMessageToAPI]. *)
Definition finally_block (st : Component) : Component :=
  let st := set_isSending false st in
  if negb (isMounted st) then st
  else
    let st := set_pendingIsStreaming (Some false) st in
    if (0 <? length (messageQueue st)) && negb (isProcessingQueue st)
    then processQueue st else st.

(** What the awaiting caller does once [sendMessageToAPI] has returned. *)
Definition continuation (o : Origin) (now_after : Z) (st : Component) : Component :=
  match o with
  | FromInput signature messageId =>
      let st := set_lastSubmittedMessage
                  (Some {| sub_signature := signature; sub_timestamp := now_after;
                           sub_messageId := messageId |}) st in
      if 0 <? length (messageQueue st) then processQueue st else st
  | FromQueue =>
      let st := set_isProcessingQueue false (set_activeQueuedId None st) in
      if 0 <? length (messageQueue st) then set_timers (S (timers st)) st else st
  end.

Definition find_request (r : nat) (st : Component) : option Request :=
  List.find (fun req => rid req =? r) (requests st).

Definition drop_request (r : nat) (st : Component) : Component :=
  set_requests (List.filter (fun req => negb (rid req =? r)) (requests st)) st.

Definition set_stage (r : nat) (s : Stage) (st : Component) : Component :=
  set_requests
    (map (fun req => if rid req =? r
                     then {| rid := rid req; r_turnId := r_turnId req;
                             r_content := r_content req; r_images := r_images req;
                             r_origin := r_origin req; r_stage := s |}
                     else req) (requests st)) st.

(** A call of [sendMessageToAPI] returns: [finally], then the caller. *)
Definition settle (req : Request) (now_after : Z) (st : Component) : Component :=
  continuation (r_origin req) now_after (finally_block (drop_request (rid req) st)).

(** [sendMessageToAPI] from the stored user message to the backend call:
    the user entry is appended to [messagesRef.current], the new array
    becomes [messagesRef.current] and [session.messages] at once and
    [messages] at the next render, and the stream is requested. *)
Definition store_user_message (req : Request) (now : Z) (st : Component) : Component :=
  let imagesForStorage :=
    if 0 <? length (r_images req) then Some (r_images req) else None in
  let userMessageEntry :=
    user_message (r_turnId req) (r_content req) now imagesForStorage in
  let newMessages := dedupeMessagesById (messages st ++ [userMessageEntry]) in
  let '(l, st) := setMessages newMessages st in
  let st := set_session_messages (Some l) st in
  let st := set_pendingIsStreaming (Some true) st in
  let st := resetStreamingSnapshot st in
  set_stage (rid req) (Streaming l []) st.

(** The splice loop over [session.messages]. *)
Definition splice_session_assistant (st : Component) : Component :=
  if clearPreviousAssistant st then
    match session_messages st with
    | Some s =>
        if 0 <? length (read st s) then write s (remove_last_assistant (read st s)) st
        else st
    | None => st
    end
  else st.

(** The forced duplicate of the test harness, when it is switched on. *)
Definition force_duplicate (turn : jsstring) (stored : jsstring * option jsstring)
    (t : Stamps) (baseMessages : list ChatMessage) (st : Component)
    : list ChatMessage * Component :=
  let cfg := testDuplicateConfig st in
  if shouldForceDuplicate cfg then
    let forcedAssistantMessage :=
      assistant_message (forced_duplicate_id (forced_id_now t) (forced_rnd t))
        (fst stored) (snd stored) (forced_now t) turn in
    let st := set_assistantTurnMap
                (<[turn := id forcedAssistantMessage]> (assistantTurnMap st)) st in
    let st := if config_persist cfg then st else set_testDuplicateConfig ConfigAbsent st in
    (baseMessages ++ [forcedAssistantMessage], st)
  else (baseMessages, st).

(** [session.messages[sessionIndex] = m] for the index of the wanted id. *)
Definition write_session_message (w : option (jsstring * ChatMessage)) (st : Component)
    : Component :=
  match w, session_messages st with
  | Some (wanted, m), Some s =>
      match findIndex_id wanted (read st s) with
      | Some sessionIndex => write s (<[sessionIndex := m]> (read st s)) st
      | None => st
      end
  | _, _ => st
  end.

(** [assistantTurnMapRef.current.set(turnId, id)] of the branch taken. *)
Definition set_turn_entry (turn : jsstring) (entry : option jsstring) (st : Component)
    : Component :=
  match entry with
  | Some i => set_assistantTurnMap (<[turn := i]> (assistantTurnMap st)) st
  | None => st
  end.

(** [assistantContent] after the test harness had its chance to replace an
    empty response by its mock content. *)
Definition effective_content (cfg : TestConfig) (assistantContent : jsstring) : jsstring :=
  if negb (truthy (trim assistantContent)) then
    default assistantContent (config_mock_content cfg)
  else assistantContent.

(** The [try] body of [sendMessageToAPI] after the stream has ended. *)
Definition complete_stream (req : Request) (newMessages : nat)
    (assistantContent : jsstring) (t : Stamps) (st : Component) : Component :=
  if negb (isMounted st) then st
  else
    let st := splice_session_assistant st in
    let assistantContent := effective_content (testDuplicateConfig st) assistantContent in
    let baseMessages :=
      if clearPreviousAssistant st then remove_last_assistant (read st newMessages)
      else read st newMessages in
    match answer_for_storage assistantContent (streamingDeltaHistory st) with
    | None => resetStreamingSnapshot st
    | Some stored =>
        let '(baseMessages, st) := force_duplicate (r_turnId req) stored t baseMessages st in
        let c := correlate_turn baseMessages (assistantTurnMap st) (r_turnId req)
                   assistantContent (fst stored) (snd stored) t in
        let st := set_turn_entry (r_turnId req) (turnEntry c) st in
        let st := write_session_message (sessionWrite c) st in
        let '(l, st) := setMessages (finalMessages c) st in
        let st := set_session_messages (Some l) st in
        resetStreamingSnapshot st
    end.

(** The [catch] block of [sendMessageToAPI]: the error message is handed
    to [setMessages] inside an updater, which runs at the next render. *)
Definition fail_request (id_now : Z) (rnd : jsstring) (stamp : Z) (st : Component)
    : Component :=
  if negb (isMounted st) then st
  else
    let st := resetStreamingSnapshot st in
    let errorMessage := error_message id_now rnd stamp in
    set_pendingMessages (pendingMessages st ++ [AppendError errorMessage]) st.

(** One queued [setMessages] call applied to the state [current]. *)
Definition apply_messages_update (acc : nat * Component) (u : MessagesUpdate)
    : nat * Component :=
  let '(current, st) := acc in
  match u with
  | SetMessagesTo a => (a, st)
  | AppendError errorMessage =>
      let '(next, st) := alloc (dedupeMessagesById (read st current ++ [errorMessage])) st in
      (next, set_messagesRef next st)
  end.

(** One queued [setStreamingDeltas] call applied to the state [current]. *)
Definition apply_deltas_update (acc : list jsstring * Component) (u : DeltasUpdate)
    : list jsstring * Component :=
  let '(current, st) := acc in
  match u with
  | SetDeltasTo value => (value, st)
  | AppendDelta chunk =>
      let next := current ++ [chunk] in
      (next, set_streamingDeltaHistory next st)
  end.

(** React renders the mounted window: the queued calls of each setter are
    applied in the order they were made, and when [messages] holds another
    array than before, its two effects run: [messagesRef.current =
    messages], and the turn map is rebuilt. *)
Definition render (st : Component) : Component :=
  if negb (isMounted st) then st
  else
    let '(nextMessages, st) :=
      foldl apply_messages_update (messagesState st, st) (pendingMessages st) in
    let st := set_pendingMessages [] st in
    let st := set_isStreaming (default (isStreaming st) (pendingIsStreaming st))
                (set_pendingIsStreaming None st) in
    let '(nextDeltas, st) :=
      foldl apply_deltas_update (streamingDeltas st, st) (pendingDeltas st) in
    let st := set_streamingDeltas nextDeltas (set_pendingDeltas [] st) in
    if nextMessages =? messagesState st then st
    else
      set_assistantTurnMap (turn_map_of (read st nextMessages))
        (set_messagesRef nextMessages (set_messagesState nextMessages st)).

Inductive Event : Type :=
| Submit (inputValue : jsstring) (pendingImages : list PendingImage)
    (now : Z) (rnd_message rnd_queued : jsstring)
| UserStored (r : nat) (now : Z)
| Chunk (r : nat) (chunk : jsstring) (now_after : Z)
| StreamEnd (r : nat) (t : Stamps) (now_after : Z)
| BackendError (r : nat) (id_now : Z) (rnd : jsstring) (stamp : Z) (now_after : Z)
| TimerFires
| RemoveQueued (queuedId : jsstring)
| ClearQueue
| SetClearPrevious (b : bool)
| Unmount
| Render.

Definition step (e : Event) (st : Component) : Component :=
  match e with
  | Submit inputValue pendingImages now rnd_message rnd_queued =>
      handleSendMessage inputValue pendingImages now rnd_message rnd_queued st
  | UserStored r now =>
      match find_request r st with
      | Some req =>
          match r_stage req with
          | Starting => store_user_message req now st
          | Streaming _ _ => st
          end
      | None => st
      end
  | Chunk r chunk now_after =>
      match find_request r st with
      | Some req =>
          match r_stage req with
          | Streaming l acc =>
              if negb (isMounted st) then settle req now_after st
              else
                set_pendingDeltas (pendingDeltas st ++ [AppendDelta chunk])
                  (set_stage r (Streaming l (acc ++ chunk)) st)
          | Starting => st
          end
      | None => st
      end
  | StreamEnd r t now_after =>
      match find_request r st with
      | Some req =>
          match r_stage req with
          | Streaming l acc => settle req now_after (complete_stream req l acc t st)
          | Starting => st
          end
      | None => st
      end
  | BackendError r id_now rnd stamp now_after =>
      match find_request r st with
      | Some req => settle req now_after (fail_request id_now rnd stamp st)
      | None => st
      end
  | TimerFires =>
      match timers st with
      | S n => processQueue (set_timers n st)
      | O => st
      end
  | RemoveQueued queuedId =>
      set_messageQueue
        (List.filter (fun message => negb (bool_decide (q_id message = queuedId)))
           (messageQueue st)) st
  | ClearQueue => set_activeQueuedId None (set_messageQueue [] st)
  | SetClearPrevious b => set_clearPreviousAssistant b st
  | Unmount => set_isMounted false st
  | Render => render st
  end.

Definition run (events : list Event) (st : Component) : Component :=
  foldl (fun s e => step e s) st events.

(** A window that has just been mounted on a session with the given
    messages: the [messages] state, [messagesRef.current] and
    [session.messages] all hold the session's array. *)
Definition mounted (existing : list ChatMessage) (clearPrevious : bool) : Component :=
  {| heap := {[ 0 := existing ]}; next_loc := 1; messagesRef := 0;
     session_messages := Some 0; assistantTurnMap := turn_map_of existing;
     streamingDeltaHistory := []; clearPreviousAssistant := clearPrevious;
     testDuplicateConfig := ConfigAbsent; messageQueue := [];
     isProcessingQueue := false; isSending := false; isStreaming := false;
     activeQueuedId := None; lastSubmittedMessage := None; queueExpanded := false;
     isMounted := true; requests := []; next_rid := 0; timers := 0;
     dispatched := []; messagesState := 0; pendingMessages := [];
     streamingDeltas := []; pendingDeltas := []; pendingIsStreaming := None |}.

(** The requests whose backend call has been issued and has not ended. *)
Definition in_flight (st : Component) : list Request :=
  List.filter (fun req => match r_stage req with Streaming _ _ => true | Starting => false end)
    (requests st).

(** *** Scenarios *)

Definition asked (turn text : string) (at_ : Z) : ChatMessage :=
  user_message (lit turn) (lit text) at_ None.

Definition answered (ident turn text : string) (at_ : Z) : ChatMessage :=
  assistant_message (lit ident) (lit text) None at_ (lit turn).

Definition some_stamps (now : Z) (rnd : string) : Stamps :=
  {| forced_id_now := now; forced_rnd := lit rnd; forced_now := now;
     assistant_now := now; message_id_now := now; message_rnd := lit rnd |}.

Definition typed (text rnd : string) (now : Z) : Event :=
  Submit (lit text) [] now (lit rnd) (lit rnd).

(** A session with two earlier turns, the preference to replace the last
    assistant reply switched on, and a third turn asked and answered. *)
Definition two_turns : list ChatMessage :=
  [asked "t1" "first question" 1; answered "a1" "t1" "first reply" 2;
   asked "t2" "second question" 3; answered "a2" "t2" "second reply" 4].

Definition third_turn : list Event :=
  [typed "third question" "aa" 5; UserStored 0 6; Chunk 0 (lit "third reply") 7;
   StreamEnd 0 (some_stamps 8 "zz") 9].

(** B and C are typed while A is answered; B is sent from the queue and
    answered at time 20, which arms the 100 ms timer for C; D is typed at
    time 50, before the timer fires at time 120. *)
Definition late_submission : list Event :=
  [typed "A" "a" 0; UserStored 0 1;
   typed "B" "b" 3; typed "C" "c" 4;
   StreamEnd 0 (some_stamps 10 "x") 10;
   UserStored 1 11; StreamEnd 1 (some_stamps 20 "y") 20;
   typed "D" "d" 50; UserStored 2 51;
   TimerFires; UserStored 3 121].

(** B is typed while A is being answered. *)
Definition queued_behind : list Event :=
  [typed "A" "a" 0; UserStored 0 1; Chunk 0 (lit "reply") 2; typed "B" "b" 3].

Definition answering_A : Component := run queued_behind (mounted [] false).

(** The call of [sendMessageToAPI] for A in that state. *)
Definition request_A : Request :=
  {| rid := 0; r_turnId := msg_id 0 (lit "a"); r_content := lit "A"; r_images := [];
     r_origin := FromInput (lit "A", []) (msg_id 0 (lit "a"));
     r_stage := Streaming 1 (lit "reply") |}.



(** A fails in the middle of its stream while B waits in the queue.  The
    [finally] block sends B at once, and the user message of B is stored
    before React has rendered the error message that the [catch] block
    handed to [setMessages]. *)
Definition failed_turn : list Event :=
  [typed "A" "a" 0; UserStored 0 1; Render; Chunk 0 (lit "partial") 2;
   typed "B" "b" 3;
   BackendError 0 30 (lit "e") 30 31;
   UserStored 1 32; Render;
   Chunk 1 (lit "answer") 33; StreamEnd 1 (some_stamps 40 "y") 41; Render].

(** The same events with a render before the user message of B is stored. *)
Definition failed_turn_rendered : list Event :=
  [typed "A" "a" 0; UserStored 0 1; Render; Chunk 0 (lit "partial") 2;
   typed "B" "b" 3;
   BackendError 0 30 (lit "e") 30 31; Render;
   UserStored 1 32; Render;
   Chunk 1 (lit "answer") 33; StreamEnd 1 (some_stamps 40 "y") 41; Render].

(** B was sent from the queue and is being answered while C waits. *)
Definition answering_B : Component :=
  run [typed "A" "a" 0; UserStored 0 1; typed "B" "b" 3; typed "C" "c" 4;
       StreamEnd 0 (some_stamps 10 "x") 10; UserStored 1 11]
    (mounted [] false).

Definition request_B : Request :=
  {| rid := 1; r_turnId := msg_id 3 (lit "b"); r_content := lit "B"; r_images := [];
     r_origin := FromQueue; r_stage := Streaming 2 [] |}.

Definition waiting_B : QueuedMessage :=
  {| q_id := queued_id 3 (lit "b"); q_content := lit "B"; q_images := None;
     q_createdAt := 3; q_messageId := msg_id 3 (lit "b") |}.

Definition waiting_C : QueuedMessage :=
  {| q_id := queued_id 4 (lit "c"); q_content := lit "C"; q_images := None;
     q_createdAt := 4; q_messageId := msg_id 4 (lit "c") |}.

End Window.

(* ===================================================================== *)
(** ** Descriptor resolver *)
(* ===================================================================== *)

Module Resolver.

(** A rectangle in pixels: [boundingRect] of a descriptor and the value of
    [getBoundingClientRect()]. *)
Record Rect : Type := mkRect {
  top : Q;
  left : Q;
  width : Q;
  height : Q;
}.

(** [ElementDescriptor].  The code only tests the optional strings for
    truthiness, so an absent property is the empty string; [object_id] is
    the identity of the descriptor object, which [Array.includes] and the
    keys of a [Map] compare. *)
Record ElementDescriptor : Type := mkDescriptor {
  object_id : nat;
  chatId : jsstring;
  tagName : jsstring;
  d_id : jsstring;
  classes : list jsstring;
  cssSelector : jsstring;
  xpath : jsstring;
  textPreview : jsstring;
  boundingRect : Rect;
}.

(** An element of the page: its identity, its [id], the value of its
    [data-nabokov-chat-id] attribute, whether it is an [HTMLElement], and
    its bounding client rectangle. *)
Record Element : Type := mkElement {
  node : nat;
  el_id : jsstring;
  chat_attr : option jsstring;
  is_html : bool;
  rect : Rect;
}.

(** The host page: its elements in document order, which elements a CSS
    selector selects ([None] for a selector the engine rejects with a
    [SyntaxError]), and the structural lookup [findElementByDescriptor] of
    the element id service. *)
Record Page : Type := mkPage {
  elements : list Element;
  selects : jsstring → option (Element → bool);
  findElementByDescriptor : ElementDescriptor → option Element;
}.

Definition Qltb (x y : Q) : bool := negb (Qle_bool y x).

(** [value instanceof HTMLElement ? value : nothing] *)
Definition html_only (found : option Element) : option Element :=
  match found with
  | Some e => if is_html e then Some e else None
  | None => None
  end.

Definition has_id (wanted : jsstring) (e : Element) : bool :=
  bool_decide (el_id e = wanted).

Definition has_chat_id (wanted : jsstring) (e : Element) : bool :=
  bool_decide (chat_attr e = Some wanted).

(** [document.getElementById] *)
Definition getElementById (page : Page) (wanted : jsstring) : option Element :=
  List.find (has_id wanted) (elements page).

(** [document.querySelector]: [None] when the call throws. *)
Definition querySelector (page : Page) (selector : jsstring) : option (option Element) :=
  match selects page selector with
  | Some selected => Some (List.find selected (elements page))
  | None => None
  end.

(** [document.querySelectorAll('[data-nabokov-chat-id="..."]')] *)
Definition querySelectorAll_chat (page : Page) (wanted : jsstring) : list Element :=
  List.filter (has_chat_id wanted) (elements page).

(** The proximity test of a candidate against the recorded rectangle. *)
Definition near (target : Rect) (candidate : Element) : bool :=
  Qltb (Qabs (top (rect candidate) - top target)) 5
  && Qltb (Qabs (left (rect candidate) - left target)) 5.

(** The test of the candidate loop: an [HTMLElement] within 5 px of the
    recorded rectangle. *)
Definition near_html (descriptor : ElementDescriptor) (c : Element) : bool :=
  is_html c && near (boundingRect descriptor) c.

Definition by_id (page : Page) (descriptor : ElementDescriptor) : option Element :=
  if truthy (d_id descriptor) then html_only (getElementById page (d_id descriptor))
  else None.

(** The selector lookup inside its [try]: a thrown error is caught and the
    lookup yields nothing. *)
Definition by_selector (page : Page) (descriptor : ElementDescriptor) : option Element :=
  if truthy (cssSelector descriptor) then
    match querySelector page (cssSelector descriptor) with
    | Some bySelector => html_only bySelector
    | None => None
    end
  else None.

Definition by_chat_id (page : Page) (descriptor : ElementDescriptor) : option Element :=
  let chatMatches := querySelectorAll_chat page (chatId descriptor) in
  if 0 <? length chatMatches then
    let candidate :=
      if 1 <? length chatMatches
      then List.find (near_html descriptor) chatMatches
      else None in
    match candidate with
    | Some c => Some c
    | None => html_only (head chatMatches)
    end
  else None.

Definition resolveElementForDescriptor (page : Page) (descriptor : ElementDescriptor)
    : option Element :=
  match by_id page descriptor with
  | Some byId => Some byId
  | None =>
      match by_selector page descriptor with
      | Some bySelector => Some bySelector
      | None =>
          match by_chat_id page descriptor with
          | Some found => Some found
          | None => findElementByDescriptor page descriptor
          end
      end
  end.

(** [e] is the first element of a list with property [P]. *)
Definition first_in (l : list Element) (P : Element → bool) (e : Element) : Prop :=
  ∃ before after,
    l = before ++ e :: after ∧ P e = true ∧ ∀ x, x ∈ before → P x = false.

(** [e] is the first element of the page, in document order, with
    property [P]. *)
Definition first_in_document (page : Page) (P : Element → bool) (e : Element) : Prop :=
  first_in (elements page) P e.


(** The element a descriptor was taken from is still in the page as it
    was: an [HTMLElement] with the descriptor's id, selected by its
    selector, carrying its chat id, at its recorded rectangle. *)
Definition still_present (page : Page) (descriptor : ElementDescriptor) (e : Element)
    : Prop :=
  e ∈ elements page ∧ is_html e = true ∧
  el_id e = d_id descriptor ∧
  (truthy (cssSelector descriptor) = true →
   ∃ selected, selects page (cssSelector descriptor) = Some selected ∧ selected e = true) ∧
  chat_attr e = Some (chatId descriptor) ∧
  rect e = boundingRect descriptor.

(** *** A re-rendered list *)

Definition item_rect (y : Q) : Rect := {| top := y; left := 0; width := 200; height := 20 |}.

(** The list item the conversation was attached to, and a copy of it that
    a re-render inserted before it. *)
Definition original_item : Element :=
  {| node := 1; el_id := []; chat_attr := Some (lit "chat-1"); is_html := true;
     rect := item_rect 40 |}.

Definition inserted_item : Element :=
  {| node := 0; el_id := []; chat_attr := None; is_html := true; rect := item_rect 20 |}.

Definition item_selector : jsstring := lit "ul.items > li".

Definition rerendered_page : Page :=
  {| elements := [inserted_item; original_item];
     selects := fun selector =>
       if bool_decide (selector = item_selector) then Some (fun _ => true) else None;
     findElementByDescriptor := fun _ => None |}.

Definition item_descriptor : ElementDescriptor :=
  {| object_id := 0; chatId := lit "chat-1"; tagName := lit "li"; d_id := [];
     classes := []; cssSelector := item_selector; xpath := lit "/html/body/ul/li[1]";
     textPreview := lit "item"; boundingRect := item_rect 40 |}.

(** A page whose only element carries the descriptor's id. *)
Definition panel : Element :=
  {| node := 0; el_id := lit "panel-target"; chat_attr := Some (lit "chat-1");
     is_html := true; rect := {| top := 0; left := 0; width := 200; height := 80 |} |}.

Definition panel_page : Page :=
  {| elements := [panel];
     selects := fun selector =>
       if bool_decide (selector = lit "#panel-target")
       then Some (has_id (lit "panel-target")) else None;
     findElementByDescriptor := fun _ => None |}.

Definition panel_descriptor : ElementDescriptor :=
  {| object_id := 0; chatId := lit "chat-1"; tagName := lit "div";
     d_id := lit "panel-target"; classes := []; cssSelector := lit "#panel-target";
     xpath := lit "//*[@id='panel-target']"; textPreview := lit "Panel text";
     boundingRect := {| top := 0; left := 0; width := 200; height := 80 |} |}.

(** Two elements carry the chat id; the descriptor has no id and a
    selector the engine rejects. *)
Definition upper_copy : Element :=
  {| node := 0; el_id := []; chat_attr := Some (lit "chat-1"); is_html := true;
     rect := item_rect 20 |}.

Definition lower_copy : Element :=
  {| node := 1; el_id := []; chat_attr := Some (lit "chat-1"); is_html := true;
     rect := item_rect 42 |}.

Definition duplicated_page : Page :=
  {| elements := [upper_copy; lower_copy];
     selects := fun _ => None;
     findElementByDescriptor := fun _ => None |}.

Definition broken_selector_descriptor : ElementDescriptor :=
  {| object_id := 0; chatId := lit "chat-1"; tagName := lit "li"; d_id := [];
     classes := []; cssSelector := lit "li:nth-child("; xpath := [];
     textPreview := lit "item"; boundingRect := item_rect 40 |}.

(** The two copies on a page whose engine knows a selector of the upper
    one, and descriptors of the copies. *)
Definition selector_page : Page :=
  {| elements := [upper_copy; lower_copy];
     selects := fun selector =>
       if bool_decide (selector = lit "li.first")
       then Some (fun e => node e =? 0) else None;
     findElementByDescriptor := fun _ => None |}.

Definition upper_descriptor : ElementDescriptor :=
  {| object_id := 1; chatId := lit "chat-1"; tagName := lit "li"; d_id := [];
     classes := [lit "first"]; cssSelector := lit "li.first"; xpath := [];
     textPreview := lit "item"; boundingRect := item_rect 20 |}.

Definition lower_descriptor : ElementDescriptor :=
  {| object_id := 2; chatId := lit "chat-1"; tagName := lit "li"; d_id := [];
     classes := []; cssSelector := []; xpath := []; textPreview := lit "item";
     boundingRect := item_rect 42 |}.

Definition far_descriptor : ElementDescriptor :=
  {| object_id := 3; chatId := lit "chat-1"; tagName := lit "li"; d_id := [];
     classes := []; cssSelector := []; xpath := []; textPreview := lit "item";
     boundingRect := item_rect 400 |}.

(** A page without any element, whose structural lookup answers. *)
Definition structural_page : Page :=
  {| elements := [];
     selects := fun _ => None;
     findElementByDescriptor := fun _ => Some panel |}.

End Resolver.

(* ===================================================================== *)
(** ** Anchor registry *)
(* ===================================================================== *)

Module Anchor.

Import Resolver.

Record Point : Type := mkPoint {
  px : Q;
  py : Q;
}.

(** [Math.round] *)
Definition round (q : Q) : Z := Qfloor (q + (1 # 2)).

(** [buildDescriptorKey] *)
Definition buildDescriptorKey (descriptor : ElementDescriptor) (index : nat) : jsstring :=
  let parts :=
    if truthy (d_id descriptor) then [lit "id:" ++ d_id descriptor]
    else if truthy (cssSelector descriptor) then [lit "css:" ++ cssSelector descriptor]
    else if truthy (xpath descriptor) then [lit "xpath:" ++ xpath descriptor]
    else
      let r := boundingRect descriptor in
      [lit "rect:" ++ Chat.decimal (round (top r)) ++ lit ":"
         ++ Chat.decimal (round (left r)) ++ lit ":"
         ++ Chat.decimal (round (width r)) ++ lit ":"
         ++ Chat.decimal (round (height r));
       lit "idx:" ++ Chat.decimal (Z.of_nat index)] in
  join_with (lit "|") (chatId descriptor :: parts).

(** [descriptorEntries], [descriptorMap] and [descriptorKeyMap]; a later
    entry with the same key, or the same descriptor object, overwrites an
    earlier one. *)
Record DescriptorEntry : Type := mkEntry {
  entry_descriptor : ElementDescriptor;
  entry_index : nat;
  entry_key : jsstring;
}.

Definition descriptorEntries (descriptorList : list ElementDescriptor)
    : list DescriptorEntry :=
  imap (fun index descriptor =>
          {| entry_descriptor := descriptor; entry_index := index;
             entry_key := buildDescriptorKey descriptor index |}) descriptorList.

Definition descriptorMap (descriptorList : list ElementDescriptor)
    : gmap jsstring ElementDescriptor :=
  foldl (fun m entry => <[entry_key entry := entry_descriptor entry]> m) ∅
    (descriptorEntries descriptorList).

Definition descriptorKeyMap (descriptorList : list ElementDescriptor) : gmap nat jsstring :=
  foldl (fun m entry => <[object_id (entry_descriptor entry) := entry_key entry]> m) ∅
    (descriptorEntries descriptorList).

(** What [ensureAnchorPosition] and the anchor chips read and write. *)
Record Registry : Type := mkRegistry {
  position : Point;  (* [positionRef.current], the window position *)
  anchorOffset : option Point;  (* [anchorOffsetRef.current] *)
  anchorOffsets : gmap jsstring Point;  (* [anchorOffsetsRef.current], the offset cache by anchor key *)
  activeAnchorKey : jsstring;  (* [activeAnchorKeyRef.current] *)
  anchorElement : option Element;  (* [anchorElementRef.current] *)
  anchorElementMissing : bool;
  isDragging : bool;  (* [isDraggingRef.current]: set by [handleDragStart] alone, cleared by [handleDragStop] *)
  registryMounted : bool;  (* [isMountedRef.current] *)
}.

Definition with_position (v : Point) (st : Registry) : Registry :=
  {| position := v; anchorOffset := anchorOffset st; anchorOffsets := anchorOffsets st;
     activeAnchorKey := activeAnchorKey st; anchorElement := anchorElement st;
     anchorElementMissing := anchorElementMissing st; isDragging := isDragging st;
     registryMounted := registryMounted st |}.

Definition with_anchorOffset (v : option Point) (st : Registry) : Registry :=
  {| position := position st; anchorOffset := v; anchorOffsets := anchorOffsets st;
     activeAnchorKey := activeAnchorKey st; anchorElement := anchorElement st;
     anchorElementMissing := anchorElementMissing st; isDragging := isDragging st;
     registryMounted := registryMounted st |}.

Definition with_anchorOffsets (v : gmap jsstring Point) (st : Registry) : Registry :=
  {| position := position st; anchorOffset := anchorOffset st; anchorOffsets := v;
     activeAnchorKey := activeAnchorKey st; anchorElement := anchorElement st;
     anchorElementMissing := anchorElementMissing st; isDragging := isDragging st;
     registryMounted := registryMounted st |}.

Definition with_activeAnchorKey (v : jsstring) (st : Registry) : Registry :=
  {| position := position st; anchorOffset := anchorOffset st;
     anchorOffsets := anchorOffsets st; activeAnchorKey := v;
     anchorElement := anchorElement st;
     anchorElementMissing := anchorElementMissing st; isDragging := isDragging st;
     registryMounted := registryMounted st |}.

Definition with_anchorElement (v : option Element) (st : Registry) : Registry :=
  {| position := position st; anchorOffset := anchorOffset st;
     anchorOffsets := anchorOffsets st; activeAnchorKey := activeAnchorKey st;
     anchorElement := v; anchorElementMissing := anchorElementMissing st;
     isDragging := isDragging st; registryMounted := registryMounted st |}.

Definition with_anchorElementMissing (v : bool) (st : Registry) : Registry :=
  {| position := position st; anchorOffset := anchorOffset st;
     anchorOffsets := anchorOffsets st; activeAnchorKey := activeAnchorKey st;
     anchorElement := anchorElement st; anchorElementMissing := v;
     isDragging := isDragging st; registryMounted := registryMounted st |}.

Definition with_isDragging (v : bool) (st : Registry) : Registry :=
  {| position := position st; anchorOffset := anchorOffset st;
     anchorOffsets := anchorOffsets st; activeAnchorKey := activeAnchorKey st;
     anchorElement := anchorElement st;
     anchorElementMissing := anchorElementMissing st; isDragging := v;
     registryMounted := registryMounted st |}.

Definition with_registryMounted (v : bool) (st : Registry) : Registry :=
  {| position := position st; anchorOffset := anchorOffset st;
     anchorOffsets := anchorOffsets st; activeAnchorKey := activeAnchorKey st;
     anchorElement := anchorElement st;
     anchorElementMissing := anchorElementMissing st; isDragging := isDragging st;
     registryMounted := v |}.

Definition same_object (a b : ElementDescriptor) : bool :=
  object_id a =? object_id b.

(** The priority list: the descriptor of the active anchor, then the
    attached descriptors in their order, none twice. *)
Definition priorityDescriptors (descriptorList : list ElementDescriptor) (st : Registry)
    : list ElementDescriptor :=
  let preferred :=
    if truthy (activeAnchorKey st) then
      match descriptorMap descriptorList !! activeAnchorKey st with
      | Some p => [p]
      | None => []
      end
    else [] in
  foldl (fun priority descriptor =>
           if existsb (same_object descriptor) priority then priority
           else priority ++ [descriptor]) preferred descriptorList.

(** The loop over the priority list: the first descriptor that resolves,
    with its element. *)
Fixpoint first_resolving (page : Page) (priority : list ElementDescriptor)
    : option (ElementDescriptor * Element) :=
  match priority with
  | [] => None
  | descriptor :: rest =>
      match resolveElementForDescriptor page descriptor with
      | Some candidate => Some (descriptor, candidate)
      | None => first_resolving page rest
      end
  end.

(** [Math.abs(a - b) > 0.5].  The source computes in IEEE doubles;
    coordinates are exact rationals here.  The two agree whenever the
    subtraction is exact in doubles (whole and half pixels, as in every
    run evaluated below); they can differ only for coordinates whose
    rounded difference falls on 0.5 while the exact one does not. *)
Definition exceeds_epsilon (a b : Q) : bool := Qltb (1 # 2) (Qabs (a - b)).

(** The key under which the offset cache is written: [resolvedKey] when it
    is a non-empty string. *)
Definition cache_under (resolvedKey : option jsstring) (offset : Point) (st : Registry)
    : Registry :=
  match resolvedKey with
  | Some k => if truthy k then with_anchorOffsets (<[k := offset]> (anchorOffsets st)) st else st
  | None => st
  end.

(** [ensureAnchorPosition] *)
Definition ensureAnchorPosition (page : Page) (descriptorList : list ElementDescriptor)
    (st : Registry) : Registry :=
  if negb (registryMounted st) then st
  else
    match first_resolving page (priorityDescriptors descriptorList st) with
    | None => with_anchorElementMissing true (with_anchorElement None st)
    | Some (resolvedDescriptor, element) =>
        let resolvedKey :=
          descriptorKeyMap descriptorList !! object_id resolvedDescriptor in
        let st := with_anchorElementMissing false (with_anchorElement (Some element) st) in
        let st :=
          match resolvedKey with
          | Some k =>
              if truthy k && negb (bool_decide (k = activeAnchorKey st))
              then with_activeAnchorKey k st else st
          | None => st
          end in
        let r := rect element in
        let st :=
          match anchorOffset st with
          | None =>
              let inferredOffset :=
                {| px := px (position st) - left r; py := py (position st) - top r |} in
              cache_under resolvedKey inferredOffset
                (with_anchorOffset (Some inferredOffset) st)
          | Some _ => st
          end in
        let st :=
          match anchorOffset st with
          | Some offset =>
              if negb (isDragging st) then
                let nextPosition :=
                  {| px := left r + px offset; py := top r + py offset |} in
                if exceeds_epsilon (px nextPosition) (px (position st))
                   || exceeds_epsilon (py nextPosition) (py (position st))
                then with_position nextPosition st else st
              else st
          | None => st
          end in
        match anchorOffset st with
        | Some offset => cache_under resolvedKey offset st
        | None => st
        end
    end.

Definition ANCHOR_ALIGNMENT_NUDGE_PX : Q := 32.

(** The offset an anchor chip applies: the cached offset of the target
    anchor as it is; else the current offset of the window, else
    [{ x: Math.min(rect.width + 20, 240), y: 0 }], moved up by the nudge. *)
Definition next_offset (storedOffset currentOffset : option Point) (r : Rect) : Point :=
  let nextOffset :=
    match storedOffset with
    | Some stored => stored
    | None =>
        match currentOffset with
        | Some current => current
        | None => {| px := Qmin (width r + 20) 240; py := 0 |}
        end
    end in
  match storedOffset with
  | Some _ => nextOffset
  | None => {| px := px nextOffset; py := py nextOffset - ANCHOR_ALIGNMENT_NUDGE_PX |}
  end.

(** The [onClick] handler of an anchor chip. *)
Definition select_anchor (page : Page) (descriptorList : list ElementDescriptor)
    (entry : DescriptorEntry) (st : Registry) : Registry :=
  let key := entry_key entry in
  let st := with_activeAnchorKey key st in
  let st :=
    match resolveElementForDescriptor page (entry_descriptor entry) with
    | Some element =>
        let st := with_anchorElementMissing false (with_anchorElement (Some element) st) in
        let r := rect element in
        let nextOffset := next_offset (anchorOffsets st !! key) (anchorOffset st) r in
        let st := with_anchorOffset (Some nextOffset) st in
        let st := with_anchorOffsets (<[key := nextOffset]> (anchorOffsets st)) st in
        with_position {| px := left r + px nextOffset; py := top r + py nextOffset |} st
    | None => st
    end in
  ensureAnchorPosition page descriptorList st.

(** The default offset as the specification words it: whenever the target
    anchor has no cached offset. *)
Definition spec_offset (storedOffset : option Point) (r : Rect) : Point :=
  match storedOffset with
  | Some stored => stored
  | None => {| px := Qmin (width r + 20) 240; py := 0 - ANCHOR_ALIGNMENT_NUDGE_PX |}
  end.

(** [descriptor] is the first descriptor of the list that resolves, and it
    resolves to [element]. *)
Definition resolves_first (page : Page) (priority : list ElementDescriptor)
    (descriptor : ElementDescriptor) (element : Element) : Prop :=
  ∃ before after,
    priority = before ++ descriptor :: after ∧
    resolveElementForDescriptor page descriptor = Some element ∧
    ∀ d, d ∈ before → resolveElementForDescriptor page d = None.

(** *** A window attached to the panel *)

Definition attached (offset : option Point) (dragging : bool) : Registry :=
  {| position := {| px := 300; py := 120 |}; anchorOffset := offset;
     anchorOffsets := ∅; activeAnchorKey := buildDescriptorKey panel_descriptor 0;
     anchorElement := None; anchorElementMissing := false; isDragging := dragging;
     registryMounted := true |}.

Definition panel_entry : DescriptorEntry :=
  {| entry_descriptor := panel_descriptor; entry_index := 0;
     entry_key := buildDescriptorKey panel_descriptor 0 |}.

(** A page on which nothing resolves. *)
Definition empty_page : Page :=
  {| elements := []; selects := fun _ => None; findElementByDescriptor := fun _ => None |}.

End Anchor.

(* ===================================================================== *)
(** ** Collapse states of the window *)
(* ===================================================================== *)

Module Collapse.

(** [CollapseState] *)
Inductive CollapseState : Type := expanded | rectangle | square.

#[global] Instance CollapseState_eq_dec : EqDecision CollapseState.
Proof. solve_decision. Defined.

Record Size : Type := mkSize {
  size_width : Q;
  size_height : Q;
}.

(** The [collapseState] and [windowSize] states of the component. *)
Record WindowUI : Type := mkWindowUI {
  collapseState : CollapseState;
  windowSize : Size;
}.

Definition squareSize : Q := 100.
Definition headerOnlyHeight : Q := 44.

Definition setCollapseState (next : CollapseState) (w : WindowUI) : WindowUI :=
  {| collapseState := next; windowSize := windowSize w |}.

(** [handleCollapseToRectangle] *)
Definition handleCollapseToRectangle (w : WindowUI) : WindowUI :=
  setCollapseState
    (match collapseState w with rectangle => expanded | _ => rectangle end) w.

(** [handleCollapseToSquare] *)
Definition handleCollapseToSquare (w : WindowUI) : WindowUI :=
  setCollapseState
    (match collapseState w with square => expanded | _ => square end) w.

(** The expand button of the square window: [setCollapseState('expanded')]. *)
Definition handleExpand (w : WindowUI) : WindowUI := setCollapseState expanded w.

(** The [size] the component hands to [Rnd]. *)
Definition rendered_size (w : WindowUI) : Size :=
  {| size_width :=
       match collapseState w with
       | square => squareSize
       | _ => size_width (windowSize w)
       end;
     size_height :=
       match collapseState w with
       | expanded => size_height (windowSize w)
       | rectangle => headerOnlyHeight
       | square => squareSize
       end |}.

(** [enableResizing]: the resize handles exist in the expanded state only. *)
Definition enableResizing (w : WindowUI) : bool :=
  match collapseState w with expanded => true | _ => false end.

(** [handleResize]/[handleResizeStop], which [Rnd] calls while the user
    drags a resize handle. *)
Definition handleResize (newSize : Size) (w : WindowUI) : WindowUI :=
  {| collapseState := collapseState w; windowSize := newSize |}.

Inductive Action : Type :=
| ClickRectangle
| ClickSquare
| ClickExpand
| DragResizeHandle (newSize : Size).

Definition act (a : Action) (w : WindowUI) : WindowUI :=
  match a with
  | ClickRectangle => handleCollapseToRectangle w
  | ClickSquare => handleCollapseToSquare w
  | ClickExpand => handleExpand w
  | DragResizeHandle newSize => if enableResizing w then handleResize newSize w else w
  end.

End Collapse.

(* ===================================================================== *)
(** ** Bookkeeping of the dispatch queue *)
(* ===================================================================== *)

Module Dispatch.

Import Chat Window.

(** The call of [sendMessageToAPI] was made by [processQueue]. *)
Definition from_queue (req : Request) : bool :=
  match r_origin req with FromQueue => true | FromInput _ _ => false end.

(** The pending calls are told apart by their numbers, the numbers handed
    out so far are below [next_rid], and [isProcessingQueueRef.current] is
    set exactly while a call made by [processQueue] is pending. *)
Definition queue_consistent (st : Component) : Prop :=
  NoDup (rid <$> requests st) ∧
  (∀ req, req ∈ requests st → rid req < next_rid st) ∧
  length (List.filter from_queue (requests st)) = (if isProcessingQueue st then 1 else 0).

(** The busy test of [handleSendMessage]. *)
Definition busy (st : Component) : bool :=
  isStreaming st || isProcessingQueue st || isSending st.

(** Two states agree on what the dispatch queue reads and writes. *)
Definition same_queue (st st' : Component) : Prop :=
  requests st' = requests st ∧ next_rid st' = next_rid st ∧
  isProcessingQueue st' = isProcessingQueue st ∧ messageQueue st' = messageQueue st ∧
  dispatched st' = dispatched st ∧ isMounted st' = isMounted st ∧
  timers st' = timers st ∧ lastSubmittedMessage st' = lastSubmittedMessage st.

(** The events at which the code looks at the queue again: a call of
    [sendMessageToAPI] returns, its stream ended or failed, or a timer set
    by [processQueue] fires. *)
Definition resumes (e : Event) (st : Component) : bool :=
  match e with
  | StreamEnd r _ _ =>
      match find_request r st with
      | Some req => match r_stage req with Streaming _ _ => true | Starting => false end
      | None => false
      end
  | BackendError r _ _ _ _ =>
      match find_request r st with Some _ => true | None => false end
  | TimerFires => 0 <? timers st
  | _ => false
  end.

End Dispatch.

(* ===================================================================== *)
(** ** Mounting the window on a stored session *)
(* ===================================================================== *)

Module Mount.

Import Resolver Anchor Collapse.

(** [ChatWindowState] of [types/elementChat.ts].  An optional property
    that is absent is [None]; [collapseState] is absent in the sessions
    written before it was introduced, which carry [collapsed] instead. *)
Record ChatWindowState : Type := mkWindowState {
  ws_position : Point;
  ws_size : Size;
  ws_collapseState : option CollapseState;
  ws_collapsed : option bool;
  ws_anchorOffset : option Point;
  ws_queueExpanded : option bool;
  ws_clearPreviousAssistant : option bool;
  ws_activeAnchorKey : option jsstring;
  ws_activeAnchorChatId : option jsstring;
}.

(** What the window reads of an [ElementChatSession]. *)
Record Session : Type := mkSession {
  elementId : jsstring;
  elementDescriptor : ElementDescriptor;
  elementDescriptors : option (list ElementDescriptor);
  windowState : option ChatWindowState;
}.

(** The properties [elementDescriptors], [elementDescriptor],
    [existingSession] and [initialPosition] of the component. *)
Record Props : Type := mkProps {
  prop_elementDescriptors : option (list ElementDescriptor);
  prop_elementDescriptor : option ElementDescriptor;
  existingSession : option Session;
  initialPosition : option Point;
}.

(** [value && value.length > 0 ? value : nothing] *)
Definition non_empty (value : option (list ElementDescriptor))
    : option (list ElementDescriptor) :=
  match value with
  | Some l => if 0 <? length l then Some l else None
  | None => None
  end.

(** [descriptorCandidates] *)
Definition descriptorCandidates (props : Props) : list ElementDescriptor :=
  match non_empty (existingSession props ≫= elementDescriptors) with
  | Some fromSession => fromSession
  | None =>
      match non_empty (prop_elementDescriptors props) with
      | Some given => given
      | None =>
          match existingSession props with
          | Some session => [elementDescriptor session]
          | None =>
              match prop_elementDescriptor props with
              | Some given => [given]
              | None => []
              end
          end
      end
  end.

(** [primaryDescriptor]: [descriptorCandidates[0]]. *)
Definition primaryDescriptor (props : Props) : option ElementDescriptor :=
  head (descriptorCandidates props).

(** [descriptorList]; [None] when the component logs the missing
    descriptor and renders nothing. *)
Definition descriptorList (props : Props) : option (list ElementDescriptor) :=
  match primaryDescriptor props with
  | None => None
  | Some primary =>
      Some (if length (descriptorCandidates props) =? 0 then [primary]
            else descriptorCandidates props)
  end.

(** [descriptorEntries.some(entry => entry.key === wanted)] *)
Definition has_key (entries : list DescriptorEntry) (wanted : jsstring) : bool :=
  existsb (fun entry => bool_decide (entry_key entry = wanted)) entries.

(** [initialActiveAnchorKey] *)
Definition initialActiveAnchorKey (stored : option ChatWindowState)
    (descriptors : list ElementDescriptor) (primary : ElementDescriptor) : jsstring :=
  let entries := descriptorEntries descriptors in
  let fromSession :=
    match stored ≫= ws_activeAnchorKey with
    | Some sessionKey =>
        if truthy sessionKey && has_key entries sessionKey then Some sessionKey else None
    | None => None
    end in
  match fromSession with
  | Some sessionKey => sessionKey
  | None =>
      let fromLegacy :=
        match stored ≫= ws_activeAnchorChatId with
        | Some legacyChatId =>
            if truthy legacyChatId then
              entry_key <$>
                List.find (fun entry =>
                             bool_decide (chatId (entry_descriptor entry) = legacyChatId))
                  entries
            else None
        | None => None
        end in
      match fromLegacy with
      | Some key => key
      | None =>
          match head entries with
          | Some first => entry_key first
          | None => buildDescriptorKey primary 0
          end
      end
  end.

(** The values the state initialisers of the component compute. *)
Record Initial : Type := mkInitial {
  init_collapseState : CollapseState;
  init_windowSize : Size;
  init_position : Point;
  init_anchorOffset : option Point;
  init_queueExpanded : bool;
  init_clearPreviousAssistant : bool;
  init_activeAnchorKey : jsstring;
}.

(** The initialiser of [collapseState]. *)
Definition initialCollapseState (stored : option ChatWindowState) : CollapseState :=
  match stored ≫= ws_collapseState with
  | Some state => state
  | None =>
      match stored ≫= ws_collapsed with
      | Some true => rectangle
      | _ => expanded
      end
  end.

Definition defaultSize : Size := {| size_width := 420; size_height := 550 |}.
Definition defaultPosition : Point := {| px := 100; py := 100 |}.

(** The [useState] initialisers. *)
Definition initialise (props : Props) (descriptors : list ElementDescriptor)
    (primary : ElementDescriptor) : Initial :=
  let stored := existingSession props ≫= windowState in
  {| init_collapseState := initialCollapseState stored;
     init_windowSize := default defaultSize (ws_size <$> stored);
     init_position :=
       match stored with
       | Some state => ws_position state
       | None => default defaultPosition (initialPosition props)
       end;
     init_anchorOffset := stored ≫= ws_anchorOffset;
     init_queueExpanded := default false (stored ≫= ws_queueExpanded);
     init_clearPreviousAssistant := default false (stored ≫= ws_clearPreviousAssistant);
     init_activeAnchorKey := initialActiveAnchorKey stored descriptors primary |}.

(** The effect that falls back to the initial key when the descriptor map
    does not hold the active key. *)
Definition reset_active_key (descriptors : list ElementDescriptor) (initialKey : jsstring)
    (st : Registry) : Registry :=
  match descriptorMap descriptors !! activeAnchorKey st with
  | Some _ => st
  | None => with_activeAnchorKey initialKey st
  end.

(** The references [persistSessionState] reads. *)
Record Refs : Type := mkRefs {
  positionRef : Point;
  windowSizeRef : Size;
  collapseStateRef : CollapseState;
  anchorOffsetRef : option Point;
  queueExpandedRef : bool;
  clearPreviousAssistantRef : bool;
  activeAnchorKeyRef : jsstring;
}.

(** The [windowState] object [persistSessionState] stores. *)
Definition persistedWindowState (descriptors : list ElementDescriptor) (refs : Refs)
    : ChatWindowState :=
  let activeDescriptor :=
    if truthy (activeAnchorKeyRef refs)
    then descriptorMap descriptors !! activeAnchorKeyRef refs
    else None in
  {| ws_position := positionRef refs;
     ws_size := windowSizeRef refs;
     ws_collapsed := Some (negb (bool_decide (collapseStateRef refs = expanded)));
     ws_collapseState := Some (collapseStateRef refs);
     ws_anchorOffset := anchorOffsetRef refs;
     ws_queueExpanded := Some (queueExpandedRef refs);
     ws_clearPreviousAssistant := Some (clearPreviousAssistantRef refs);
     ws_activeAnchorKey := Some (activeAnchorKeyRef refs);
     ws_activeAnchorChatId := chatId <$> activeDescriptor |}.

(** The references as the initialisers leave them. *)
Definition refs_of (i : Initial) : Refs :=
  {| positionRef := init_position i; windowSizeRef := init_windowSize i;
     collapseStateRef := init_collapseState i; anchorOffsetRef := init_anchorOffset i;
     queueExpandedRef := init_queueExpanded i;
     clearPreviousAssistantRef := init_clearPreviousAssistant i;
     activeAnchorKeyRef := init_activeAnchorKey i |}.

(** The stored state as a version without [collapseState] keeps it. *)
Definition without_collapseState (stored : ChatWindowState) : ChatWindowState :=
  {| ws_position := ws_position stored; ws_size := ws_size stored;
     ws_collapseState := None; ws_collapsed := ws_collapsed stored;
     ws_anchorOffset := ws_anchorOffset stored;
     ws_queueExpanded := ws_queueExpanded stored;
     ws_clearPreviousAssistant := ws_clearPreviousAssistant stored;
     ws_activeAnchorKey := ws_activeAnchorKey stored;
     ws_activeAnchorChatId := ws_activeAnchorChatId stored |}.

(** A session written by an earlier version: no [collapseState]. *)
Definition legacy_state (wasCollapsed : option bool) : ChatWindowState :=
  {| ws_position := {| px := 10; py := 20 |}; ws_size := defaultSize;
     ws_collapseState := None; ws_collapsed := wasCollapsed; ws_anchorOffset := None;
     ws_queueExpanded := None; ws_clearPreviousAssistant := None;
     ws_activeAnchorKey := None; ws_activeAnchorChatId := Some (lit "chat-1") |}.

(** The window reopened on a session with the stored state. *)
Definition reopened (stored : ChatWindowState) : Props :=
  {| prop_elementDescriptors := None; prop_elementDescriptor := None;
     existingSession :=
       Some {| elementId := lit "chat-1"; elementDescriptor := panel_descriptor;
               elementDescriptors := Some [panel_descriptor];
               windowState := Some stored |};
     initialPosition := None |}.

Definition dragged_refs : Refs :=
  {| positionRef := {| px := 300; py := 120 |};
     windowSizeRef := {| size_width := 500; size_height := 400 |};
     collapseStateRef := square;
     anchorOffsetRef := Some {| px := 300; py := 120 |};
     queueExpandedRef := true; clearPreviousAssistantRef := true;
     activeAnchorKeyRef := buildDescriptorKey panel_descriptor 0 |}.

End Mount.

(* ===================================================================== *)
(** ** Dragging and resizing the window *)
(* ===================================================================== *)

Module Handlers.

Import Resolver Anchor Collapse.

(** The offset is taken anew from the window position and cached under
    the active key; [anchorRect] is what
    [anchorElementRef.current.getBoundingClientRect()] returns when the
    handler runs. *)
Definition rebase_offset (nextPosition : Point) (anchorRect : Rect) (st : Registry)
    : Registry :=
  match anchorElement st with
  | Some _ =>
      let offset := {| px := px nextPosition - left anchorRect;
                       py := py nextPosition - top anchorRect |} in
      let st := with_anchorOffset (Some offset) st in
      if truthy (activeAnchorKey st)
      then with_anchorOffsets (<[activeAnchorKey st := offset]> (anchorOffsets st)) st
      else st
  | None => st
  end.

(** [handleDragStop] *)
Definition handleDragStop (data : Point) (anchorRect : Rect) (st : Registry) : Registry :=
  let st := with_isDragging false st in
  let nextPosition := {| px := px data; py := py data |} in
  let st := with_position nextPosition st in
  rebase_offset nextPosition anchorRect st.

(** [handleResizeStop]; [parsed] are the values of [parseInt] on the
    width and the height of the resized node. *)
Definition handleResizeStop (parsed : Size) (newPosition : Point) (anchorRect : Rect)
    (st : Registry * WindowUI) : Registry * WindowUI :=
  let w := handleResize {| size_width := size_width parsed;
                           size_height := size_height parsed |} (snd st) in
  (rebase_offset newPosition anchorRect (with_position newPosition (fst st)), w).

(** The anchor after the page has scrolled by [(dx, dy)]. *)
Definition moved (dx dy : Q) (e : Element) : Element :=
  {| node := node e; el_id := el_id e; chat_attr := chat_attr e; is_html := is_html e;
     rect := {| top := top (rect e) + dy; left := left (rect e) + dx;
                width := width (rect e); height := height (rect e) |} |}.

Definition scrolled_panel_page (dx dy : Q) : Page :=
  {| elements := [moved dx dy panel];
     selects := fun selector =>
       if bool_decide (selector = lit "#panel-target")
       then Some (has_id (lit "panel-target")) else None;
     findElementByDescriptor := fun _ => None |}.

(** A window attached to the panel, as a tick leaves it. *)
Definition ticked : Registry :=
  ensureAnchorPosition panel_page [panel_descriptor] (attached None false).

(** The refs of the anchor registry as the component creates them when it
    mounts: [isDraggingRef = useRef(false)], [anchorElementRef =
    useRef(null)], an empty offset cache. *)
Definition at_mount (initialPosition : Point) (initialOffset : option Point)
    (initialKey : jsstring) : Registry :=
  {| position := initialPosition; anchorOffset := initialOffset; anchorOffsets := ∅;
     activeAnchorKey := initialKey; anchorElement := None; anchorElementMissing := false;
     isDragging := false; registryMounted := true |}.

(** What the draggable frame [Rnd] reports while the user drags or resizes
    the window. *)
Inductive Callback : Type :=
| DragStart
| Drag (data : Point)
| DragStop (data : Point) (anchorRect : Rect)
| Resize (parsed : Size)
| ResizeStop (parsed : Size) (newPosition : Point) (anchorRect : Rect).

(** The handlers the component passes to [Rnd]: [onDragStop],
    [onResize] and [onResizeStop].  It passes no [onDragStart] and no
    [onDrag], so the start and the moves of a drag run no code of the
    component: the function [handleDragStart], whose body
    [isDraggingRef.current = true] is the one place that sets the flag,
    is neither passed to [Rnd] nor called. *)
Definition on_callback (c : Callback) (st : Registry * WindowUI) : Registry * WindowUI :=
  match c with
  | DragStart => st
  | Drag _ => st
  | DragStop data anchorRect => (handleDragStop data anchorRect (fst st), snd st)
  | Resize parsed => (fst st, handleResize parsed (snd st))
  | ResizeStop parsed newPosition anchorRect =>
      handleResizeStop parsed newPosition anchorRect st
  end.

(** What happens to a mounted window: [ensureAnchorPosition] runs (on an
    animation frame, a scroll, a resize or a layout effect) on the page as
    it is then, the frame reports, or the user clicks an anchor chip. *)
Inductive Happening : Type :=
| Tick (page : Page)
| Reported (c : Callback)
| Chip (page : Page) (entry : DescriptorEntry).

Definition happen (descriptorList : list ElementDescriptor) (h : Happening)
    (st : Registry * WindowUI) : Registry * WindowUI :=
  match h with
  | Tick page => (ensureAnchorPosition page descriptorList (fst st), snd st)
  | Reported c => on_callback c st
  | Chip page entry => (select_anchor page descriptorList entry (fst st), snd st)
  end.

Definition happenings (descriptorList : list ElementDescriptor) (hs : list Happening)
    (st : Registry * WindowUI) : Registry * WindowUI :=
  foldl (fun s h => happen descriptorList h s) st hs.

Definition default_ui : WindowUI :=
  {| collapseState := expanded;
     windowSize := {| size_width := 420; size_height := 550 |} |}.

(** The user takes hold of the window attached to the panel and drags it
    towards (350, 160); before the drag has ended the page scrolls up by
    40 px and a tick runs. *)
Definition drag_under_scroll : list Happening :=
  [Tick panel_page; Reported DragStart; Reported (Drag {| px := 350; py := 160 |});
   Tick (scrolled_panel_page 0 (-40))].

End Handlers.

(* ===================================================================== *)
(** ** The element line of the header *)
(* ===================================================================== *)

Module Labels.

Import Resolver.

(** [text.length > 60 ? `${text.substring(0, 57)}...` : text] *)
Definition clip (text : jsstring) : jsstring :=
  if 60 <? length text then take 57 text ++ lit "..." else text.

(** [elementSummary] *)
Definition elementSummary (selectedText : option jsstring) (primary : ElementDescriptor)
    : jsstring :=
  match selectedText with
  | Some selected =>
      if truthy selected then clip selected
      else if truthy (textPreview primary) then clip (textPreview primary)
      else lit "No text content"
  | None =>
      if truthy (textPreview primary) then clip (textPreview primary)
      else lit "No text content"
  end.

End Labels.

(* ===================================================================== *)
(** ** Indicator badges of saved chats *)
(* ===================================================================== *)

Module Indicators.

Import Resolver Mount.

(** What the service writes of the style of a badge: [display] is
    ['block'] or ['none'], [opacity] is ['1'] or ['0'], [left] and [top]
    are pixel values once they have been written. *)
Record BadgeStyle : Type := mkStyle {
  display_block : bool;
  opaque : bool;
  style_left : option Q;
  style_top : option Q;
}.

(** [IndicatorEntry]; [ind_badge] is the identity of the badge node. *)
Record IndicatorEntry : Type := mkIndicator {
  ind_key : jsstring;
  ind_chatId : jsstring;
  ind_descriptor : ElementDescriptor;
  ind_badge : nat;
  ind_style : BadgeStyle;
  ind_element : option Element;
}.

(** The module state of the service: the [indicators] map in insertion
    order, [hiddenChats], whether an animation frame is requested
    ([rafHandle !== null]), [initialized], and the badge nodes that are
    children of [document.body], in document order. *)
Record Service : Type := mkService {
  indicators : list IndicatorEntry;
  hiddenChats : gset jsstring;
  rafPending : bool;
  initialized : bool;
  body : list nat;
  next_node : nat;
}.

Definition with_indicators (v : list IndicatorEntry) (s : Service) : Service :=
  {| indicators := v; hiddenChats := hiddenChats s; rafPending := rafPending s;
     initialized := initialized s; body := body s; next_node := next_node s |}.

Definition with_hiddenChats (v : gset jsstring) (s : Service) : Service :=
  {| indicators := indicators s; hiddenChats := v; rafPending := rafPending s;
     initialized := initialized s; body := body s; next_node := next_node s |}.

Definition with_rafPending (v : bool) (s : Service) : Service :=
  {| indicators := indicators s; hiddenChats := hiddenChats s; rafPending := v;
     initialized := initialized s; body := body s; next_node := next_node s |}.

Definition with_initialized (v : bool) (s : Service) : Service :=
  {| indicators := indicators s; hiddenChats := hiddenChats s; rafPending := rafPending s;
     initialized := v; body := body s; next_node := next_node s |}.

Definition with_body (v : list nat) (s : Service) : Service :=
  {| indicators := indicators s; hiddenChats := hiddenChats s; rafPending := rafPending s;
     initialized := initialized s; body := v; next_node := next_node s |}.

Definition with_next_node (v : nat) (s : Service) : Service :=
  {| indicators := indicators s; hiddenChats := hiddenChats s; rafPending := rafPending s;
     initialized := initialized s; body := body s; next_node := v |}.

Definition with_descriptor (d : ElementDescriptor) (e : IndicatorEntry) : IndicatorEntry :=
  {| ind_key := ind_key e; ind_chatId := ind_chatId e; ind_descriptor := d;
     ind_badge := ind_badge e; ind_style := ind_style e; ind_element := ind_element e |}.

Definition with_style (v : BadgeStyle) (e : IndicatorEntry) : IndicatorEntry :=
  {| ind_key := ind_key e; ind_chatId := ind_chatId e; ind_descriptor := ind_descriptor e;
     ind_badge := ind_badge e; ind_style := v; ind_element := ind_element e |}.

Definition with_element (v : option Element) (e : IndicatorEntry) : IndicatorEntry :=
  {| ind_key := ind_key e; ind_chatId := ind_chatId e; ind_descriptor := ind_descriptor e;
     ind_badge := ind_badge e; ind_style := ind_style e; ind_element := v |}.

(** [getDescriptorKey] *)
Definition getDescriptorKey (chat : jsstring) (descriptor : ElementDescriptor) : jsstring :=
  chat ++ lit "::" ++ chatId descriptor.

(** [scheduleRefresh]: one frame is requested unless one is pending. *)
Definition scheduleRefresh (s : Service) : Service :=
  if rafPending s then s else with_rafPending true s.

(** [ensureInitialized]; the listeners it registers call [scheduleRefresh]. *)
Definition ensureInitialized (s : Service) : Service :=
  if initialized s then s else with_initialized true s.

(** [badge.style.display = 'none'; badge.style.opacity = '0'] *)
Definition concealed (style : BadgeStyle) : BadgeStyle :=
  {| display_block := false; opaque := false;
     style_left := style_left style; style_top := style_top style |}.

(** [createBadge]: a new node, concealed, appended to [document.body]. *)
Definition createBadge (s : Service) : nat * BadgeStyle * Service :=
  (next_node s,
   {| display_block := false; opaque := false; style_left := None; style_top := None |},
   with_next_node (S (next_node s)) (with_body (body s ++ [next_node s]) s)).

(** [indicators.get(key)] *)
Definition indicators_get (key : jsstring) (s : Service) : option IndicatorEntry :=
  List.find (fun entry => bool_decide (ind_key entry = key)) (indicators s).

(** A write to the entry stored under [key]. *)
Fixpoint indicators_update (key : jsstring) (f : IndicatorEntry → IndicatorEntry)
    (entries : list IndicatorEntry) : list IndicatorEntry :=
  match entries with
  | [] => []
  | entry :: rest =>
      if bool_decide (ind_key entry = key) then f entry :: rest
      else entry :: indicators_update key f rest
  end.

(** [indicators.delete(key)] *)
Fixpoint indicators_delete (key : jsstring) (entries : list IndicatorEntry)
    : list IndicatorEntry :=
  match entries with
  | [] => []
  | entry :: rest =>
      if bool_decide (ind_key entry = key) then rest else entry :: indicators_delete key rest
  end.

(** The descriptors of a session that carry a badge. *)
Definition session_descriptors (session : Session) : list ElementDescriptor :=
  match non_empty (elementDescriptors session) with
  | Some given => given
  | None => [elementDescriptor session]
  end.

(** One turn of the loop over the descriptors of a session: the entry is
    created, or its descriptor is replaced. *)
Definition upsert_descriptor (chat : jsstring) (s : Service)
    (descriptor : ElementDescriptor) : Service :=
  let key := getDescriptorKey chat descriptor in
  match indicators_get key s with
  | None =>
      let '(badge, style, s) := createBadge s in
      with_indicators
        (indicators s ++
         [{| ind_key := key; ind_chatId := chat; ind_descriptor := descriptor;
             ind_badge := badge; ind_style := style; ind_element := None |}]) s
  | Some _ =>
      with_indicators
        (indicators_update key (with_descriptor descriptor) (indicators s)) s
  end.

(** [removeIndicatorByKey] *)
Definition removeIndicatorByKey (key : jsstring) (s : Service) : Service :=
  match indicators_get key s with
  | None => s
  | Some entry =>
      let s := with_body (List.filter (fun n => negb (n =? ind_badge entry)) (body s)) s in
      let s := with_hiddenChats (hiddenChats s ∖ {[ind_chatId entry]}) s in
      with_indicators (indicators_delete key (indicators s)) s
  end.

(** The loops that remove the entries a snapshot of the map shows to be
    stale. *)
Definition remove_where (stale : IndicatorEntry → bool) (s : Service) : Service :=
  foldl (fun s entry => if stale entry then removeIndicatorByKey (ind_key entry) s else s)
    s (indicators s).

Definition seen (keys : list jsstring) (key : jsstring) : bool :=
  bool_decide (key ∈ keys).

(** [upsertIndicatorsForSession] *)
Definition upsertIndicatorsForSession (session : Session) (s : Service) : Service :=
  let s := ensureInitialized s in
  let descriptors := session_descriptors session in
  let seenKeys := map (getDescriptorKey (elementId session)) descriptors in
  let s := foldl (upsert_descriptor (elementId session)) s descriptors in
  let s :=
    remove_where
      (fun entry => bool_decide (ind_chatId entry = elementId session)
                    && negb (seen seenKeys (ind_key entry))) s in
  scheduleRefresh s.

(** [syncIndicatorsForSessions] *)
Definition syncIndicatorsForSessions (sessions : list Session) (s : Service) : Service :=
  let s := ensureInitialized s in
  let activeKeys :=
    flat_map (fun session =>
                map (getDescriptorKey (elementId session)) (session_descriptors session))
      sessions in
  let s :=
    foldl (fun s session =>
             foldl (upsert_descriptor (elementId session)) s (session_descriptors session))
      s sessions in
  let s := remove_where (fun entry => negb (seen activeKeys (ind_key entry))) s in
  scheduleRefresh s.

(** [removeIndicatorsForChat] *)
Definition removeIndicatorsForChat (chat : jsstring) (s : Service) : Service :=
  let s := remove_where (fun entry => bool_decide (ind_chatId entry = chat)) s in
  with_hiddenChats (hiddenChats s ∖ {[chat]}) s.

(** [hideIndicatorsForChat] *)
Definition hideIndicatorsForChat (chat : jsstring) (s : Service) : Service :=
  let s := with_hiddenChats ({[chat]} ∪ hiddenChats s) s in
  let s :=
    with_indicators
      (map (fun entry =>
              if bool_decide (ind_chatId entry = chat)
              then with_style (concealed (ind_style entry)) entry else entry)
         (indicators s)) s in
  scheduleRefresh s.

(** [showIndicatorsForChat] *)
Definition showIndicatorsForChat (chat : jsstring) (s : Service) : Service :=
  if negb (bool_decide (chat ∈ hiddenChats s)) then scheduleRefresh s
  else scheduleRefresh (with_hiddenChats (hiddenChats s ∖ {[chat]}) s).

(** [document.contains(element)], with the element as the page has it
    now. *)
Definition contained (page : Page) (element : Element) : option Element :=
  List.find (fun e => node e =? node element) (elements page).

Definition Qzero (q : Q) : bool := Qeq_bool q 0.

(** [positionBadge]; [scroll] is [(window.scrollX, window.scrollY)]. *)
Definition positionBadge (page : Page) (scrollX scrollY : Q) (hidden : gset jsstring)
    (entry : IndicatorEntry) : IndicatorEntry :=
  if bool_decide (ind_chatId entry ∈ hidden)
  then with_style (concealed (ind_style entry)) entry
  else
    let element :=
      match ind_element entry ≫= contained page with
      | Some element => Some element
      | None => findElementByDescriptor page (ind_descriptor entry)
      end in
    let entry := with_element element entry in
    match element with
    | None => with_style (concealed (ind_style entry)) entry
    | Some element =>
        let r := rect element in
        if Qzero (width r) && Qzero (height r)
        then with_style (concealed (ind_style entry)) entry
        else
          with_style
            {| style_left := Some (left r + width r + scrollX - 4)%Q;
               style_top := Some (top r + scrollY + 4)%Q;
               display_block := true; opaque := true |} entry
    end.

(** [refreshIndicators] *)
Definition refreshIndicators (page : Page) (scrollX scrollY : Q) (s : Service) : Service :=
  with_indicators
    (map (positionBadge page scrollX scrollY (hiddenChats s)) (indicators s)) s.

(** The callback of the animation frame. *)
Definition frame (page : Page) (scrollX scrollY : Q) (s : Service) : Service :=
  if rafPending s then refreshIndicators page scrollX scrollY (with_rafPending false s)
  else s.

(** [teardownElementChatIndicators], as far as the badges of the saved
    chats go (the indicators of closed chats are a map of their own, which
    it clears as well). *)
Definition teardownElementChatIndicators (s : Service) : Service :=
  if negb (initialized s) then s
  else
    let badges := ind_badge <$> indicators s in
    let s := with_body (List.filter (fun n => negb (bool_decide (n ∈ badges))) (body s)) s in
    with_initialized false (with_indicators [] s).

(** What happens to the service: the calls of the chat window and of the
    content script, the listeners of [ensureInitialized], and animation
    frames. *)
Inductive Call : Type :=
| Upsert (session : Session)
| Sync (sessions : list Session)
| RemoveChat (chat : jsstring)
| Hide (chat : jsstring)
| Show (chat : jsstring)
| Teardown
| PageChanged
| Frame (page : Page) (scrollX scrollY : Q).

Definition perform (c : Call) (s : Service) : Service :=
  match c with
  | Upsert session => upsertIndicatorsForSession session s
  | Sync sessions => syncIndicatorsForSessions sessions s
  | RemoveChat chat => removeIndicatorsForChat chat s
  | Hide chat => hideIndicatorsForChat chat s
  | Show chat => showIndicatorsForChat chat s
  | Teardown => teardownElementChatIndicators s
  | PageChanged => if initialized s then scheduleRefresh s else s
  | Frame page scrollX scrollY => frame page scrollX scrollY s
  end.

Definition perform_all (calls : list Call) (s : Service) : Service :=
  foldl (fun s c => perform c s) s calls.

(** The service when the module is loaded. *)
Definition loaded : Service :=
  {| indicators := []; hiddenChats := ∅; rafPending := false; initialized := false;
     body := []; next_node := 0 |}.

(** Every entry has its own key and its own badge node, and
    [document.body] holds the badges of the entries, in their order. *)
Definition tidy (s : Service) : Prop :=
  NoDup (ind_key <$> indicators s) ∧
  body s = ind_badge <$> indicators s ∧
  NoDup (body s) ∧
  ∀ n, n ∈ body s → n < next_node s.

(** Writes to an entry keep its key, its chat and its badge. *)
Definition same_badge (e e' : IndicatorEntry) : Prop :=
  ind_key e' = ind_key e ∧ ind_chatId e' = ind_chatId e ∧ ind_badge e' = ind_badge e.

(** A badge that is displayed belongs to a chat that is not hidden, and
    it has been placed at an element. *)
Definition shown_are_placed (s : Service) : Prop :=
  ∀ entry, entry ∈ indicators s → display_block (ind_style entry) = true →
    (ind_chatId entry ∉ hiddenChats s) ∧ is_Some (ind_element entry) ∧
    is_Some (style_left (ind_style entry)) ∧ is_Some (style_top (ind_style entry)) ∧
    opaque (ind_style entry) = true.

(** The panel's session. *)
Definition panel_session : Session :=
  {| elementId := lit "chat-1"; elementDescriptor := panel_descriptor;
     elementDescriptors := Some [panel_descriptor]; windowState := None |}.

End Indicators.

(* ===================================================================== *)
(** ** Turns and the arrays of messages *)
(* ===================================================================== *)

Module Ledger.

Import Chat Window.

(** No message of the list is an assistant message of turn [T]. *)
Definition unanswered (T : jsstring) (contents : list ChatMessage) : Prop :=
  ∀ m, m ∈ contents → answers_turn T m = false.

(** The turn ids [handleSendMessage] generates during a run, one for each
    submission: [`msg-${now}-${random}`]. *)
Definition submitted (events : list Event) : list jsstring :=
  omap (fun e => match e with
                 | Submit _ _ now rnd_message _ => Some (msg_id now rnd_message)
                 | _ => None
                 end) events.

(** The generated turn ids are new: no two submissions get the same id,
    and no assistant message of the stored session carries one of them. *)
Definition fresh_turns (existing : list ChatMessage) (events : list Event) : Prop :=
  NoDup (submitted events) ∧ ∀ T, T ∈ submitted events → unanswered T existing.

(** The turns that wait for their answer: the calls of [sendMessageToAPI]
    that have not settled, and the queued messages. *)
Definition pending_turns (st : Component) : list jsstring :=
  (r_turnId <$> requests st) ++ (q_messageId <$> messageQueue st).

(** A list without repeated id and with at most one assistant message per
    turn id that answers none of the turns in [open]. *)
Definition kept (open : list jsstring) (contents : list ChatMessage) : Prop :=
  unique_ids contents ∧ one_answer_per_turn contents ∧
  ∀ T, T ∈ open → unanswered T contents.

(** A property of every array of messages the window holds. *)
Definition every_array (P : list ChatMessage → Prop) (st : Component) : Prop :=
  ∀ l, P (read st l).

(** A message that answers no turn: a user message, or a message without
    turn id. *)
Definition outsider (m : ChatMessage) : Prop := ∀ t, answers_turn t m = false.

(** The queued updaters of [setMessages] append outsiders. *)
Definition updates_ok (st : Component) : Prop :=
  ∀ errorMessage, AppendError errorMessage ∈ pendingMessages st → outsider errorMessage.

(** The invariant of the arrays: with [future] the turn ids still to be
    generated, the turns that wait and the future ones are pairwise
    distinct, and every array is well formed and answers none of them. *)
Definition ledger (st : Component) (future : list jsstring) : Prop :=
  NoDup (pending_turns st ++ future) ∧
  every_array (kept (pending_turns st ++ future)) st ∧
  updates_ok st.

(** Two states agree on the arrays and on the queued [setMessages] calls. *)
Definition same_store (st st' : Component) : Prop :=
  heap st' = heap st ∧ pendingMessages st' = pendingMessages st.

(** What the turn correlation asks of the list it starts from, [open]
    being the other turns that wait: the answers of any other turn share
    one id, an answer of the turn itself is the message the turn map names
    and carries an id, and no turn of [open] is answered. *)
Definition base_ok (open : list jsstring) (turnMap : gmap jsstring jsstring)
    (T : jsstring) (base : list ChatMessage) : Prop :=
  (∀ t m1 m2, truthy t = true → t ≠ T → m1 ∈ base → m2 ∈ base →
     answers_turn t m1 = true → answers_turn t m2 = true → id m1 = id m2) ∧
  (∀ m, m ∈ base → answers_turn T m = true →
     turnMap !! T = Some (id m) ∧ truthy (id m) = true) ∧
  (∀ T', T' ∈ open → unanswered T' base).

End Ledger.
(* ===================================================================== *)
(** ** Facts about JavaScript strings *)
(* ===================================================================== *)

Section StringFacts.

Import Aggregator.

Lemma truthy_true (s : jsstring) : truthy s = true ↔ s ≠ [].
Proof. destruct s; simpl; split; intros; congruence. Qed.

Lemma length_pos_true (s : jsstring) : (0 <? length s) = true ↔ s ≠ [].
Proof.
  destruct s as [|c t]; cbn; split; intros H; congruence || reflexivity.
Qed.

Lemma blank_nil : blank [].
Proof. constructor. Qed.

Lemma blank_app (s t : jsstring) : blank (s ++ t) ↔ blank s ∧ blank t.
Proof. unfold blank. apply Forall_app. Qed.

Lemma blank_rev (s : jsstring) : blank (rev s) ↔ blank s.
Proof.
  unfold blank. split; intros H.
  - rewrite <- (rev_involutive s). now apply List.Forall_rev.
  - now apply List.Forall_rev.
Qed.

(** [trimStart] removes a blank prefix and nothing else. *)
Lemma trimStart_split (s : jsstring) :
  ∃ p, s = p ++ trimStart s ∧ blank p.
Proof.
  induction s as [|c t [p [Hp Hb]]]; simpl.
  - exists []. split; [reflexivity | apply blank_nil].
  - destruct (is_ws c) eqn:Hc.
    + exists (c :: p). split; [simpl; now rewrite <- Hp | now constructor].
    + exists []. split; [reflexivity | apply blank_nil].
Qed.

Lemma trimStart_nil_iff (s : jsstring) : trimStart s = [] ↔ blank s.
Proof.
  induction s as [|c t IH]; simpl.
  - split; [intros; apply blank_nil | reflexivity].
  - destruct (is_ws c) eqn:Hc.
    + rewrite IH. split; [intros; now constructor | now inversion 1].
    + split; [discriminate | inversion 1; congruence].
Qed.

Lemma blank_trimStart (s : jsstring) : blank (trimStart s) ↔ blank s.
Proof.
  destruct (trimStart_split s) as [p [Hp Hb]].
  rewrite Hp at 2. rewrite blank_app. tauto.
Qed.

Lemma trim_nil_iff (s : jsstring) : trim s = [] ↔ blank s.
Proof.
  unfold trim, trimEnd.
  rewrite <- (blank_trimStart s), <- (blank_rev (trimStart s)), <- trimStart_nil_iff.
  split; intros H.
  - apply (f_equal (@rev N)) in H. now rewrite rev_involutive in H.
  - now rewrite H.
Qed.


Lemma trim_truthy (s : jsstring) : truthy (trim s) = true ↔ ¬ blank s.
Proof. rewrite truthy_true, trim_nil_iff. tauto. Qed.

Lemma trim_trimStart_pos (s : jsstring) :
  (0 <? length (trim (trimStart s))) = true ↔ ¬ blank s.
Proof. rewrite length_pos_true, trim_nil_iff, blank_trimStart. tauto. Qed.

End StringFacts.

(* ===================================================================== *)
(** ** The streaming aggregator *)
(* ===================================================================== *)

Section AggregatorFacts.

Import Aggregator.

Lemma list_pair_ind {A} (P : list A → Prop) :
  P [] → (∀ c, P [c]) → (∀ c d t, P t → P (d :: t) → P (c :: d :: t)) →
  ∀ l, P l.
Proof.
  intros H0 H1 H2 l.
  enough (P l ∧ ∀ c, P (c :: l)) by tauto.
  induction l as [|d t [IHt IHc]]; split; auto.
Qed.

Lemma normalizeNewlines_cons2 (c d : N) (t : jsstring) :
  normalizeNewlines (c :: d :: t) =
  if (c =? CR)%N && (d =? LF)%N then LF :: normalizeNewlines t
  else c :: normalizeNewlines (d :: t).
Proof. reflexivity. Qed.

Lemma is_ws_LF : is_ws LF = true.
Proof. reflexivity. Qed.

Lemma is_ws_CR : is_ws CR = true.
Proof. reflexivity. Qed.

(** Normalising line breaks neither creates nor removes non-blank text. *)
Lemma blank_normalizeNewlines (s : jsstring) :
  blank (normalizeNewlines s) ↔ blank s.
Proof.
  induction s as [|c|c d t IHt IHd] using list_pair_ind.
  - reflexivity.
  - reflexivity.
  - rewrite normalizeNewlines_cons2.
    destruct ((c =? CR)%N && (d =? LF)%N) eqn:E.
    + apply andb_true_iff in E as [Ec Ed].
      apply N.eqb_eq in Ec, Ed. subst c d.
      unfold blank in *. rewrite !Forall_cons. rewrite IHt.
      rewrite is_ws_LF, is_ws_CR. tauto.
    + unfold blank in *. rewrite (Forall_cons _ c (normalizeNewlines _)).
      rewrite IHd. rewrite (Forall_cons _ c (d :: t)). tauto.
Qed.

Lemma startsWith_double_break (s : jsstring) :
  startsWith double_break s = true ↔ double_break_at s 0.
Proof.
  unfold double_break_at, double_break.
  destruct s as [|a [|b t]]; cbn [startsWith lookup list_lookup].
  - split; [discriminate | intros [H _]; discriminate].
  - rewrite andb_false_r. split; [discriminate | intros [_ H]; discriminate].
  - rewrite andb_true_r, andb_true_iff, !N.eqb_eq.
    split; intros [H1 H2]; split; congruence.
Qed.


Lemma indexOf_cons (pat : jsstring) (c : N) (t : jsstring) :
  indexOf pat (c :: t) =
  if startsWith pat (c :: t) then Some 0 else S <$> indexOf pat t.
Proof. reflexivity. Qed.


Lemma first_double_break_indexOf (s before after : jsstring) :
  first_double_break s before after →
  indexOf double_break s = Some (length before).
Proof.
  revert s. induction before as [|c p IH]; intros s [Hs Hfirst].
  - subst s. reflexivity.
  - subst s. change ((c :: p) ++ double_break ++ after)
      with (c :: (p ++ double_break ++ after)) in *.
    rewrite indexOf_cons.
    destruct (startsWith double_break (c :: p ++ double_break ++ after)) eqn:E.
    + apply startsWith_double_break in E. exfalso.
      apply (Hfirst 0); [cbn; lia | exact E].
    + rewrite (IH (p ++ double_break ++ after)); [reflexivity|].
      split; [reflexivity|]. intros k Hk Hat.
      apply (Hfirst (S k)); [cbn; lia | exact Hat].
Qed.

Lemma indexOf_first_double_break (s : jsstring) (i : nat) :
  indexOf double_break s = Some i →
  first_double_break s (take i s) (drop (i + 2) s).
Proof.
  revert i. induction s as [|c t IH]; intros i.
  - discriminate.
  - rewrite indexOf_cons.
    destruct (startsWith double_break (c :: t)) eqn:E.
    + intros [= <-].
      apply startsWith_double_break in E. destruct E as [E0 E1].
      destruct t as [|d t']; [discriminate|]. cbn in E0, E1.
      injection E0 as ->. injection E1 as ->.
      split; [reflexivity | cbn; intros; lia].
    + destruct (indexOf double_break t) as [j|] eqn:Ej; [|discriminate].
      intros [= <-]. destruct (IH j eq_refl) as [Ht Hfirst].
      split.
      * cbn [take drop Nat.add]. cbn [app]. f_equal. exact Ht.
      * intros [|k] Hk Hat.
        -- apply startsWith_double_break in Hat. congruence.
        -- apply (Hfirst k); [cbn in Hk; lia | exact Hat].
Qed.

Lemma indexOf_None_no_double_break (s : jsstring) :
  indexOf double_break s = None → no_double_break s.
Proof.
  induction s as [|c t IH]; intros E k Hat.
  - destruct Hat as [Hat _]. discriminate.
  - rewrite indexOf_cons in E.
    destruct (startsWith double_break (c :: t)) eqn:Es; [discriminate|].
    destruct (indexOf double_break t) eqn:Et; [discriminate|].
    destruct k as [|k].
    + apply startsWith_double_break in Hat. congruence.
    + now apply (IH eq_refl k).
Qed.

(** Every text either has no double newline or has a first one. *)
Lemma double_break_cases (s : jsstring) :
  no_double_break s ∨ ∃ before after, first_double_break s before after.
Proof.
  destruct (indexOf double_break s) as [i|] eqn:E.
  - right. eauto using indexOf_first_double_break.
  - left. now apply indexOf_None_no_double_break.
Qed.

Lemma first_double_break_parts (s before after : jsstring) :
  first_double_break s before after →
  take (length before) s = before ∧ drop (length before + 2) s = after.
Proof.
  intros [-> _]. split.
  - now rewrite take_app_length.
  - rewrite <- drop_drop, drop_app_length. reflexivity.
Qed.


Lemma first_double_break_unique (s b1 a1 b2 a2 : jsstring) :
  first_double_break s b1 a1 → first_double_break s b2 a2 → b1 = b2 ∧ a1 = a2.
Proof.
  intros H1 H2.
  pose proof (first_double_break_indexOf _ _ _ H1) as E1.
  pose proof (first_double_break_indexOf _ _ _ H2) as E2.
  rewrite E1 in E2. injection E2 as E.
  destruct (first_double_break_parts _ _ _ H1) as [T1 D1].
  destruct (first_double_break_parts _ _ _ H2) as [T2 D2].
  rewrite E in T1, D1. split; congruence.
Qed.






Lemma separate_blank (fullContent : jsstring) (deltaHistory : list jsstring) :
  blank (normalizeNewlines fullContent) →
  separateAssistantResponse fullContent deltaHistory = {| answer := []; thinking := None |}.
Proof.
  intros Hb. unfold separateAssistantResponse.
  apply trim_nil_iff in Hb. now rewrite Hb.
Qed.

Lemma separate_not_blank (fullContent : jsstring) (deltaHistory : list jsstring) :
  ¬ blank (normalizeNewlines fullContent) →
  separateAssistantResponse fullContent deltaHistory =
    match split_at_double_break (normalizeNewlines fullContent) with
    | Some r => r
    | None =>
        match split_at_first_chunk deltaHistory with
        | Some r => r
        | None => {| answer := trimStart (normalizeNewlines fullContent); thinking := None |}
        end
    end.
Proof.
  intros Hb. unfold separateAssistantResponse.
  apply trim_truthy in Hb. now rewrite Hb.
Qed.


End AggregatorFacts.


(* ===================================================================== *)
(** ** Facts about message lists *)
(* ===================================================================== *)

Section MessageListFacts.

Import Aggregator Chat.

Lemma dedupe_from_elem (seen : gset jsstring) (l : list ChatMessage) (m : ChatMessage) :
  m ∈ dedupe_from seen l → m ∈ l ∧ id m ∉ seen.
Proof.
  revert seen. induction l as [|x l IH]; intros seen; cbn [dedupe_from].
  - intros H. inversion H.
  - destruct (decide (id x ∈ seen)) as [Hin|Hout].
    + intros H. destruct (IH _ H). split; [now right | assumption].
    + intros H. apply elem_of_cons in H as [Heq | H].
      * subst m. split; [now left | assumption].
      * destruct (IH _ H) as [H1 H2]. split; [now right|].
        intros Hs. apply H2, elem_of_union. now right.
Qed.

Lemma dedupe_from_unique (seen : gset jsstring) (l : list ChatMessage) :
  unique_ids (dedupe_from seen l).
Proof.
  unfold unique_ids. revert seen.
  induction l as [|x l IH]; intros seen; cbn [dedupe_from].
  - constructor.
  - destruct (decide (id x ∈ seen)); [apply IH|].
    rewrite fmap_cons. constructor; [|apply IH].
    intros Hin. apply list_elem_of_fmap in Hin as (m & Hid & Hm).
    apply dedupe_from_elem in Hm as [_ Hm]. set_solver.
Qed.

Lemma dedupe_from_sublist (seen : gset jsstring) (l : list ChatMessage) :
  dedupe_from seen l `sublist_of` l.
Proof.
  revert seen. induction l as [|x l IH]; intros seen; cbn [dedupe_from].
  - constructor.
  - destruct (decide (id x ∈ seen)).
    + apply sublist_cons, IH.
    + apply sublist_skip, IH.
Qed.

(** On a list without repeated ids the loop copies its input. *)
Lemma dedupe_from_same (seen : gset jsstring) (l : list ChatMessage) :
  unique_ids l → (∀ m, m ∈ l → id m ∉ seen) → dedupe_from seen l = l.
Proof.
  unfold unique_ids. revert seen.
  induction l as [|x l IH]; intros seen Hnd Hseen; cbn [dedupe_from]; [reflexivity|].
  rewrite fmap_cons in Hnd. apply NoDup_cons in Hnd as [Hx Hnd].
  destruct (decide (id x ∈ seen)) as [Hin|Hout].
  - exfalso. apply (Hseen x); [now left | assumption].
  - f_equal. apply IH; [assumption|].
    intros m Hm. apply not_elem_of_union. split.
    + intros Heq. apply elem_of_singleton in Heq.
      apply Hx. rewrite <- Heq. now apply list_elem_of_fmap_2.
    + apply Hseen. now right.
Qed.

Lemma dedupe_elem (l : list ChatMessage) (m : ChatMessage) :
  m ∈ dedupeMessagesById l → m ∈ l.
Proof. intros H. now apply dedupe_from_elem in H. Qed.

Lemma dedupe_unique (l : list ChatMessage) : unique_ids (dedupeMessagesById l).
Proof. apply dedupe_from_unique. Qed.

Lemma dedupe_same (l : list ChatMessage) : unique_ids l → dedupeMessagesById l = l.
Proof. intros H. apply dedupe_from_same; [assumption | set_solver]. Qed.

(** *** The two readings of "at most one answer per turn" *)

Lemma filter_elem (p : ChatMessage → bool) (l : list ChatMessage) (m : ChatMessage) :
  m ∈ List.filter p l ↔ m ∈ l ∧ p m = true.
Proof. rewrite !list_elem_of_In. apply filter_In. Qed.

Lemma one_answer_pairwise (l : list ChatMessage) :
  one_answer_per_turn l → turn_pairwise l.
Proof.
  intros Hone t m1 m2 Ht H1 H2 P1 P2.
  specialize (Hone t Ht).
  assert (F1 : m1 ∈ List.filter (answers_turn t) l) by now apply filter_elem.
  assert (F2 : m2 ∈ List.filter (answers_turn t) l) by now apply filter_elem.
  destruct (List.filter (answers_turn t) l) as [|x [|y r]].
  - inversion F1.
  - apply list_elem_of_singleton in F1, F2. congruence.
  - cbn in Hone. lia.
Qed.

Lemma pairwise_one_answer (l : list ChatMessage) :
  unique_ids l → turn_pairwise l → one_answer_per_turn l.
Proof.
  unfold unique_ids. intros Hnd Hpair t Ht.
  induction l as [|x l IH]; cbn [List.filter]; [cbn; lia|].
  rewrite fmap_cons in Hnd. apply NoDup_cons in Hnd as [Hx Hnd].
  assert (IH' : length (List.filter (answers_turn t) l) ≤ 1).
  { apply IH; [assumption|]. intros t' m1 m2 Ht' H1 H2.
    apply Hpair; [assumption | now right | now right]. }
  destruct (answers_turn t x) eqn:Px; [|assumption].
  destruct (List.filter (answers_turn t) l) as [|y r] eqn:E; [cbn; lia|].
  exfalso. assert (Hy : y ∈ List.filter (answers_turn t) l) by (rewrite E; now left).
  apply filter_elem in Hy as [Hy Py].
  apply Hx. rewrite (Hpair t x y Ht); [| now left | now right | assumption | assumption].
  now apply list_elem_of_fmap_2.
Qed.

Lemma session_ok_nil : session_ok [].
Proof.
  split; [constructor | split].
  - intros t _. cbn. lia.
  - intros m H. inversion H.
Qed.

Lemma session_ok_sublist (l' l : list ChatMessage) :
  l' `sublist_of` l → session_ok l → session_ok l'.
Proof.
  intros Hsub (Hnd & Hone & Hid). split; [|split].
  - unfold unique_ids in *. apply (sublist_NoDup _ _ Hnd). now apply fmap_sublist.
  - apply pairwise_one_answer.
    + unfold unique_ids in *. apply (sublist_NoDup _ _ Hnd). now apply fmap_sublist.
    + intros t m1 m2 Ht H1 H2. apply (one_answer_pairwise _ Hone t m1 m2 Ht).
      * eapply elem_of_sublist; eassumption.
      * eapply elem_of_sublist; eassumption.
  - intros m Hm. apply Hid. eapply elem_of_sublist; eassumption.
Qed.

(** *** Removing the most recent assistant message *)

Lemma remove_first_assistant_spec (l : list ChatMessage) :
  (Forall (λ m, is_assistant m = false) l ∧ remove_first_assistant l = l) ∨
  ∃ p a q, l = p ++ a :: q ∧ Forall (λ m, is_assistant m = false) p ∧
           is_assistant a = true ∧ remove_first_assistant l = p ++ q.
Proof.
  induction l as [|x l IH]; cbn [remove_first_assistant].
  - left. split; [constructor | reflexivity].
  - destruct (is_assistant x) eqn:Ex.
    + right. exists [], x, l. repeat split; [constructor | assumption].
    + destruct IH as [[Hall Heq] | (p & a & q & -> & Hp & Ha & Heq)].
      * left. split; [now constructor | now rewrite Heq].
      * right. exists (x :: p), a, q. repeat split; try assumption.
        -- now constructor.
        -- cbn. now rewrite Heq.
Qed.

(** The loop removes the last assistant message and nothing else; a list
    without assistant messages is left as it is. *)
Lemma remove_last_assistant_spec (l : list ChatMessage) :
  (Forall (λ m, is_assistant m = false) l ∧ remove_last_assistant l = l) ∨
  ∃ p a q, l = p ++ a :: q ∧ Forall (λ m, is_assistant m = false) q ∧
           is_assistant a = true ∧ remove_last_assistant l = p ++ q.
Proof.
  unfold remove_last_assistant.
  destruct (remove_first_assistant_spec (rev l))
    as [[Hall Heq] | (p & a & q & Hl & Hp & Ha & Heq)].
  - left. split.
    + rewrite <- (rev_involutive l). now apply List.Forall_rev.
    + now rewrite Heq, rev_involutive.
  - right. exists (rev q), a, (rev p). repeat split.
    + rewrite <- (rev_involutive l), Hl, rev_app_distr. cbn [rev].
      now rewrite <- app_assoc.
    + now apply List.Forall_rev.
    + assumption.
    + now rewrite Heq, rev_app_distr.
Qed.

Lemma remove_last_assistant_sublist (l : list ChatMessage) :
  remove_last_assistant l `sublist_of` l.
Proof.
  destruct (remove_last_assistant_spec l) as [[_ ->] | (p & a & q & -> & _ & _ & ->)].
  - reflexivity.
  - apply sublist_app; [reflexivity | apply sublist_cons; reflexivity].
Qed.

(** *** The turn map *)

Lemma turn_map_of_snoc (l : list ChatMessage) (m : ChatMessage) :
  turn_map_of (l ++ [m]) = turn_map_step (turn_map_of l) m.
Proof. unfold turn_map_of. now rewrite foldl_app. Qed.

Lemma turn_map_step_lookup (tm : gmap jsstring jsstring) (m : ChatMessage) (t i : jsstring) :
  turn_map_step tm m !! t = Some i →
  (answers_turn t m = true ∧ truthy t = true ∧ id m = i) ∨ tm !! t = Some i.
Proof.
  unfold turn_map_step, answers_turn, is_assistant.
  destruct (role m); [now right|].
  destruct (turnId m) as [t'|]; [|now right].
  destruct (truthy t') eqn:Et; [|now right].
  destruct (decide (t' = t)) as [->|Hne].
  - rewrite lookup_insert_eq. intros [= <-]. left.
    rewrite bool_decide_eq_true_2 by reflexivity. auto.
  - rewrite lookup_insert_ne by assumption. now right.
Qed.

(** An entry of the turn map names an assistant message of that turn. *)
Lemma turn_map_of_Some (l : list ChatMessage) (t i : jsstring) :
  turn_map_of l !! t = Some i →
  ∃ m, m ∈ l ∧ answers_turn t m = true ∧ truthy t = true ∧ id m = i.
Proof.
  induction l as [|m l IH] using rev_ind.
  - unfold turn_map_of. cbn. now rewrite lookup_empty.
  - rewrite turn_map_of_snoc. intros H.
    apply turn_map_step_lookup in H as [(Ha & Ht & Hi) | H].
    + exists m. split; [apply elem_of_app; right; now left | auto].
    + destruct (IH H) as (m' & Hm' & Hrest). exists m'.
      split; [apply elem_of_app; now left | assumption].
Qed.

(** Every answered turn has an entry. *)
Lemma turn_map_of_is_Some (l : list ChatMessage) (t : jsstring) (m : ChatMessage) :
  m ∈ l → answers_turn t m = true → truthy t = true →
  is_Some (turn_map_of l !! t).
Proof.
  induction l as [|x l IH] using rev_ind; intros Hm Ha Ht.
  - inversion Hm.
  - rewrite turn_map_of_snoc.
    apply elem_of_app in Hm as [Hm | Hm].
    + destruct (IH Hm Ha Ht) as [i Hi].
      unfold turn_map_step. destruct (role x); [eauto|].
      destruct (turnId x) as [t'|]; [|eauto].
      destruct (truthy t'); [|eauto].
      destruct (decide (t' = t)) as [->|Hne].
      * rewrite lookup_insert_eq. eauto.
      * rewrite lookup_insert_ne by assumption. eauto.
    + apply list_elem_of_singleton in Hm. subst x.
      unfold turn_map_step. unfold answers_turn, is_assistant in Ha.
      destruct (role m); [discriminate|].
      apply andb_true_iff in Ha as [_ Ha]. apply bool_decide_eq_true in Ha.
      rewrite Ha, Ht, lookup_insert_eq. eauto.
Qed.

(** With one answer per turn, the entry is the id of that answer. *)
Lemma turn_map_of_answer (l : list ChatMessage) (t i : jsstring) (m : ChatMessage) :
  turn_pairwise l → turn_map_of l !! t = Some i →
  m ∈ l → answers_turn t m = true → id m = i.
Proof.
  intros Hpair Hi Hm Ha.
  destruct (turn_map_of_Some _ _ _ Hi) as (m0 & Hm0 & Ha0 & Ht & <-).
  now apply (Hpair t).
Qed.

(** *** Turn correlation *)

Lemma findIndex_id_None (wanted : jsstring) (l : list ChatMessage) :
  findIndex_id wanted l = None → ∀ m, m ∈ l → id m ≠ wanted.
Proof.
  induction l as [|x l IH]; cbn [findIndex_id]; intros H m Hm.
  - inversion Hm.
  - destruct (decide (id x = wanted)); [discriminate|].
    destruct (findIndex_id wanted l); [discriminate|].
    apply elem_of_cons in Hm as [-> | Hm]; [assumption | now apply IH].
Qed.

Lemma msg_id_truthy (now : Z) (rnd : jsstring) : truthy (msg_id now rnd) = true.
Proof. reflexivity. Qed.

Lemma last_removelast (l : list ChatMessage) (x : ChatMessage) :
  last l = Some x → l = removelast l ++ [x].
Proof.
  intros H. apply last_Some in H as [l' ->]. now rewrite removelast_last.
Qed.

(** The three outcomes of the turn correlation. *)
Lemma correlate_new_turn_cases (base : list ChatMessage)
    (T content stored : jsstring) (th : option jsstring) (t : Stamps) :
  (∃ lastMessage, last base = Some lastMessage ∧ is_assistant lastMessage = true ∧
     finalMessages (correlate_new_turn base T content stored th t) =
       dedupeMessagesById
         (removelast base ++ [with_answer lastMessage stored th (assistant_now t) T])) ∨
  finalMessages (correlate_new_turn base T content stored th t) =
    finalMessages (append_assistant base T stored th t).
Proof.
  unfold correlate_new_turn.
  destruct (last base) as [lastMessage|]; [|now right].
  destruct (is_assistant lastMessage) eqn:Ea; [|now right].
  cbn [andb].
  destruct (truthy (trim (Chat.content lastMessage))
            && (bool_decide (trim (Chat.content lastMessage) = trim stored)
                || bool_decide (trim (Chat.content lastMessage) = trim content)));
    [left; eauto | now right].
Qed.

Lemma correlate_turn_cases (base : list ChatMessage) (tm : gmap jsstring jsstring)
    (T content stored : jsstring) (th : option jsstring) (t : Stamps) :
  (∃ eid, tm !! T = Some eid ∧ truthy eid = true ∧ is_Some (findIndex_id eid base) ∧
     correlate_turn base tm T content stored th t = update_existing base eid T stored th t) ∨
  ((tm !! T = None ∨
    ∃ eid, tm !! T = Some eid ∧ (truthy eid = false ∨ findIndex_id eid base = None)) ∧
   correlate_turn base tm T content stored th t =
     correlate_new_turn base T content stored th t).
Proof.
  unfold correlate_turn.
  destruct (tm !! T) as [eid|] eqn:Etm.
  - destruct (truthy eid) eqn:Et.
    + destruct (findIndex_id eid base) as [i|] eqn:Ei.
      * left. exists eid. repeat split; eauto.
      * right. split; [right; exists eid; auto | reflexivity].
    + right. split; [right; exists eid; auto | reflexivity].
  - right. split; [now left | reflexivity].
Qed.

End MessageListFacts.

(* ===================================================================== *)
(** ** Turn correlation keeps the message list well formed *)
(* ===================================================================== *)

Section CorrelationInvariant.

Import Aggregator Chat.

Variables (newMessages base : list ChatMessage).
Variables (T content stored : jsstring) (th : option jsstring) (t : Stamps).

Hypothesis Hok : session_ok newMessages.
Hypothesis Hsub : base `sublist_of` newMessages.

Let tm := turn_map_of newMessages.

Lemma base_elem (m : ChatMessage) : m ∈ base → m ∈ newMessages.
Proof using Hsub. intros H. eapply elem_of_sublist; eassumption. Qed.

Lemma answers_turn_turnId (t' : jsstring) (m : ChatMessage) :
  answers_turn t' m = true → is_assistant m = true ∧ turnId m = Some t'.
Proof.
  unfold answers_turn. intros H. apply andb_true_iff in H as [H1 H2].
  apply bool_decide_eq_true in H2. auto.
Qed.

Lemma answers_turn_with_answer (t' : jsstring) (m : ChatMessage) (ts : Z) :
  answers_turn t' (with_answer m stored th ts T) = true → t' = T.
Proof. intros H. apply answers_turn_turnId in H as [_ H]. cbn in H. congruence. Qed.

(** When the correlation finds no message of the turn, the base list has
    no assistant message of that turn. *)
Lemma no_answer_yet :
  (tm !! T = None ∨
   ∃ eid, tm !! T = Some eid ∧ (truthy eid = false ∨ findIndex_id eid base = None)) →
  truthy T = true → ∀ m, m ∈ base → answers_turn T m = true → False.
Proof using Hok Hsub.
  destruct Hok as (Hnd & Hone & Hid).
  intros Hcase HT m Hm Ha. pose proof (base_elem m Hm) as Hm'.
  destruct Hcase as [Hnone | (eid & Hsome & Hcase)].
  - destruct (turn_map_of_is_Some _ _ _ Hm' Ha HT) as [i Hi].
    unfold tm in Hnone. congruence.
  - assert (Heid : id m = eid).
    { eapply turn_map_of_answer; eauto using one_answer_pairwise. }
    destruct Hcase as [Hfalsy | Hmiss].
    + apply answers_turn_turnId in Ha as [Ha _].
      specialize (Hid m Hm' Ha). congruence.
    + apply (findIndex_id_None _ _ Hmiss m Hm Heid).
Qed.

(** A list that extends messages of the session by one message of the
    turn, none of the others answering that turn. *)
Lemma snoc_session_ok (old : list ChatMessage) (new : ChatMessage) :
  (∀ m, m ∈ old → m ∈ newMessages) →
  turnId new = Some T →
  (truthy T = true → ∀ m, m ∈ old → answers_turn T m = true → False) →
  (is_assistant new = true → truthy (id new) = true) →
  session_ok (dedupeMessagesById (old ++ [new])).
Proof using Hok.
  destruct Hok as (Hnd & Hone & Hid).
  intros Hold Hturn Hfresh Hnew.
  assert (Hcases : ∀ m, m ∈ dedupeMessagesById (old ++ [new]) → m ∈ old ∨ m = new).
  { intros m Hm. apply dedupe_elem, elem_of_app in Hm as [Hm | Hm]; [now left|].
    apply list_elem_of_singleton in Hm. now right. }
  assert (Hpair : turn_pairwise (dedupeMessagesById (old ++ [new]))).
  { intros t' m1 m2 Ht' H1 H2 A1 A2.
    destruct (Hcases _ H1) as [O1 | ->], (Hcases _ H2) as [O2 | ->].
    - apply (one_answer_pairwise _ Hone t'); auto.
    - exfalso. apply answers_turn_turnId in A2 as [_ A2].
      assert (t' = T) by congruence. subst t'. eauto.
    - exfalso. apply answers_turn_turnId in A1 as [_ A1].
      assert (t' = T) by congruence. subst t'. eauto.
    - reflexivity. }
  split; [apply dedupe_unique | split].
  - apply pairwise_one_answer; [apply dedupe_unique | assumption].
  - intros m Hm Ha. destruct (Hcases _ Hm) as [O | ->]; auto.
Qed.

Lemma update_existing_session_ok (eid : jsstring) :
  tm !! T = Some eid →
  session_ok (finalMessages (update_existing base eid T stored th t)).
Proof using Hok Hsub.
  destruct Hok as (Hnd & Hone & Hid). intros Heid.
  unfold update_existing. cbn [finalMessages].
  set (upd := λ m : ChatMessage,
         if decide (id m = eid) then with_answer m stored th (assistant_now t) T else m).
  assert (Hcases : ∀ m', m' ∈ dedupeMessagesById (map upd base) →
            ∃ m, m ∈ base ∧ m' = upd m).
  { intros m' Hm'. apply dedupe_elem in Hm'.
    apply list_elem_of_In, in_map_iff in Hm' as (m & <- & Hm).
    exists m. split; [now apply list_elem_of_In | reflexivity]. }
  assert (Hupd : ∀ m, id (upd m) = id m ∧ is_assistant (upd m) = is_assistant m).
  { intros m. unfold upd. destruct (decide (id m = eid)); auto. }
  assert (Hpair : turn_pairwise (dedupeMessagesById (map upd base))).
  { intros t' m1' m2' Ht' H1 H2 A1 A2.
    destruct (Hcases _ H1) as (m1 & B1 & ->), (Hcases _ H2) as (m2 & B2 & ->).
    rewrite (proj1 (Hupd m1)), (proj1 (Hupd m2)).
    unfold upd in A1, A2.
    destruct (decide (id m1 = eid)) as [E1|N1], (decide (id m2 = eid)) as [E2|N2].
    - congruence.
    - apply answers_turn_with_answer in A1. subst t'.
      exfalso. apply N2.
      eapply turn_map_of_answer; eauto using one_answer_pairwise, base_elem.
    - apply answers_turn_with_answer in A2. subst t'.
      exfalso. apply N1.
      eapply turn_map_of_answer; eauto using one_answer_pairwise, base_elem.
    - apply (one_answer_pairwise _ Hone t'); auto using base_elem. }
  split; [apply dedupe_unique | split].
  - apply pairwise_one_answer; [apply dedupe_unique | assumption].
  - intros m' Hm' Ha. destruct (Hcases _ Hm') as (m & Bm & ->).
    destruct (Hupd m) as [-> Hrole]. rewrite Hrole in Ha.
    apply Hid; auto using base_elem.
Qed.

(** The list produced by the turn correlation is well formed whenever the
    list the turn started from is, and the turn map is the one the effect
    computed from that list. *)
Lemma correlate_turn_session_ok :
  session_ok (finalMessages (correlate_turn base tm T content stored th t)).
Proof using Hok Hsub.
  destruct (correlate_turn_cases base tm T content stored th t)
    as [(eid & Heid & _ & _ & ->) | [Hnone ->]].
  - now apply update_existing_session_ok.
  - pose proof (no_answer_yet Hnone) as Hfresh.
    destruct (correlate_new_turn_cases base T content stored th t)
      as [(lastMessage & Hlast & Ha & ->) | ->].
    + pose proof (last_removelast _ _ Hlast) as Hbase.
      assert (Hin : lastMessage ∈ base).
      { rewrite Hbase. apply elem_of_app. right. now left. }
      apply snoc_session_ok.
      * intros m Hm. apply base_elem. rewrite Hbase. apply elem_of_app. now left.
      * reflexivity.
      * intros HT m Hm. apply Hfresh; [assumption|].
        rewrite Hbase. apply elem_of_app. now left.
      * intros _. destruct Hok as (_ & _ & Hid). cbn [with_answer id].
        apply Hid; [now apply base_elem | assumption].
    + unfold append_assistant. cbn [finalMessages].
      apply snoc_session_ok; auto using base_elem.
Qed.

End CorrelationInvariant.

(* ===================================================================== *)
(** ** Facts about the window machine *)
(* ===================================================================== *)

Section WindowFacts.

Import Aggregator Chat Window.

Lemma read_write_eq (l : nat) (c : list ChatMessage) (st : Component) :
  read (write l c st) l = c.
Proof. unfold read, write. cbn. now rewrite lookup_insert_eq. Qed.

Lemma read_write_ne (l l' : nat) (c : list ChatMessage) (st : Component) :
  l ≠ l' → read (write l c st) l' = read st l'.
Proof. intros H. unfold read, write. cbn. now rewrite lookup_insert_ne. Qed.

Lemma messages_setMessages (c : list ChatMessage) (st : Component) :
  messages (snd (setMessages c st)) = c.
Proof. unfold messages, setMessages, alloc, read, write. cbn. now rewrite lookup_insert_eq. Qed.

(** Starting a request, running the queue and settling a request leave
    the arrays and [messagesRef] alone. *)
Lemma start_request_messages text attached messageId o (st : Component) :
  messages (start_request text attached messageId o st) = messages st.
Proof. reflexivity. Qed.








Lemma write_session_message_fields w (st : Component) :
  let st' := write_session_message w st in
  messagesRef st' = messagesRef st ∧ next_loc st' = next_loc st.
Proof.
  cbv zeta. unfold write_session_message.
  destruct w as [[wanted m]|]; [|auto].
  destruct (session_messages st) as [s|]; [|auto].
  destruct (findIndex_id wanted (read st s)); auto.
Qed.

Lemma correlate_turn_unique (base : list ChatMessage) (tm : gmap jsstring jsstring)
    (T content stored : jsstring) (th : option jsstring) (t : Stamps) :
  unique_ids (finalMessages (correlate_turn base tm T content stored th t)).
Proof.
  destruct (correlate_turn_cases base tm T content stored th t)
    as [(eid & _ & _ & _ & ->) | [_ ->]].
  - apply dedupe_unique.
  - destruct (correlate_new_turn_cases base T content stored th t)
      as [(lastMessage & _ & _ & ->) | ->]; apply dedupe_unique.
Qed.

Lemma unique_ids_sublist (l' l : list ChatMessage) :
  l' `sublist_of` l → unique_ids l → unique_ids l'.
Proof.
  unfold unique_ids. intros Hsub Hnd.
  apply (sublist_NoDup _ _ Hnd). now apply fmap_sublist.
Qed.

Lemma store_user_message_messages (req : Request) (now : Z) (st : Component) :
  messages (store_user_message req now st) =
  dedupeMessagesById
    (messages st ++
     [user_message (r_turnId req) (r_content req) now
        (if 0 <? length (r_images req) then Some (r_images req) else None)]).
Proof.
  unfold store_user_message.
  set (newMessages := dedupeMessagesById _).
  destruct (setMessages newMessages st) as [l' st'] eqn:E.
  change st' with (snd (l', st')). rewrite <- E.
  unfold messages. cbn. apply (messages_setMessages newMessages st).
Qed.

Lemma fail_request_messages (id_now : Z) (rnd : jsstring) (stamp : Z) (st : Component) :
  messages (fail_request id_now rnd stamp st) = messages st.
Proof. unfold fail_request. destruct (isMounted st); reflexivity. Qed.

(** Appending a message that is not an assistant message of any turn. *)
Lemma snoc_outsider_session_ok (l : list ChatMessage) (new : ChatMessage) :
  session_ok l → (∀ t, answers_turn t new = false) →
  (is_assistant new = true → truthy (id new) = true) →
  session_ok (dedupeMessagesById (l ++ [new])).
Proof.
  intros (Hnd & Hone & Hid) Hout Hnew.
  assert (Hcases : ∀ m, m ∈ dedupeMessagesById (l ++ [new]) → m ∈ l ∨ m = new).
  { intros m Hm. apply dedupe_elem, elem_of_app in Hm as [Hm | Hm]; [now left|].
    apply list_elem_of_singleton in Hm. now right. }
  split; [apply dedupe_unique | split].
  - apply pairwise_one_answer; [apply dedupe_unique|].
    intros t' m1 m2 Ht' H1 H2 A1 A2.
    destruct (Hcases _ H1) as [O1 | ->]; [|rewrite Hout in A1; discriminate].
    destruct (Hcases _ H2) as [O2 | ->]; [|rewrite Hout in A2; discriminate].
    apply (one_answer_pairwise _ Hone t'); auto.
  - intros m Hm Ha. destruct (Hcases _ Hm) as [O | ->]; auto.
Qed.

Lemma handleSendMessage_messages inputValue pendingImages now rnd_message rnd_queued
    (st : Component) :
  messages (handleSendMessage inputValue pendingImages now rnd_message rnd_queued st) =
  messages st.
Proof.
  unfold handleSendMessage.
  repeat match goal with |- context [if ?b then _ else _] => destruct b end;
    reflexivity.
Qed.

Lemma find_request_elem (r : nat) (st : Component) (req : Request) :
  find_request r st = Some req → req ∈ requests st ∧ rid req = r.
Proof.
  unfold find_request. intros [Hin Heq]%find_some.
  split; [by apply list_elem_of_In | by apply Nat.eqb_eq].
Qed.

End WindowFacts.

(* ===================================================================== *)
(** ** Empty answers *)
(* ===================================================================== *)

Section EmptyAnswers.

Import Aggregator Chat Window.

Lemma split_at_double_break_answer (text : jsstring) (r : Separated) :
  split_at_double_break text = Some r → ¬ blank (answer r).
Proof.
  unfold split_at_double_break.
  destruct (indexOf double_break text) as [i|]; [|discriminate].
  destruct (truthy _); [|discriminate]. cbn [andb].
  destruct (0 <? length (trim (trimStart (slice_from (i + 2) text)))) eqn:E;
    [|discriminate].
  intros [= <-]. cbn [answer].
  apply trim_trimStart_pos in E. now rewrite blank_trimStart.
Qed.

Lemma split_at_first_chunk_answer (deltaHistory : list jsstring) (r : Separated) :
  split_at_first_chunk deltaHistory = Some r → ¬ blank (answer r).
Proof.
  unfold split_at_first_chunk.
  destruct (1 <? length deltaHistory); [|discriminate].
  destruct (map normalizeNewlines deltaHistory) as [|firstChunk restChunks];
    [discriminate|].
  destruct (truthy _); [|discriminate]. cbn [andb].
  destruct (0 <? length (trim (trimStart (normalizeNewlines (join restChunks))))) eqn:E;
    [|discriminate].
  intros [= <-]. cbn [answer].
  apply trim_trimStart_pos in E. now rewrite blank_trimStart.
Qed.

(** The partition returns a blank answer only for a blank response. *)
Lemma separate_answer_blank (fullContent : jsstring) (deltaHistory : list jsstring) :
  blank (answer (separateAssistantResponse fullContent deltaHistory)) →
  blank fullContent.
Proof.
  intros Hb. apply blank_normalizeNewlines.
  destruct (trim (normalizeNewlines fullContent)) eqn:Et;
    [now apply trim_nil_iff|].
  exfalso. revert Hb.
  assert (Hnb : ¬ blank (normalizeNewlines fullContent)).
  { rewrite <- trim_nil_iff, Et. discriminate. }
  rewrite (separate_not_blank _ _ Hnb).
  destruct (split_at_double_break _) as [r|] eqn:E1;
    [now apply split_at_double_break_answer in E1|].
  destruct (split_at_first_chunk _) as [r|] eqn:E2;
    [now apply split_at_first_chunk_answer in E2|].
  cbn [answer]. now rewrite blank_trimStart.
Qed.



Lemma dedupe_snoc_fresh (l : list ChatMessage) (new : ChatMessage) :
  unique_ids l → id new ∉ id <$> l →
  dedupeMessagesById (l ++ [new]) = l ++ [new].
Proof.
  intros Hu Hfresh. apply dedupe_same. unfold unique_ids in *.
  rewrite fmap_app. apply NoDup_app. split; [assumption | split].
  - intros x Hx Hx'. apply list_elem_of_singleton in Hx'. now subst x.
  - apply NoDup_singleton.
Qed.

End EmptyAnswers.

(* ===================================================================== *)
(** ** Facts about the resolver *)
(* ===================================================================== *)

Section ResolverFacts.

Import Resolver.

Lemma find_first_in (l : list Element) (P : Element → bool) (e : Element) :
  first_in l P e → List.find P l = Some e.
Proof.
  intros (before & after & -> & HP & Hbefore).
  induction before as [|x before IH]; cbn [app List.find].
  - now rewrite HP.
  - rewrite (Hbefore x) by now left. apply IH.
    intros y Hy. apply Hbefore. now right.
Qed.

Lemma find_Some_first_in (l : list Element) (P : Element → bool) (e : Element) :
  List.find P l = Some e → first_in l P e.
Proof.
  induction l as [|x l IH]; cbn [List.find]; [discriminate|].
  destruct (P x) eqn:Px.
  - intros [= <-]. exists [], l. repeat split; [assumption|].
    intros y Hy. inversion Hy.
  - intros H. destruct (IH H) as (before & after & -> & HP & Hbefore).
    exists (x :: before), after. repeat split; [assumption|].
    intros y Hy. apply elem_of_cons in Hy as [-> | Hy]; auto.
Qed.

Lemma find_None_all (l : list Element) (P : Element → bool) :
  (∀ x, x ∈ l → P x = false) → List.find P l = None.
Proof.
  induction l as [|x l IH]; intros H; cbn [List.find]; [reflexivity|].
  rewrite (H x) by now left. apply IH. intros y Hy. apply H. now right.
Qed.

Lemma Qabs_diff_same (x y : Q) : x = y → Qltb (Qabs (x - y)) 5 = true.
Proof.
  intros ->. unfold Qltb. apply negb_true_iff.
  destruct (Qle_bool 5 (Qabs (y - y))) eqn:E; [|reflexivity].
  apply Qle_bool_iff in E. exfalso.
  assert (H : (Qabs (y - y) == 0)%Q).
  { rewrite (Qabs_wd (y - y) 0) by ring. reflexivity. }
  rewrite H in E. now apply (Qle_not_lt _ _ E).
Qed.

(** An element at the recorded rectangle passes the proximity test. *)
Lemma near_same_rect (target : Rect) (c : Element) : rect c = target → near target c = true.
Proof.
  intros <-. unfold near. now rewrite !Qabs_diff_same.
Qed.

Lemma filter_single (l : list Element) (P : Element → bool) (e : Element) :
  e ∈ List.filter P l → length (List.filter P l) = 1 → List.filter P l = [e].
Proof.
  intros He Hlen. destruct (List.filter P l) as [|x [|y r]]; try discriminate.
  apply list_elem_of_singleton in He. now subst.
Qed.

End ResolverFacts.

(* ===================================================================== *)
(** ** Facts about the anchor registry *)
(* ===================================================================== *)

Section AnchorFacts.

Import Resolver Anchor.

Lemma first_resolving_None (page : Page) (priority : list ElementDescriptor) :
  (∀ d, d ∈ priority → resolveElementForDescriptor page d = None) →
  first_resolving page priority = None.
Proof.
  induction priority as [|d rest IH]; intros H; cbn [first_resolving]; [reflexivity|].
  rewrite (H d) by now left. apply IH. intros d' Hd'. apply H. now right.
Qed.

Lemma first_resolving_Some (page : Page) (priority : list ElementDescriptor)
    (descriptor : ElementDescriptor) (element : Element) :
  resolves_first page priority descriptor element →
  first_resolving page priority = Some (descriptor, element).
Proof.
  intros (before & after & -> & Hres & Hbefore).
  induction before as [|b before IH]; cbn [app first_resolving].
  - now rewrite Hres.
  - rewrite (Hbefore b) by now left. apply IH.
    intros d Hd. apply Hbefore. now right.
Qed.

Lemma Qltb_true (x y : Q) : Qltb x y = true ↔ (x < y)%Q.
Proof.
  unfold Qltb. rewrite negb_true_iff. split; intros H.
  - apply Qnot_le_lt. intros Hle. apply Qle_bool_iff in Hle. congruence.
  - destruct (Qle_bool y x) eqn:E; [|reflexivity].
    apply Qle_bool_iff in E. exfalso. now apply (Qle_not_lt _ _ E).
Qed.

Lemma Qltb_false (x y : Q) : Qltb x y = false ↔ (y <= x)%Q.
Proof.
  unfold Qltb. rewrite negb_false_iff. apply Qle_bool_iff.
Qed.

Lemma exceeds_epsilon_true (a b : Q) :
  exceeds_epsilon a b = true ↔ ((1 # 2) < Qabs (a - b))%Q.
Proof. apply Qltb_true. Qed.

Lemma exceeds_epsilon_false (a b : Q) :
  exceeds_epsilon a b = false ↔ (Qabs (a - b) <= (1 # 2))%Q.
Proof. apply Qltb_false. Qed.

(** Adding back the offset that was just inferred gives the position the
    window has. *)
Lemma exceeds_epsilon_inferred (anchor current : Q) :
  exceeds_epsilon (anchor + (current - anchor)) current = false.
Proof.
  apply exceeds_epsilon_false.
  rewrite (Qabs_wd (anchor + (current - anchor) - current) 0) by ring.
  discriminate.
Qed.

Lemma exceeds_epsilon_same (a : Q) : exceeds_epsilon a a = false.
Proof.
  apply exceeds_epsilon_false. rewrite (Qabs_wd (a - a) 0) by ring. discriminate.
Qed.

Lemma cache_under_fields (resolvedKey : option jsstring) (offset : Point) (st : Registry) :
  let st' := cache_under resolvedKey offset st in
  position st' = position st ∧ anchorOffset st' = anchorOffset st ∧
  anchorElementMissing st' = anchorElementMissing st ∧ isDragging st' = isDragging st ∧
  activeAnchorKey st' = activeAnchorKey st ∧ anchorElement st' = anchorElement st.
Proof.
  cbv zeta. unfold cache_under.
  destruct resolvedKey as [k|]; [|repeat split].
  destruct (truthy k); repeat split.
Qed.

Lemma tick_cached (page : Page) (descriptorList : list ElementDescriptor) (st : Registry)
    (d : ElementDescriptor) (element : Element) (offset : Point) :
  registryMounted st = true →
  first_resolving page (priorityDescriptors descriptorList st) = Some (d, element) →
  anchorOffset st = Some offset →
  let st' := ensureAnchorPosition page descriptorList st in
  let next := {| px := left (rect element) + px offset;
                 py := top (rect element) + py offset |} in
  anchorElementMissing st' = false ∧ anchorElement st' = Some element ∧
  anchorOffset st' = Some offset ∧
  position st' =
    if negb (isDragging st)
       && (exceeds_epsilon (px next) (px (position st))
           || exceeds_epsilon (py next) (py (position st)))
    then next else position st.
Proof.
  intros Hmounted Hfirst Hoff. cbv zeta. unfold ensureAnchorPosition.
  rewrite Hmounted, Hfirst. cbn [negb].
  destruct st as [pos off offs key el miss drag mnt]. cbn in Hoff. subst off.
  destruct (descriptorKeyMap descriptorList !! object_id d) as [k|];
    [destruct (truthy k) eqn:Ek; destruct (bool_decide (k = key)) eqn:Eb|];
    destruct drag; cbn; rewrite ?Ek, ?Eb; cbn;
    repeat match goal with
           | |- context [exceeds_epsilon ?a ?b] =>
               destruct (exceeds_epsilon a b) eqn:?
           end; cbn; rewrite ?Ek; cbn; repeat split; reflexivity.
Qed.

Lemma tick_inferred (page : Page) (descriptorList : list ElementDescriptor) (st : Registry)
    (d : ElementDescriptor) (element : Element) :
  registryMounted st = true →
  first_resolving page (priorityDescriptors descriptorList st) = Some (d, element) →
  anchorOffset st = None →
  let st' := ensureAnchorPosition page descriptorList st in
  anchorElementMissing st' = false ∧ anchorElement st' = Some element ∧
  anchorOffset st' =
    Some {| px := px (position st) - left (rect element);
            py := py (position st) - top (rect element) |} ∧
  position st' = position st.
Proof.
  intros Hmounted Hfirst Hoff. cbv zeta. unfold ensureAnchorPosition.
  rewrite Hmounted, Hfirst. cbn [negb].
  destruct st as [pos off offs key el miss drag mnt]. cbn in Hoff. subst off.
  destruct (descriptorKeyMap descriptorList !! object_id d) as [k|];
    [destruct (truthy k) eqn:Ek; destruct (bool_decide (k = key)) eqn:Eb|];
    destruct drag; cbn; rewrite ?Ek, ?Eb; cbn; rewrite ?Ek; cbn;
    rewrite ?exceeds_epsilon_inferred; cbn; rewrite ?Ek; cbn; repeat split; reflexivity.
Qed.
(** The descriptor of the active anchor stays at the head of the priority
    list. *)
Lemma priority_head (descriptorList : list ElementDescriptor) (d : ElementDescriptor)
    (priority : list ElementDescriptor) :
  ∃ rest,
    foldl (fun priority descriptor =>
             if existsb (same_object descriptor) priority then priority
             else priority ++ [descriptor]) (d :: priority) descriptorList = d :: rest.
Proof.
  revert priority. induction descriptorList as [|x l IH]; intros priority; cbn [foldl].
  - eauto.
  - destruct (existsb (same_object x) (d :: priority)); [apply IH|].
    change ((d :: priority) ++ [x]) with (d :: (priority ++ [x])). apply IH.
Qed.

Lemma tick_frame (page : Page) (descriptors : list ElementDescriptor) (st : Registry) :
  isDragging (ensureAnchorPosition page descriptors st) = isDragging st ∧
  registryMounted (ensureAnchorPosition page descriptors st) = registryMounted st.
Proof.
  unfold ensureAnchorPosition.
  destruct (registryMounted st) eqn:Hm; cbn [negb]; [|by rewrite Hm].
  destruct (first_resolving _ _) as [[d element]|]; [|by split].
  destruct st as [pos off offs key el miss drag mnt]. cbn in Hm. subst mnt.
  destruct (descriptorKeyMap descriptors !! object_id d) as [k|];
    [destruct (truthy k) eqn:Ek; destruct (bool_decide (k = key)) eqn:Eb|];
    destruct off, drag; cbn; rewrite ?Ek, ?Eb; cbn;
    repeat match goal with
           | |- context [exceeds_epsilon ?a ?b] =>
               destruct (exceeds_epsilon a b) eqn:?
           end; cbn; rewrite ?Ek; cbn; repeat split; reflexivity.
Qed.

End AnchorFacts.
(* ===================================================================== *)
(** ** What the message operations leave to the dispatch queue *)
(* ===================================================================== *)

Section QueueFrames.

Import Aggregator Chat Window Dispatch.

Lemma splice_same_queue (st : Component) : same_queue st (splice_session_assistant st).
Proof.
  unfold splice_session_assistant, same_queue.
  destruct (clearPreviousAssistant st); [|done].
  destruct (session_messages st); [|done].
  destruct (0 <? _); done.
Qed.

Lemma write_session_message_same_queue w (st : Component) :
  same_queue st (write_session_message w st).
Proof.
  unfold write_session_message, same_queue.
  destruct w as [[wanted m]|]; [|done].
  destruct (session_messages st); [|done].
  destruct (findIndex_id _ _); done.
Qed.

Lemma same_queue_trans (a b c : Component) :
  same_queue a b → same_queue b c → same_queue a c.
Proof.
  unfold same_queue.
  intros (?&?&?&?&?&?&?&?) (?&?&?&?&?&?&?&?). split_and!; congruence.
Qed.

Lemma force_duplicate_same_queue turn stored t base (st : Component) :
  same_queue st (snd (force_duplicate turn stored t base st)).
Proof.
  unfold force_duplicate.
  destruct (shouldForceDuplicate _); [|done].
  destruct (config_persist _); done.
Qed.

Lemma set_turn_entry_same_queue turn entry (st : Component) :
  same_queue st (set_turn_entry turn entry st).
Proof. by destruct entry. Qed.

Lemma complete_stream_same_queue (req : Request) (l : nat) (acc : jsstring) (t : Stamps)
    (st : Component) :
  same_queue st (complete_stream req l acc t st).
Proof.
  unfold complete_stream.
  destruct (isMounted st); cbn [negb]; [|done].
  eapply same_queue_trans; [apply splice_same_queue|].
  generalize (splice_session_assistant st). clear st. intros st.
  destruct (answer_for_storage _ _) as [stored|]; [|done].
  match goal with |- context [force_duplicate ?a ?b ?c ?d ?e] =>
    pose proof (force_duplicate_same_queue a b c d e) as Hf;
    destruct (force_duplicate a b c d e) as [base st1] end.
  cbn [snd] in Hf. eapply same_queue_trans; [exact Hf|].
  match goal with |- context [set_turn_entry ?a ?b ?c] =>
    eapply same_queue_trans; [apply (set_turn_entry_same_queue a b c)|];
    generalize (set_turn_entry a b c) end.
  intros st2.
  match goal with |- context [write_session_message ?w ?s] =>
    eapply same_queue_trans; [apply (write_session_message_same_queue w s)|];
    generalize (write_session_message w s) end.
  intros st3. done.
Qed.

Lemma fail_request_same_queue (id_now : Z) (rnd : jsstring) (stamp : Z) (st : Component) :
  same_queue st (fail_request id_now rnd stamp st).
Proof. unfold fail_request. destruct (isMounted st); done. Qed.

Lemma same_queue_refl (st : Component) : same_queue st st.
Proof. done. Qed.

Lemma apply_messages_updates_same_queue (updates : list MessagesUpdate) (current : nat)
    (st : Component) :
  same_queue st (snd (foldl apply_messages_update (current, st) updates)).
Proof.
  revert current st. induction updates as [|u updates IH]; intros current st; [done|].
  cbn [foldl]. destruct u as [a|errorMessage]; cbn [apply_messages_update].
  - apply IH.
  - match goal with |- context [alloc ?c ?s] => destruct (alloc c s) as [next st1] eqn:E end.
    eapply same_queue_trans; [|apply IH].
    unfold alloc in E. injection E as <- <-. done.
Qed.

Lemma apply_deltas_updates_same_queue (updates : list DeltasUpdate)
    (current : list jsstring) (st : Component) :
  same_queue st (snd (foldl apply_deltas_update (current, st) updates)).
Proof.
  revert current st. induction updates as [|u updates IH]; intros current st; [done|].
  cbn [foldl]. destruct u as [value|chunk]; cbn [apply_deltas_update].
  - apply IH.
  - eapply same_queue_trans; [|apply IH]. done.
Qed.

Lemma render_same_queue (st : Component) : same_queue st (render st).
Proof.
  unfold render. destruct (isMounted st); cbn [negb]; [|done].
  pose proof (apply_messages_updates_same_queue (pendingMessages st) (messagesState st) st)
    as H1.
  destruct (foldl apply_messages_update _ _) as [nextMessages st1]. cbn [snd] in H1.
  eapply same_queue_trans; [exact H1|].
  match goal with |- context [foldl apply_deltas_update (?c, ?s) ?u] =>
    pose proof (apply_deltas_updates_same_queue u c s) as H2;
    destruct (foldl apply_deltas_update (c, s) u) as [nextDeltas st2] end.
  cbn [snd] in H2.
  eapply same_queue_trans; [|eapply same_queue_trans; [exact H2|]]; [done|].
  destruct (_ =? _); done.
Qed.

End QueueFrames.

(* ===================================================================== *)
(** ** The arrays of messages stay well formed *)
(* ===================================================================== *)

Section LedgerLists.

Import Aggregator Chat Window Ledger.

Lemma kept_nil (open : list jsstring) : kept open [].
Proof.
  split_and!; [constructor | intros t _; cbn; lia|].
  intros T _ m Hm. by apply elem_of_nil in Hm.
Qed.

Lemma kept_sublist (open : list jsstring) (c' c : list ChatMessage) :
  c' `sublist_of` c → kept open c → kept open c'.
Proof.
  intros Hsub (Hnd & Hone & Hun).
  assert (unique_ids c') as Hnd' by by eapply unique_ids_sublist.
  split_and!; [done| |].
  - apply pairwise_one_answer; [done|].
    intros t m1 m2 Ht H1 H2. apply (one_answer_pairwise _ Hone t m1 m2 Ht).
    + by eapply elem_of_sublist.
    + by eapply elem_of_sublist.
  - intros T HT m Hm. apply (Hun T HT). by eapply elem_of_sublist.
Qed.

Lemma kept_weaken (open open' : list jsstring) (c : list ChatMessage) :
  (∀ T, T ∈ open' → T ∈ open) → kept open c → kept open' c.
Proof. intros Hsub (? & ? & Hun). split_and!; [done..|]. intros T HT. by apply Hun, Hsub. Qed.

Lemma snoc_cases (c : list ChatMessage) (new m : ChatMessage) :
  m ∈ dedupeMessagesById (c ++ [new]) → m ∈ c ∨ m = new.
Proof.
  intros Hm. apply dedupe_elem, elem_of_app in Hm as [Hm | Hm]; [by left|].
  apply list_elem_of_singleton in Hm. by right.
Qed.

Lemma kept_snoc_outsider (open : list jsstring) (c : list ChatMessage) (new : ChatMessage) :
  kept open c → outsider new → kept open (dedupeMessagesById (c ++ [new])).
Proof.
  intros (Hnd & Hone & Hun) Hout. split_and!.
  - apply dedupe_unique.
  - apply pairwise_one_answer; [apply dedupe_unique|].
    intros t m1 m2 Ht H1 H2 A1 A2.
    destruct (snoc_cases _ _ _ H1) as [O1 | ->]; [|by rewrite Hout in A1].
    destruct (snoc_cases _ _ _ H2) as [O2 | ->]; [|by rewrite Hout in A2].
    by apply (one_answer_pairwise _ Hone t).
  - intros T HT m Hm. destruct (snoc_cases _ _ _ Hm) as [O | ->]; [by apply (Hun T HT)|].
    apply Hout.
Qed.

Lemma user_message_outsider turn text now imgs : outsider (user_message turn text now imgs).
Proof. done. Qed.

Lemma error_message_outsider now rnd stamp : outsider (error_message now rnd stamp).
Proof. done. Qed.

Lemma answers_turn_true (t : jsstring) (m : ChatMessage) :
  answers_turn t m = true ↔ is_assistant m = true ∧ turnId m = Some t.
Proof.
  unfold answers_turn. rewrite andb_true_iff, bool_decide_eq_true. done.
Qed.

Lemma answers_with_answer (t' T stored : jsstring) th (m : ChatMessage) (ts : Z) :
  answers_turn t' (with_answer m stored th ts T) = true → t' = T.
Proof. intros H. apply answers_turn_true in H as [_ H]. cbn in H. congruence. Qed.

(** A kept list is a base for the correlation of a turn it does not
    answer, whatever the turn map holds. *)
Lemma kept_base_ok (open open' : list jsstring) (tm : gmap jsstring jsstring) (T : jsstring)
    (base : list ChatMessage) :
  kept open base → T ∈ open → (∀ T', T' ∈ open' → T' ∈ open) →
  base_ok open' tm T base.
Proof.
  intros (Hnd & Hone & Hun) HT Hsub. split_and!.
  - intros t m1 m2 Ht _ H1 H2 A1 A2. by apply (one_answer_pairwise _ Hone t).
  - intros m Hm Ha. by rewrite (Hun T HT m Hm) in Ha.
  - intros T' HT'. by apply Hun, Hsub.
Qed.

(** The forced duplicate of the test harness keeps the base usable: it is
    the only answer of the turn and the turn map names it. *)
Lemma forced_base_ok (open open' : list jsstring) (tm : gmap jsstring jsstring)
    (T : jsstring) (base : list ChatMessage) (forcedId stored : jsstring) th (now : Z) :
  kept open base → T ∈ open → (∀ T', T' ∈ open' → T' ∈ open ∧ T' ≠ T) →
  truthy forcedId = true →
  base_ok open' (<[T := forcedId]> tm) T
    (base ++ [assistant_message forcedId stored th now T]).
Proof.
  intros (Hnd & Hone & Hun) HT Hsub Hf.
  set (F := assistant_message forcedId stored th now T).
  assert (∀ t, answers_turn t F = true → t = T) as HF.
  { intros t Ha. apply answers_turn_true in Ha as [_ Ha]. cbn in Ha. congruence. }
  split_and!.
  - intros t m1 m2 Ht Hne [H1 | ->%list_elem_of_singleton]%elem_of_app
      [H2 | ->%list_elem_of_singleton]%elem_of_app A1 A2.
    + by apply (one_answer_pairwise _ Hone t).
    + by apply HF in A2.
    + by apply HF in A1.
    + done.
  - intros m [Hm | ->%list_elem_of_singleton]%elem_of_app Ha.
    + by rewrite (Hun T HT m Hm) in Ha.
    + by rewrite lookup_insert_eq.
  - intros T' HT' m [Hm | ->%list_elem_of_singleton]%elem_of_app.
    + apply (Hun T'); [|done]. by apply Hsub.
    + destruct (answers_turn T' F) eqn:Ha; [|done].
      apply HF in Ha. subst T'. by destruct (Hsub T HT').
Qed.

(** In a usable base that the turn map gives no message for, nothing
    answers the turn. *)
Lemma base_ok_unanswered (open : list jsstring) (tm : gmap jsstring jsstring) (T : jsstring)
    (base : list ChatMessage) :
  base_ok open tm T base →
  (tm !! T = None ∨
   ∃ eid, tm !! T = Some eid ∧ (truthy eid = false ∨ findIndex_id eid base = None)) →
  unanswered T base.
Proof.
  intros (_ & Hmap & _) Hcase m Hm.
  destruct (answers_turn T m) eqn:Ha; [|done]. exfalso.
  destruct (Hmap m Hm Ha) as [Htm Hid].
  destruct Hcase as [Hnone | (eid & Hsome & [Hfalsy | Hmiss])].
  - congruence.
  - assert (eid = id m) as -> by congruence. congruence.
  - assert (eid = id m) as -> by congruence.
    by apply (findIndex_id_None _ _ Hmiss m Hm).
Qed.

(** A list that extends part of a usable base by one message of the
    turn, the base not answering the turn. *)
Lemma snoc_kept (open : list jsstring) (tm : gmap jsstring jsstring) (T : jsstring)
    (base old : list ChatMessage) (new : ChatMessage) :
  base_ok open tm T base → unanswered T base → T ∉ open →
  (∀ m, m ∈ old → m ∈ base) →
  turnId new = Some T →
  kept open (dedupeMessagesById (old ++ [new])).
Proof.
  intros (Hpair & _ & Hun) HT Hopen Hold Hturn.
  assert (Hcases : ∀ m, m ∈ dedupeMessagesById (old ++ [new]) → m ∈ base ∨ m = new).
  { intros m Hm. destruct (snoc_cases _ _ _ Hm) as [?|?]; [left; by apply Hold | by right]. }
  assert (Hnew_turn : ∀ t, answers_turn t new = true → t = T).
  { intros t Ha. apply answers_turn_true in Ha as [_ Ha]. congruence. }
  split_and!.
  - apply dedupe_unique.
  - apply pairwise_one_answer; [apply dedupe_unique|].
    intros t m1 m2 Ht H1 H2 A1 A2.
    destruct (Hcases _ H1) as [O1 | ->], (Hcases _ H2) as [O2 | ->].
    + destruct (decide (t = T)) as [->|Hne]; [by rewrite (HT m1 O1) in A1|].
      by apply (Hpair t).
    + apply Hnew_turn in A2 as ->. by rewrite (HT m1 O1) in A1.
    + apply Hnew_turn in A1 as ->. by rewrite (HT m2 O2) in A2.
    + done.
  - intros T' HT' m Hm. destruct (Hcases _ Hm) as [O | ->]; [by apply (Hun T')|].
    destruct (answers_turn T' new) eqn:Ha; [|done].
    apply Hnew_turn in Ha as ->. done.
Qed.

Lemma update_existing_kept (open : list jsstring) (tm : gmap jsstring jsstring)
    (T stored eid : jsstring) th (t : Stamps) (base : list ChatMessage) :
  base_ok open tm T base → T ∉ open → tm !! T = Some eid →
  kept open (finalMessages (update_existing base eid T stored th t)).
Proof.
  intros (Hpair & Hmap & Hun) Hopen Heid.
  unfold update_existing. cbn [finalMessages].
  set (upd := λ m : ChatMessage,
         if decide (id m = eid) then with_answer m stored th (assistant_now t) T else m).
  assert (Hcases : ∀ m', m' ∈ dedupeMessagesById (map upd base) →
            ∃ m, m ∈ base ∧ m' = upd m).
  { intros m' Hm'. apply dedupe_elem in Hm'.
    apply list_elem_of_In, in_map_iff in Hm' as (m & <- & Hm).
    exists m. split; [by apply list_elem_of_In | done]. }
  assert (Hupd : ∀ m, id (upd m) = id m).
  { intros m. unfold upd. by destruct (decide (id m = eid)). }
  assert (Hans : ∀ t' m, m ∈ base → answers_turn t' (upd m) = true →
            (t' = T ∧ id m = eid) ∨ (t' ≠ T ∧ upd m = m ∧ answers_turn t' m = true)).
  { intros t' m Hm Ha. unfold upd in *.
    destruct (decide (id m = eid)) as [E|N].
    - left. split; [|done]. by apply answers_with_answer in Ha.
    - destruct (decide (t' = T)) as [->|Hne]; [|by right].
      destruct (Hmap m Hm Ha) as [? _]. congruence. }
  split_and!.
  - apply dedupe_unique.
  - apply pairwise_one_answer; [apply dedupe_unique|].
    intros t' m1' m2' Ht' H1 H2 A1 A2.
    destruct (Hcases _ H1) as (m1 & B1 & ->), (Hcases _ H2) as (m2 & B2 & ->).
    rewrite (Hupd m1), (Hupd m2).
    destruct (Hans t' m1 B1 A1) as [[? E1] | (N1 & _ & O1)],
             (Hans t' m2 B2 A2) as [[? E2] | (N2 & _ & O2)]; try congruence.
    by apply (Hpair t').
  - intros T' HT' m' Hm'. destruct (Hcases _ Hm') as (m & Bm & ->).
    destruct (answers_turn T' (upd m)) eqn:Ha; [|done].
    destruct (Hans T' m Bm Ha) as [[-> _] | (_ & _ & O)]; [done|].
    by rewrite (Hun T' HT' m Bm) in O.
Qed.

Lemma find_id_Some (wanted : jsstring) (l : list ChatMessage) (m : ChatMessage) :
  find_id wanted l = Some m → id m = wanted ∧ m ∈ l.
Proof.
  induction l as [|x l IH]; cbn [find_id]; [done|].
  destruct (decide (id x = wanted)); [intros [= <-]; split; [done | by left]|].
  intros H. destruct (IH H). split; [done | by right].
Qed.

(** The list produced by the turn correlation has no repeated id, at most
    one assistant message per turn, and answers no other turn that waits;
    and what it writes into [session.messages] is a message of the turn
    that keeps the id it is looked up by. *)
Lemma correlate_turn_kept (open : list jsstring) (tm : gmap jsstring jsstring)
    (T content stored : jsstring) th (t : Stamps) (base : list ChatMessage) :
  base_ok open tm T base → T ∉ open →
  let c := correlate_turn base tm T content stored th t in
  kept open (finalMessages c) ∧
  ∀ wanted m, sessionWrite c = Some (wanted, m) → id m = wanted ∧ turnId m = Some T.
Proof.
  intros Hbase Hopen. cbv zeta.
  destruct (correlate_turn_cases base tm T content stored th t)
    as [(eid & Heid & Htruthy & Hfound & ->) | [Hnone ->]].
  - split; [by eapply update_existing_kept|].
    intros wanted m. unfold update_existing. cbn [sessionWrite].
    destruct (find_id eid _) as [m'|] eqn:Hfind; [|done]. cbn. intros [= <- <-].
    apply find_id_Some in Hfind as [Hid' Hin]. split; [done|].
    apply dedupe_elem, list_elem_of_In, in_map_iff in Hin as (m0 & <- & _).
    by destruct (decide (id m0 = eid)) as [E|N].
  - pose proof (base_ok_unanswered _ _ _ _ Hbase Hnone) as Hfresh.
    unfold correlate_new_turn.
    destruct (last base) as [lastMessage|] eqn:Hlast.
    + destruct (is_assistant lastMessage && _ && _) eqn:Hsame.
      * pose proof (last_removelast _ _ Hlast) as Hb.
        split.
        -- cbn [finalMessages]. eapply (snoc_kept open tm T base); try done.
           intros m Hm. rewrite Hb. apply elem_of_app. by left.
        -- cbn [sessionWrite]. by intros wanted m [= <- <-].
      * split; [|done]. cbn [finalMessages append_assistant].
        eapply (snoc_kept open tm T base); done.
    + split; [|done]. cbn [finalMessages append_assistant].
      eapply (snoc_kept open tm T base); done.
Qed.

Lemma findIndex_id_Some (wanted : jsstring) (l : list ChatMessage) (i : nat) :
  findIndex_id wanted l = Some i → ∃ x, l !! i = Some x ∧ id x = wanted.
Proof.
  revert i. induction l as [|y l IH]; intros i; cbn; [done|].
  destruct (decide (id y = wanted)) as [E|N]; [intros [= <-]; by exists y|].
  destruct (findIndex_id wanted l) as [j|]; [|done]. cbn. intros [= <-].
  by apply IH.
Qed.

(** [session.messages[sessionIndex] = m] for a message of the turn that
    keeps the id of the element it replaces. *)
Lemma kept_insert (open open' : list jsstring) (T wanted : jsstring)
    (s : list ChatMessage) (sessionIndex : nat) (m : ChatMessage) :
  kept open s → T ∈ open → (∀ T', T' ∈ open' → T' ∈ open ∧ T' ≠ T) →
  findIndex_id wanted s = Some sessionIndex →
  id m = wanted → turnId m = Some T →
  kept open' (<[sessionIndex := m]> s).
Proof.
  intros (Hnd & Hone & Hun) HT Hsub Hidx Hm Hturn.
  destruct (findIndex_id_Some _ _ _ Hidx) as (x & Hx & Hxid).
  assert (Hcases : ∀ m', m' ∈ <[sessionIndex := m]> s → m' ∈ s ∨ m' = m).
  { intros m' Hm'. apply list_elem_of_lookup_1 in Hm' as [j Hj].
    destruct (decide (j = sessionIndex)) as [->|Hne].
    - right. rewrite list_lookup_insert_eq in Hj; [congruence|].
      by eapply lookup_lt_Some.
    - left. rewrite list_lookup_insert_ne in Hj by done. by eapply list_elem_of_lookup_2. }
  assert (Hnew_turn : ∀ t, answers_turn t m = true → t = T).
  { intros t Ha. apply answers_turn_true in Ha as [_ Ha]. congruence. }
  assert (Hids : id <$> <[sessionIndex := m]> s = id <$> s).
  { rewrite list_fmap_insert. apply list_insert_id. rewrite list_lookup_fmap, Hx. cbn.
    congruence. }
  assert (unique_ids (<[sessionIndex := m]> s)) as Hnd'.
  { unfold unique_ids. by rewrite Hids. }
  split_and!.
  - done.
  - apply pairwise_one_answer; [done|].
    intros t m1 m2 Ht H1 H2 A1 A2.
    destruct (Hcases _ H1) as [O1 | ->], (Hcases _ H2) as [O2 | ->].
    + by apply (one_answer_pairwise _ Hone t).
    + apply Hnew_turn in A2 as ->. by rewrite (Hun T HT m1 O1) in A1.
    + apply Hnew_turn in A1 as ->. by rewrite (Hun T HT m2 O2) in A2.
    + done.
  - intros T' HT' m' Hm'. destruct (Hsub T' HT') as [HT'o Hne].
    destruct (Hcases _ Hm') as [O | ->]; [by apply (Hun T' HT'o)|].
    destruct (answers_turn T' m) eqn:Ha; [|done]. by apply Hnew_turn in Ha.
Qed.

End LedgerLists.

Section LedgerStore.

Import Aggregator Chat Window Ledger.

Lemma submseteq_NoDup_l {A} (l k : list A) : l ⊆+ k → NoDup k → NoDup l.
Proof.
  intros (l2 & Hsub & Hperm)%submseteq_sublist_l Hk.
  eapply sublist_NoDup; [|exact Hsub]. by rewrite Hperm.
Qed.

(** *** Arrays *)

Lemma every_array_heap (P : list ChatMessage → Prop) (st st' : Component) :
  heap st' = heap st → every_array P st → every_array P st'.
Proof. intros Hh H l. unfold read. rewrite Hh. apply H. Qed.

Lemma every_array_impl (P Q : list ChatMessage → Prop) (st : Component) :
  (∀ c, P c → Q c) → every_array P st → every_array Q st.
Proof. intros HPQ H l. apply HPQ, H. Qed.

Lemma every_array_write (P : list ChatMessage → Prop) (l : nat) (c : list ChatMessage)
    (st : Component) :
  P c → every_array P st → every_array P (write l c st).
Proof.
  intros Hc H l'. destruct (decide (l = l')) as [->|Hne].
  - by rewrite read_write_eq.
  - by rewrite read_write_ne.
Qed.

Lemma every_array_alloc (P : list ChatMessage → Prop) (c : list ChatMessage)
    (st : Component) :
  P c → every_array P st → every_array P (snd (alloc c st)).
Proof.
  intros Hc H. unfold alloc. cbn [snd].
  eapply every_array_heap; [|by apply (every_array_write P (next_loc st) c st)]. done.
Qed.

Lemma every_array_setMessages (P : list ChatMessage → Prop) (c : list ChatMessage)
    (st : Component) :
  P c → every_array P st → every_array P (snd (setMessages c st)).
Proof.
  intros Hc H. unfold setMessages.
  pose proof (every_array_alloc P c st Hc H) as Ha.
  destruct (alloc c st) as [l st1]. cbn [snd] in *.
  eapply every_array_heap; [|exact Ha]. done.
Qed.

(** *** Operations that leave the arrays alone *)

Lemma same_store_refl (st : Component) : same_store st st.
Proof. done. Qed.

Lemma same_store_trans (a b c : Component) :
  same_store a b → same_store b c → same_store a c.
Proof. intros [? ?] [? ?]. split; congruence. Qed.

Lemma start_request_same_store text attached messageId o (st : Component) :
  same_store st (start_request text attached messageId o st).
Proof. done. Qed.

Lemma processQueue_same_store (st : Component) : same_store st (processQueue st).
Proof.
  unfold processQueue. destruct (isMounted st); cbn [negb]; [|done].
  destruct (messageQueue st); [done|]. by destruct (isProcessingQueue st).
Qed.

Lemma finally_block_same_store (st : Component) : same_store st (finally_block st).
Proof.
  unfold finally_block.
  change (isMounted (set_isSending false st)) with (isMounted st).
  destruct (isMounted st); cbn [negb]; [|done].
  match goal with |- context [if ?b then _ else _] => destruct b end; [|done].
  eapply same_store_trans; [|apply processQueue_same_store]. done.
Qed.

Lemma continuation_same_store o now_after (st : Component) :
  same_store st (continuation o now_after st).
Proof.
  unfold continuation. destruct o.
  - match goal with |- context [if ?b then _ else _] => destruct b end; [|done].
    eapply same_store_trans; [|apply processQueue_same_store]. done.
  - match goal with |- context [if ?b then _ else _] => destruct b end; done.
Qed.

Lemma settle_same_store req now_after (st : Component) :
  same_store st (settle req now_after st).
Proof.
  unfold settle.
  eapply same_store_trans; [|apply continuation_same_store].
  eapply same_store_trans; [|apply finally_block_same_store]. done.
Qed.

Lemma handleSendMessage_same_store inputValue pendingImages now rnd_message rnd_queued
    (st : Component) :
  same_store st (handleSendMessage inputValue pendingImages now rnd_message rnd_queued st).
Proof.
  unfold handleSendMessage.
  repeat match goal with |- context [if ?b then _ else _] => destruct b end; done.
Qed.

(** *** The turns that wait *)

Lemma pending_turns_processQueue (st : Component) :
  pending_turns (processQueue st) = pending_turns st.
Proof.
  unfold processQueue. destruct (isMounted st); cbn [negb]; [|done].
  destruct (messageQueue st) as [|next rest] eqn:Hq; [done|].
  destruct (isProcessingQueue st); [done|].
  unfold pending_turns. cbn. rewrite Hq, fmap_app, <- app_assoc. done.
Qed.

Lemma pending_turns_finally_block (st : Component) :
  pending_turns (finally_block st) = pending_turns st.
Proof.
  unfold finally_block.
  change (isMounted (set_isSending false st)) with (isMounted st).
  destruct (isMounted st); cbn [negb]; [|done].
  match goal with |- context [if ?b then _ else _] => destruct b end; [|done].
  by rewrite pending_turns_processQueue.
Qed.

Lemma pending_turns_continuation o now_after (st : Component) :
  pending_turns (continuation o now_after st) = pending_turns st.
Proof.
  unfold continuation. destruct o.
  - match goal with |- context [if ?b then _ else _] => destruct b end; [|done].
    by rewrite pending_turns_processQueue.
  - match goal with |- context [if ?b then _ else _] => destruct b end; done.
Qed.

Lemma dropped_turn (R : list Request) (req : Request) :
  NoDup (r_turnId <$> R) → req ∈ R →
  r_turnId req ∉ r_turnId <$> List.filter (fun q => negb (rid q =? rid req)) R.
Proof.
  induction R as [|q R IH]; intros Hnd Hin; [by apply elem_of_nil in Hin|].
  rewrite fmap_cons in Hnd. apply NoDup_cons in Hnd as [Hq Hnd].
  cbn [List.filter].
  apply elem_of_cons in Hin as [->|Hin].
  - rewrite Nat.eqb_refl. cbn [negb].
    intros (x & Hx & Hin)%list_elem_of_fmap. apply Hq. rewrite Hx.
    apply list_elem_of_fmap_2. apply list_elem_of_In in Hin.
    apply filter_In in Hin as [Hin _]. by apply list_elem_of_In.
  - destruct (negb (rid q =? rid req)); [|by apply IH].
    rewrite fmap_cons. intros [Heq|Hin']%elem_of_cons; [|by apply IH in Hin'].
    apply Hq. rewrite <- Heq. by apply list_elem_of_fmap_2.
Qed.

Lemma filter_sublist_of {A} (p : A → bool) (l : list A) : List.filter p l `sublist_of` l.
Proof.
  induction l as [|x l IH]; [done|]. cbn.
  destruct (p x); [by apply sublist_skip | by apply sublist_cons].
Qed.

(** Settling a call takes its turn off the turns that wait and adds none. *)
Lemma pending_turns_settle (req : Request) (now_after : Z) (st : Component)
    (future : list jsstring) :
  NoDup (pending_turns st ++ future) → req ∈ requests st →
  pending_turns (settle req now_after st) ++ future `sublist_of` pending_turns st ++ future ∧
  r_turnId req ∉ pending_turns (settle req now_after st) ++ future.
Proof.
  intros Hnd Hin. unfold settle.
  rewrite pending_turns_continuation, pending_turns_finally_block.
  unfold pending_turns, drop_request. cbn [requests messageQueue set_requests].
  split.
  - apply sublist_app; [|done]. apply sublist_app; [|done].
    apply fmap_sublist, filter_sublist_of.
  - unfold pending_turns in Hnd. rewrite <- app_assoc in Hnd.
    apply NoDup_app in Hnd as (Hr & Hdisj & _).
    rewrite <- app_assoc. intros [Hd|Hrest]%elem_of_app.
    + by apply (dropped_turn _ _ Hr Hin).
    + apply (Hdisj (r_turnId req)); [by apply list_elem_of_fmap_2 | done].
Qed.

Lemma pending_turns_same_queue (st st' : Component) :
  Dispatch.same_queue st st' → pending_turns st' = pending_turns st.
Proof. intros (HR & _ & _ & HQ & _). unfold pending_turns. by rewrite HR, HQ. Qed.

Lemma pending_turns_set_stage (r : nat) (s : Stage) (st : Component) :
  pending_turns (set_stage r s st) = pending_turns st.
Proof.
  unfold pending_turns, set_stage. cbn [requests messageQueue set_requests].
  f_equal. rewrite <- list_fmap_compose. apply list_fmap_ext.
  intros i q _. cbn. by destruct (rid q =? r).
Qed.

Lemma pending_turns_submit inputValue pendingImages now rnd_message rnd_queued
    (st : Component) (future : list jsstring) :
  pending_turns (handleSendMessage inputValue pendingImages now rnd_message rnd_queued st)
    ++ future
  ⊆+ pending_turns st ++ msg_id now rnd_message :: future.
Proof.
  assert (pending_turns st ++ future ⊆+ pending_turns st ++ msg_id now rnd_message :: future)
    as Hskip.
  { apply submseteq_skips_l, submseteq_cons, reflexivity. }
  unfold handleSendMessage.
  destruct (_ && _); [done|].
  match goal with |- context [if ?b then st else _] => destruct b end; [done|].
  cbn zeta. cbn [isStreaming isProcessingQueue isSending set_lastSubmittedMessage].
  destruct (_ || _).
  - destruct (existsb _ _); [done|].
    unfold pending_turns. cbn. rewrite fmap_app, <- !app_assoc. cbn. done.
  - unfold pending_turns. cbn. rewrite fmap_app, <- !app_assoc. cbn.
    apply submseteq_skips_l. apply Permutation_submseteq.
    rewrite (Permutation_middle (q_messageId <$> messageQueue st)). done.
Qed.

End LedgerStore.

Section LedgerSteps.

Import Aggregator Chat Window Dispatch Ledger.

Lemma updates_ok_same (st st' : Component) :
  pendingMessages st' = pendingMessages st → updates_ok st → updates_ok st'.
Proof. intros Hp H e. rewrite Hp. apply H. Qed.

Lemma updates_ok_set (st st' : Component) (a : nat) :
  pendingMessages st' = pendingMessages st ++ [SetMessagesTo a] →
  updates_ok st → updates_ok st'.
Proof.
  intros Hp H e. rewrite Hp. intros [Hin | Hin%list_elem_of_singleton]%elem_of_app;
    [by apply H | done].
Qed.

Lemma setMessages_pending (c : list ChatMessage) (st : Component) :
  pendingMessages (snd (setMessages c st))
  = pendingMessages st ++ [SetMessagesTo (fst (setMessages c st))].
Proof. done. Qed.

(** *** The user message of a turn is stored *)

Lemma store_user_message_ledger (req : Request) (now : Z) (st : Component)
    (open : list jsstring) :
  every_array (kept open) st → updates_ok st →
  every_array (kept open) (store_user_message req now st) ∧
  updates_ok (store_user_message req now st).
Proof.
  intros Harr Hup. unfold store_user_message.
  set (newMessages := dedupeMessagesById _).
  assert (kept open newMessages) as Hnew.
  { apply kept_snoc_outsider; [apply Harr | apply user_message_outsider]. }
  pose proof (every_array_setMessages _ newMessages st Hnew Harr) as Hset.
  pose proof (setMessages_pending newMessages st) as Hpend.
  destruct (setMessages newMessages st) as [l st1]. cbn [fst snd] in *.
  split.
  - eapply every_array_heap; [|exact Hset]. done.
  - eapply (updates_ok_set st _ l); [|done]. exact Hpend.
Qed.

(** *** A stream is completed *)

Lemma splice_ledger (st : Component) (open : list jsstring) :
  every_array (kept open) st →
  every_array (kept open) (splice_session_assistant st) ∧
  pendingMessages (splice_session_assistant st) = pendingMessages st.
Proof.
  intros Harr. unfold splice_session_assistant.
  destruct (clearPreviousAssistant st); [|done].
  destruct (session_messages st) as [s|]; [|done].
  destruct (0 <? length (read st s)); [|done].
  split; [|done]. apply every_array_write; [|done].
  eapply kept_sublist; [apply remove_last_assistant_sublist | apply Harr].
Qed.

Lemma forced_duplicate_id_truthy (now : Z) (rnd : jsstring) :
  truthy (forced_duplicate_id now rnd) = true.
Proof. reflexivity. Qed.

Lemma force_duplicate_spec (turn : jsstring) (stored : jsstring * option jsstring)
    (t : Stamps) (base : list ChatMessage) (st : Component) :
  let r := force_duplicate turn stored t base st in
  heap (snd r) = heap st ∧ pendingMessages (snd r) = pendingMessages st ∧
  session_messages (snd r) = session_messages st ∧
  ((fst r = base ∧ assistantTurnMap (snd r) = assistantTurnMap st) ∨
   ∃ forcedId now,
     truthy forcedId = true ∧
     fst r = base ++ [assistant_message forcedId (fst stored) (snd stored) now turn] ∧
     assistantTurnMap (snd r) = <[turn := forcedId]> (assistantTurnMap st)).
Proof.
  cbv zeta. unfold force_duplicate.
  destruct (shouldForceDuplicate _); [|split_and!; try done; by left].
  destruct (config_persist _); cbn [fst snd]; (split_and!; [done..|]);
    right; eexists _, _; (split_and!; [apply forced_duplicate_id_truthy | done | done]).
Qed.

Lemma write_session_message_ledger (open open' : list jsstring) (T : jsstring)
    (w : option (jsstring * ChatMessage)) (st : Component) :
  every_array (kept open) st → T ∈ open → (∀ T', T' ∈ open' → T' ∈ open ∧ T' ≠ T) →
  (∀ wanted m, w = Some (wanted, m) → id m = wanted ∧ turnId m = Some T) →
  every_array (kept open') (write_session_message w st) ∧
  pendingMessages (write_session_message w st) = pendingMessages st.
Proof.
  intros Harr HT Hsub Hw.
  assert (every_array (kept open') st) as Harr'.
  { eapply every_array_impl; [|exact Harr]. intros c. apply kept_weaken. intros T' HT'.
    by apply Hsub. }
  unfold write_session_message.
  destruct w as [[wanted m]|]; [|done].
  destruct (session_messages st) as [s|]; [|done].
  destruct (findIndex_id wanted (read st s)) as [sessionIndex|] eqn:Hidx; [|done].
  split; [|done]. apply every_array_write; [|done].
  destruct (Hw wanted m eq_refl) as (Hid & Hturn).
  by eapply (kept_insert open open' T wanted).
Qed.

Lemma complete_stream_ledger (req : Request) (l : nat) (acc : jsstring) (t : Stamps)
    (st : Component) (open open' : list jsstring) :
  every_array (kept open) st → updates_ok st →
  r_turnId req ∈ open → (∀ T', T' ∈ open' → T' ∈ open ∧ T' ≠ r_turnId req) →
  every_array (kept open') (complete_stream req l acc t st) ∧
  updates_ok (complete_stream req l acc t st).
Proof.
  intros Harr Hup HT Hsub.
  assert (∀ s : Component, every_array (kept open) s → every_array (kept open') s) as Hweak.
  { intros s. apply every_array_impl. intros c. apply kept_weaken. intros T' HT'.
    by apply Hsub. }
  assert (r_turnId req ∉ open') as Hout.
  { intros Hin. by destruct (Hsub _ Hin). }
  unfold complete_stream.
  destruct (isMounted st); cbn [negb]; [|by split; [apply Hweak|]].
  destruct (splice_ledger st open Harr) as [Harr1 Hp1].
  assert (updates_ok (splice_session_assistant st)) as Hup1 by by eapply updates_ok_same.
  clear Harr Hup Hp1. revert Harr1 Hup1.
  generalize (splice_session_assistant st). clear st. intros st Harr Hup.
  destruct (answer_for_storage _ _) as [stored|].
  2:{ split; [|done]. apply Hweak. eapply every_array_heap; [|exact Harr]. done. }
  set (base0 := if clearPreviousAssistant st then remove_last_assistant (read st l)
                else read st l).
  assert (kept open base0) as Hbase0.
  { unfold base0. destruct (clearPreviousAssistant st); [|apply Harr].
    eapply kept_sublist; [apply remove_last_assistant_sublist | apply Harr]. }
  destruct (force_duplicate_spec (r_turnId req) stored t base0 st)
    as (Hh & Hp & _ & Hforce).
  destruct (force_duplicate (r_turnId req) stored t base0 st) as [base st1].
  cbn [fst snd] in *.
  assert (base_ok open' (assistantTurnMap st1) (r_turnId req) base) as Hbase.
  { destruct Hforce as [[-> ->] | (forcedId & now & Hf & -> & ->)].
    - eapply kept_base_ok; [exact Hbase0 | exact HT |]. intros T' HT'. by apply Hsub.
    - by eapply forced_base_ok. }
  destruct (correlate_turn_kept open' (assistantTurnMap st1) (r_turnId req)
              (effective_content (testDuplicateConfig st) acc) (fst stored) (snd stored)
              t base Hbase Hout) as [Hfinal Hwrite].
  set (c := correlate_turn _ _ _ _ _ _ _) in *.
  assert (every_array (kept open) (set_turn_entry (r_turnId req) (turnEntry c) st1) ∧
          pendingMessages (set_turn_entry (r_turnId req) (turnEntry c) st1)
          = pendingMessages st) as [Harr2 Hp2].
  { split.
    - eapply every_array_heap; [|exact Harr]. by destruct (turnEntry c).
    - by destruct (turnEntry c). }
  revert Harr2 Hp2. generalize (set_turn_entry (r_turnId req) (turnEntry c) st1).
  intros st2 Harr2 Hp2.
  destruct (write_session_message_ledger open open' (r_turnId req) (sessionWrite c) st2
              Harr2 HT Hsub Hwrite) as [Harr3 Hp3].
  revert Harr3 Hp3. generalize (write_session_message (sessionWrite c) st2).
  intros st3 Harr3 Hp3.
  pose proof (every_array_setMessages _ (finalMessages c) st3 Hfinal Harr3) as Hset.
  pose proof (setMessages_pending (finalMessages c) st3) as Hpend.
  destruct (setMessages (finalMessages c) st3) as [l' st4]. cbn [fst snd] in *.
  split.
  - eapply every_array_heap; [|exact Hset]. done.
  - intros e. cbn. rewrite Hpend, Hp3, Hp2.
    intros [Hin | Hin%list_elem_of_singleton]%elem_of_app; [by apply Hup | done].
Qed.

(** *** A call fails *)

Lemma fail_request_ledger (id_now : Z) (rnd : jsstring) (stamp : Z) (st : Component)
    (open : list jsstring) :
  every_array (kept open) st → updates_ok st →
  every_array (kept open) (fail_request id_now rnd stamp st) ∧
  updates_ok (fail_request id_now rnd stamp st).
Proof.
  intros Harr Hup. unfold fail_request. destruct (isMounted st); cbn [negb]; [|done].
  split.
  - eapply every_array_heap; [|exact Harr]. done.
  - intros e. cbn. intros [Hin | Hin%list_elem_of_singleton]%elem_of_app; [by apply Hup|].
    injection Hin as ->. apply error_message_outsider.
Qed.

(** *** React renders *)

Lemma apply_messages_updates_ledger (open : list jsstring) (updates : list MessagesUpdate)
    (current : nat) (st : Component) :
  (∀ e, AppendError e ∈ updates → outsider e) →
  every_array (kept open) st →
  every_array (kept open) (snd (foldl apply_messages_update (current, st) updates)) ∧
  pendingMessages (snd (foldl apply_messages_update (current, st) updates))
  = pendingMessages st.
Proof.
  revert current st. induction updates as [|u updates IH]; intros current st Hup Harr;
    [done|].
  cbn [foldl]. destruct u as [a|errorMessage]; cbn [apply_messages_update].
  - apply IH; [|done]. intros e He. apply Hup. by right.
  - pose proof (every_array_alloc (kept open)
                  (dedupeMessagesById (read st current ++ [errorMessage])) st) as Ha.
    assert (∀ c (s : Component), pendingMessages (snd (alloc c s)) = pendingMessages s)
      as Hpa by done.
    specialize (Hpa (dedupeMessagesById (read st current ++ [errorMessage])) st).
    destruct (alloc _ st) as [next st1]. cbn [snd] in *.
    destruct (IH next (set_messagesRef next st1)) as [H1 H2].
    + intros e He. apply Hup. by right.
    + eapply every_array_heap; [|apply Ha]; [done| |done].
      apply kept_snoc_outsider; [apply Harr|]. apply Hup. by left.
    + split; [exact H1|]. rewrite H2. exact Hpa.
Qed.

Lemma apply_deltas_updates_store (updates : list DeltasUpdate) (current : list jsstring)
    (st : Component) :
  same_store st (snd (foldl apply_deltas_update (current, st) updates)).
Proof.
  revert current st. induction updates as [|u updates IH]; intros current st; [done|].
  cbn [foldl]. destruct u as [value|chunk]; cbn [apply_deltas_update]; [apply IH|].
  eapply same_store_trans; [|apply IH]. done.
Qed.

Lemma render_ledger (st : Component) (open : list jsstring) :
  every_array (kept open) st → updates_ok st →
  every_array (kept open) (render st) ∧ updates_ok (render st).
Proof.
  intros Harr Hup. unfold render. destruct (isMounted st); cbn [negb]; [|done].
  destruct (apply_messages_updates_ledger open (pendingMessages st) (messagesState st) st
              Hup Harr) as [H1 _].
  destruct (foldl apply_messages_update _ _) as [nextMessages st1]. cbn [snd] in H1.
  match goal with |- context [foldl apply_deltas_update (?c, ?s) ?u] =>
    pose proof (apply_deltas_updates_store u c s) as [Hh Hp];
    destruct (foldl apply_deltas_update (c, s) u) as [nextDeltas st2] end.
  cbn [snd] in Hh, Hp. cbn in Hh, Hp.
  assert (every_array (kept open) st2) as H2 by by eapply every_array_heap.
  assert (pendingMessages st2 = []) as Hnil by done.
  destruct (_ =? _).
  - split; [by eapply every_array_heap|]. intros e. cbn. rewrite Hnil.
    by intros ?%elem_of_nil.
  - split; [by eapply every_array_heap|]. intros e. cbn. rewrite Hnil.
    by intros ?%elem_of_nil.
Qed.

End LedgerSteps.

Section LedgerRuns.

Import Aggregator Chat Window Dispatch Ledger.

Lemma ledger_frame (st st' : Component) (future future' : list jsstring) :
  pending_turns st' ++ future' ⊆+ pending_turns st ++ future →
  same_store st st' →
  ledger st future → ledger st' future'.
Proof.
  intros Hsub [Hh Hp] (Hnd & Harr & Hup). split_and!.
  - by eapply submseteq_NoDup_l.
  - eapply every_array_heap; [exact Hh|].
    eapply every_array_impl; [|exact Harr]. intros c. apply kept_weaken.
    intros T HT. by eapply elem_of_submseteq.
  - by eapply updates_ok_same.
Qed.

Lemma ledger_open (st st' : Component) (future future' : list jsstring) :
  pending_turns st' ++ future' ⊆+ pending_turns st ++ future →
  NoDup (pending_turns st ++ future) →
  every_array (kept (pending_turns st ++ future)) st' → updates_ok st' →
  ledger st' future'.
Proof.
  intros Hsub Hnd Harr Hup. split_and!; [by eapply submseteq_NoDup_l| |done].
  eapply every_array_impl; [|exact Harr]. intros c. apply kept_weaken.
  intros T HT. by eapply elem_of_submseteq.
Qed.

Lemma pending_turns_store_user_message (req : Request) (now : Z) (st : Component) :
  pending_turns (store_user_message req now st) = pending_turns st.
Proof.
  unfold store_user_message.
  destruct (setMessages _ st) as [l st1] eqn:E.
  rewrite pending_turns_set_stage.
  unfold setMessages, alloc in E. by injection E as <- <-.
Qed.

Lemma request_turn_pending (req : Request) (st : Component) (future : list jsstring) :
  req ∈ requests st → r_turnId req ∈ pending_turns st ++ future.
Proof.
  intros Hin. unfold pending_turns. rewrite <- app_assoc. apply elem_of_app. left.
  by apply list_elem_of_fmap_2.
Qed.

(** One event keeps the invariant of the arrays; a submission uses up the
    turn id it generates. *)
Lemma step_ledger (e : Event) (events : list Event) (st : Component) :
  ledger st (submitted (e :: events)) → ledger (step e st) (submitted events).
Proof.
  intros Hl. pose proof Hl as (Hnd & Harr & Hup).
  destruct e; cbn [step]; cbn [submitted omap] in *;
    fold (submitted events) in *.
  - (* Submit *)
    eapply ledger_frame; [|apply handleSendMessage_same_store | exact Hl].
    apply pending_turns_submit.
  - (* UserStored *)
    destruct (find_request r st) as [req|]; [|done].
    destruct (r_stage req); [|done].
    destruct (store_user_message_ledger req now st _ Harr Hup) as [Harr' Hup'].
    eapply (ledger_open st); [|exact Hnd| |done].
    + by rewrite pending_turns_store_user_message.
    + done.
  - (* Chunk *)
    destruct (find_request r st) as [req|] eqn:Hf; [|done].
    apply find_request_elem in Hf as [Hin _].
    destruct (r_stage req); [done|].
    destruct (negb (isMounted st)).
    + eapply ledger_frame; [|apply settle_same_store | exact Hl].
      apply sublist_submseteq. by apply pending_turns_settle.
    + eapply ledger_frame; [| |exact Hl]; [|done].
      assert (∀ v s, pending_turns (set_pendingDeltas v s) = pending_turns s) as -> by done.
      by rewrite pending_turns_set_stage.
  - (* StreamEnd *)
    destruct (find_request r st) as [req|] eqn:Hf; [|done].
    apply find_request_elem in Hf as [Hin _].
    destruct (r_stage req) as [|l acc]; [done|].
    pose proof (complete_stream_same_queue req l acc t st) as Hq.
    pose proof (pending_turns_same_queue _ _ Hq) as Hpq.
    set (st1 := complete_stream req l acc t st) in *.
    assert (req ∈ requests st1) as Hin1.
    { destruct Hq as (-> & _). done. }
    destruct (pending_turns_settle req now_after st1 (submitted events)) as [Hsub Hout];
      [by rewrite Hpq | done |].
    rewrite Hpq in Hsub.
    destruct (complete_stream_ledger req l acc t st
                (pending_turns st ++ submitted events)
                (pending_turns (settle req now_after st1) ++ submitted events)
                Harr Hup) as [Harr1 Hup1].
    { by apply request_turn_pending. }
    { intros T' HT'. split; [by eapply elem_of_sublist|]. intros ->. done. }
    fold st1 in Harr1, Hup1.
    destruct (settle_same_store req now_after st1) as [Hh Hp].
    split_and!.
    + eapply submseteq_NoDup_l; [by apply sublist_submseteq | done].
    + by eapply every_array_heap.
    + by eapply updates_ok_same.
  - (* BackendError *)
    destruct (find_request r st) as [req|] eqn:Hf; [|done].
    apply find_request_elem in Hf as [Hin _].
    pose proof (fail_request_same_queue id_now rnd stamp st) as Hq.
    pose proof (pending_turns_same_queue _ _ Hq) as Hpq.
    set (st1 := fail_request id_now rnd stamp st) in *.
    assert (req ∈ requests st1) as Hin1.
    { destruct Hq as (-> & _). done. }
    destruct (pending_turns_settle req now_after st1 (submitted events)) as [Hsub Hout];
      [by rewrite Hpq | done |].
    rewrite Hpq in Hsub.
    destruct (fail_request_ledger id_now rnd stamp st _ Harr Hup) as [Harr1 Hup1].
    fold st1 in Harr1, Hup1.
    destruct (settle_same_store req now_after st1) as [Hh Hp].
    eapply (ledger_open st); [by apply sublist_submseteq | exact Hnd | |].
    + by eapply every_array_heap.
    + by eapply updates_ok_same.
  - (* TimerFires *)
    destruct (timers st) as [|n]; [done|].
    eapply ledger_frame; [| |exact Hl].
    + by rewrite pending_turns_processQueue.
    + eapply same_store_trans; [|apply processQueue_same_store]. done.
  - (* RemoveQueued *)
    eapply ledger_frame; [| |exact Hl]; [|done].
    apply sublist_submseteq. unfold pending_turns. cbn.
    apply sublist_app; [|done]. apply sublist_app; [done|].
    apply fmap_sublist, filter_sublist_of.
  - (* ClearQueue *)
    eapply ledger_frame; [| |exact Hl]; [|done].
    apply sublist_submseteq. unfold pending_turns. cbn.
    apply sublist_app; [|done]. apply sublist_app; [done|]. apply sublist_nil_l.
  - (* SetClearPrevious *)
    eapply ledger_frame; [| |exact Hl]; done.
  - (* Unmount *)
    eapply ledger_frame; [| |exact Hl]; done.
  - (* Render *)
    destruct (render_ledger st _ Harr Hup) as [Harr' Hup'].
    eapply (ledger_open st); [|exact Hnd|done..].
    by rewrite (pending_turns_same_queue _ _ (render_same_queue st)).
Qed.

Lemma run_ledger (events : list Event) (st : Component) :
  ledger st (submitted events) → ledger (run events st) [].
Proof.
  revert st. induction events as [|e events IH]; intros st Hl; [done|].
  apply (IH (step e st)), step_ledger, Hl.
Qed.

(** A window mounted on a well-formed stored session, whatever the test
    harness is set to. *)
Lemma mounted_ledger (existing : list ChatMessage) (clearPrevious : bool)
    (cfg : TestConfig) (events : list Event) :
  unique_ids existing → one_answer_per_turn existing → fresh_turns existing events →
  ledger (set_testDuplicateConfig cfg (mounted existing clearPrevious)) (submitted events).
Proof.
  intros Hu Hone [Hnd Hfresh]. split_and!; [done| |].
  - intros l. unfold read. cbn.
    destruct (decide (l = 0)) as [->|Hne].
    + rewrite lookup_singleton_eq. cbn. by split_and!.
    + rewrite lookup_singleton_ne by done. apply kept_nil.
  - intros e He. by apply elem_of_nil in He.
Qed.

End LedgerRuns.

(* ===================================================================== *)
(** ** The dragging flag *)
(* ===================================================================== *)

Section DragFacts.

Import Resolver Anchor Collapse Handlers.

Lemma rebase_offset_dragging (nextPosition : Point) (anchorRect : Rect) (st : Registry) :
  isDragging (rebase_offset nextPosition anchorRect st) = isDragging st.
Proof.
  unfold rebase_offset. destruct (anchorElement st); [|done].
  cbn [activeAnchorKey with_anchorOffset]. by destruct (truthy (activeAnchorKey st)).
Qed.

Lemma select_anchor_dragging (page : Page) (descriptorList : list ElementDescriptor)
    (entry : DescriptorEntry) (st : Registry) :
  isDragging (select_anchor page descriptorList entry st) = isDragging st.
Proof.
  unfold select_anchor.
  match goal with |- isDragging (ensureAnchorPosition _ _ ?s) = _ =>
    destruct (tick_frame page descriptorList s) as [-> _] end.
  by destruct (resolveElementForDescriptor page (entry_descriptor entry)).
Qed.

(** Nothing that happens to the window sets the flag. *)
Lemma happen_never_dragging (descriptorList : list ElementDescriptor) (h : Happening)
    (st : Registry * WindowUI) :
  isDragging (fst st) = false → isDragging (fst (happen descriptorList h st)) = false.
Proof.
  intros Hd. destruct h as [page|c|page entry]; cbn [happen fst].
  - by destruct (tick_frame page descriptorList (fst st)) as [-> _].
  - destruct c; cbn [on_callback fst]; try done.
    + unfold handleDragStop. by rewrite rebase_offset_dragging.
    + unfold handleResizeStop. cbn [fst]. by rewrite rebase_offset_dragging.
  - by rewrite select_anchor_dragging.
Qed.

Lemma happenings_never_dragging (descriptorList : list ElementDescriptor)
    (hs : list Happening) (st : Registry * WindowUI) :
  isDragging (fst st) = false → isDragging (fst (happenings descriptorList hs st)) = false.
Proof.
  revert st. induction hs as [|h hs IH]; intros st Hd; [done|].
  apply (IH (happen descriptorList h st)), happen_never_dragging, Hd.
Qed.

Lemma rebase_offset_mounted (nextPosition : Point) (anchorRect : Rect) (st : Registry) :
  registryMounted (rebase_offset nextPosition anchorRect st) = registryMounted st.
Proof.
  unfold rebase_offset. destruct (anchorElement st); [|done].
  cbn [activeAnchorKey with_anchorOffset]. by destruct (truthy (activeAnchorKey st)).
Qed.

Lemma select_anchor_mounted (page : Page) (descriptorList : list ElementDescriptor)
    (entry : DescriptorEntry) (st : Registry) :
  registryMounted (select_anchor page descriptorList entry st) = registryMounted st.
Proof.
  unfold select_anchor.
  match goal with |- registryMounted (ensureAnchorPosition _ _ ?s) = _ =>
    destruct (tick_frame page descriptorList s) as [_ ->] end.
  by destruct (resolveElementForDescriptor page (entry_descriptor entry)).
Qed.

(** The window stays mounted through whatever happens to it. *)
Lemma happenings_mounted (descriptorList : list ElementDescriptor)
    (hs : list Happening) (st : Registry * WindowUI) :
  registryMounted (fst (happenings descriptorList hs st)) = registryMounted (fst st).
Proof.
  revert st. induction hs as [|h hs IH]; intros st; [done|].
  change (happenings descriptorList (h :: hs) st)
    with (happenings descriptorList hs (happen descriptorList h st)).
  rewrite IH. destruct h as [page|c|page entry]; cbn [happen fst].
  - by destruct (tick_frame page descriptorList (fst st)) as [_ ->].
  - destruct c; cbn [on_callback fst]; try done.
    + unfold handleDragStop. by rewrite rebase_offset_mounted.
    + unfold handleResizeStop. cbn [fst]. by rewrite rebase_offset_mounted.
  - by rewrite select_anchor_mounted.
Qed.

End DragFacts.

(* ===================================================================== *)
(** ** C1: partition of a completed response *)
(* ===================================================================== *)

Section PartitionClaim.

Import Aggregator.




End PartitionClaim.

(* ===================================================================== *)
(** ** C2: the dispatch queue *)
(* ===================================================================== *)

Section QueueClaims.

Import Aggregator Chat Window.

(** The part of C2 that holds: B typed while A is being answered is queued,
    nothing but A has been dispatched, and B is dispatched when A's turn
    completes. *)
Lemma queued_behind_in_order :
  dispatched answering_A = [msg_id 0 (lit "a")] ∧
  messageQueue answering_A = [waiting_B] ∧
  dispatched (step (StreamEnd 0 (some_stamps 10 "x") 10) answering_A) =
    [msg_id 0 (lit "a"); msg_id 3 (lit "b")].
Proof. vm_compute. repeat split; reflexivity. Qed.

(** C2 fails on the code.  When the answer to the queued B has arrived,
    [processQueue] clears [isProcessingQueueRef] and only arms a 100 ms
    timer for the next entry C.  A message D typed before that timer fires
    finds no busy flag set, so [handleSendMessage] sends it at once, ahead
    of C; when the timer fires, [processQueue] sends C while D is still
    being answered.  The dispatch order is A, B, D, C and two backend
    requests are in flight together. *)
Theorem late_submission_overtakes_queue :
  let before_D := run (take 7 late_submission) (mounted [] false) in
  let st := run late_submission (mounted [] false) in
  messageQueue before_D = [waiting_C] ∧ timers before_D = 1 ∧
  in_flight before_D = [] ∧
  dispatched st =
    [msg_id 0 (lit "a"); msg_id 3 (lit "b"); msg_id 50 (lit "d"); msg_id 4 (lit "c")] ∧
  map r_turnId (in_flight st) = [msg_id 50 (lit "d"); msg_id 4 (lit "c")] ∧
  length (in_flight st) = 2.
Proof. vm_compute. repeat split; reflexivity. Qed.

End QueueClaims.

Section MessageListClaims.

Import Aggregator Chat Window.

(* ===================================================================== *)
(** ** C4: an empty answer drops the turn *)
(* ===================================================================== *)



(* ===================================================================== *)
(** ** C10: replacing the last assistant reply *)
(* ===================================================================== *)

(** C10 fails on the code.  With the preference switched on and two
    earlier replies in the session, completing a third turn removes both
    of them: [session.messages] is the array [newMessages] itself, so the
    splice on [session.messages] removes the most recent reply from
    [newMessages], and the splice on the copy of [newMessages] removes the
    reply before it.  With the preference switched off nothing is removed. *)
Theorem clear_previous_removes_two_replies :
  map id (messages (run third_turn (mounted two_turns true))) =
    [lit "t1"; lit "t2"; msg_id 5 (lit "aa"); msg_id 8 (lit "zz")] ∧
  map id (messages (run third_turn (mounted two_turns false))) =
    [lit "t1"; lit "a1"; lit "t2"; lit "a2"; msg_id 5 (lit "aa"); msg_id 8 (lit "zz")] ∧
  remove_last_assistant two_turns =
    [asked "t1" "first question" 1; answered "a1" "t1" "first reply" 2;
     asked "t2" "second question" 3].
Proof. vm_compute. repeat split; reflexivity. Qed.

End MessageListClaims.

(* ===================================================================== *)
(** ** C6: resolution order and round trip *)
(* ===================================================================== *)

Section ResolverClaims.

Import Resolver.

(** C6, as the specification words it, fails in its round trip: after a
    re-render has put a copy of the list item before the item the
    descriptor was taken from, that item is still present unchanged, yet
    the selector lookup comes before the chat-id lookup and returns the
    copy. *)
Lemma round_trip_counterexample :
  still_present rerendered_page item_descriptor original_item ∧
  resolveElementForDescriptor rerendered_page item_descriptor = Some inserted_item ∧
  inserted_item ≠ original_item.
Proof.
  split; [|split].
  - split; [right; left | split; [reflexivity | split; [reflexivity|]]].
    split; [|split; reflexivity].
    intros _. exists (fun _ => true). split; reflexivity.
  - reflexivity.
  - discriminate.
Qed.

(** C6 (amended): resolution returns the first success of, in this order,
    the lookup by id, the lookup by selector, the lookup by chat id and the
    structural lookup.  The lookup by id yields the first element of the
    document with the descriptor's id when it is an HTML element; the
    lookup by selector yields the first selected element when it is an
    HTML element, and nothing when the engine rejects the selector; the
    lookup by chat id yields the only match when there is one, and among
    several matches the first HTML element within 5 px of the recorded
    rectangle, else the first match, when it is an HTML element.  An
    element that is still present unchanged is returned when it comes
    first among the elements the deciding lookup considers. *)
Theorem resolution_order (page : Page) (d : ElementDescriptor) :
  let resolved := resolveElementForDescriptor page d in
  let chatMatches := querySelectorAll_chat page (chatId d) in
  (∀ e, by_id page d = Some e → resolved = Some e) ∧
  (by_id page d = None → ∀ e, by_selector page d = Some e → resolved = Some e) ∧
  (by_id page d = None → by_selector page d = None →
   ∀ e, by_chat_id page d = Some e → resolved = Some e) ∧
  (by_id page d = None → by_selector page d = None → by_chat_id page d = None →
   resolved = findElementByDescriptor page d) ∧
  (truthy (d_id d) = true →
   ∀ e, first_in_document page (has_id (d_id d)) e → by_id page d = html_only (Some e)) ∧
  (selects page (cssSelector d) = None → by_selector page d = None) ∧
  (truthy (cssSelector d) = true →
   ∀ selected e, selects page (cssSelector d) = Some selected →
     first_in_document page selected e → by_selector page d = html_only (Some e)) ∧
  (∀ only, chatMatches = [only] → by_chat_id page d = html_only (Some only)) ∧
  (1 < length chatMatches →
   ∀ c, first_in chatMatches (near_html d) c → by_chat_id page d = Some c) ∧
  (1 < length chatMatches → (∀ c, c ∈ chatMatches → near_html d c = false) →
   by_chat_id page d = html_only (head chatMatches)) ∧
  (∀ e, still_present page d e →
     (truthy (d_id d) = true → first_in_document page (has_id (d_id d)) e →
      resolved = Some e) ∧
     (truthy (d_id d) = false → truthy (cssSelector d) = true →
      (∀ selected, selects page (cssSelector d) = Some selected →
                   first_in_document page selected e) →
      resolved = Some e) ∧
     (truthy (d_id d) = false → truthy (cssSelector d) = false →
      first_in chatMatches (near_html d) e →
      resolved = Some e)).
Proof.
  cbv zeta.
  assert (Hid : truthy (d_id d) = true →
            ∀ e, first_in_document page (has_id (d_id d)) e →
                 by_id page d = html_only (Some e)).
  { intros Ht e He. unfold by_id, getElementById. rewrite Ht.
    now rewrite (find_first_in _ _ _ He). }
  assert (Hsel : truthy (cssSelector d) = true →
            ∀ selected e, selects page (cssSelector d) = Some selected →
              first_in_document page selected e → by_selector page d = html_only (Some e)).
  { intros Ht selected e Hs He. unfold by_selector, querySelector. rewrite Ht, Hs.
    now rewrite (find_first_in _ _ _ He). }
  assert (Hnear : 1 < length (querySelectorAll_chat page (chatId d)) →
            ∀ c, first_in (querySelectorAll_chat page (chatId d)) (near_html d) c →
                 by_chat_id page d = Some c).
  { intros Hlen c Hc. unfold by_chat_id.
    assert (H0 : (0 <? length (querySelectorAll_chat page (chatId d))) = true)
      by (apply Nat.ltb_lt; lia).
    apply Nat.ltb_lt in Hlen. cbv zeta. rewrite H0, Hlen.
    now rewrite (find_first_in _ _ _ Hc). }
  repeat match goal with |- _ ∧ _ => split end.
  - intros e H. unfold resolveElementForDescriptor. now rewrite H.
  - intros H1 e H2. unfold resolveElementForDescriptor. now rewrite H1, H2.
  - intros H1 H2 e H3. unfold resolveElementForDescriptor. now rewrite H1, H2, H3.
  - intros H1 H2 H3. unfold resolveElementForDescriptor. now rewrite H1, H2, H3.
  - exact Hid.
  - intros Hs. unfold by_selector, querySelector. rewrite Hs.
    now destruct (truthy (cssSelector d)).
  - exact Hsel.
  - intros only Hm. unfold by_chat_id. cbv zeta. rewrite Hm. reflexivity.
  - exact Hnear.
  - intros Hlen Hnone. unfold by_chat_id.
    assert (H0 : (0 <? length (querySelectorAll_chat page (chatId d))) = true)
      by (apply Nat.ltb_lt; lia).
    apply Nat.ltb_lt in Hlen. cbv zeta. rewrite H0, Hlen.
    now rewrite (find_None_all _ _ Hnone).
  - intros e (Hin & Hhtml & Heid & Hselected & Hchat & Hrect).
    split; [|split].
    + intros Ht He. unfold resolveElementForDescriptor.
      rewrite (Hid Ht e He). cbn [html_only]. now rewrite Hhtml.
    + intros Ht Hts He. unfold resolveElementForDescriptor.
      unfold by_id at 1. rewrite Ht.
      destruct (Hselected Hts) as (selected & Hs & _).
      rewrite (Hsel Hts selected e Hs (He selected Hs)). cbn [html_only].
      now rewrite Hhtml.
    + intros Ht Hts He. unfold resolveElementForDescriptor.
      unfold by_id at 1. rewrite Ht. unfold by_selector at 1. rewrite Hts.
      destruct (querySelectorAll_chat page (chatId d)) as [|x [|y r]] eqn:Em.
      * destruct He as (before & after & Heq & _). now destruct before.
      * destruct He as (before & after & Heq & _).
        assert (x = e) as ->.
        { destruct before as [|b [|b' before]]; [now injection Heq | |];
            discriminate Heq. }
        unfold by_chat_id. cbv zeta. rewrite Em. cbn. now rewrite Hhtml.
      * assert (Hlen : 1 < length (x :: y :: r)) by (cbn; lia).
        now rewrite (Hnear Hlen e He).
Qed.

Lemma panel_first (P : Element → bool) : P panel = true → first_in [panel] P panel.
Proof. intros HP. exists [], []. repeat split; [assumption|]. intros x Hx. inversion Hx. Qed.

Lemma lower_copy_first (d : ElementDescriptor) :
  near_html d upper_copy = false → near_html d lower_copy = true →
  first_in [upper_copy; lower_copy] (near_html d) lower_copy.
Proof.
  intros Hu Hl. exists [upper_copy], []. repeat split; [assumption|].
  intros x Hx. apply list_elem_of_singleton in Hx. now subst x.
Qed.

(** C6 on a page whose element carries the descriptor's id, on the
    re-rendered list, on a page with two carriers of the chat id, and on a
    page where only the structural lookup answers. *)
Lemma resolution_order_witness :
  resolveElementForDescriptor panel_page panel_descriptor = Some panel ∧
  resolveElementForDescriptor selector_page upper_descriptor = Some upper_copy ∧
  resolveElementForDescriptor duplicated_page lower_descriptor = Some lower_copy ∧
  resolveElementForDescriptor rerendered_page item_descriptor = Some inserted_item ∧
  by_selector duplicated_page broken_selector_descriptor = None ∧
  resolveElementForDescriptor duplicated_page broken_selector_descriptor = Some lower_copy ∧
  resolveElementForDescriptor structural_page panel_descriptor = Some panel ∧
  by_chat_id rerendered_page item_descriptor = Some original_item ∧
  by_chat_id duplicated_page far_descriptor = Some upper_copy ∧
  by_id panel_page panel_descriptor = Some panel ∧
  resolveElementForDescriptor panel_page panel_descriptor = Some panel.
Proof.
  repeat match goal with |- _ ∧ _ => split end.
  - destruct (resolution_order panel_page panel_descriptor)
      as (_ & _ & _ & _ & _ & _ & _ & _ & _ & _ & Hround).
    assert (Hpresent : still_present panel_page panel_descriptor panel).
    { split; [now left | repeat split].
      intros _. exists (has_id (lit "panel-target")). split; reflexivity. }
    apply (proj1 (Hround panel Hpresent)); [reflexivity | now apply panel_first].
  - destruct (resolution_order selector_page upper_descriptor)
      as (_ & _ & _ & _ & _ & _ & _ & _ & _ & _ & Hround).
    assert (Hpresent : still_present selector_page upper_descriptor upper_copy).
    { split; [now left | repeat split].
      intros _. exists (fun e => node e =? 0). split; reflexivity. }
    apply (proj1 (proj2 (Hround upper_copy Hpresent))); [reflexivity | reflexivity |].
    intros selected Hs. injection Hs as <-.
    exists [], [lower_copy]. repeat split. intros x Hx. inversion Hx.
  - destruct (resolution_order duplicated_page lower_descriptor)
      as (_ & _ & _ & _ & _ & _ & _ & _ & _ & _ & Hround).
    assert (Hpresent : still_present duplicated_page lower_descriptor lower_copy).
    { split; [right; now left | repeat split]. discriminate. }
    apply (proj2 (proj2 (Hround lower_copy Hpresent))); [reflexivity | reflexivity |].
    change (first_in [upper_copy; lower_copy] (near_html lower_descriptor) lower_copy).
    now apply lower_copy_first.
  - destruct (resolution_order rerendered_page item_descriptor)
      as (_ & Hsel & _).
    apply Hsel; reflexivity.
  - destruct (resolution_order duplicated_page broken_selector_descriptor)
      as (_ & _ & _ & _ & _ & Hbroken & _).
    apply Hbroken. reflexivity.
  - destruct (resolution_order duplicated_page broken_selector_descriptor)
      as (_ & _ & Hchat & _ & _ & _ & _ & _ & Hnear & _).
    apply Hchat; [reflexivity | reflexivity |].
    apply Hnear; [vm_compute; lia|].
    change (first_in [upper_copy; lower_copy] (near_html broken_selector_descriptor)
              lower_copy).
    now apply lower_copy_first.
  - destruct (resolution_order structural_page panel_descriptor)
      as (_ & _ & _ & Hlast & _).
    apply Hlast; reflexivity.
  - destruct (resolution_order rerendered_page item_descriptor)
      as (_ & _ & _ & _ & _ & _ & _ & Hsingle & _).
    apply (Hsingle original_item). reflexivity.
  - destruct (resolution_order duplicated_page far_descriptor)
      as (_ & _ & _ & _ & _ & _ & _ & _ & _ & Hfar & _).
    apply Hfar; [vm_compute; lia|].
    change (∀ c, c ∈ [upper_copy; lower_copy] → near_html far_descriptor c = false).
    intros c Hc. apply elem_of_cons in Hc as [-> | Hc]; [reflexivity|].
    apply list_elem_of_singleton in Hc. now subst c.
  - destruct (resolution_order panel_page panel_descriptor)
      as (_ & _ & _ & _ & Hid & _).
    apply (Hid eq_refl panel). now apply panel_first.
  - destruct (resolution_order panel_page panel_descriptor) as (Hfirst & _).
    apply Hfirst. reflexivity.
Defined.

End ResolverClaims.

(* ===================================================================== *)
(** ** C7: the repositioning tick *)
(* ===================================================================== *)

Section AnchorClaims.

Import Resolver Anchor Collapse Handlers.

(** The cases of one tick of a mounted window, whatever the registry holds:
    when no descriptor of the priority list resolves the anchor is marked
    missing and position and offsets stay as they are; when a descriptor
    resolves and no offset is cached, the offset becomes the window position
    minus the anchor rectangle and the window does not move; when an offset
    is cached it is kept, and the window moves to anchor rectangle plus
    offset exactly when [isDraggingRef.current] is false and the distance
    exceeds 0.5 px in x or in y. *)
Lemma ensureAnchorPosition_cases (page : Page) (descriptorList : list ElementDescriptor)
    (st : Registry) :
  registryMounted st = true →
  let st' := ensureAnchorPosition page descriptorList st in
  let priority := priorityDescriptors descriptorList st in
  ((∀ d, d ∈ priority → resolveElementForDescriptor page d = None) →
   anchorElementMissing st' = true ∧ position st' = position st ∧
   anchorOffset st' = anchorOffset st ∧ anchorOffsets st' = anchorOffsets st) ∧
  (∀ d element, resolves_first page priority d element →
   anchorElementMissing st' = false ∧ anchorElement st' = Some element ∧
   (anchorOffset st = None →
    anchorOffset st' =
      Some {| px := px (position st) - left (rect element);
              py := py (position st) - top (rect element) |} ∧
    position st' = position st) ∧
   (∀ offset, anchorOffset st = Some offset →
    let next := {| px := left (rect element) + px offset;
                   py := top (rect element) + py offset |} in
    anchorOffset st' = Some offset ∧
    (isDragging st = true → position st' = position st) ∧
    (isDragging st = false →
     ((1 # 2) < Qabs (px next - px (position st)) ∨
      (1 # 2) < Qabs (py next - py (position st)))%Q →
     position st' = next) ∧
    (isDragging st = false →
     (Qabs (px next - px (position st)) <= 1 # 2)%Q →
     (Qabs (py next - py (position st)) <= 1 # 2)%Q →
     position st' = position st))).
Proof.
  intros Hmounted. cbv zeta. split.
  - intros Hnone. unfold ensureAnchorPosition. rewrite Hmounted. cbn [negb].
    rewrite (first_resolving_None _ _ Hnone). repeat split.
  - intros d element Hfirst. apply first_resolving_Some in Hfirst.
    destruct (anchorOffset st) as [offset|] eqn:Eoff.
    + destruct (tick_cached page descriptorList st d element offset Hmounted Hfirst Eoff)
        as (Hmiss & Hel & Hoff & Hpos).
      split; [exact Hmiss | split; [exact Hel | split; [discriminate|]]].
      intros offset' [= <-]. cbv zeta.
      split; [exact Hoff|]. rewrite Hpos. cbn [px py]. split; [|split].
      * intros ->. reflexivity.
      * intros -> Hfar. cbn [negb andb].
        destruct Hfar as [Hfar | Hfar]; apply exceeds_epsilon_true in Hfar; rewrite Hfar;
          [reflexivity | now rewrite orb_true_r].
      * intros -> Hx Hy. apply exceeds_epsilon_false in Hx, Hy. now rewrite Hx, Hy.
    + destruct (tick_inferred page descriptorList st d element Hmounted Hfirst Eoff)
        as (Hmiss & Hel & Hoff & Hpos).
      split; [exact Hmiss | split; [exact Hel | split; [auto | discriminate]]].
Qed.

Lemma panel_resolves_first (st : Registry) :
  activeAnchorKey st = buildDescriptorKey panel_descriptor 0 →
  resolves_first panel_page (priorityDescriptors [panel_descriptor] st)
    panel_descriptor panel.
Proof.
  intros Hkey. exists [], []. repeat split.
  - unfold priorityDescriptors. rewrite Hkey. vm_compute. reflexivity.
  - intros d Hd. inversion Hd.
Qed.

Lemma empty_page_resolves_nothing (d : ElementDescriptor) :
  resolveElementForDescriptor empty_page d = None.
Proof.
  unfold resolveElementForDescriptor, by_id, by_selector, by_chat_id.
  destruct (truthy (d_id d)), (truthy (cssSelector d)); reflexivity.
Qed.

(** C7: the test on the user's drag never holds the window.  The frame
    reports the start and the moves of a drag to no code of the component
    ([Rnd] is given [onDragStop], [onResize] and [onResizeStop] only), so
    [isDraggingRef.current] is false while the user drags.  A window
    attached to the panel at (300, 120) is ticked once (offset (300, 120)),
    the user takes hold of it and drags, the page scrolls up by 40 px and
    a tick runs before the drag has ended: the tick sets the position to
    (300, 80).  In general a tick in any state the window reaches, with
    a resolved anchor and a cached offset, moves the window as soon as the
    distance exceeds 0.5 px in x or in y, drag or no drag. *)
Theorem tick_moves_a_window_under_drag :
  let start :=
    (at_mount {| px := 300; py := 120 |} None (buildDescriptorKey panel_descriptor 0),
     default_ui) in
  let held := fst (happenings [panel_descriptor] (take 3 drag_under_scroll) start) in
  let ticked_again := fst (happenings [panel_descriptor] drag_under_scroll start) in
  drag_under_scroll !! 1 = Some (Reported DragStart) ∧
  (∀ data anchorRect, Reported (DragStop data anchorRect) ∉ drag_under_scroll) ∧
  position held = {| px := 300; py := 120 |} ∧
  anchorOffset held = Some {| px := 300; py := 120 |} ∧
  isDragging held = false ∧
  position ticked_again = {| px := 300; py := 80 |} ∧
  (∀ descriptors hs initialPosition initialOffset initialKey ui page d element offset,
     let reg :=
       fst (happenings descriptors hs
              (at_mount initialPosition initialOffset initialKey, ui)) in
     let next := {| px := left (rect element) + px offset;
                    py := top (rect element) + py offset |} in
     resolves_first page (priorityDescriptors descriptors reg) d element →
     anchorOffset reg = Some offset →
     ((1 # 2) < Qabs (px next - px (position reg)) ∨
      (1 # 2) < Qabs (py next - py (position reg)))%Q →
     position (ensureAnchorPosition page descriptors reg) = next).
Proof.
  cbv zeta. split; [reflexivity|]. split.
  { intros data anchorRect Hin. unfold drag_under_scroll in Hin.
    repeat (apply elem_of_cons in Hin as [Hin|Hin]; [discriminate Hin|]).
    inversion Hin. }
  do 4 (split; [vm_compute; reflexivity|]).
  intros descriptors hs initialPosition initialOffset initialKey ui page d element offset
    Hfirst Hoff Hfar.
  set (reg := fst (happenings descriptors hs
                     (at_mount initialPosition initialOffset initialKey, ui))) in *.
  assert (Hmounted : registryMounted reg = true).
  { unfold reg. by rewrite happenings_mounted. }
  assert (Hflag : isDragging reg = false).
  { unfold reg. by apply happenings_never_dragging. }
  destruct (proj2 (ensureAnchorPosition_cases page descriptors reg Hmounted)
              d element Hfirst) as (_ & _ & _ & Hcached).
  destruct (Hcached offset Hoff) as (_ & _ & Hmove & _).
  exact (Hmove Hflag Hfar).
Qed.

(* ===================================================================== *)
(** ** C8: switching the active anchor *)
(* ===================================================================== *)

(** C8, as the specification words it, fails: the window is attached with
    the offset (100, 50) and the target anchor has no cached offset; the
    chip does not apply the default offset (220, -32) but the current
    offset moved up by the nudge, (100, 18). *)
Lemma select_anchor_counterexample :
  let st := attached (Some {| px := 100; py := 50 |}) false in
  anchorOffsets st !! entry_key panel_entry = None ∧
  anchorOffset (select_anchor panel_page [panel_descriptor] panel_entry st)
    = Some {| px := 100; py := 18 |} ∧
  spec_offset (anchorOffsets st !! entry_key panel_entry) (rect panel)
    = {| px := 220; py := -32 |} ∧
  anchorOffset (select_anchor panel_page [panel_descriptor] panel_entry st)
    ≠ Some (spec_offset (anchorOffsets st !! entry_key panel_entry) (rect panel)).
Proof.
  cbv zeta. split; [reflexivity | split; [|split]].
  - vm_compute. reflexivity.
  - vm_compute. reflexivity.
  - vm_compute. discriminate.
Qed.

(** C8 (amended): when the target anchor resolves, the chip applies the
    cached offset of the target anchor unchanged if there is one;
    otherwise the current offset of the window if there is one, else the
    default offset (x the smaller of the anchor width plus 20 and 240,
    y 0), in both cases moved up by 32 px; and the window is positioned
    at the anchor rectangle plus the applied offset. *)
Theorem select_anchor_offset (page : Page) (descriptorList : list ElementDescriptor)
    (entry : DescriptorEntry) (st : Registry) (element : Element) :
  resolveElementForDescriptor page (entry_descriptor entry) = Some element →
  truthy (entry_key entry) = true →
  descriptorMap descriptorList !! entry_key entry = Some (entry_descriptor entry) →
  let st' := select_anchor page descriptorList entry st in
  let stored := anchorOffsets st !! entry_key entry in
  let applied := next_offset stored (anchorOffset st) (rect element) in
  anchorOffset st' = Some applied ∧
  position st' = {| px := left (rect element) + px applied;
                    py := top (rect element) + py applied |} ∧
  (∀ cached, stored = Some cached → applied = cached) ∧
  (stored = None → ∀ current, anchorOffset st = Some current →
   applied = {| px := px current; py := py current - 32 |}) ∧
  (stored = None → anchorOffset st = None →
   applied = {| px := Qmin (width (rect element) + 20) 240; py := 0 - 32 |}).
Proof.
  intros Hres Hkey Hmap. cbv zeta.
  assert (Hmain :
    anchorOffset (select_anchor page descriptorList entry st) =
      Some (next_offset (anchorOffsets st !! entry_key entry) (anchorOffset st)
              (rect element)) ∧
    position (select_anchor page descriptorList entry st) =
      {| px := left (rect element) +
               px (next_offset (anchorOffsets st !! entry_key entry) (anchorOffset st)
                     (rect element));
         py := top (rect element) +
               py (next_offset (anchorOffsets st !! entry_key entry) (anchorOffset st)
                     (rect element)) |}).
  { unfold select_anchor. rewrite Hres. cbv zeta.
    set (applied := next_offset _ _ _).
    set (st1 := with_position _ _).
    destruct (registryMounted st) eqn:Em.
    - assert (Hfirst : first_resolving page (priorityDescriptors descriptorList st1)
                       = Some (entry_descriptor entry, element)).
      { unfold priorityDescriptors.
        change (activeAnchorKey st1) with (entry_key entry). rewrite Hkey, Hmap.
        destruct (priority_head descriptorList (entry_descriptor entry) []) as [rest ->].
        cbn [first_resolving]. now rewrite Hres. }
      destruct (tick_cached page descriptorList st1 (entry_descriptor entry) element
                  applied Em Hfirst eq_refl) as (_ & _ & Hoff & Hpos).
      split; [exact Hoff|].
      rewrite Hpos. cbn [px py position st1 with_position].
      rewrite !exceeds_epsilon_same. now rewrite andb_false_r.
    - unfold ensureAnchorPosition. change (registryMounted st1) with (registryMounted st).
      rewrite Em. split; reflexivity. }
  destruct Hmain as [Hoff Hpos].
  split; [exact Hoff | split; [exact Hpos | split; [|split]]].
  - intros cached ->. reflexivity.
  - intros -> current ->. reflexivity.
  - intros -> ->. reflexivity.
Qed.

(** C8 on the panel: without cached offset the current offset (100, 50)
    is applied moved up by 32 px. *)
Lemma select_anchor_offset_witness :
  anchorOffset (select_anchor panel_page [panel_descriptor] panel_entry
                  (attached (Some {| px := 100; py := 50 |}) false))
    = Some (next_offset None (Some {| px := 100; py := 50 |}) (rect panel)).
Proof.
  apply (select_anchor_offset panel_page [panel_descriptor] panel_entry
           (attached (Some {| px := 100; py := 50 |}) false) panel).
  - reflexivity.
  - reflexivity.
  - vm_compute. reflexivity.
Defined.

End AnchorClaims.

(* ===================================================================== *)
(** ** C9: the collapse states *)
(* ===================================================================== *)

Section CollapseClaims.

Import Collapse.

(** C9: the rectangle action leads from expanded and from square to
    rectangle and from rectangle to expanded; the square action leads from
    expanded and from rectangle to square and from square to expanded; the
    expand action leads to expanded; none of them touches the stored
    width and height, and no resize can happen while the window is
    collapsed; so collapsing to rectangle or to square and expanding again
    gives back the window, its stored and its rendered size, as they
    were. *)
Theorem collapse_cycle (size : Size) (s : CollapseState) :
  let w := {| collapseState := s; windowSize := size |} in
  let full := {| collapseState := expanded; windowSize := size |} in
  collapseState (handleCollapseToRectangle w) =
    match s with rectangle => expanded | _ => rectangle end ∧
  collapseState (handleCollapseToSquare w) =
    match s with square => expanded | _ => square end ∧
  collapseState (handleExpand w) = expanded ∧
  windowSize (handleCollapseToRectangle w) = size ∧
  windowSize (handleCollapseToSquare w) = size ∧
  windowSize (handleExpand w) = size ∧
  (∀ newSize, s ≠ expanded → act (DragResizeHandle newSize) w = w) ∧
  handleCollapseToRectangle (handleCollapseToRectangle full) = full ∧
  handleCollapseToSquare (handleCollapseToSquare full) = full ∧
  handleExpand (handleCollapseToRectangle full) = full ∧
  handleExpand (handleCollapseToSquare full) = full ∧
  rendered_size (handleCollapseToRectangle (handleCollapseToRectangle full)) = size ∧
  rendered_size (handleCollapseToSquare (handleCollapseToSquare full)) = size ∧
  rendered_size (handleCollapseToRectangle full) =
    {| size_width := size_width size; size_height := headerOnlyHeight |} ∧
  rendered_size (handleCollapseToSquare full) =
    {| size_width := squareSize; size_height := squareSize |}.
Proof.
  cbv zeta. destruct size as [w h].
  repeat match goal with |- _ ∧ _ => split end;
    try (destruct s; reflexivity).
  intros newSize Hs. destruct s; [congruence | reflexivity | reflexivity].
Qed.

(** C9 on the default window of 420 by 550 px, collapsed to the square. *)
Lemma collapse_cycle_witness :
  act (DragResizeHandle {| size_width := 1; size_height := 1 |})
    {| collapseState := square; windowSize := {| size_width := 420; size_height := 550 |} |}
  = {| collapseState := square; windowSize := {| size_width := 420; size_height := 550 |} |}.
Proof.
  apply (collapse_cycle {| size_width := 420; size_height := 550 |} square).
  discriminate.
Defined.

End CollapseClaims.
(* ===================================================================== *)
(** ** C3: the invariant of the message list *)
(* ===================================================================== *)

Section MessageListInvariant.

Import Aggregator Chat Window Ledger.

(** C3: a window is mounted on a stored session whose messages have
    pairwise distinct ids and at most one assistant message per turn id,
    and the turn ids generated for the submissions are new.  Then after
    every event (a submission, a user message stored, a stream completed,
    a call failed, a render that appends a queued error message, ...)
    the message list the code works on, the list on display, the
    session's list and every other array of messages hold no two messages
    with one id and at most one assistant message per turn id.  This holds
    for every interleaving of calls, also with several calls in flight,
    and whatever the test harness is set to. *)
Theorem message_list_invariant (existing : list ChatMessage) (clearPrevious : bool)
    (cfg : TestConfig) (events : list Event) :
  unique_ids existing → one_answer_per_turn existing →
  fresh_turns existing events →
  let st := run events (set_testDuplicateConfig cfg (mounted existing clearPrevious)) in
  (unique_ids (messages st) ∧ one_answer_per_turn (messages st)) ∧
  (unique_ids (rendered st) ∧ one_answer_per_turn (rendered st)) ∧
  (∀ s, session_messages st = Some s →
     unique_ids (read st s) ∧ one_answer_per_turn (read st s)) ∧
  (∀ l, unique_ids (read st l) ∧ one_answer_per_turn (read st l)).
Proof.
  intros Hu Hone Hfresh st.
  destruct (run_ledger events _ (mounted_ledger existing clearPrevious cfg events
                                   Hu Hone Hfresh)) as (_ & Harr & _).
  fold st in Harr.
  assert (∀ l, unique_ids (read st l) ∧ one_answer_per_turn (read st l)) as Hall.
  { intros l. destruct (Harr l) as (? & ? & _). done. }
  split_and!; [apply Hall | apply Hall | apply Hall | apply Hall | | exact Hall].
  intros s _. apply Hall.
Qed.

Lemma late_submission_fresh : fresh_turns two_turns late_submission.
Proof.
  split.
  - refine (bool_decide_unpack _ _). vm_compute. exact I.
  - intros T HT m Hm. apply list_elem_of_In in HT, Hm.
    unfold answers_turn.
    destruct (is_assistant m) eqn:Ha; [|done]. cbn [andb].
    apply bool_decide_eq_false. intros Hturn.
    cbv [two_turns asked answered] in Hm. cbn [In] in Hm.
    destruct Hm as [<-|[<-|[<-|[<-|[]]]]]; cbn in Ha, Hturn; try discriminate Ha;
      injection Hturn as <-; vm_compute in HT; decompose [or] HT; try done;
      match goal with H : _ = _ |- _ => discriminate H end.
Qed.

Lemma two_turns_well_formed : unique_ids two_turns ∧ one_answer_per_turn two_turns.
Proof.
  assert (unique_ids two_turns) as Hu.
  { refine (bool_decide_unpack _ _). vm_compute. exact I. }
  split; [done|]. apply pairwise_one_answer; [done|].
  intros t m1 m2 _ H1 H2 A1 A2.
  apply list_elem_of_In in H1, H2.
  cbv [two_turns asked answered] in H1, H2. cbn [In] in H1, H2.
  unfold answers_turn in A1, A2.
  destruct H1 as [<-|[<-|[<-|[<-|[]]]]]; destruct H2 as [<-|[<-|[<-|[<-|[]]]]];
    cbn in A1, A2; try discriminate; try reflexivity;
    apply bool_decide_eq_true in A1, A2; vm_compute in A1, A2; congruence.
Qed.
(** C3 on the run in which D overtakes the queue and two calls are in
    flight together, in a session with two earlier turns. *)
Lemma message_list_invariant_witness :
  let st := run late_submission (set_testDuplicateConfig ConfigTrue (mounted two_turns true)) in
  (unique_ids (messages st) ∧ one_answer_per_turn (messages st)) ∧
  (unique_ids (rendered st) ∧ one_answer_per_turn (rendered st)) ∧
  (∀ s, session_messages st = Some s →
     unique_ids (read st s) ∧ one_answer_per_turn (read st s)) ∧
  (∀ l, unique_ids (read st l) ∧ one_answer_per_turn (read st l)).
Proof.
  exact (message_list_invariant two_turns true ConfigTrue late_submission
           (proj1 two_turns_well_formed) (proj2 two_turns_well_formed)
           late_submission_fresh).
Defined.

End MessageListInvariant.
(* ===================================================================== *)
(** ** C5: a failed turn *)
(* ===================================================================== *)

Section FailedTurn.

Import Aggregator Chat Window Dispatch Ledger.

Lemma settle_store_fields (req : Request) (now_after : Z) (st : Component) :
  let st' := settle req now_after st in
  heap st' = heap st ∧ next_loc st' = next_loc st ∧ messagesRef st' = messagesRef st ∧
  messagesState st' = messagesState st ∧ pendingMessages st' = pendingMessages st ∧
  isMounted st' = isMounted st.
Proof.
  cbv zeta. unfold settle, continuation, finally_block, drop_request, processQueue.
  destruct (isMounted st) eqn:Hm, (messageQueue st) as [|next rest] eqn:Hq,
    (isProcessingQueue st) eqn:Hp, (r_origin req);
    cbn; rewrite ?Hm, ?Hq, ?Hp; cbn; rewrite ?Hm, ?Hq, ?Hp; cbn; try done;
    destruct rest; cbn; rewrite ?Hm, ?Hq, ?Hp; cbn; done.
Qed.

Lemma apply_deltas_updates_fields (updates : list DeltasUpdate) (current : list jsstring)
    (st : Component) :
  let st' := snd (foldl apply_deltas_update (current, st) updates) in
  heap st' = heap st ∧ messagesRef st' = messagesRef st ∧
  messagesState st' = messagesState st.
Proof.
  revert current st. induction updates as [|u updates IH]; intros current st; [done|].
  cbn [foldl]. destruct u as [value|chunk]; cbn [apply_deltas_update]; [apply IH|].
  destruct (IH (current ++ [chunk]) (set_streamingDeltaHistory (current ++ [chunk]) st))
    as (H1 & H2 & H3).
  cbv zeta. by rewrite H1, H2, H3.
Qed.

(** When nothing else waits for the render, the render that follows a
    failed call shows the list with the error message appended. *)
Lemma error_message_rendered (st : Component) (r : nat) (req : Request)
    (id_now : Z) (rnd : jsstring) (stamp now_after : Z) :
  isMounted st = true → find_request r st = Some req → pendingMessages st = [] →
  let shown := step Render (step (BackendError r id_now rnd stamp now_after) st) in
  rendered shown = dedupeMessagesById (rendered st ++ [error_message id_now rnd stamp]) ∧
  messages shown = rendered shown.
Proof.
  intros Hm Hf Hp. cbv zeta. cbn [step]. rewrite Hf.
  set (st1 := fail_request id_now rnd stamp st).
  assert (heap st1 = heap st ∧ next_loc st1 = next_loc st ∧
          messagesState st1 = messagesState st ∧ isMounted st1 = true ∧
          pendingMessages st1 = [AppendError (error_message id_now rnd stamp)])
    as (Hh1 & Hn1 & Hs1 & Hm1 & Hp1).
  { unfold st1, fail_request. rewrite Hm. cbn. by rewrite Hp. }
  destruct (settle_store_fields req now_after st1) as (Hh2 & Hn2 & _ & Hs2 & Hp2 & Hm2).
  revert Hh2 Hn2 Hs2 Hp2 Hm2. generalize (settle req now_after st1). intros st2 Hh2 Hn2 Hs2 Hp2 Hm2.
  unfold render. rewrite Hm2, Hm1, Hp2, Hp1, Hs2, Hs1. cbn [negb foldl apply_messages_update].
  unfold alloc. cbn [fst snd].
  match goal with |- context [foldl apply_deltas_update (?c, ?s) ?u] =>
    pose proof (apply_deltas_updates_fields u c s) as (Hh3 & Hr3 & Hs3);
    destruct (foldl apply_deltas_update (c, s) u) as [nextDeltas st3] end.
  cbn [snd] in Hh3, Hr3, Hs3. cbn in Hh3, Hr3, Hs3.
  assert (read st2 (messagesState st) = rendered st) as Hread.
  { unfold rendered, read. by rewrite Hh2, Hh1. }
  rewrite Hread in *.
  assert (∀ s : Component, heap s = heap st3 →
            read s (next_loc st2) =
            dedupeMessagesById (rendered st ++ [error_message id_now rnd stamp])) as Hnew.
  { intros s Hs. unfold read. rewrite Hs, Hh3. by rewrite lookup_insert_eq. }
  cbn [messagesState set_streamingDeltas set_pendingDeltas].
  rewrite Hs3, Hs2, Hs1.
  destruct (next_loc st2 =? messagesState st) eqn:Heq.
  - apply Nat.eqb_eq in Heq.
    set (shown := set_streamingDeltas nextDeltas (set_pendingDeltas [] st3)).
    assert (messagesState shown = next_loc st2) as Hs by (cbn; congruence).
    assert (messagesRef shown = next_loc st2) as Hr by done.
    unfold messages. unfold rendered at 1 3. rewrite Hs, Hr. split; [by apply Hnew | done].
  - match goal with |- rendered ?x = _ ∧ _ => set (shown := x) end.
    assert (messagesState shown = next_loc st2) as Hs by done.
    assert (messagesRef shown = next_loc st2) as Hr by done.
    unfold messages. unfold rendered at 1 3. rewrite Hs, Hr. split; [by apply Hnew | done].
Qed.

Lemma failed_turn_prefixes (n : nat) :
  let st := run (take n failed_turn) (mounted [] false) in
  Forall (λ m, content m ≠ error_content) (rendered st) ∧
  Forall (λ m, content m ≠ error_content) (messages st).
Proof.
  set (clean := λ l : list ChatMessage,
         forallb (λ m, negb (bool_decide (content m = error_content))) l).
  assert (∀ l, clean l = true → Forall (λ m, content m ≠ error_content) l) as Hclean.
  { intros l Hl. apply Forall_forall. intros m Hm%list_elem_of_In.
    unfold clean in Hl. rewrite forallb_forall in Hl. specialize (Hl m Hm).
    apply negb_true_iff, bool_decide_eq_false in Hl. done. }
  assert (forallb (λ k, clean (rendered (run (take k failed_turn) (mounted [] false)))
                        && clean (messages (run (take k failed_turn) (mounted [] false))))
            (seq 0 12) = true) as Hall by (vm_compute; reflexivity).
  rewrite forallb_forall in Hall.
  assert (∃ k, k < 12 ∧ take n failed_turn = take k failed_turn) as (k & Hk & ->).
  { destruct (decide (n < 12)) as [?|Hge]; [by exists n|].
    exists 11. split; [lia|]. rewrite !take_ge; [done| |];
      change (length failed_turn) with 11; lia. }
  specialize (Hall k). rewrite in_seq in Hall.
  destruct (andb_prop _ _ (Hall ltac:(lia))) as [H1 H2].
  cbv zeta. split; by apply Hclean.
Qed.

(** C5 fails on the code.  The [catch] block does not append the error
    message itself: it hands an updater to [setMessages], which runs at
    the next render, and the [finally] block sends the next queued message
    at once.  When the user message of that turn is stored before React
    has rendered, [sendMessageToAPI] builds the new list from
    [messagesRef.current], which has no error message yet, and
    [setMessages(newMessages)] replaces what the updater returns.  In the
    run [failed_turn] the turn of A fails and no error message is on
    display or in [messagesRef.current] after any event; B is sent and
    answered.  With a render before the user message of B is stored the
    error message is kept; and in general, when nothing else waits for the
    render, the render after a failed call shows the list with exactly
    the error message appended. *)
Theorem failed_turn_leaves_no_error_message :
  let lost := run failed_turn (mounted [] false) in
  let shown := run failed_turn_rendered (mounted [] false) in
  (∀ n, let st := run (take n failed_turn) (mounted [] false) in
        Forall (λ m, content m ≠ error_content) (rendered st) ∧
        Forall (λ m, content m ≠ error_content) (messages st)) ∧
  map id (rendered lost) = [msg_id 0 (lit "a"); msg_id 3 (lit "b"); msg_id 40 (lit "y")] ∧
  map role (rendered lost) = [user; user; assistant] ∧
  messages lost = rendered lost ∧
  dispatched lost = [msg_id 0 (lit "a"); msg_id 3 (lit "b")] ∧
  requests lost = [] ∧ pendingMessages lost = [] ∧
  map id (rendered shown) =
    [msg_id 0 (lit "a"); msg_id 30 (lit "e"); msg_id 3 (lit "b"); msg_id 40 (lit "y")] ∧
  map content (rendered shown) = [lit "A"; error_content; lit "B"; lit "answer"] ∧
  (∀ (st : Component) (r : nat) (req : Request) (id_now : Z) (rnd : jsstring)
     (stamp now_after : Z),
     isMounted st = true → find_request r st = Some req → pendingMessages st = [] →
     let st' := step Render (step (BackendError r id_now rnd stamp now_after) st) in
     rendered st' = dedupeMessagesById (rendered st ++ [error_message id_now rnd stamp]) ∧
     messages st' = rendered st').
Proof.
  cbv zeta. split; [exact failed_turn_prefixes|].
  do 8 (split; [vm_compute; reflexivity|]).
  exact error_message_rendered.
Qed.

End FailedTurn.

(* ===================================================================== *)
(** ** More on the message list and the aggregator *)
(* ===================================================================== *)

Section MessageListExtras.

Import Aggregator Chat.

Lemma find_id_dedupe_from (seen : gset jsstring) (l : list ChatMessage) (wanted : jsstring) :
  wanted ∉ seen → find_id wanted (dedupe_from seen l) = find_id wanted l.
Proof.
  revert seen. induction l as [|m rest IH]; intros seen Hw; [done|].
  cbn [dedupe_from find_id].
  destruct (decide (id m ∈ seen)) as [Hin|Hnot].
  - destruct (decide (id m = wanted)) as [Heq|_]; [by rewrite Heq in Hin|]. by apply IH.
  - cbn [find_id]. destruct (decide (id m = wanted)) as [|Hne]; [done|].
    apply IH. intros [Hs|Hs]%elem_of_union; [|done].
    apply elem_of_singleton in Hs. congruence.
Qed.

(** X1: [dedupeMessagesById] keeps, of the messages that share an id, the
    first one, and the messages it keeps stay in their order: the result
    has unique ids, is a sublist of the input, finds under every id the
    message the input finds, is not changed by a second pass, and is the
    input itself exactly when the input has unique ids. *)
Theorem dedupeMessagesById_keeps_first (messages : list ChatMessage) :
  unique_ids (dedupeMessagesById messages) ∧
  dedupeMessagesById messages `sublist_of` messages ∧
  (∀ wanted, find_id wanted (dedupeMessagesById messages) = find_id wanted messages) ∧
  dedupeMessagesById (dedupeMessagesById messages) = dedupeMessagesById messages ∧
  (dedupeMessagesById messages = messages ↔ unique_ids messages).
Proof.
  split_and!.
  - apply dedupe_unique.
  - apply dedupe_from_sublist.
  - intros wanted. apply find_id_dedupe_from, not_elem_of_empty.
  - apply dedupe_same, dedupe_unique.
  - split; [intros <-; apply dedupe_unique | apply dedupe_same].
Qed.

Lemma last_snoc_filter (p : ChatMessage → bool) (l : list ChatMessage) (m : ChatMessage) :
  last (List.filter p (l ++ [m])) = if p m then Some m else last (List.filter p l).
Proof.
  rewrite List.filter_app. cbn [List.filter]. destruct (p m).
  - by rewrite last_snoc.
  - by rewrite app_nil_r.
Qed.

(** X2: the effect that rebuilds [assistantTurnMapRef] maps a turn id to
    the id of the last assistant message of the list that carries it; a
    turn without assistant message, and the empty turn id, have no entry. *)
Theorem turn_map_is_last_answer (messages : list ChatMessage) (t : jsstring) :
  turn_map_of messages !! t =
  if truthy t then id <$> last (List.filter (answers_turn t) messages) else None.
Proof.
  induction messages as [|m l IH] using rev_ind.
  - unfold turn_map_of. cbn. rewrite lookup_empty. by destruct (truthy t).
  - rewrite turn_map_of_snoc, last_snoc_filter.
    unfold turn_map_step, answers_turn, is_assistant.
    destruct (role m); cbn [andb]; [exact IH|].
    destruct (turnId m) as [t'|] eqn:Ht'.
    + destruct (truthy t') eqn:Htr.
      * destruct (decide (t' = t)) as [->|Hne].
        -- rewrite lookup_insert_eq, Htr, bool_decide_eq_true_2; done.
        -- rewrite lookup_insert_ne by done.
           rewrite bool_decide_eq_false_2 by congruence. exact IH.
      * destruct (decide (t' = t)) as [->|Hne].
        -- rewrite IH, Htr. done.
        -- rewrite bool_decide_eq_false_2 by congruence. exact IH.
    + rewrite bool_decide_eq_false_2 by congruence. exact IH.
Qed.

End MessageListExtras.

Section AggregatorExtras.

Import Aggregator Chat.

Lemma normalizeNewlines_length (value : jsstring) :
  length (normalizeNewlines value) ≤ length value.
Proof.
  induction value as [| c | c d t IHt IHdt] using list_pair_ind; [done..|].
  rewrite normalizeNewlines_cons2.
  destruct ((c =? CR)%N && (d =? LF)%N); cbn [length] in *; lia.
Qed.

Lemma normalizeNewlines_shrinks (value : jsstring) (k : nat) :
  value !! k = Some CR → value !! S k = Some LF →
  length (normalizeNewlines value) < length value.
Proof.
  revert k.
  induction value as [| c | c d t IHt IHdt] using list_pair_ind; intros k H1 H2.
  - done.
  - destruct k; done.
  - rewrite normalizeNewlines_cons2.
    destruct ((c =? CR)%N && (d =? LF)%N) eqn:Hcd.
    + pose proof (normalizeNewlines_length t). cbn [length]. lia.
    + destruct k as [|k].
      * cbn in H1, H2. injection H1 as ->. injection H2 as ->. done.
      * cbn [length]. specialize (IHdt k H1 H2). cbn [length] in IHdt. lia.
Qed.

Lemma normalizeNewlines_same (value : jsstring) :
  (∀ k, ¬ (value !! k = Some CR ∧ value !! S k = Some LF)) →
  normalizeNewlines value = value.
Proof.
  induction value as [| c | c d t IHt IHdt] using list_pair_ind; intros Hno; [done..|].
  rewrite normalizeNewlines_cons2.
  destruct ((c =? CR)%N && (d =? LF)%N) eqn:Hcd.
  - apply andb_true_iff in Hcd as [Hc Hd].
    apply N.eqb_eq in Hc, Hd. subst. destruct (Hno 0). done.
  - f_equal. apply IHdt. intros k Hk. apply (Hno (S k)). exact Hk.
Qed.

Lemma normalizeNewlines_elem (value : jsstring) (c : N) :
  c ∈ normalizeNewlines value → c ∈ value.
Proof.
  induction value as [| x | x y t IHt IHxy] using list_pair_ind; [done..|].
  rewrite normalizeNewlines_cons2.
  destruct ((x =? CR)%N && (y =? LF)%N) eqn:Hxy.
  - apply andb_true_iff in Hxy as [_ Hy]. apply N.eqb_eq in Hy. subst y.
    rewrite !elem_of_cons. intros [->|H]; [by right; left | right; right; by apply IHt].
  - rewrite (elem_of_cons (normalizeNewlines _)), (elem_of_cons (y :: t)).
    intros [->|H]; [by left | right; by apply IHxy].
Qed.

(** X3: [normalizeNewlines] never makes a text longer, leaves a text as it
    is exactly when no carriage return in it is followed by a line feed,
    and puts no code unit in the result that the text does not hold. *)
Theorem normalizeNewlines_fixpoint (value : jsstring) :
  length (normalizeNewlines value) ≤ length value ∧
  (normalizeNewlines value = value ↔
   ∀ k, ¬ (value !! k = Some CR ∧ value !! S k = Some LF)) ∧
  (∀ c, c ∈ normalizeNewlines value → c ∈ value).
Proof.
  split_and!.
  - apply normalizeNewlines_length.
  - split.
    + intros Heq k [H1 H2].
      pose proof (normalizeNewlines_shrinks value k H1 H2) as Hlt.
      rewrite Heq in Hlt. lia.
    + apply normalizeNewlines_same.
  - apply normalizeNewlines_elem.
Qed.

Lemma trimStart_app_solid (a b : jsstring) (c : N) :
  is_ws c = false → trimStart (a ++ c :: b) = trimStart a ++ c :: b.
Proof.
  intros Hc. induction a as [|x a IH]; cbn [trimStart app].
  - by rewrite Hc.
  - destruct (is_ws x); [exact IH | done].
Qed.

Lemma trimStart_idem (s : jsstring) : trimStart (trimStart s) = trimStart s.
Proof.
  induction s as [|c s IH]; [done|]. cbn [trimStart].
  destruct (is_ws c) eqn:Hc; [exact IH|]. cbn [trimStart]. by rewrite Hc.
Qed.

Lemma trimEnd_idem (s : jsstring) : trimEnd (trimEnd s) = trimEnd s.
Proof. unfold trimEnd. by rewrite rev_involutive, trimStart_idem. Qed.

Lemma trimEnd_cons_solid (c : N) (s : jsstring) :
  is_ws c = false → trimEnd (c :: s) = c :: trimEnd s.
Proof.
  intros Hc. unfold trimEnd. cbn [rev].
  change (rev s ++ [c]) with (rev s ++ c :: []).
  rewrite (trimStart_app_solid _ _ _ Hc), rev_app_distr. done.
Qed.

Lemma trimStart_cases (s : jsstring) :
  trimStart s = [] ∨ ∃ c u, trimStart s = c :: u ∧ is_ws c = false.
Proof.
  induction s as [|c s IH]; [by left|]. cbn [trimStart].
  destruct (is_ws c) eqn:Hc; [exact IH|]. right. by exists c, s.
Qed.

Lemma trimStart_trim (s : jsstring) : trimStart (trim s) = trim s.
Proof.
  unfold trim. destruct (trimStart_cases s) as [->|(c & u & -> & Hc)]; [done|].
  rewrite (trimEnd_cons_solid _ _ Hc). cbn [trimStart]. by rewrite Hc.
Qed.

Lemma trim_idem (s : jsstring) : trim (trim s) = trim s.
Proof.
  unfold trim at 1. rewrite trimStart_trim. unfold trim. apply trimEnd_idem.
Qed.

Lemma split_at_double_break_shape (text : jsstring) (r : Separated) :
  split_at_double_break text = Some r →
  trimStart (answer r) = answer r ∧
  ∃ t, Aggregator.thinking r = Some t ∧ t ≠ [] ∧ trim t = t.
Proof.
  unfold split_at_double_break.
  destruct (indexOf double_break text) as [i|]; [|done].
  destruct (truthy _) eqn:Ht; [|done]. cbn [andb].
  destruct (0 <? _) eqn:Ha; [|done]. intros [= <-]. cbn.
  split; [apply trimStart_idem|]. eexists. split; [done|].
  split; [by apply truthy_true | apply trim_idem].
Qed.

Lemma split_at_first_chunk_shape (deltaHistory : list jsstring) (r : Separated) :
  split_at_first_chunk deltaHistory = Some r →
  trimStart (answer r) = answer r ∧
  ∃ t, Aggregator.thinking r = Some t ∧ t ≠ [] ∧ trim t = t.
Proof.
  unfold split_at_first_chunk.
  destruct (1 <? _); [|done].
  destruct (map normalizeNewlines deltaHistory) as [|firstChunk restChunks]; [done|].
  destruct (truthy _) eqn:Ht; [|done]. cbn [andb].
  destruct (0 <? _) eqn:Ha; [|done]. intros [= <-]. cbn.
  split; [apply trimStart_idem|]. eexists. split; [done|].
  split; [by apply truthy_true | apply trim_idem].
Qed.

Lemma separate_answer_trimStart (fullContent : jsstring) (deltaHistory : list jsstring) :
  trimStart (answer (separateAssistantResponse fullContent deltaHistory))
  = answer (separateAssistantResponse fullContent deltaHistory).
Proof.
  unfold separateAssistantResponse.
  destruct (negb _); [done|].
  destruct (split_at_double_break _) as [r1|] eqn:H1.
  { by apply split_at_double_break_shape in H1 as [? _]. }
  destruct (split_at_first_chunk _) as [r2|] eqn:H2.
  { by apply split_at_first_chunk_shape in H2 as [? _]. }
  cbn. apply trimStart_idem.
Qed.

Lemma separate_thinking (fullContent : jsstring) (deltaHistory : list jsstring)
    (t : jsstring) :
  Aggregator.thinking (separateAssistantResponse fullContent deltaHistory) = Some t →
  t ≠ [] ∧ trim t = t ∧
  ¬ blank (answer (separateAssistantResponse fullContent deltaHistory)).
Proof.
  unfold separateAssistantResponse.
  destruct (negb _); [done|].
  destruct (split_at_double_break _) as [r1|] eqn:H1.
  { intros Ht. pose proof (split_at_double_break_answer _ _ H1).
    apply split_at_double_break_shape in H1 as [_ (t' & Ht' & ? & ?)].
    rewrite Ht in Ht'. by injection Ht' as <-. }
  destruct (split_at_first_chunk _) as [r2|] eqn:H2.
  { intros Ht. pose proof (split_at_first_chunk_answer _ _ H2).
    apply split_at_first_chunk_shape in H2 as [_ (t' & Ht' & ? & ?)].
    rewrite Ht in Ht'. by injection Ht' as <-. }
  done.
Qed.

Lemma separate_answer_nil (fullContent : jsstring) (deltaHistory : list jsstring) :
  answer (separateAssistantResponse fullContent deltaHistory) = [] ↔ blank fullContent.
Proof.
  split.
  - intros Hnil. apply separate_answer_blank with deltaHistory.
    rewrite Hnil. apply blank_nil.
  - intros Hb. rewrite separate_blank; [done|]. by apply blank_normalizeNewlines.
Qed.

(** X4: whatever the response, the answer [separateAssistantResponse]
    returns does not start with whitespace and is empty exactly when the
    response is blank; a thinking part, when there is one, is a non-empty
    trimmed text and comes with an answer that is not blank. *)
Theorem separateAssistantResponse_shape
    (fullContent : jsstring) (deltaHistory : list jsstring) :
  let r := separateAssistantResponse fullContent deltaHistory in
  trimStart (answer r) = answer r ∧
  (answer r = [] ↔ blank fullContent) ∧
  (∀ t, Aggregator.thinking r = Some t → t ≠ [] ∧ trim t = t ∧ ¬ blank (answer r)).
Proof.
  intros r. split_and!.
  - apply separate_answer_trimStart.
  - apply separate_answer_nil.
  - apply separate_thinking.
Qed.

(** X20: what [sendMessageToAPI] stores for a completed stream.  Nothing
    is stored exactly when the response is blank; and what is stored is
    the answer and the thinking that [separateAssistantResponse] returns:
    the answer is not blank and has no leading whitespace, so the other
    branch of [assistantContentForStorage] and the [trim] of the thinking
    change nothing. *)
Theorem stored_answer_is_the_partition
    (assistantContent : jsstring) (deltaHistorySnapshot : list jsstring) :
  let r := separateAssistantResponse assistantContent deltaHistorySnapshot in
  (answer_for_storage assistantContent deltaHistorySnapshot = None ↔
   blank assistantContent) ∧
  (∀ stored storedThinking,
     answer_for_storage assistantContent deltaHistorySnapshot
     = Some (stored, storedThinking) →
     stored = answer r ∧ storedThinking = Aggregator.thinking r ∧
     ¬ blank stored ∧ trimStart stored = stored).
Proof.
  intros r. unfold answer_for_storage. fold r.
  destruct (0 <? length (trim (answer r))) eqn:Hlen.
  - assert (¬ blank (answer r)) as Hnb.
    { intros Hb. apply trim_nil_iff in Hb. by rewrite Hb in Hlen. }
    assert (truthy (trim (answer r)) = true) as ->.
    { by apply trim_truthy. }
    cbn [negb andb]. split.
    + split; [done|]. intros Hb. destruct Hnb.
      apply separate_answer_nil with (deltaHistory := deltaHistorySnapshot) in Hb.
      fold r in Hb. rewrite Hb. apply blank_nil.
    + intros stored th [= <- <-]. split_and!; [done| |done|apply separate_answer_trimStart].
      destruct (Aggregator.thinking r) as [t|] eqn:Ht; [|done].
      apply separate_thinking in Ht as (Hne & Htrim & _).
      apply truthy_true in Hne. by rewrite Hne, Htrim.
  - assert (blank assistantContent) as Hb.
    { apply separate_answer_blank with deltaHistorySnapshot. fold r.
      apply trim_nil_iff. destruct (trim (answer r)); [done|]. done. }
    assert (trim (trimStart assistantContent) = []) as ->.
    { apply trim_nil_iff. by apply blank_trimStart. }
    cbn. split; [done|]. intros stored th Hs. done.
Qed.

End AggregatorExtras.

(* ===================================================================== *)
(** ** More on the dispatch queue *)
(* ===================================================================== *)

Section DispatchFacts.

Import Aggregator Chat Window Dispatch.

Lemma start_request_fields text attached messageId o (st : Component) :
  let st' := start_request text attached messageId o st in
  ∃ r, requests st' = requests st ++ [r] ∧ rid r = next_rid st ∧ r_origin r = o ∧
       r_turnId r = messageId ∧
       next_rid st' = S (next_rid st) ∧
       dispatched st' = dispatched st ++ [messageId] ∧
       messageQueue st' = messageQueue st ∧
       isProcessingQueue st' = isProcessingQueue st ∧
       isMounted st' = isMounted st ∧ timers st' = timers st ∧
       lastSubmittedMessage st' = lastSubmittedMessage st.
Proof. cbn. eexists. split_and!; reflexivity. Qed.

(** [processQueue] does nothing, or sends the head of the queue. *)
Lemma processQueue_fields (st : Component) :
  let st' := processQueue st in
  isMounted st' = isMounted st ∧ timers st' = timers st ∧
  lastSubmittedMessage st' = lastSubmittedMessage st ∧
  (st' = st ∨
   ∃ next rest r,
     messageQueue st = next :: rest ∧ isProcessingQueue st = false ∧
     messageQueue st' = rest ∧ isProcessingQueue st' = true ∧
     requests st' = requests st ++ [r] ∧ rid r = next_rid st ∧ r_origin r = FromQueue ∧
     next_rid st' = S (next_rid st) ∧
     dispatched st' = dispatched st ++ [q_messageId next]).
Proof.
  unfold processQueue.
  destruct (isMounted st) eqn:Hm; cbn [negb]; [|by split_and!; try left].
  destruct (messageQueue st) as [|next rest] eqn:Hq; [by split_and!; try left|].
  destruct (isProcessingQueue st) eqn:Hp; [by split_and!; try left|].
  cbn. split_and!; try done. right.
  eexists next, rest, _. split_and!; reflexivity.
Qed.

Lemma queue_consistent_ext (st st' : Component) :
  requests st' = requests st → next_rid st' = next_rid st →
  isProcessingQueue st' = isProcessingQueue st →
  queue_consistent st → queue_consistent st'.
Proof. unfold queue_consistent. by intros -> -> ->. Qed.

Lemma same_queue_consistent (st st' : Component) :
  same_queue st st' → queue_consistent st → queue_consistent st'.
Proof. intros (?&?&?&_). by apply queue_consistent_ext. Qed.

Lemma queue_consistent_snoc (st st' : Component) (r : Request) :
  requests st' = requests st ++ [r] → rid r = next_rid st →
  next_rid st' = S (next_rid st) →
  isProcessingQueue st' = (isProcessingQueue st || from_queue r) →
  (from_queue r = true → isProcessingQueue st = false) →
  queue_consistent st → queue_consistent st'.
Proof.
  unfold queue_consistent. intros -> Hr -> -> Hq (Hnd & Hlt & Hcount).
  split_and!.
  - rewrite fmap_app. apply NoDup_app. split_and!; [done| |apply NoDup_singleton].
    intros x Hx ->%list_elem_of_singleton.
    apply list_elem_of_fmap in Hx as (req & Hreq & Hin).
    apply Hlt in Hin. lia.
  - intros req [Hin| ->%list_elem_of_singleton]%elem_of_app; [apply Hlt in Hin|]; lia.
  - rewrite List.filter_app, length_app, Hcount. cbn [List.filter].
    destruct (from_queue r).
    + rewrite (Hq eq_refl). done.
    + rewrite orb_false_r. cbn. lia.
Qed.

Lemma processQueue_consistent (st : Component) :
  queue_consistent st → queue_consistent (processQueue st).
Proof.
  intros Hc. destruct (processQueue_fields st) as (_ & _ & _ & [->|Hsent]); [done|].
  destruct Hsent as (next & rest & r & _ & Hp & _ & Hp' & HR & Hr & Ho & Hn & _).
  apply (queue_consistent_snoc st _ r); try done.
  - unfold from_queue. by rewrite Hp', Hp, Ho.
Qed.

Lemma finally_block_consistent (st : Component) :
  queue_consistent st → queue_consistent (finally_block st).
Proof.
  intros Hc. unfold finally_block.
  destruct (isMounted st) eqn:Hm; cbn [isMounted set_isSending negb]; rewrite Hm; cbn [negb].
  - destruct (_ && _); [apply processQueue_consistent|]; by eapply queue_consistent_ext.
  - by eapply queue_consistent_ext.
Qed.

Lemma finally_block_processing (st : Component) :
  isProcessingQueue st = true →
  requests (finally_block st) = requests st ∧ next_rid (finally_block st) = next_rid st ∧
  isProcessingQueue (finally_block st) = true ∧
  messageQueue (finally_block st) = messageQueue st ∧
  dispatched (finally_block st) = dispatched st ∧
  timers (finally_block st) = timers st.
Proof.
  intros Hp. unfold finally_block.
  destruct (isMounted st) eqn:Hm; cbn [isMounted set_isSending negb]; rewrite Hm; cbn [negb].
  - cbn [isProcessingQueue set_pendingIsStreaming set_isSending]. rewrite Hp, andb_false_r. done.
  - done.
Qed.

Lemma filter_drop_count (R : list Request) (req : Request) :
  NoDup (rid <$> R) → req ∈ R →
  length (List.filter from_queue (List.filter (fun q => negb (rid q =? rid req)) R))
  + (if from_queue req then 1 else 0) = length (List.filter from_queue R).
Proof.
  induction R as [|x R IH]; intros Hnd Hin; [by apply elem_of_nil in Hin|].
  rewrite fmap_cons in Hnd. apply NoDup_cons in Hnd as [Hx Hnd].
  cbn [List.filter].
  apply elem_of_cons in Hin as [<-|Hin].
  - rewrite Nat.eqb_refl. cbn [negb].
    assert (List.filter (fun q => negb (rid q =? rid req)) R = R) as ->.
    { clear IH. induction R as [|y R IH]; [done|]. cbn [List.filter].
      rewrite fmap_cons in Hx, Hnd. apply NoDup_cons in Hnd as [_ Hnd].
      apply not_elem_of_cons in Hx as [Hne Hx].
      destruct (rid y =? rid req) eqn:Heq; [apply Nat.eqb_eq in Heq; congruence|].
      cbn [negb]. f_equal. by apply IH. }
    destruct (from_queue req); cbn [length]; lia.
  - destruct (rid x =? rid req) eqn:Heq.
    + apply Nat.eqb_eq in Heq. destruct Hx. rewrite Heq.
      by apply list_elem_of_fmap_2.
    + cbn [negb List.filter]. specialize (IH Hnd Hin).
      destruct (from_queue x); cbn [length]; lia.
Qed.

Lemma drop_request_tracked (st : Component) (req : Request) :
  queue_consistent st → req ∈ requests st →
  let st' := drop_request (rid req) st in
  NoDup (rid <$> requests st') ∧ (∀ q, q ∈ requests st' → rid q < next_rid st') ∧
  length (List.filter from_queue (requests st')) + (if from_queue req then 1 else 0)
  = (if isProcessingQueue st then 1 else 0).
Proof.
  intros (Hnd & Hlt & Hcount) Hin. cbn. split_and!.
  - eapply sublist_NoDup; [exact Hnd|]. apply fmap_sublist.
    clear. induction (requests st) as [|x R IH]; [done|]. cbn [List.filter].
    destruct (negb _); [by apply sublist_skip | by apply sublist_cons].
  - intros q Hq. apply list_elem_of_In, filter_In in Hq as [Hq _].
    apply Hlt. by apply list_elem_of_In.
  - rewrite <- Hcount. by apply filter_drop_count.
Qed.

Lemma settle_consistent (req : Request) (now_after : Z) (st : Component) :
  queue_consistent st → req ∈ requests st →
  queue_consistent (settle req now_after st).
Proof.
  intros Hc Hin. pose proof (drop_request_tracked st req Hc Hin) as (Hnd & Hlt & Hcount).
  unfold settle. set (st1 := drop_request (rid req) st) in *.
  assert (isProcessingQueue st1 = isProcessingQueue st) as Hp1 by done.
  unfold from_queue in Hcount at 2.
  destruct (r_origin req) as [signature messageId|] eqn:Ho; cbn [continuation].
  - assert (queue_consistent st1) as Hc1.
    { split_and!; [done..|]. rewrite Hp1. lia. }
    apply finally_block_consistent in Hc1.
    generalize dependent (finally_block st1). intros st2 Hc2.
    destruct (0 <? _); [apply processQueue_consistent|]; by eapply queue_consistent_ext.
  - assert (isProcessingQueue st = true) as Hp.
    { destruct (isProcessingQueue st); [done|lia]. }
    rewrite Hp in Hcount.
    destruct (finally_block_processing st1) as (HR & Hn & _); [congruence|].
    assert (queue_consistent
              (set_isProcessingQueue false (set_activeQueuedId None (finally_block st1))))
      as Hc3.
    { unfold queue_consistent. cbn. rewrite HR, Hn. split_and!; [done..|lia]. }
    destruct (0 <? _); [|done]. eapply queue_consistent_ext; [| | |exact Hc3]; done.
Qed.

Lemma restage_consistent (st st' : Component) (f : Request → Request) :
  (∀ q, rid (f q) = rid q ∧ r_origin (f q) = r_origin q) →
  requests st' = map f (requests st) → next_rid st' = next_rid st →
  isProcessingQueue st' = isProcessingQueue st →
  queue_consistent st → queue_consistent st'.
Proof.
  unfold queue_consistent. intros Hf -> -> -> (Hnd & Hlt & Hcount).
  assert (rid <$> map f (requests st) = rid <$> requests st) as Hrid.
  { clear -Hf. induction (requests st) as [|x R IH]; [done|].
    cbn. f_equal; [apply Hf | apply IH]. }
  split_and!.
  - by rewrite Hrid.
  - intros q Hq. apply list_elem_of_In, in_map_iff in Hq as (q0 & <- & Hq0).
    destruct (Hf q0) as [-> _]. by apply Hlt, list_elem_of_In.
  - rewrite <- Hcount. clear -Hf.
    assert (∀ q, from_queue (f q) = from_queue q) as Hq.
    { intros q. unfold from_queue. by destruct (Hf q) as [_ ->]. }
    induction (requests st) as [|x R IH]; [done|]. cbn [map List.filter].
    rewrite Hq. destruct (from_queue x); cbn [length]; by rewrite IH.
Qed.

Lemma set_stage_consistent (r : nat) (s : Stage) (st : Component) :
  queue_consistent st → queue_consistent (set_stage r s st).
Proof.
  apply (restage_consistent st _
           (fun req => if rid req =? r
                       then {| rid := rid req; r_turnId := r_turnId req;
                               r_content := r_content req; r_images := r_images req;
                               r_origin := r_origin req; r_stage := s |}
                       else req)); try done.
  intros q. by destruct (rid q =? r).
Qed.

Lemma store_user_message_consistent (req : Request) (now : Z) (st : Component) :
  queue_consistent st → queue_consistent (store_user_message req now st).
Proof.
  intros Hc. unfold store_user_message. cbn.
  match goal with |- queue_consistent (set_stage ?r ?s ?st1) =>
    apply (set_stage_consistent r s st1) end.
  by eapply queue_consistent_ext.
Qed.

Lemma handleSendMessage_consistent inputValue pendingImages now rnd_message rnd_queued
    (st : Component) :
  queue_consistent st →
  queue_consistent (handleSendMessage inputValue pendingImages now rnd_message rnd_queued st).
Proof.
  intros Hc. unfold handleSendMessage.
  destruct (_ && _); [done|].
  destruct (match lastSubmittedMessage st with Some _ => _ | None => _ end); [done|].
  cbn [isStreaming isProcessingQueue isSending set_lastSubmittedMessage].
  destruct (_ || _).
  - by eapply queue_consistent_ext.
  - match goal with |- queue_consistent (start_request ?a ?b ?c ?d ?s) =>
      destruct (start_request_fields a b c d s) as (r & HR & Hr & Ho & _ & Hn & _ & _ & Hp & _)
    end.
    eapply (queue_consistent_snoc _ _ r); [exact HR|exact Hr|exact Hn| | |].
    + rewrite Hp. unfold from_queue. rewrite Ho. by rewrite orb_false_r.
    + unfold from_queue. by rewrite Ho.
    + by eapply queue_consistent_ext.
Qed.

Lemma step_consistent (e : Event) (st : Component) :
  queue_consistent st → queue_consistent (step e st).
Proof.
  intros Hc. destruct e; cbn [step].
  - by apply handleSendMessage_consistent.
  - destruct (find_request r st) as [req|] eqn:Hf; [|done].
    destruct (r_stage req); [|done]. by apply store_user_message_consistent.
  - destruct (find_request r st) as [req|] eqn:Hf; [|done].
    apply find_request_elem in Hf as [Hin _].
    destruct (r_stage req); [done|].
    destruct (negb _); [by apply settle_consistent|].
    eapply queue_consistent_ext;
      [| | |by apply (set_stage_consistent r
                        (Streaming newMessages (assistantContent ++ chunk)) st)];
      done.
  - destruct (find_request r st) as [req|] eqn:Hf; [|done].
    apply find_request_elem in Hf as [Hin _].
    destruct (r_stage req); [done|].
    pose proof (complete_stream_same_queue req newMessages assistantContent t st) as Hs.
    apply settle_consistent.
    + by eapply same_queue_consistent.
    + destruct Hs as (-> & _). done.
  - destruct (find_request r st) as [req|] eqn:Hf; [|done].
    apply find_request_elem in Hf as [Hin _].
    pose proof (fail_request_same_queue id_now rnd stamp st) as Hs.
    apply settle_consistent.
    + by eapply same_queue_consistent.
    + destruct Hs as (-> & _). done.
  - destruct (timers st); [done|]. apply processQueue_consistent.
    by eapply queue_consistent_ext.
  - by eapply queue_consistent_ext.
  - by eapply queue_consistent_ext.
  - by eapply queue_consistent_ext.
  - by eapply queue_consistent_ext.
  - eapply same_queue_consistent; [apply render_same_queue | done].
Qed.

Lemma run_consistent (events : list Event) (st : Component) :
  queue_consistent st → queue_consistent (run events st).
Proof.
  revert st. induction events as [|e events IH]; intros st Hc; [done|].
  apply (IH (step e st)), step_consistent, Hc.
Qed.

Lemma mounted_consistent (existing : list ChatMessage) (clearPrevious : bool) :
  queue_consistent (mounted existing clearPrevious).
Proof.
  unfold queue_consistent. cbn. split_and!; [apply NoDup_nil_2| |done].
  intros req Hin. by apply elem_of_nil in Hin.
Qed.

End DispatchFacts.

Section DispatchExtras.

Import Aggregator Chat Window Dispatch.

(** X6: whatever happens to a window whose bookkeeping is consistent, it
    stays consistent: at most one call of [sendMessageToAPI] made by
    [processQueue] is pending, and [isProcessingQueueRef.current] is set
    exactly while there is one. *)
Theorem one_queued_request_at_a_time (events : list Event) (st : Component) :
  queue_consistent st →
  let st' := run events st in
  queue_consistent st' ∧
  length (List.filter from_queue (requests st')) ≤ 1 ∧
  (isProcessingQueue st' = true ↔ ∃ req, req ∈ requests st' ∧ r_origin req = FromQueue).
Proof.
  intros Hc st'. assert (queue_consistent st') as Hc' by by apply run_consistent.
  split; [done|]. destruct Hc' as (_ & _ & Hcount). split.
  - rewrite Hcount. destruct (isProcessingQueue st'); lia.
  - split.
    + intros Hp. rewrite Hp in Hcount.
      destruct (List.filter from_queue (requests st')) as [|req ?] eqn:Hf; [done|].
      assert (In req (List.filter from_queue (requests st'))) as Hin by (rewrite Hf; by left).
      apply filter_In in Hin as [Hin Hq]. exists req. split; [by apply list_elem_of_In|].
      unfold from_queue in Hq. by destruct (r_origin req).
    + intros (req & Hin & Ho). destruct (isProcessingQueue st'); [done|].
      assert (In req (List.filter from_queue (requests st'))) as Hf.
      { apply filter_In. split; [by apply list_elem_of_In|]. unfold from_queue. by rewrite Ho. }
      destruct (List.filter from_queue (requests st')); [done|]. done.
Qed.

End DispatchExtras.

Section DispatchOrder.

Import Aggregator Chat Window Dispatch.

(** A settled call leaves the queue alone or sends its head. *)
Lemma settle_effect (req : Request) (now_after : Z) (st : Component) :
  let st' := settle req now_after st in
  (dispatched st' = dispatched st ∧ messageQueue st' = messageQueue st) ∨
  (∃ next rest, messageQueue st = next :: rest ∧ messageQueue st' = rest ∧
     dispatched st' = dispatched st ++ [q_messageId next]).
Proof.
  unfold settle, continuation, finally_block, drop_request, processQueue.
  destruct (isMounted st) eqn:Hm, (messageQueue st) as [|next rest] eqn:Hq,
    (isProcessingQueue st) eqn:Hp, (r_origin req);
    cbn; rewrite ?Hm, ?Hq, ?Hp; cbn; rewrite ?Hm, ?Hq, ?Hp; cbn.
  all: try (left; done).
  all: try (destruct rest; cbn; rewrite ?Hm, ?Hq, ?Hp; cbn).
  all: try (left; done).
  all: right; eexists _, _; split_and!; reflexivity.
Qed.

Lemma settle_after_effect (req : Request) (now_after : Z) (st st1 : Component) :
  same_queue st st1 →
  let st' := settle req now_after st1 in
  (dispatched st' = dispatched st ∧ messageQueue st' = messageQueue st) ∨
  (∃ next rest, messageQueue st = next :: rest ∧ messageQueue st' = rest ∧
     dispatched st' = dispatched st ++ [q_messageId next]).
Proof.
  intros (_ & _ & _ & Hq & Hd & _). cbn zeta. rewrite <- Hq, <- Hd.
  apply settle_effect.
Qed.

Lemma store_user_message_queue (req : Request) (now : Z) (st : Component) :
  dispatched (store_user_message req now st) = dispatched st ∧
  messageQueue (store_user_message req now st) = messageQueue st.
Proof. done. Qed.

(** X7: what one event does to the queue.  Either nothing is sent and at
    most one entry is added at the end of the queue; or the head of the
    queue is sent and the rest of the queue stays as it is; or a
    submission made while the window is not busy is sent at once and the
    queue stays as it is; or the user removes entries
    ([handleRemoveQueuedMessage], [handleClearQueue]), nothing is sent and
    the entries left keep their order. *)
Theorem queue_is_served_from_its_head (e : Event) (st : Component) :
  let st' := step e st in
  (dispatched st' = dispatched st ∧
   ∃ added, length added ≤ 1 ∧ messageQueue st' = messageQueue st ++ added) ∨
  (∃ next rest, messageQueue st = next :: rest ∧ messageQueue st' = rest ∧
     dispatched st' = dispatched st ++ [q_messageId next]) ∨
  (∃ inputValue pendingImages now rnd_message rnd_queued,
     e = Submit inputValue pendingImages now rnd_message rnd_queued ∧
     busy st = false ∧ messageQueue st' = messageQueue st ∧
     dispatched st' = dispatched st ++ [msg_id now rnd_message]) ∨
  ((∃ queuedId, e = RemoveQueued queuedId) ∨ e = ClearQueue) ∧
  dispatched st' = dispatched st ∧ messageQueue st' `sublist_of` messageQueue st.
Proof.
  assert (∀ s s' : Component,
            dispatched s' = dispatched s ∧ messageQueue s' = messageQueue s →
            dispatched s' = dispatched s ∧
            ∃ added, length added ≤ 1 ∧ messageQueue s' = messageQueue s ++ added) as Hsame.
  { intros s s' [-> ->]. split; [done|]. exists [].
    split; [cbn; lia | by rewrite app_nil_r]. }
  assert (∀ s s' : Component,
            (dispatched s' = dispatched s ∧ messageQueue s' = messageQueue s) ∨
            (∃ next rest, messageQueue s = next :: rest ∧ messageQueue s' = rest ∧
               dispatched s' = dispatched s ++ [q_messageId next]) →
            (dispatched s' = dispatched s ∧
             ∃ added, length added ≤ 1 ∧ messageQueue s' = messageQueue s ++ added) ∨
            (∃ next rest, messageQueue s = next :: rest ∧ messageQueue s' = rest ∧
               dispatched s' = dispatched s ++ [q_messageId next]) ∨
            (∃ inputValue pendingImages now rnd_message rnd_queued,
               e = Submit inputValue pendingImages now rnd_message rnd_queued ∧
               busy s = false ∧ messageQueue s' = messageQueue s ∧
               dispatched s' = dispatched s ++ [msg_id now rnd_message]) ∨
            ((∃ queuedId, e = RemoveQueued queuedId) ∨ e = ClearQueue) ∧
            dispatched s' = dispatched s ∧ messageQueue s' `sublist_of` messageQueue s)
    as Hsettle.
  { intros s s' [H|H]; [left; by apply Hsame | right; by left]. }
  destruct e; cbn [step]; cbn zeta.
  - (* Submit *)
    unfold handleSendMessage.
    destruct (_ && _); [left; by apply Hsame|].
    destruct (match lastSubmittedMessage st with Some _ => _ | None => _ end);
      [left; by apply Hsame|].
    cbn [isStreaming isProcessingQueue isSending set_lastSubmittedMessage].
    destruct (isStreaming st || isProcessingQueue st || isSending st) eqn:Hbusy.
    + left. split; [done|].
      cbn [messageQueue set_lastSubmittedMessage set_messageQueue set_queueExpanded].
      destruct (existsb _ _).
      * exists []. split; [cbn; lia | by rewrite app_nil_r].
      * eexists [_]. split; [cbn; lia | done].
    + right. right. left. eexists _, _, _, _, _. split_and!; done.
  - (* UserStored *)
    left. apply Hsame.
    destruct (find_request r st) as [req|]; [|done]. by destruct (r_stage req).
  - (* Chunk *)
    destruct (find_request r st) as [req|]; [|left; by apply Hsame].
    destruct (r_stage req); [left; by apply Hsame|].
    destruct (negb _); [apply Hsettle, settle_effect | left; by apply Hsame].
  - (* StreamEnd *)
    destruct (find_request r st) as [req|]; [|left; by apply Hsame].
    destruct (r_stage req); [left; by apply Hsame|].
    apply Hsettle, settle_after_effect, complete_stream_same_queue.
  - (* BackendError *)
    destruct (find_request r st) as [req|]; [|left; by apply Hsame].
    apply Hsettle, settle_after_effect, fail_request_same_queue.
  - (* TimerFires *)
    destruct (timers st) as [|n]; [left; by apply Hsame|].
    apply Hsettle.
    destruct (processQueue_fields (set_timers n st)) as (_ & _ & _ & [->|Hsent]);
      [by left|].
    destruct Hsent as (next & rest & r & ? & ? & ? & ? & ? & ? & ? & ? & ?).
    right. by exists next, rest.
  - (* RemoveQueued *)
    right. right. right. split; [left; by eexists|]. split; [done|].
    cbn. induction (messageQueue st) as [|x Q IH]; [done|]. cbn [List.filter].
    destruct (negb _); [by apply sublist_skip | by apply sublist_cons].
  - (* ClearQueue *)
    right. right. right. split; [by right|]. split; [done|]. apply sublist_nil_l.
  - left. by apply Hsame.
  - left. by apply Hsame.
  - (* Render *)
    left. apply Hsame. by destruct (render_same_queue st) as (_ & _ & _ & -> & -> & _).
Qed.

(** X5: the submission guard of [handleSendMessage].  When a submission
    is handled at time [now] (no submission with the same content and
    images was recorded in the 1500 ms before), the same input submitted
    again less than 1500 ms later leaves the window as it is: nothing is
    sent and nothing is queued a second time. *)
Theorem duplicate_submission_is_ignored (st : Component)
    (inputValue : jsstring) (pendingImages : list PendingImage)
    (now now' : Z) (rnd_message rnd_queued rnd_message' rnd_queued' : jsstring) :
  (∀ s, lastSubmittedMessage st = Some s →
        sub_signature s = (content_for_storage inputValue pendingImages,
                           map dataURL pendingImages) →
        (1500 <= now - sub_timestamp s)%Z) →
  (now' - now < 1500)%Z →
  let st1 := handleSendMessage inputValue pendingImages now rnd_message rnd_queued st in
  handleSendMessage inputValue pendingImages now' rnd_message' rnd_queued' st1 = st1.
Proof.
  intros Hold Hsoon st1.
  assert (st1 = st ∧ (negb (truthy (trim inputValue)) && (length pendingImages =? 0)) = true
          ∨ lastSubmittedMessage st1 =
              Some {| sub_signature := (content_for_storage inputValue pendingImages,
                                        map dataURL pendingImages);
                      sub_timestamp := now;
                      sub_messageId := msg_id now rnd_message |}) as [[-> Hblank]|Hlast].
  { subst st1. unfold handleSendMessage.
    destruct (_ && _); [by left|]. right.
    destruct (lastSubmittedMessage st) as [s|] eqn:Hs.
    - destruct (bool_decide _) eqn:Hsig; cbn [andb].
      + apply bool_decide_eq_true in Hsig. specialize (Hold s eq_refl Hsig).
        destruct (_ <? _)%Z eqn:Hlt; [apply Z.ltb_lt in Hlt; lia|].
        cbn [isStreaming isProcessingQueue isSending set_lastSubmittedMessage].
        by destruct (_ || _).
      + cbn [isStreaming isProcessingQueue isSending set_lastSubmittedMessage].
        by destruct (_ || _).
    - cbn [isStreaming isProcessingQueue isSending set_lastSubmittedMessage].
      by destruct (_ || _). }
  - unfold handleSendMessage. by rewrite Hblank.
  - unfold handleSendMessage at 1.
    destruct (_ && _); [done|]. rewrite Hlast. cbn [sub_signature sub_timestamp].
    rewrite bool_decide_eq_true_2 by done.
    destruct (_ <? _)%Z eqn:Hlt; [done|]. apply Z.ltb_ge in Hlt. lia.
Qed.

End DispatchOrder.

Section DispatchWitnesses.

Import Aggregator Chat Window Dispatch.

Lemma never_submitted (existing : list ChatMessage) (clearPrevious : bool)
    (signature : Signature) (now : Z) :
  ∀ s, lastSubmittedMessage (mounted existing clearPrevious) = Some s →
       sub_signature s = signature → (1500 <= now - sub_timestamp s)%Z.
Proof. intros s Hs. discriminate Hs. Qed.

Lemma duplicate_submission_is_ignored_witness :
  let st1 := handleSendMessage (lit "A") [] 0 (lit "a") (lit "a") (mounted [] false) in
  handleSendMessage (lit "A") [] 100 (lit "b") (lit "b") st1 = st1.
Proof.
  exact (duplicate_submission_is_ignored (mounted [] false) (lit "A") [] 0 100
           (lit "a") (lit "a") (lit "b") (lit "b")
           (never_submitted [] false _ 0) eq_refl).
Defined.

Lemma one_queued_request_at_a_time_witness :
  let st' := run late_submission (mounted [] false) in
  queue_consistent st' ∧
  length (List.filter from_queue (requests st')) ≤ 1 ∧
  (isProcessingQueue st' = true ↔ ∃ req, req ∈ requests st' ∧ r_origin req = FromQueue).
Proof.
  exact (one_queued_request_at_a_time late_submission (mounted [] false)
           (mounted_consistent [] false)).
Defined.

End DispatchWitnesses.

Section CompletionExtras.

Import Aggregator Chat Window Dispatch.

Lemma dedupe_from_snoc_seen (seen : gset jsstring) (l : list ChatMessage)
    (new : ChatMessage) :
  id new ∈ seen ∨ id new ∈ id <$> l →
  dedupe_from seen (l ++ [new]) = dedupe_from seen l.
Proof.
  revert seen. induction l as [|m l IH]; intros seen Hin; cbn [app dedupe_from].
  - destruct Hin as [Hin|Hin]; [|by apply elem_of_nil in Hin].
    by destruct (decide (id new ∈ seen)).
  - destruct (decide (id m ∈ seen)) as [Hm|Hm].
    + apply IH. destruct Hin as [?|Hin]; [by left|].
      rewrite fmap_cons in Hin. apply elem_of_cons in Hin as [->|?]; [by left | by right].
    + f_equal. apply IH. destruct Hin as [?|Hin].
      * left. apply elem_of_union. by right.
      * rewrite fmap_cons in Hin. apply elem_of_cons in Hin as [->|?]; [|by right].
        left. apply elem_of_union. left. by apply elem_of_singleton.
Qed.

Lemma dedupe_snoc_ids (l : list ChatMessage) (new : ChatMessage) :
  unique_ids l →
  ∃ added, length added ≤ 1 ∧ id <$> dedupeMessagesById (l ++ [new]) = (id <$> l) ++ added.
Proof.
  intros Hu. destruct (decide (id new ∈ id <$> l)) as [Hin|Hout].
  - exists []. split; [cbn; lia|]. unfold dedupeMessagesById.
    rewrite dedupe_from_snoc_seen by by right.
    rewrite app_nil_r. f_equal. by apply dedupe_same.
  - exists [id new]. split; [cbn; lia|]. rewrite dedupe_snoc_fresh by done.
    by rewrite fmap_app.
Qed.

Lemma dedupe_same_ids (l l' : list ChatMessage) :
  unique_ids l → id <$> l' = id <$> l → id <$> dedupeMessagesById l' = id <$> l.
Proof.
  intros Hu Hids. rewrite dedupe_same; [done|]. unfold unique_ids. by rewrite Hids.
Qed.

Lemma correlate_turn_ids (base : list ChatMessage) (tm : gmap jsstring jsstring)
    (T content stored : jsstring) (th : option jsstring) (t : Stamps) :
  unique_ids base →
  ∃ added, length added ≤ 1 ∧
    id <$> finalMessages (correlate_turn base tm T content stored th t)
    = (id <$> base) ++ added.
Proof.
  intros Hu.
  destruct (correlate_turn_cases base tm T content stored th t)
    as [(eid & _ & _ & _ & ->) | [_ ->]].
  - exists []. split; [cbn; lia|]. rewrite app_nil_r. cbn [finalMessages update_existing].
    apply dedupe_same_ids; [done|].
    clear. induction base as [|m base IH]; [done|]. cbn. rewrite <- IH.
    by destruct (decide (id m = eid)).
  - destruct (correlate_new_turn_cases base T content stored th t)
      as [(lastMessage & Hl & _ & ->) | ->].
    + exists []. split; [cbn; lia|]. rewrite app_nil_r.
      apply dedupe_same_ids; [done|].
      rewrite (last_removelast base lastMessage Hl) at 2.
      by rewrite !fmap_app.
    + by apply dedupe_snoc_ids.
Qed.

(** X8: a completed stream builds the list from the array
    [sendMessageToAPI] captured when the turn started, not from the list
    that is current by then.  With the replace-last-reply preference and
    the test hook off and unique ids in the captured array: an unmounted
    window is left as it is; when the answer is blank, the current list,
    the arrays and the queued [setMessages] calls are left as they are;
    and when there is an answer to store, a new array becomes
    [messagesRef.current] and [session.messages] and is queued for the
    [messages] state, and its ids are the ids of the captured array, in
    their order, followed by at most one new id. *)
Theorem completion_rewrites_the_captured_list (req : Request) (l : nat)
    (acc : jsstring) (t : Stamps) (st : Component) :
  clearPreviousAssistant st = false →
  shouldForceDuplicate (testDuplicateConfig st) = false →
  unique_ids (read st l) →
  let st' := complete_stream req l acc t st in
  let stored :=
    answer_for_storage (effective_content (testDuplicateConfig st) acc)
      (streamingDeltaHistory st) in
  (isMounted st = false → st' = st) ∧
  (isMounted st = true → stored = None →
   messagesRef st' = messagesRef st ∧ heap st' = heap st ∧
   pendingMessages st' = pendingMessages st) ∧
  (isMounted st = true → is_Some stored →
   messagesRef st' = next_loc st ∧ session_messages st' = Some (next_loc st) ∧
   pendingMessages st' = pendingMessages st ++ [SetMessagesTo (next_loc st)] ∧
   ∃ added, length added ≤ 1 ∧ id <$> messages st' = (id <$> read st l) ++ added).
Proof.
  intros Hclear Hforce Hu st' stored. subst st' stored. unfold complete_stream.
  assert (splice_session_assistant st = st) as ->.
  { unfold splice_session_assistant. by rewrite Hclear. }
  rewrite Hclear.
  destruct (isMounted st); cbn [negb]; (split_and!; [done| |]); try done.
  - intros _ ->. done.
  - intros _ [stored Hs]. rewrite Hs.
    unfold force_duplicate. rewrite Hforce.
    set (c := correlate_turn _ _ _ _ _ _ _).
    set (st1 := set_turn_entry _ _ _).
    assert (next_loc st1 = next_loc st ∧ pendingMessages st1 = pendingMessages st)
      as [Hn1 Hp1].
    { unfold st1. by destruct (turnEntry c). }
    clearbody st1.
    set (st2 := write_session_message _ _).
    assert (next_loc st2 = next_loc st ∧ pendingMessages st2 = pendingMessages st)
      as [Hn2 Hp2].
    { unfold st2, write_session_message.
      destruct (sessionWrite c) as [[wanted m]|]; [|done].
      destruct (session_messages st1); [|done].
      by destruct (findIndex_id _ _). }
    clearbody st2.
    unfold setMessages, alloc, messages. cbn. rewrite Hn2, Hp2.
    split_and!; [done..|].
    unfold read. cbn. rewrite lookup_insert_eq. cbn.
    fold (read st l). by apply correlate_turn_ids.
Qed.

Lemma answering_A_captured :
  clearPreviousAssistant answering_A = false ∧
  shouldForceDuplicate (testDuplicateConfig answering_A) = false ∧
  unique_ids (read answering_A 1) ∧
  isMounted answering_A = true ∧
  is_Some (answer_for_storage
             (effective_content (testDuplicateConfig answering_A) (lit "reply"))
             (streamingDeltaHistory answering_A)).
Proof.
  split_and!; [reflexivity..| | reflexivity | by eexists].
  unfold unique_ids.
  replace (read answering_A 1) with [asked "msg-0-a" "A" 1] by (vm_compute; reflexivity).
  apply NoDup_singleton.
Qed.

Lemma completion_rewrites_the_captured_list_witness :
  let st' := complete_stream request_A 1 (lit "reply") (some_stamps 8 "zz") answering_A in
  messagesRef st' = next_loc answering_A ∧
  session_messages st' = Some (next_loc answering_A) ∧
  pendingMessages st' = pendingMessages answering_A ++ [SetMessagesTo (next_loc answering_A)] ∧
  ∃ added, length added ≤ 1 ∧ id <$> messages st' = (id <$> read answering_A 1) ++ added.
Proof.
  exact (proj2 (proj2 (completion_rewrites_the_captured_list request_A 1 (lit "reply")
           (some_stamps 8 "zz") answering_A
           (proj1 answering_A_captured)
           (proj1 (proj2 answering_A_captured))
           (proj1 (proj2 (proj2 answering_A_captured)))))
           (proj1 (proj2 (proj2 (proj2 answering_A_captured))))
           (proj2 (proj2 (proj2 (proj2 answering_A_captured))))).
Defined.

End CompletionExtras.

Section QueueWakeUp.

Import Aggregator Chat Window Dispatch.

Lemma from_queue_pending (st : Component) :
  queue_consistent st → isProcessingQueue st = true →
  ∃ q, q ∈ requests st ∧ r_origin q = FromQueue.
Proof.
  intros (_ & _ & Hcount) Hp. rewrite Hp in Hcount.
  destruct (List.filter from_queue (requests st)) as [|q ?] eqn:Hf; [done|].
  assert (In q (List.filter from_queue (requests st))) as Hin by (rewrite Hf; by left).
  apply filter_In in Hin as [Hin Hq]. exists q. split; [by apply list_elem_of_In|].
  unfold from_queue in Hq. by destruct (r_origin q).
Qed.

Lemma drop_keeps_others (st : Component) (req q : Request) :
  queue_consistent st → req ∈ requests st → q ∈ requests st →
  r_origin q ≠ r_origin req →
  List.filter (fun x => negb (rid x =? rid req)) (requests st) ≠ [].
Proof.
  intros (Hnd & _) Hreq Hq Hne Hnil.
  assert (In q (List.filter (fun x => negb (rid x =? rid req)) (requests st))) as Hin;
    [|by rewrite Hnil in Hin].
  apply filter_In. split; [by apply list_elem_of_In|].
  destruct (rid q =? rid req) eqn:Heq; [|done]. apply Nat.eqb_eq in Heq.
  apply list_elem_of_lookup_1 in Hreq as [i Hi], Hq as [j Hj].
  assert (j = i) as ->.
  { eapply NoDup_lookup; [exact Hnd| |]; rewrite list_lookup_fmap.
    - rewrite Hj. cbn. by rewrite Heq.
    - by rewrite Hi. }
  congruence.
Qed.

Lemma snoc_not_nil {A} (l : list A) (x : A) : l ++ [x] ≠ [].
Proof. by destruct l. Qed.

(** When a call returns in a mounted window, the messages still waiting
    have a call pending or a timer armed. *)
Lemma settle_wakes (req : Request) (now_after : Z) (st : Component) :
  queue_consistent st → req ∈ requests st → isMounted st = true →
  messageQueue (settle req now_after st) ≠ [] →
  requests (settle req now_after st) ≠ [] ∨ 0 < timers (settle req now_after st).
Proof.
  intros Hc Hreq Hm.
  assert (isProcessingQueue st = true → r_origin req ≠ FromQueue →
          List.filter (fun x => negb (rid x =? rid req)) (requests st) ≠ []) as Hother.
  { intros Hp Ho. destruct (from_queue_pending st Hc Hp) as (q & Hq & Hoq).
    apply (drop_keeps_others st req q); [done..|congruence]. }
  revert Hother.
  unfold settle, continuation, finally_block, drop_request, processQueue.
  destruct (messageQueue st) as [|next rest] eqn:Hq,
    (isProcessingQueue st) eqn:Hp, (r_origin req) eqn:Ho;
    cbn; rewrite ?Hm, ?Hq, ?Hp; cbn; rewrite ?Hm, ?Hq, ?Hp; cbn;
    try (destruct rest; cbn; rewrite ?Hm, ?Hq, ?Hp; cbn);
    intros Hother Hne; try done;
    first [left; apply snoc_not_nil
          |right; lia
          |left; apply Hother; done].
Qed.

(** X21: the queue is not left asleep.  In a mounted window, when a call
    of [sendMessageToAPI] returns (its stream ended or failed) or a timer
    of [processQueue] fires, and messages are still waiting afterwards,
    then a call is pending or a timer is armed. *)
Theorem returning_call_wakes_the_queue (e : Event) (st : Component) :
  queue_consistent st → isMounted st = true → resumes e st = true →
  messageQueue (step e st) ≠ [] →
  requests (step e st) ≠ [] ∨ 0 < timers (step e st).
Proof.
  intros Hc Hm He. destruct e; try discriminate He; cbn [step resumes] in *.
  - destruct (find_request r st) as [req|] eqn:Hf; [|done].
    apply find_request_elem in Hf as [Hin _].
    destruct (r_stage req); [done|].
    pose proof (complete_stream_same_queue req newMessages assistantContent t st) as Hs.
    apply settle_wakes.
    + by eapply same_queue_consistent.
    + destruct Hs as (-> & _). done.
    + destruct Hs as (_ & _ & _ & _ & _ & -> & _). done.
  - destruct (find_request r st) as [req|] eqn:Hf; [|done].
    apply find_request_elem in Hf as [Hin _].
    pose proof (fail_request_same_queue id_now rnd stamp st) as Hs.
    apply settle_wakes.
    + by eapply same_queue_consistent.
    + destruct Hs as (-> & _). done.
    + destruct Hs as (_ & _ & _ & _ & _ & -> & _). done.
  - destruct (timers st) as [|n] eqn:Ht; [done|].
    assert (queue_consistent (set_timers n st)) as Hc' by by eapply queue_consistent_ext.
    unfold processQueue. cbn. rewrite Hm. cbn.
    destruct (messageQueue st) as [|next rest] eqn:Hq; cbn; [by rewrite Hq|].
    destruct (isProcessingQueue st) eqn:Hp; cbn.
    + intros _. left. destruct (from_queue_pending st Hc Hp) as (q & Hin & _).
      intros Hnil. rewrite Hnil in Hin. by apply elem_of_nil in Hin.
    + intros _. left. apply snoc_not_nil.
Qed.

Lemma answering_B_waiting_C :
  let st := run (take 6 late_submission) (mounted [] false) in
  isMounted st = true ∧
  resumes (StreamEnd 1 (some_stamps 20 "y") 20) st = true ∧
  messageQueue (step (StreamEnd 1 (some_stamps 20 "y") 20) st) ≠ [].
Proof. vm_compute. by split_and!. Qed.

Lemma returning_call_wakes_the_queue_witness :
  let st := run (take 6 late_submission) (mounted [] false) in
  let st' := step (StreamEnd 1 (some_stamps 20 "y") 20) st in
  requests st' ≠ [] ∨ 0 < timers st'.
Proof.
  exact (returning_call_wakes_the_queue (StreamEnd 1 (some_stamps 20 "y") 20)
           (run (take 6 late_submission) (mounted [] false))
           (run_consistent _ _ (mounted_consistent [] false))
           (proj1 answering_B_waiting_C)
           (proj1 (proj2 answering_B_waiting_C))
           (proj2 (proj2 answering_B_waiting_C))).
Defined.

End QueueWakeUp.

(* ===================================================================== *)
(** ** More on the resolver and the descriptor keys *)
(* ===================================================================== *)

Section ResolverExtras.

Import Resolver.

Lemma html_only_Some (found : option Element) (e : Element) :
  html_only found = Some e → found = Some e ∧ is_html e = true.
Proof.
  unfold html_only. destruct found as [x|]; [|done].
  destruct (is_html x) eqn:Hx; [|done]. by intros [= <-].
Qed.

Lemma find_elem (P : Element → bool) (l : list Element) (e : Element) :
  List.find P l = Some e → e ∈ l ∧ P e = true.
Proof. intros [Hin HP]%find_some. split; [by apply list_elem_of_In | done]. Qed.

Lemma by_chat_id_sound (page : Page) (d : ElementDescriptor) (e : Element) :
  by_chat_id page d = Some e →
  e ∈ elements page ∧ is_html e = true ∧ chat_attr e = Some (chatId d).
Proof.
  unfold by_chat_id.
  assert (∀ x, x ∈ querySelectorAll_chat page (chatId d) →
               x ∈ elements page ∧ chat_attr x = Some (chatId d)) as Hall.
  { intros x Hx. apply list_elem_of_In, filter_In in Hx as [Hin Hc].
    split; [by apply list_elem_of_In|]. by apply bool_decide_eq_true in Hc. }
  destruct (0 <? _); [|done].
  destruct (if 1 <? _ then _ else _) as [c|] eqn:Hc.
  - intros [= <-]. destruct (1 <? _); [|done].
    apply find_elem in Hc as [Hin Hnear].
    apply andb_true_iff in Hnear as [Hhtml _].
    destruct (Hall c Hin). done.
  - intros [Hhead Hhtml]%html_only_Some.
    apply head_Some_elem_of in Hhead. destruct (Hall e Hhead). done.
Qed.

(** X9: an element [resolveElementForDescriptor] returns is an
    [HTMLElement] of the page that carries the descriptor's id, or is
    selected by its selector, or carries its chat id; or else the three
    lookups have failed and it is what the structural lookup returns. *)
Theorem resolved_element_matches_descriptor (page : Page) (d : ElementDescriptor)
    (e : Element) :
  resolveElementForDescriptor page d = Some e →
  (e ∈ elements page ∧ is_html e = true ∧
   ((truthy (d_id d) = true ∧ el_id e = d_id d) ∨
    (truthy (cssSelector d) = true ∧
     ∃ selected, selects page (cssSelector d) = Some selected ∧ selected e = true) ∨
    chat_attr e = Some (chatId d))) ∨
  (by_id page d = None ∧ by_selector page d = None ∧ by_chat_id page d = None ∧
   findElementByDescriptor page d = Some e).
Proof.
  unfold resolveElementForDescriptor.
  destruct (by_id page d) as [byId|] eqn:Hid.
  { intros [= ->]. left. unfold by_id in Hid.
    destruct (truthy (d_id d)) eqn:Ht; [|done].
    apply html_only_Some in Hid as [Hfind Hhtml].
    apply find_elem in Hfind as [Hin Hhas].
    apply bool_decide_eq_true in Hhas. split_and!; [done..|]. left. done. }
  destruct (by_selector page d) as [bySelector|] eqn:Hsel.
  { intros [= ->]. left. unfold by_selector, querySelector in Hsel.
    destruct (truthy (cssSelector d)) eqn:Ht; [|done].
    destruct (selects page (cssSelector d)) as [selected|] eqn:Hs; [|done].
    apply html_only_Some in Hsel as [Hfind Hhtml].
    apply find_elem in Hfind as [Hin Hhas].
    split_and!; [done..|]. right. left. split; [done|]. by exists selected. }
  destruct (by_chat_id page d) as [found|] eqn:Hchat.
  { intros [= ->]. left. apply by_chat_id_sound in Hchat as (? & ? & ?).
    split_and!; [done..|]. right. by right. }
  intros Hs. right. done.
Qed.

Lemma resolved_element_matches_descriptor_witness :
  (panel ∈ elements panel_page ∧ is_html panel = true ∧
   ((truthy (d_id panel_descriptor) = true ∧ el_id panel = d_id panel_descriptor) ∨
    (truthy (cssSelector panel_descriptor) = true ∧
     ∃ selected, selects panel_page (cssSelector panel_descriptor) = Some selected ∧
                 selected panel = true) ∨
    chat_attr panel = Some (chatId panel_descriptor))) ∨
  (by_id panel_page panel_descriptor = None ∧ by_selector panel_page panel_descriptor = None ∧
   by_chat_id panel_page panel_descriptor = None ∧
   findElementByDescriptor panel_page panel_descriptor = Some panel).
Proof.
  apply (resolved_element_matches_descriptor panel_page panel_descriptor panel).
  reflexivity.
Defined.

End ResolverExtras.

Section DescriptorKeyExtras.

Import Resolver Anchor.

Lemma join_with_cons2 (sep p q : jsstring) (ps : list jsstring) :
  join_with sep (p :: q :: ps) = p ++ sep ++ join_with sep (q :: ps).
Proof. done. Qed.

Lemma buildDescriptorKey_prefix (d : ElementDescriptor) (index : nat) :
  ∃ rest, buildDescriptorKey d index = chatId d ++ lit "|" ++ rest.
Proof.
  unfold buildDescriptorKey.
  destruct (truthy (d_id d)); [by eexists|].
  destruct (truthy (cssSelector d)); [by eexists|].
  destruct (truthy (xpath d)); [by eexists|].
  rewrite join_with_cons2. by eexists.
Qed.

Lemma foldl_insert_lookup `{Countable K} {V : Type} (key : DescriptorEntry → K)
    (val : DescriptorEntry → V) (es : list DescriptorEntry)
    (m : gmap K V) (k : K) :
  foldl (fun m e => <[key e := val e]> m) m es !! k =
  match last (List.filter (fun e => bool_decide (key e = k)) es) with
  | Some e => Some (val e)
  | None => m !! k
  end.
Proof.
  induction es as [|e es IH] using rev_ind; [done|].
  rewrite foldl_snoc, List.filter_app. cbn [List.filter].
  destruct (decide (key e = k)) as [Heq|Hne].
  - rewrite bool_decide_eq_true_2 by done. rewrite last_snoc, <- Heq.
    apply lookup_insert_eq.
  - rewrite bool_decide_eq_false_2 by done. rewrite app_nil_r, lookup_insert_ne by done.
    exact IH.
Qed.

End DescriptorKeyExtras.

(* ===================================================================== *)
(** ** Mounting on a stored session *)
(* ===================================================================== *)

Section MountExtras.

Import Resolver Anchor Collapse Mount.

Lemma buildDescriptorKey_truthy (d : ElementDescriptor) (index : nat) :
  truthy (buildDescriptorKey d index) = true.
Proof.
  destruct (buildDescriptorKey_prefix d index) as [rest ->].
  apply truthy_true. intros H. by apply app_eq_nil in H as [_ H].
Qed.

Lemma descriptorEntries_elem (descriptors : list ElementDescriptor) (e : DescriptorEntry) :
  e ∈ descriptorEntries descriptors ↔
  ∃ i d, descriptors !! i = Some d ∧
         e = {| entry_descriptor := d; entry_index := i;
                entry_key := buildDescriptorKey d i |}.
Proof.
  unfold descriptorEntries. rewrite elem_of_lookup_imap.
  split; intros (i & d & H1 & H2); by exists i, d.
Qed.

Lemma entry_key_truthy (descriptors : list ElementDescriptor) (e : DescriptorEntry) :
  e ∈ descriptorEntries descriptors → truthy (entry_key e) = true.
Proof.
  intros (i & d & _ & ->)%descriptorEntries_elem. apply buildDescriptorKey_truthy.
Qed.

Lemma has_key_elem (entries : list DescriptorEntry) (k : jsstring) :
  has_key entries k = true ↔ ∃ e, e ∈ entries ∧ entry_key e = k.
Proof.
  unfold has_key. rewrite existsb_exists. split.
  - intros (e & Hin & Hk). exists e. split; [by apply list_elem_of_In|].
    by apply bool_decide_eq_true in Hk.
  - intros (e & Hin & Hk). exists e. split; [by apply list_elem_of_In|].
    by apply bool_decide_eq_true.
Qed.

Lemma filter_last_elem {A} (P : A → bool) (l : list A) (x : A) :
  last (List.filter P l) = Some x → x ∈ l ∧ P x = true.
Proof.
  intros Hl. assert (x ∈ List.filter P l) as Hin.
  { apply last_Some in Hl as [l' ->]. apply elem_of_app. right. by left. }
  apply list_elem_of_In, filter_In in Hin as [Hin HP]. split; [by apply list_elem_of_In|done].
Qed.

Lemma filter_last_None {A} (P : A → bool) (l : list A) :
  last (List.filter P l) = None → ∀ x, x ∈ l → P x = false.
Proof.
  intros Hl x Hin. destruct (P x) eqn:HP; [|done].
  assert (In x (List.filter P l)) as Hf.
  { apply filter_In. split; [by apply list_elem_of_In|done]. }
  destruct (List.filter P l) as [|y f] using rev_ind; [done|].
  by rewrite last_snoc in Hl.
Qed.

Lemma descriptorMap_has_key (descriptors : list ElementDescriptor) (k : jsstring) :
  is_Some (descriptorMap descriptors !! k) ↔ has_key (descriptorEntries descriptors) k = true.
Proof.
  unfold descriptorMap. rewrite (foldl_insert_lookup entry_key entry_descriptor).
  rewrite has_key_elem. split.
  - destruct (last _) as [e|] eqn:Hl.
    + apply filter_last_elem in Hl as [Hin Hk]. apply bool_decide_eq_true in Hk.
      intros _. by exists e.
    + rewrite lookup_empty. by intros [? ?].
  - intros (e & Hin & Hk). destruct (last _) as [e'|] eqn:Hl; [done|].
    pose proof (filter_last_None _ _ Hl e Hin) as Hf. cbn in Hf.
    by apply bool_decide_eq_false in Hf.
Qed.

Lemma descriptorMap_value (descriptors : list ElementDescriptor) (k : jsstring)
    (d : ElementDescriptor) :
  descriptorMap descriptors !! k = Some d →
  ∃ i, descriptors !! i = Some d ∧ buildDescriptorKey d i = k.
Proof.
  unfold descriptorMap. rewrite (foldl_insert_lookup entry_key entry_descriptor).
  destruct (last _) as [e|] eqn:Hl; [|by rewrite lookup_empty].
  apply filter_last_elem in Hl as [Hin Hk]. apply bool_decide_eq_true in Hk.
  apply descriptorEntries_elem in Hin as (i & d' & Hi & ->). cbn in *.
  intros [= <-]. by exists i.
Qed.

Lemma initialActiveAnchorKey_has_key (stored : option ChatWindowState)
    (descriptors : list ElementDescriptor) (primary : ElementDescriptor) :
  descriptors ≠ [] →
  has_key (descriptorEntries descriptors)
    (initialActiveAnchorKey stored descriptors primary) = true.
Proof.
  intros Hne. unfold initialActiveAnchorKey.
  destruct (stored ≫= ws_activeAnchorKey) as [sessionKey|].
  { destruct (truthy sessionKey && has_key _ sessionKey) eqn:Hs.
    { by apply andb_true_iff in Hs as [_ Hs]. }
    clear Hs. 
    destruct (stored ≫= ws_activeAnchorChatId) as [legacyChatId|].
    2: { destruct descriptors as [|d ds]; [done|]. cbn. 
         rewrite bool_decide_eq_true_2 by done. done. }
    destruct (truthy legacyChatId).
    2: { destruct descriptors as [|d ds]; [done|]. cbn. 
         rewrite bool_decide_eq_true_2 by done. done. }
    destruct (List.find _ _) as [e|] eqn:Hf; cbn [fmap option_fmap option_map].
    - apply find_some in Hf as [Hin _]. apply has_key_elem. exists e.
      split; [by apply list_elem_of_In|done].
    - destruct descriptors as [|d ds]; [done|]. cbn. 
      rewrite bool_decide_eq_true_2 by done. done. }
  destruct (stored ≫= ws_activeAnchorChatId) as [legacyChatId|].
  2: { destruct descriptors as [|d ds]; [done|]. cbn. 
       rewrite bool_decide_eq_true_2 by done. done. }
  destruct (truthy legacyChatId).
  2: { destruct descriptors as [|d ds]; [done|]. cbn. 
       rewrite bool_decide_eq_true_2 by done. done. }
  destruct (List.find _ _) as [e|] eqn:Hf; cbn [fmap option_fmap option_map].
  - apply find_some in Hf as [Hin _]. apply has_key_elem. exists e.
    split; [by apply list_elem_of_In|done].
  - destruct descriptors as [|d ds]; [done|]. cbn. 
    rewrite bool_decide_eq_true_2 by done. done.
Qed.

(** X11: when the component renders ([descriptorCandidates] is not empty),
    the descriptor list is the candidate list with the primary descriptor
    at its head, [initialActiveAnchorKey] is a non-empty key of the
    descriptor map, and after the effect that resets an unknown active key
    the active key is a key of the descriptor map. *)
Theorem initial_anchor_key_is_attached (props : Props)
    (descriptors : list ElementDescriptor) (primary : ElementDescriptor) (st : Registry) :
  descriptorList props = Some descriptors →
  primaryDescriptor props = Some primary →
  let key := initialActiveAnchorKey (existingSession props ≫= windowState)
               descriptors primary in
  descriptors = descriptorCandidates props ∧ head descriptors = Some primary ∧
  truthy key = true ∧
  is_Some (descriptorMap descriptors !! key) ∧
  is_Some (descriptorMap descriptors !! activeAnchorKey (reset_active_key descriptors key st)).
Proof.
  intros Hl Hp key. unfold descriptorList in Hl. rewrite Hp in Hl.
  unfold primaryDescriptor in Hp.
  destruct (descriptorCandidates props) as [|d ds] eqn:Hc; [done|].
  cbn in Hl, Hp. injection Hl as <-. injection Hp as ->.
  assert (has_key (descriptorEntries (primary :: ds)) key = true) as Hkey.
  { by apply initialActiveAnchorKey_has_key. }
  assert (is_Some (descriptorMap (primary :: ds) !! key)) as Hsome.
  { by apply descriptorMap_has_key. }
  split_and!; [done..| |done|].
  - apply has_key_elem in Hkey as (e & Hin & <-). by eapply entry_key_truthy.
  - unfold reset_active_key.
    destruct (descriptorMap (primary :: ds) !! activeAnchorKey st) eqn:Ha; [by rewrite Ha|done].
Qed.

End MountExtras.

Section MountExtras2.

Import Resolver Anchor Collapse Mount.

Lemma filter_key_single `{EqDecision K} (key : DescriptorEntry → K)
    (es : list DescriptorEntry) (e : DescriptorEntry) :
  NoDup (key <$> es) → e ∈ es →
  List.filter (fun x => bool_decide (key x = key e)) es = [e].
Proof.
  induction es as [|x es IH]; intros Hnd Hin; [by apply elem_of_nil in Hin|].
  rewrite fmap_cons in Hnd. apply NoDup_cons in Hnd as [Hx Hnd].
  cbn [List.filter]. apply elem_of_cons in Hin as [<-|Hin].
  - rewrite bool_decide_eq_true_2 by done. f_equal.
    clear IH Hnd. induction es as [|y es IH]; [done|]. cbn [List.filter].
    rewrite fmap_cons in Hx. apply not_elem_of_cons in Hx as [Hne Hx].
    rewrite bool_decide_eq_false_2 by congruence. by apply IH.
  - rewrite bool_decide_eq_false_2; [by apply IH|].
    intros Heq. apply Hx. rewrite Heq. by apply list_elem_of_fmap_2.
Qed.

(** X10: [buildDescriptorKey], [descriptorMap] and [descriptorKeyMap].
    The key of a descriptor is never the empty string; every attached
    descriptor has its key in the descriptor map and its object in the key
    map; what the maps hold are attached descriptors with their keys; and
    when no two entries share a key the descriptor map returns, under the
    key of a descriptor, that descriptor. *)
Theorem descriptor_map_holds_the_attached_descriptors
    (descriptors : list ElementDescriptor) :
  (∀ i d, descriptors !! i = Some d →
     truthy (buildDescriptorKey d i) = true ∧
     is_Some (descriptorMap descriptors !! buildDescriptorKey d i) ∧
     is_Some (descriptorKeyMap descriptors !! object_id d)) ∧
  (∀ k d, descriptorMap descriptors !! k = Some d →
     ∃ i, descriptors !! i = Some d ∧ buildDescriptorKey d i = k) ∧
  (∀ o k, descriptorKeyMap descriptors !! o = Some k →
     ∃ i d, descriptors !! i = Some d ∧ object_id d = o ∧ buildDescriptorKey d i = k) ∧
  (NoDup (entry_key <$> descriptorEntries descriptors) →
   ∀ i d, descriptors !! i = Some d →
     descriptorMap descriptors !! buildDescriptorKey d i = Some d).
Proof.
  split_and!.
  - intros i d Hi.
    assert ({| entry_descriptor := d; entry_index := i;
               entry_key := buildDescriptorKey d i |} ∈ descriptorEntries descriptors) as Hin.
    { apply descriptorEntries_elem. by exists i, d. }
    split_and!.
    + apply buildDescriptorKey_truthy.
    + apply descriptorMap_has_key, has_key_elem. by eexists.
    + unfold descriptorKeyMap.
      rewrite (foldl_insert_lookup (fun e => object_id (entry_descriptor e)) entry_key).
      destruct (last _) as [e'|] eqn:Hl; [done|].
      pose proof (filter_last_None _ _ Hl _ Hin) as Hf. cbn in Hf.
      by apply bool_decide_eq_false in Hf.
  - apply descriptorMap_value.
  - intros o k. unfold descriptorKeyMap.
    rewrite (foldl_insert_lookup (fun e => object_id (entry_descriptor e)) entry_key).
    destruct (last _) as [e|] eqn:Hl; [|by rewrite lookup_empty].
    apply filter_last_elem in Hl as [Hin Hk]. apply bool_decide_eq_true in Hk.
    apply descriptorEntries_elem in Hin as (i & d' & Hi & ->). cbn in *.
    intros [= <-]. by exists i, d'.
  - intros Hnd i d Hi.
    assert ({| entry_descriptor := d; entry_index := i;
               entry_key := buildDescriptorKey d i |} ∈ descriptorEntries descriptors) as Hin.
    { apply descriptorEntries_elem. by exists i, d. }
    unfold descriptorMap. rewrite (foldl_insert_lookup entry_key entry_descriptor).
    pose proof (filter_key_single entry_key _ _ Hnd Hin) as Hf. cbn [entry_key] in Hf.
    rewrite Hf. done.
Qed.

(** X12: the window state [persistSessionState] stores is the state the
    initialisers restore.  When the window is opened on a session that
    holds the stored state, and the stored active key is still the key of
    an attached descriptor, position, size, collapse state, anchor offset,
    queue panel, replace-last-reply preference and active key are the
    stored ones.  The legacy flag [collapsed] is stored as [true] exactly
    when the window is not expanded, and a reader that finds no
    [collapseState] restores a collapsed window as a rectangle. *)
Theorem window_state_round_trip (props : Props) (session : Session)
    (descriptors : list ElementDescriptor) (primary : ElementDescriptor) (refs : Refs) :
  existingSession props = Some session →
  windowState session = Some (persistedWindowState descriptors refs) →
  has_key (descriptorEntries descriptors) (activeAnchorKeyRef refs) = true →
  refs_of (initialise props descriptors primary) = refs ∧
  (ws_collapsed (persistedWindowState descriptors refs) = Some true ↔
   collapseStateRef refs ≠ expanded) ∧
  initialCollapseState (Some (without_collapseState (persistedWindowState descriptors refs)))
  = match collapseStateRef refs with expanded => expanded | _ => rectangle end.
Proof.
  intros Hs Hw Hk.
  assert (truthy (activeAnchorKeyRef refs) = true) as Ht.
  { apply has_key_elem in Hk as (e & Hin & <-). by eapply entry_key_truthy. }
  split_and!.
  - unfold initialise, refs_of. rewrite Hs. cbn [mbind option_bind]. rewrite Hw.
    cbn. unfold initialActiveAnchorKey. cbn. rewrite Ht, Hk. cbn. by destruct refs.
  - cbn. destruct (collapseStateRef refs); cbn; split; (done || congruence).
  - cbn. unfold initialCollapseState. cbn. by destruct (collapseStateRef refs).
Qed.

Lemma window_state_round_trip_witness :
  refs_of (initialise (reopened (persistedWindowState [panel_descriptor] dragged_refs))
             [panel_descriptor] panel_descriptor) = dragged_refs ∧
  (ws_collapsed (persistedWindowState [panel_descriptor] dragged_refs) = Some true ↔
   collapseStateRef dragged_refs ≠ expanded) ∧
  initialCollapseState
    (Some (without_collapseState (persistedWindowState [panel_descriptor] dragged_refs)))
  = match collapseStateRef dragged_refs with expanded => expanded | _ => rectangle end.
Proof.
  apply (window_state_round_trip
           (reopened (persistedWindowState [panel_descriptor] dragged_refs))
           {| elementId := lit "chat-1"; elementDescriptor := panel_descriptor;
              elementDescriptors := Some [panel_descriptor];
              windowState := Some (persistedWindowState [panel_descriptor] dragged_refs) |}
           [panel_descriptor] panel_descriptor dragged_refs).
  - reflexivity.
  - reflexivity.
  - vm_compute. reflexivity.
Defined.

Lemma initial_anchor_key_is_attached_witness :
  let props := reopened (legacy_state (Some true)) in
  let key := initialActiveAnchorKey (existingSession props ≫= windowState)
               [panel_descriptor] panel_descriptor in
  [panel_descriptor] = descriptorCandidates props ∧
  head [panel_descriptor] = Some panel_descriptor ∧
  truthy key = true ∧
  is_Some (descriptorMap [panel_descriptor] !! key) ∧
  is_Some (descriptorMap [panel_descriptor]
             !! activeAnchorKey (reset_active_key [panel_descriptor] key (attached None false))).
Proof.
  apply (initial_anchor_key_is_attached (reopened (legacy_state (Some true)))
           [panel_descriptor] panel_descriptor (attached None false)).
  - reflexivity.
  - reflexivity.
Defined.

End MountExtras2.

(* ===================================================================== *)
(** ** More on the anchor registry *)
(* ===================================================================== *)

Section PriorityFacts.

Import Resolver Anchor.

Lemma descriptorKeyMap_value (descriptors : list ElementDescriptor) (o : nat) (k : jsstring) :
  descriptorKeyMap descriptors !! o = Some k →
  ∃ i d, descriptors !! i = Some d ∧ object_id d = o ∧ buildDescriptorKey d i = k.
Proof.
  unfold descriptorKeyMap.
  rewrite (foldl_insert_lookup (fun e => object_id (entry_descriptor e)) entry_key).
  destruct (last _) as [e|] eqn:Hl; [|by rewrite lookup_empty].
  apply filter_last_elem in Hl as [Hin Hk]. apply bool_decide_eq_true in Hk.
  apply descriptorEntries_elem in Hin as (i & d' & Hi & ->). cbn in *.
  intros [= <-]. by exists i, d'.
Qed.

Lemma descriptorKeyMap_attached (descriptors : list ElementDescriptor)
    (d : ElementDescriptor) :
  d ∈ descriptors →
  ∃ k, descriptorKeyMap descriptors !! object_id d = Some k ∧ truthy k = true.
Proof.
  intros (i & Hi)%list_elem_of_lookup_1.
  assert ({| entry_descriptor := d; entry_index := i;
             entry_key := buildDescriptorKey d i |} ∈ descriptorEntries descriptors) as Hin.
  { apply descriptorEntries_elem. by exists i, d. }
  destruct (descriptorKeyMap descriptors !! object_id d) as [k|] eqn:Hk.
  - exists k. split; [done|].
    apply descriptorKeyMap_value in Hk as (j & d' & _ & _ & <-).
    apply buildDescriptorKey_truthy.
  - exfalso. revert Hk. unfold descriptorKeyMap.
    rewrite (foldl_insert_lookup (fun e => object_id (entry_descriptor e)) entry_key).
    destruct (last _) as [e'|] eqn:Hl; [done|].
    pose proof (filter_last_None _ _ Hl _ Hin) as Hf. cbn in Hf.
    by apply bool_decide_eq_false in Hf.
Qed.

(** The loop that fills the priority list. *)
Lemma fold_priority_elem (l acc : list ElementDescriptor) (d : ElementDescriptor) :
  d ∈ foldl (fun priority descriptor =>
               if existsb (same_object descriptor) priority then priority
               else priority ++ [descriptor]) acc l →
  d ∈ acc ∨ d ∈ l.
Proof.
  revert acc. induction l as [|x l IH]; intros acc; cbn [foldl]; [by left|].
  intros [Hin|Hin]%IH.
  - destruct (existsb _ acc); [by left|].
    apply elem_of_app in Hin as [? | ->%list_elem_of_singleton]; [by left|right; by left].
  - right. by right.
Qed.

Lemma existsb_same_object (d : ElementDescriptor) (acc : list ElementDescriptor) :
  existsb (same_object d) acc = true ↔ object_id d ∈ object_id <$> acc.
Proof.
  rewrite existsb_exists, list_elem_of_fmap. unfold same_object. split.
  - intros (x & Hin & Heq). exists x. apply Nat.eqb_eq in Heq.
    split; [done | by apply list_elem_of_In].
  - intros (x & Heq & Hin). exists x. split; [by apply list_elem_of_In|].
    by apply Nat.eqb_eq.
Qed.

Lemma fold_priority_nodup (l acc : list ElementDescriptor) :
  NoDup (object_id <$> acc) →
  NoDup (object_id <$>
           foldl (fun priority descriptor =>
                    if existsb (same_object descriptor) priority then priority
                    else priority ++ [descriptor]) acc l).
Proof.
  revert acc. induction l as [|x l IH]; intros acc Hnd; cbn [foldl]; [done|].
  apply IH. destruct (existsb _ acc) eqn:He; [done|].
  rewrite fmap_app. apply NoDup_app. split_and!; [done| |apply NoDup_singleton].
  intros o Ho ->%list_elem_of_singleton.
  apply existsb_same_object in Ho. congruence.
Qed.

Lemma fold_priority_keeps (l acc : list ElementDescriptor) (d : ElementDescriptor) :
  d ∈ acc →
  d ∈ foldl (fun priority descriptor =>
               if existsb (same_object descriptor) priority then priority
               else priority ++ [descriptor]) acc l.
Proof.
  revert acc. induction l as [|x l IH]; intros acc Hin; cbn [foldl]; [done|].
  apply IH. destruct (existsb _ acc); [done|]. apply elem_of_app. by left.
Qed.

Lemma fold_priority_cover (l acc : list ElementDescriptor) (d : ElementDescriptor) :
  d ∈ l →
  ∃ d', d' ∈ foldl (fun priority descriptor =>
                      if existsb (same_object descriptor) priority then priority
                      else priority ++ [descriptor]) acc l ∧
        object_id d' = object_id d.
Proof.
  revert acc. induction l as [|x l IH]; intros acc Hin; [by apply elem_of_nil in Hin|].
  cbn [foldl]. apply elem_of_cons in Hin as [->|Hin]; [|by apply IH].
  destruct (existsb (same_object x) acc) eqn:He.
  - apply existsb_same_object, list_elem_of_fmap in He as (d' & Heq & Hin').
    exists d'. split; [by apply fold_priority_keeps | done].
  - exists x. split; [|done]. apply fold_priority_keeps, elem_of_app. right. by left.
Qed.

Lemma fold_priority_filter (l acc : list ElementDescriptor) :
  NoDup (object_id <$> l) →
  foldl (fun priority descriptor =>
           if existsb (same_object descriptor) priority then priority
           else priority ++ [descriptor]) acc l =
  acc ++ List.filter (fun d => negb (existsb (same_object d) acc)) l.
Proof.
  revert acc. induction l as [|x l IH]; intros acc Hnd; cbn [foldl List.filter].
  { by rewrite app_nil_r. }
  rewrite fmap_cons in Hnd. apply NoDup_cons in Hnd as [Hx Hnd].
  destruct (existsb (same_object x) acc) eqn:He; cbn [negb]; [by apply IH|].
  rewrite IH by done. rewrite <- app_assoc. cbn [app]. do 2 f_equal.
  apply filter_ext_in. intros y Hy. rewrite existsb_app. cbn [existsb].
  rewrite orb_false_r. unfold same_object at 2.
  destruct (object_id y =? object_id x) eqn:Heq; [|by rewrite orb_false_r].
  apply Nat.eqb_eq in Heq. destruct Hx. rewrite <- Heq.
  by apply list_elem_of_fmap_2, list_elem_of_In.
Qed.

Lemma filter_other_objects (l : list ElementDescriptor) (p : ElementDescriptor) :
  NoDup (object_id <$> l) → p ∈ l →
  p :: List.filter (fun d => negb (same_object d p)) l ≡ₚ l.
Proof.
  induction l as [|x l IH]; intros Hnd Hin; [by apply elem_of_nil in Hin|].
  rewrite fmap_cons in Hnd. apply NoDup_cons in Hnd as [Hx Hnd].
  cbn [List.filter]. unfold same_object at 1.
  apply elem_of_cons in Hin as [<-|Hin].
  - rewrite Nat.eqb_refl. cbn [negb]. f_equiv.
    assert (List.filter (fun d => negb (same_object d p)) l = l) as ->; [|done].
    clear IH Hnd. induction l as [|y l IH]; [done|]. cbn [List.filter].
    rewrite fmap_cons in Hx. apply not_elem_of_cons in Hx as [Hne Hx].
    unfold same_object at 1.
    destruct (object_id y =? object_id p) eqn:Heq; [apply Nat.eqb_eq in Heq; congruence|].
    cbn. f_equal. by apply IH.
  - destruct (object_id x =? object_id p) eqn:Heq.
    + apply Nat.eqb_eq in Heq. destruct Hx. rewrite Heq. by apply list_elem_of_fmap_2.
    + cbn [negb]. rewrite Permutation_swap. f_equiv. by apply IH.
Qed.

Lemma filter_all {A} (l : list A) : List.filter (fun _ => true) l = l.
Proof. induction l as [|x l IH]; [done|]. cbn. by rewrite IH. Qed.

Lemma priority_within (descriptors : list ElementDescriptor) (st : Registry)
    (d : ElementDescriptor) :
  d ∈ priorityDescriptors descriptors st → d ∈ descriptors.
Proof.
  unfold priorityDescriptors. intros [Hin|Hin]%fold_priority_elem; [|done].
  destruct (truthy (activeAnchorKey st)); [|by apply elem_of_nil in Hin].
  destruct (descriptorMap descriptors !! activeAnchorKey st) as [p|] eqn:Hp;
    [|by apply elem_of_nil in Hin].
  apply list_elem_of_singleton in Hin as ->.
  apply descriptorMap_value in Hp as (i & Hi & _). by eapply list_elem_of_lookup_2.
Qed.

Lemma first_resolving_elem (page : Page) (priority : list ElementDescriptor)
    (d : ElementDescriptor) (element : Element) :
  first_resolving page priority = Some (d, element) →
  d ∈ priority ∧ resolveElementForDescriptor page d = Some element.
Proof.
  induction priority as [|x priority IH]; [done|]. cbn [first_resolving].
  destruct (resolveElementForDescriptor page x) as [c|] eqn:Hx.
  - intros [= <- <-]. split; [by left|done].
  - intros [Hin Hr]%IH. split; [by right|done].
Qed.

End PriorityFacts.

Section HandlerExtras.

Import Resolver Anchor Collapse Handlers.

(** X13: the priority list of [ensureAnchorPosition] holds attached
    descriptors only, no descriptor object twice, every attached
    descriptor object, and the descriptor of the active key first; when
    the attached descriptors are distinct objects it is a permutation of
    them. *)
Theorem priority_list_tries_every_descriptor_once
    (descriptors : list ElementDescriptor) (st : Registry) :
  let priority := priorityDescriptors descriptors st in
  (∀ d, d ∈ priority → d ∈ descriptors) ∧
  NoDup (object_id <$> priority) ∧
  (∀ d, d ∈ descriptors → ∃ d', d' ∈ priority ∧ object_id d' = object_id d) ∧
  (∀ p, truthy (activeAnchorKey st) = true →
        descriptorMap descriptors !! activeAnchorKey st = Some p →
        head priority = Some p) ∧
  (NoDup (object_id <$> descriptors) → priority ≡ₚ descriptors).
Proof.
  intros priority. split_and!.
  - intros d. apply priority_within.
  - apply fold_priority_nodup.
    destruct (truthy _); [|apply NoDup_nil_2].
    destruct (_ !! _); [apply NoDup_singleton | apply NoDup_nil_2].
  - intros d. apply fold_priority_cover.
  - intros p Ht Hp. subst priority. unfold priorityDescriptors. rewrite Ht, Hp.
    destruct (priority_head descriptors p []) as [rest ->]. done.
  - intros Hnd. subst priority. unfold priorityDescriptors.
    rewrite fold_priority_filter by done.
    destruct (truthy _).
    + destruct (descriptorMap descriptors !! activeAnchorKey st) as [p|] eqn:Hp.
      * cbn [app].
        rewrite (filter_ext _ (fun d => negb (same_object d p)))
          by (intros d; cbn; by rewrite orb_false_r).
        apply filter_other_objects; [done|].
        apply descriptorMap_value in Hp as (i & Hi & _). by eapply list_elem_of_lookup_2.
      * cbn [app existsb negb]. by rewrite filter_all.
    + cbn [app existsb negb]. by rewrite filter_all.
Qed.

(** The offset cache after a tick that found the anchor. *)
Lemma tick_cache (page : Page) (descriptors : list ElementDescriptor) (st : Registry)
    (d : ElementDescriptor) (element : Element) (k : jsstring) :
  registryMounted st = true →
  first_resolving page (priorityDescriptors descriptors st) = Some (d, element) →
  descriptorKeyMap descriptors !! object_id d = Some k → truthy k = true →
  let st' := ensureAnchorPosition page descriptors st in
  activeAnchorKey st' = k ∧
  anchorOffsets st' !! k = anchorOffset st' ∧
  (∀ k', k' ≠ k → anchorOffsets st' !! k' = anchorOffsets st !! k').
Proof.
  intros Hm Hf Hk Ht. cbv zeta. unfold ensureAnchorPosition.
  rewrite Hm, Hf, Hk, Ht. cbn [negb andb].
  destruct st as [pos off offs key el miss drag mnt].
  destruct (bool_decide (k = key)) eqn:Eb; pose proof Eb as Eb';
    [apply bool_decide_eq_true in Eb' | apply bool_decide_eq_false in Eb'];
    destruct off, drag; cbn; rewrite ?Ht, ?Eb; cbn;
    repeat match goal with
           | |- context [exceeds_epsilon ?a ?b] =>
               destruct (exceeds_epsilon a b) eqn:?
           end; cbn; rewrite ?Ht; cbn;
    (split_and!; [done | by rewrite ?lookup_insert_eq
                 | intros k' Hne; by rewrite ?lookup_insert_ne by done]).
Qed.

(** X14: after a tick of a mounted window that finds an anchor, the
    resolved descriptor is an attached one, the active key is its key, an
    anchor offset exists, the offset cache holds it under the active key,
    and no other entry of the cache has changed. *)
Theorem tick_caches_the_offset_of_the_resolved_anchor (page : Page)
    (descriptors : list ElementDescriptor) (st : Registry)
    (d : ElementDescriptor) (element : Element) :
  registryMounted st = true →
  first_resolving page (priorityDescriptors descriptors st) = Some (d, element) →
  let st' := ensureAnchorPosition page descriptors st in
  d ∈ descriptors ∧ resolveElementForDescriptor page d = Some element ∧
  ∃ k offset,
    descriptorKeyMap descriptors !! object_id d = Some k ∧ truthy k = true ∧
    activeAnchorKey st' = k ∧ anchorOffset st' = Some offset ∧
    anchorOffsets st' !! k = Some offset ∧
    (∀ k', k' ≠ k → anchorOffsets st' !! k' = anchorOffsets st !! k').
Proof.
  intros Hm Hf st'. pose proof (first_resolving_elem _ _ _ _ Hf) as [Hin Hr].
  apply priority_within in Hin. split; [done|]. split; [done|].
  destruct (descriptorKeyMap_attached descriptors d Hin) as (k & Hk & Ht).
  destruct (tick_cache page descriptors st d element k Hm Hf Hk Ht) as (Ha & Hc & Ho).
  fold st' in Ha, Hc, Ho.
  assert (∃ offset, anchorOffset st' = Some offset) as [offset Hoff].
  { subst st'. destruct (anchorOffset st) as [offset|] eqn:Hoff.
    - exists offset. by destruct (tick_cached page descriptors st d element offset Hm Hf Hoff)
        as (_ & _ & -> & _).
    - eexists. by destruct (tick_inferred page descriptors st d element Hm Hf Hoff)
        as (_ & _ & -> & _). }
  exists k, offset. split_and!; try done. by rewrite Hc.
Qed.

Lemma rebase_offset_fields (nextPosition : Point) (anchorRect : Rect) (st : Registry)
    (a : Element) :
  anchorElement st = Some a →
  let st' := rebase_offset nextPosition anchorRect st in
  anchorOffset st' = Some {| px := px nextPosition - left anchorRect;
                             py := py nextPosition - top anchorRect |} ∧
  position st' = position st ∧ isDragging st' = isDragging st ∧
  registryMounted st' = registryMounted st ∧ activeAnchorKey st' = activeAnchorKey st ∧
  (truthy (activeAnchorKey st) = true →
   anchorOffsets st' !! activeAnchorKey st = anchorOffset st').
Proof.
  intros Ha. cbv zeta. unfold rebase_offset. rewrite Ha.
  cbn [activeAnchorKey with_anchorOffset].
  destruct (truthy (activeAnchorKey st)) eqn:Ht; cbn; split_and!; try done.
  intros _. by rewrite lookup_insert_eq.
Qed.

Lemma Qabs_zero_small (x y : Q) : x == y → (Qabs (x - y) <= 1 # 2)%Q.
Proof. intros Heq. rewrite (Qabs_wd (x - y) 0) by (rewrite Heq; ring). discriminate. Qed.

Lemma priority_ext (descriptors : list ElementDescriptor) (st st' : Registry) :
  activeAnchorKey st' = activeAnchorKey st →
  priorityDescriptors descriptors st' = priorityDescriptors descriptors st.
Proof. unfold priorityDescriptors. by intros ->. Qed.

(** A tick after the offset has been taken anew from the position. *)
Lemma rebased_tick (page : Page) (descriptors : list ElementDescriptor) (st : Registry)
    (anchorRect : Rect) (d : ElementDescriptor) (element : Element) :
  registryMounted st = true →
  is_Some (anchorElement st) →
  first_resolving page (priorityDescriptors descriptors st) = Some (d, element) →
  let rebased := rebase_offset (position st) anchorRect st in
  let st' := ensureAnchorPosition page descriptors rebased in
  let offset := {| px := px (position st) - left anchorRect;
                   py := py (position st) - top anchorRect |} in
  anchorOffset rebased = Some offset ∧ position rebased = position st ∧
  isDragging rebased = isDragging st ∧
  anchorOffset st' = Some offset ∧
  (left (rect element) = left anchorRect → top (rect element) = top anchorRect →
   position st' = position st) ∧
  (isDragging st = false →
   (Qabs (px (position st') - (left (rect element) + px offset)) <= 1 # 2)%Q ∧
   (Qabs (py (position st') - (top (rect element) + py offset)) <= 1 # 2)%Q).
Proof.
  intros Hm [a Ha] Hf rebased st' offset.
  destruct (rebase_offset_fields (position st) anchorRect st a Ha)
    as (Ho & Hp & Hd & Hm1 & Hk & _).
  fold rebased in Ho, Hp, Hd, Hm1, Hk. fold offset in Ho.
  assert (registryMounted rebased = true) as Hmd by (rewrite Hm1; exact Hm).
  rewrite <- (priority_ext descriptors st rebased Hk) in Hf.
  destruct (tick_cached page descriptors rebased d element offset Hmd Hf Ho)
    as (_ & _ & Ho' & Hpos).
  fold st' in Ho', Hpos. rewrite Hp, Hd in Hpos.
  split_and!; [done..| |].
  - intros Hl Ht. rewrite Hpos, Hl, Ht. cbn [px py offset].
    rewrite !exceeds_epsilon_inferred. by rewrite andb_false_r.
  - intros Hnd. rewrite Hnd in Hpos. cbn [negb andb] in Hpos. rewrite Hpos.
    destruct (exceeds_epsilon _ (px (position st))) eqn:Ex; cbn [orb].
    + split; by apply Qabs_zero_small.
    + destruct (exceeds_epsilon _ (py (position st))) eqn:Ey.
      * split; by apply Qabs_zero_small.
      * apply exceeds_epsilon_false in Ex, Ey. cbn [px py] in Ex, Ey.
        split; by rewrite Qabs_Qminus.
Qed.

(** X16: [handleDragStop] and [handleResizeStop] take the anchor offset
    anew from the position they are given.  For a mounted window with an
    anchor element: after the drop the window is where it was dropped and
    not dragging, the offset is the drop position minus the anchor
    rectangle, the next tick keeps that offset and leaves the window within
    half a pixel of the anchor's rectangle plus the offset; the resize
    stores the parsed size, keeps the collapse state and rebases the offset
    likewise; and while the anchor has not moved the next tick leaves the
    window exactly where the drop or the resize put it. *)
Theorem window_stays_where_it_is_put (page : Page)
    (descriptors : list ElementDescriptor) (st : Registry) (w : WindowUI)
    (data newPosition : Point) (parsed : Size) (anchorRect : Rect)
    (d : ElementDescriptor) (element : Element) :
  registryMounted st = true →
  is_Some (anchorElement st) →
  first_resolving page (priorityDescriptors descriptors st) = Some (d, element) →
  let dropped := handleDragStop data anchorRect st in
  let resized := handleResizeStop parsed newPosition anchorRect (st, w) in
  let after_drop := ensureAnchorPosition page descriptors dropped in
  let after_resize := ensureAnchorPosition page descriptors (fst resized) in
  let offset := {| px := px data - left anchorRect; py := py data - top anchorRect |} in
  isDragging dropped = false ∧
  position dropped = {| px := px data; py := py data |} ∧
  anchorOffset dropped = Some offset ∧
  anchorOffset after_drop = Some offset ∧
  (Qabs (px (position after_drop) - (left (rect element) + px offset)) <= 1 # 2)%Q ∧
  (Qabs (py (position after_drop) - (top (rect element) + py offset)) <= 1 # 2)%Q ∧
  windowSize (snd resized)
  = {| size_width := size_width parsed; size_height := size_height parsed |} ∧
  collapseState (snd resized) = collapseState w ∧
  position (fst resized) = newPosition ∧
  anchorOffset (fst resized)
  = Some {| px := px newPosition - left anchorRect;
            py := py newPosition - top anchorRect |} ∧
  (left (rect element) = left anchorRect → top (rect element) = top anchorRect →
   position after_drop = {| px := px data; py := py data |} ∧
   position after_resize = newPosition).
Proof.
  intros Hm Ha Hf dropped resized after_drop after_resize offset.
  set (st1 := with_position {| px := px data; py := py data |} (with_isDragging false st)).
  set (st2 := with_position newPosition st).
  destruct (rebased_tick page descriptors st1 anchorRect d element)
    as (Ho1 & Hp1 & Hd1 & Ho1' & Hsame1 & Hnear1); [done..|].
  destruct (rebased_tick page descriptors st2 anchorRect d element)
    as (Ho2 & Hp2 & _ & _ & Hsame2 & _); [done..|].
  destruct (Hnear1 eq_refl) as [Hx Hy].
  split_and!; try done.
  intros Hl Ht. split; [by apply Hsame1 | by apply Hsame2].
Qed.

(** X15: the dragging flag is never set.  From the mount on, whatever the
    frame reports (the start, the moves and the end of a drag, a resize),
    whatever ticks run and whatever anchor chips are clicked,
    [isDraggingRef.current] is false: the test [!isDraggingRef.current] of
    [ensureAnchorPosition] holds in every state the window reaches. *)
Theorem dragging_flag_is_never_set (descriptors : list ElementDescriptor)
    (hs : list Happening) (initialPosition : Point) (initialOffset : option Point)
    (initialKey : jsstring) (ui : WindowUI) :
  isDragging
    (fst (happenings descriptors hs (at_mount initialPosition initialOffset initialKey, ui)))
  = false.
Proof. by apply happenings_never_dragging. Qed.

End HandlerExtras.

Section HandlerWitnesses.

Import Resolver Anchor Collapse Mount Handlers.

Lemma ticked_resolves (st : Registry) :
  activeAnchorKey st = buildDescriptorKey panel_descriptor 0 →
  first_resolving panel_page (priorityDescriptors [panel_descriptor] st)
  = Some (panel_descriptor, panel).
Proof.
  intros Hk. unfold priorityDescriptors. rewrite Hk. reflexivity.
Qed.

Lemma tick_caches_the_offset_of_the_resolved_anchor_witness :
  let st' := ensureAnchorPosition panel_page [panel_descriptor] (attached None false) in
  panel_descriptor ∈ [panel_descriptor] ∧
  resolveElementForDescriptor panel_page panel_descriptor = Some panel ∧
  ∃ k offset,
    descriptorKeyMap [panel_descriptor] !! object_id panel_descriptor = Some k ∧
    truthy k = true ∧
    activeAnchorKey st' = k ∧ anchorOffset st' = Some offset ∧
    anchorOffsets st' !! k = Some offset ∧
    (∀ k', k' ≠ k → anchorOffsets st' !! k' = anchorOffsets (attached None false) !! k').
Proof.
  exact (tick_caches_the_offset_of_the_resolved_anchor panel_page [panel_descriptor]
           (attached None false) panel_descriptor panel eq_refl
           (ticked_resolves (attached None false) eq_refl)).
Defined.

Lemma ticked_state :
  registryMounted ticked = true ∧ is_Some (anchorElement ticked).
Proof. split; [reflexivity|]. by exists panel. Qed.

Lemma scrolled_resolves (dx dy : Q) (st : Registry) :
  activeAnchorKey st = buildDescriptorKey panel_descriptor 0 →
  first_resolving (scrolled_panel_page dx dy) (priorityDescriptors [panel_descriptor] st)
  = Some (panel_descriptor, moved dx dy panel).
Proof.
  intros Hk. unfold priorityDescriptors. rewrite Hk. reflexivity.
Qed.

Lemma ticked_resolves_scrolled (dx dy : Q) :
  first_resolving (scrolled_panel_page dx dy) (priorityDescriptors [panel_descriptor] ticked)
  = Some (panel_descriptor, moved dx dy panel).
Proof. apply scrolled_resolves. reflexivity. Qed.

Lemma window_stays_where_it_is_put_witness :
  let data := {| px := 40; py := 60 |} in
  let newPosition := {| px := 35; py := 60 |} in
  let parsed := {| size_width := 480; size_height := 500 |} in
  let w := {| collapseState := expanded; windowSize := defaultSize |} in
  let page := scrolled_panel_page 0 (-25) in
  let element := moved 0 (-25) panel in
  let dropped := handleDragStop data (rect panel) ticked in
  let resized := handleResizeStop parsed newPosition (rect panel) (ticked, w) in
  let after_drop := ensureAnchorPosition page [panel_descriptor] dropped in
  let after_resize := ensureAnchorPosition page [panel_descriptor] (fst resized) in
  let offset := {| px := px data - left (rect panel); py := py data - top (rect panel) |} in
  isDragging dropped = false ∧
  position dropped = {| px := px data; py := py data |} ∧
  anchorOffset dropped = Some offset ∧
  anchorOffset after_drop = Some offset ∧
  (Qabs (px (position after_drop) - (left (rect element) + px offset)) <= 1 # 2)%Q ∧
  (Qabs (py (position after_drop) - (top (rect element) + py offset)) <= 1 # 2)%Q ∧
  windowSize (snd resized)
  = {| size_width := size_width parsed; size_height := size_height parsed |} ∧
  collapseState (snd resized) = collapseState w ∧
  position (fst resized) = newPosition ∧
  anchorOffset (fst resized)
  = Some {| px := px newPosition - left (rect panel);
            py := py newPosition - top (rect panel) |} ∧
  (left (rect element) = left (rect panel) → top (rect element) = top (rect panel) →
   position after_drop = {| px := px data; py := py data |} ∧
   position after_resize = newPosition).
Proof.
  exact (window_stays_where_it_is_put (scrolled_panel_page 0 (-25)) [panel_descriptor]
           ticked {| collapseState := expanded; windowSize := Mount.defaultSize |}
           {| px := 40; py := 60 |} {| px := 35; py := 60 |}
           {| size_width := 480; size_height := 500 |} (rect panel) panel_descriptor
           (moved 0 (-25) panel) (proj1 ticked_state) (proj2 ticked_state)
           (ticked_resolves_scrolled 0 (-25))).
Defined.

End HandlerWitnesses.

Section LabelExtras.

Import Resolver Labels.

Lemma clip_length (text : jsstring) : length (clip text) ≤ 60.
Proof.
  unfold clip. destruct (60 <? length text) eqn:Hl.
  - apply Nat.ltb_lt in Hl. rewrite length_app, length_take.
    change (length (lit "...")) with 3. lia.
  - apply Nat.ltb_ge in Hl. done.
Qed.

Lemma placeholder_length : 0 < length (lit "No text content") ≤ 60.
Proof. split; [apply Nat.ltb_lt | apply Nat.leb_le]; reflexivity. Qed.

Lemma clip_truthy (text : jsstring) : truthy text = true → 0 < length (clip text).
Proof.
  unfold clip. destruct (60 <? length text).
  - rewrite length_app. change (length (lit "...")) with 3. lia.
  - destruct text; cbn [length]; [done|lia].
Qed.

(** X17: [elementSummary] is never empty and never longer than 60 code
    units; it is the placeholder or the clipped selected text or text
    preview; a text of at most 60 code units is shown as it is, a longer
    one as its first 57 code units followed by three dots. *)
Theorem elementSummary_fits_the_header (selectedText : option jsstring)
    (primary : ElementDescriptor) :
  let summary := elementSummary selectedText primary in
  0 < length summary ≤ 60 ∧
  (summary = lit "No text content" ∨
   ∃ text, truthy text = true ∧ summary = clip text ∧
           (selectedText = Some text ∨ textPreview primary = text)) ∧
  (∀ text, length text ≤ 60 → clip text = text) ∧
  (∀ text, 60 < length text →
     length (clip text) = 60 ∧ take 57 (clip text) = take 57 text ∧
     drop 57 (clip text) = lit "...").
Proof.
  intros summary. split; [|split_and!].
  - subst summary. unfold elementSummary.
    destruct selectedText as [selected|].
    + destruct (truthy selected) eqn:Hs.
      { split; [by apply clip_truthy | apply clip_length]. }
      destruct (truthy (textPreview primary)) eqn:Hp.
      { split; [by apply clip_truthy | apply clip_length]. }
      apply placeholder_length.
    + destruct (truthy (textPreview primary)) eqn:Hp.
      { split; [by apply clip_truthy | apply clip_length]. }
      apply placeholder_length.
  - subst summary. unfold elementSummary.
    destruct selectedText as [selected|].
    + destruct (truthy selected) eqn:Hs.
      { right. exists selected. split_and!; [done..|by left]. }
      destruct (truthy (textPreview primary)) eqn:Hp; [|by left].
      right. exists (textPreview primary). split_and!; [done..|by right].
    + destruct (truthy (textPreview primary)) eqn:Hp; [|by left].
      right. exists (textPreview primary). split_and!; [done..|by right].
  - intros text Hl. unfold clip.
    destruct (60 <? length text) eqn:Hlt; [apply Nat.ltb_lt in Hlt; lia | done].
  - intros text Hl. unfold clip.
    destruct (60 <? length text) eqn:Hlt; [|apply Nat.ltb_ge in Hlt; lia].
    assert (length (take 57 text) = 57) as Ht by (rewrite length_take; lia).
    split_and!.
    + rewrite length_app, Ht. done.
    + rewrite take_app_length' by done. done.
    + rewrite drop_app_length' by done. done.
Qed.

End LabelExtras.

(* ===================================================================== *)
(** ** The indicator service *)
(* ===================================================================== *)

Section IndicatorFacts.

Import Resolver Mount Indicators.

Lemma get_Some (key : jsstring) (s : Service) (entry : IndicatorEntry) :
  indicators_get key s = Some entry → entry ∈ indicators s ∧ ind_key entry = key.
Proof.
  unfold indicators_get. intros [Hin Hk]%find_some. split; [by apply list_elem_of_In|].
  by apply bool_decide_eq_true in Hk.
Qed.

Lemma get_None (key : jsstring) (s : Service) :
  indicators_get key s = None → key ∉ ind_key <$> indicators s.
Proof.
  unfold indicators_get. intros Hnone (e & -> & Hin)%list_elem_of_fmap.
  apply list_elem_of_In in Hin.
  pose proof (find_none _ _ Hnone e Hin) as Hf. cbn in Hf.
  by apply bool_decide_eq_false in Hf.
Qed.

Lemma get_is_Some (key : jsstring) (s : Service) :
  is_Some (indicators_get key s) ↔ key ∈ ind_key <$> indicators s.
Proof.
  split.
  - intros [e [Hin <-]%get_Some]. by apply list_elem_of_fmap_2.
  - intros Hin. destruct (indicators_get key s) eqn:Hg; [done|]. by apply get_None in Hg.
Qed.

Lemma update_fmap {A} (proj : IndicatorEntry → A) (key : jsstring)
    (f : IndicatorEntry → IndicatorEntry) (l : list IndicatorEntry) :
  (∀ e, proj (f e) = proj e) → proj <$> indicators_update key f l = proj <$> l.
Proof.
  intros Hf. induction l as [|x l IH]; [done|]. cbn [indicators_update].
  destruct (bool_decide _); rewrite !fmap_cons; [by rewrite Hf | by rewrite IH].
Qed.

Lemma update_elem (key : jsstring) (f : IndicatorEntry → IndicatorEntry)
    (l : list IndicatorEntry) (e : IndicatorEntry) :
  e ∈ indicators_update key f l → e ∈ l ∨ ∃ x, x ∈ l ∧ e = f x.
Proof.
  induction l as [|x l IH]; [by left|]. cbn [indicators_update].
  destruct (bool_decide _).
  - intros [->|Hin]%elem_of_cons; [right; exists x; split; [by left|done]|].
    left. by right.
  - intros [->|Hin]%elem_of_cons; [left; by left|].
    destruct (IH Hin) as [?|(y & ? & ->)]; [left; by right|].
    right. exists y. split; [by right|done].
Qed.

Lemma update_keeps (key : jsstring) (f : IndicatorEntry → IndicatorEntry)
    (l : list IndicatorEntry) (e : IndicatorEntry) :
  e ∈ l → e ∈ indicators_update key f l ∨ f e ∈ indicators_update key f l.
Proof.
  induction l as [|x l IH]; [by intros ?%elem_of_nil|]. cbn [indicators_update].
  intros [->|Hin]%elem_of_cons.
  - destruct (bool_decide _); [right|left]; by left.
  - destruct (bool_decide _); [left; by right|].
    destruct (IH Hin); [left|right]; by right.
Qed.

Lemma delete_sublist (key : jsstring) (l : list IndicatorEntry) :
  indicators_delete key l `sublist_of` l.
Proof.
  induction l as [|x l IH]; [done|]. cbn [indicators_delete].
  destruct (bool_decide _); [by apply sublist_cons | by apply sublist_skip].
Qed.

Lemma delete_other (key : jsstring) (l : list IndicatorEntry) (e : IndicatorEntry) :
  e ∈ l → ind_key e ≠ key → e ∈ indicators_delete key l.
Proof.
  induction l as [|x l IH]; [by intros ?%elem_of_nil|]. cbn [indicators_delete].
  intros [->|Hin]%elem_of_cons Hne.
  - rewrite bool_decide_eq_false_2 by done. by left.
  - destruct (bool_decide _); [done|]. right. by apply IH.
Qed.

Lemma delete_gone (key : jsstring) (l : list IndicatorEntry) :
  NoDup (ind_key <$> l) → key ∉ ind_key <$> indicators_delete key l.
Proof.
  induction l as [|x l IH]; intros Hnd; [by intros ?%elem_of_nil|].
  rewrite fmap_cons in Hnd. apply NoDup_cons in Hnd as [Hx Hnd]. cbn [indicators_delete].
  destruct (bool_decide _) eqn:Hk.
  - apply bool_decide_eq_true in Hk. by rewrite <- Hk.
  - apply bool_decide_eq_false in Hk. rewrite fmap_cons.
    apply not_elem_of_cons. split; [done | by apply IH].
Qed.

Lemma delete_badges (l : list IndicatorEntry) (entry : IndicatorEntry) :
  NoDup (ind_badge <$> l) →
  List.find (fun e => bool_decide (ind_key e = ind_key entry)) l = Some entry →
  List.filter (fun n => negb (n =? ind_badge entry)) (ind_badge <$> l)
  = ind_badge <$> indicators_delete (ind_key entry) l.
Proof.
  induction l as [|x l IH]; intros Hnd Hf; [done|].
  rewrite fmap_cons in Hnd. apply NoDup_cons in Hnd as [Hx Hnd].
  cbn [List.find indicators_delete] in *. rewrite fmap_cons. cbn [List.filter].
  destruct (bool_decide (ind_key x = ind_key entry)) eqn:Hk.
  - injection Hf as ->. rewrite Nat.eqb_refl. cbn [negb].
    clear IH Hk. induction l as [|y l IH]; [done|].
    rewrite fmap_cons in Hx, Hnd |- *. apply not_elem_of_cons in Hx as [Hne Hx].
    apply NoDup_cons in Hnd as [_ Hnd]. cbn [List.filter].
    destruct (ind_badge y =? ind_badge entry) eqn:Heq;
      [apply Nat.eqb_eq in Heq; congruence|].
    cbn [negb]. f_equal. by apply IH.
  - destruct (ind_badge x =? ind_badge entry) eqn:Heq.
    + apply Nat.eqb_eq in Heq. destruct Hx. rewrite Heq.
      apply find_some in Hf as [Hin _]. by apply list_elem_of_fmap_2, list_elem_of_In.
    + cbn [negb]. rewrite fmap_cons. f_equal. by apply IH.
Qed.

Lemma List_filter_sublist {A} (P : A → bool) (l : list A) : List.filter P l `sublist_of` l.
Proof.
  induction l as [|x l IH]; [done|]. cbn [List.filter].
  destruct (P x); [by apply sublist_skip | by apply sublist_cons].
Qed.

Lemma tidy_badges (s : Service) : tidy s → NoDup (ind_badge <$> indicators s).
Proof. intros (_ & Hb & Hnd & _). by rewrite <- Hb. Qed.

Lemma removeIndicatorByKey_tidy (key : jsstring) (s : Service) :
  tidy s → tidy (removeIndicatorByKey key s).
Proof.
  intros Ht. pose proof (tidy_badges s Ht) as Hbadges.
  destruct Ht as (Hk & Hb & Hnd & Hlt).
  unfold removeIndicatorByKey. destruct (indicators_get key s) as [entry|] eqn:Hg; [|done].
  pose proof (get_Some _ _ _ Hg) as [Hin <-].
  unfold tidy. cbn. split_and!.
  - eapply sublist_NoDup; [exact Hk|]. apply fmap_sublist, delete_sublist.
  - rewrite Hb. by apply delete_badges.
  - eapply sublist_NoDup; [exact Hnd|]. apply List_filter_sublist.
  - intros n Hn%list_elem_of_In%filter_In. apply Hlt, list_elem_of_In, Hn.
Qed.

Lemma removeIndicatorByKey_elem (key : jsstring) (s : Service) (e : IndicatorEntry) :
  e ∈ indicators (removeIndicatorByKey key s) → e ∈ indicators s.
Proof.
  unfold removeIndicatorByKey. destruct (indicators_get key s) as [entry|]; [|done]. cbn.
  intros He. eapply elem_of_sublist; [exact He | apply delete_sublist].
Qed.

Lemma removeIndicatorByKey_other (key : jsstring) (s : Service) (e : IndicatorEntry) :
  e ∈ indicators s → ind_key e ≠ key → e ∈ indicators (removeIndicatorByKey key s).
Proof.
  unfold removeIndicatorByKey. destruct (indicators_get key s) as [entry|]; [|done]. cbn.
  apply delete_other.
Qed.

Lemma removeIndicatorByKey_gone (key : jsstring) (s : Service) :
  tidy s → key ∉ ind_key <$> indicators (removeIndicatorByKey key s).
Proof.
  intros (Hk & _). unfold removeIndicatorByKey.
  destruct (indicators_get key s) as [entry|] eqn:Hg; [|by apply get_None]. cbn.
  by apply delete_gone.
Qed.

Lemma removeIndicatorByKey_hidden (key : jsstring) (s : Service) :
  hiddenChats (removeIndicatorByKey key s) ⊆ hiddenChats s.
Proof.
  unfold removeIndicatorByKey. destruct (indicators_get key s) as [entry|]; [|done]. cbn.
  apply subseteq_difference_l. done.
Qed.

Lemma removeIndicatorByKey_flags (key : jsstring) (s : Service) :
  rafPending (removeIndicatorByKey key s) = rafPending s ∧
  initialized (removeIndicatorByKey key s) = initialized s.
Proof. unfold removeIndicatorByKey. by destruct (indicators_get key s). Qed.

(** The loops over a snapshot of the map. *)
Lemma remove_loop (stale : IndicatorEntry → bool) (snapshot : list IndicatorEntry)
    (s : Service) :
  tidy s →
  let s' := foldl (fun s entry =>
                     if stale entry then removeIndicatorByKey (ind_key entry) s else s)
              s snapshot in
  tidy s' ∧ hiddenChats s' ⊆ hiddenChats s ∧
  rafPending s' = rafPending s ∧ initialized s' = initialized s ∧
  (∀ e, e ∈ indicators s' → e ∈ indicators s) ∧
  (∀ e, e ∈ indicators s' → e ∈ snapshot → stale e = false) ∧
  (∀ e, e ∈ indicators s →
        (∀ x, x ∈ snapshot → stale x = true → ind_key x ≠ ind_key e) →
        e ∈ indicators s').
Proof.
  revert s. induction snapshot as [|x snapshot IH]; intros s Ht; cbn [foldl].
  { split_and!; try done. intros e _ Hin. by apply elem_of_nil in Hin. }
  set (s1 := if stale x then removeIndicatorByKey (ind_key x) s else s).
  assert (tidy s1) as Ht1.
  { subst s1. destruct (stale x); [by apply removeIndicatorByKey_tidy | done]. }
  assert (hiddenChats s1 ⊆ hiddenChats s) as Hh1.
  { subst s1. destruct (stale x); [apply removeIndicatorByKey_hidden | done]. }
  assert (rafPending s1 = rafPending s ∧ initialized s1 = initialized s) as [Hr1 Hi1].
  { subst s1. destruct (stale x); [apply removeIndicatorByKey_flags | done]. }
  assert (∀ e, e ∈ indicators s1 → e ∈ indicators s) as Hsub1.
  { subst s1. destruct (stale x); [apply removeIndicatorByKey_elem | done]. }
  destruct (IH s1 Ht1) as (Ht' & Hh' & Hr' & Hi' & Hsub' & Hstale' & Hkeep').
  split_and!.
  - done.
  - etrans; [exact Hh' | exact Hh1].
  - congruence.
  - congruence.
  - intros e He. by apply Hsub1, Hsub'.
  - intros e He [->|Hin]%elem_of_cons; [|by apply Hstale'].
    destruct (stale x) eqn:Hx; [|done]. exfalso.
    apply Hsub' in He. subst s1.
    apply (removeIndicatorByKey_gone (ind_key x) s Ht). by apply list_elem_of_fmap_2.
  - intros e He Hother. apply Hkeep'.
    + subst s1. destruct (stale x) eqn:Hx; [|done].
      apply removeIndicatorByKey_other; [done|].
      intros Heq. apply (Hother x); [by left | done | done].
    + intros y Hy. apply Hother. by right.
Qed.

Lemma remove_where_spec (stale : IndicatorEntry → bool) (s : Service) :
  tidy s →
  let s' := remove_where stale s in
  tidy s' ∧ hiddenChats s' ⊆ hiddenChats s ∧
  rafPending s' = rafPending s ∧ initialized s' = initialized s ∧
  (∀ e, e ∈ indicators s' ↔ e ∈ indicators s ∧ stale e = false).
Proof.
  intros Ht. destruct (remove_loop stale (indicators s) s Ht)
    as (Ht' & Hh & Hr & Hi & Hsub & Hstale & Hkeep).
  unfold remove_where. split_and!; try done.
  intros e. split.
  - intros He. split; [by apply Hsub|]. apply Hstale; [done | by apply Hsub].
  - intros [He Hs]. apply Hkeep; [done|].
    intros x Hx Hsx Heq. destruct Ht as (Hk & _).
    assert (x = e) as ->; [|congruence].
    apply list_elem_of_lookup_1 in Hx as [i Hi'], He as [j Hj].
    assert (i = j) as ->.
    { eapply NoDup_lookup; [exact Hk| |]; rewrite list_lookup_fmap.
      - by rewrite Hi'.
      - rewrite Hj. cbn. by rewrite Heq. }
    congruence.
Qed.

Lemma upsert_descriptor_spec (chat : jsstring) (s : Service) (d : ElementDescriptor) :
  tidy s →
  let s' := upsert_descriptor chat s d in
  tidy s' ∧ hiddenChats s' = hiddenChats s ∧
  rafPending s' = rafPending s ∧ initialized s' = initialized s ∧
  getDescriptorKey chat d ∈ ind_key <$> indicators s' ∧
  (∀ e, e ∈ indicators s → ∃ e', e' ∈ indicators s' ∧ same_badge e e' ∧
                              ind_style e' = ind_style e ∧ ind_element e' = ind_element e) ∧
  (∀ e', e' ∈ indicators s' →
     (∃ e, e ∈ indicators s ∧ same_badge e e' ∧
           ind_style e' = ind_style e ∧ ind_element e' = ind_element e) ∨
     (ind_key e' = getDescriptorKey chat d ∧ ind_chatId e' = chat ∧
      display_block (ind_style e') = false ∧ ind_element e' = None ∧
      indicators_get (getDescriptorKey chat d) s = None)).
Proof.
  intros (Hk & Hb & Hnd & Hlt). cbv zeta. unfold upsert_descriptor.
  destruct (indicators_get (getDescriptorKey chat d) s) as [found|] eqn:Hg.
  - pose proof (get_Some _ _ _ Hg) as [Hin Hkey].
    assert (∀ A (proj : IndicatorEntry → A),
              (∀ e, proj (with_descriptor d e) = proj e) →
              proj <$> indicators_update (getDescriptorKey chat d) (with_descriptor d)
                         (indicators s)
              = proj <$> indicators s) as Hproj.
    { intros A proj Hp. by apply update_fmap. }
    unfold tidy. cbn. split_and!; try done.
    + by rewrite (Hproj _ ind_key).
    + by rewrite (Hproj _ ind_badge).
    + rewrite (Hproj _ ind_key) by done. rewrite <- Hkey. by apply list_elem_of_fmap_2.
    + intros e He.
      destruct (update_keeps (getDescriptorKey chat d) (with_descriptor d) _ e He) as [H|H].
      * exists e. by split_and!.
      * exists (with_descriptor d e). by split_and!.
    + intros e' He'. left.
      destruct (update_elem _ _ _ _ He') as [H|(x & Hx & ->)].
      * exists e'. by split_and!.
      * exists x. by split_and!.
  - pose proof (get_None _ _ Hg) as Hfresh.
    unfold tidy. cbn. split_and!; try done.
    + rewrite fmap_app. apply NoDup_app. split_and!; [done| |apply NoDup_singleton].
      intros k Hin ->%list_elem_of_singleton. done.
    + rewrite fmap_app, Hb. done.
    + apply NoDup_app. split_and!; [done| |apply NoDup_singleton].
      intros n Hn ->%list_elem_of_singleton. apply Hlt in Hn. lia.
    + intros n [Hn| ->%list_elem_of_singleton]%elem_of_app; [apply Hlt in Hn|]; lia.
    + rewrite fmap_app. apply elem_of_app. right. by left.
    + intros e He. exists e. split_and!; try done. apply elem_of_app. by left.
    + intros e' [He'| ->%list_elem_of_singleton]%elem_of_app.
      * left. exists e'. by split_and!.
      * right. by split_and!.
Qed.

End IndicatorFacts.

Section IndicatorExtras.

Import Resolver Mount Indicators.

Lemma fold_upsert_spec (chat : jsstring) (ds : list ElementDescriptor) (s : Service) :
  tidy s →
  let s' := foldl (upsert_descriptor chat) s ds in
  tidy s' ∧ hiddenChats s' = hiddenChats s ∧
  rafPending s' = rafPending s ∧ initialized s' = initialized s ∧
  (∀ d, d ∈ ds → getDescriptorKey chat d ∈ ind_key <$> indicators s') ∧
  (∀ e, e ∈ indicators s → ∃ e', e' ∈ indicators s' ∧ same_badge e e' ∧
                              ind_style e' = ind_style e ∧ ind_element e' = ind_element e) ∧
  (∀ e', e' ∈ indicators s' →
     (∃ e, e ∈ indicators s ∧ same_badge e e' ∧
           ind_style e' = ind_style e ∧ ind_element e' = ind_element e) ∨
     (∃ d, d ∈ ds ∧ ind_key e' = getDescriptorKey chat d ∧ ind_chatId e' = chat ∧
           display_block (ind_style e') = false ∧
           getDescriptorKey chat d ∉ ind_key <$> indicators s)).
Proof.
  revert s. induction ds as [|d ds IH]; intros s Ht; cbn [foldl].
  { split_and!; try done.
    - intros d Hd. by apply elem_of_nil in Hd.
    - intros e He. exists e. by split_and!.
    - intros e' He'. left. exists e'. by split_and!. }
  destruct (upsert_descriptor_spec chat s d Ht) as (Ht1 & Hh1 & Hr1 & Hi1 & Hk1 & Hold1 & Hnew1).
  destruct (IH _ Ht1) as (Ht' & Hh' & Hr' & Hi' & Hk' & Hold' & Hnew').
  split_and!.
  - done.
  - congruence.
  - congruence.
  - congruence.
  - intros x [->|Hx]%elem_of_cons; [|by apply Hk'].
    apply list_elem_of_fmap in Hk1 as (e1 & Hkey & He1).
    destruct (Hold' e1 He1) as (e' & He' & (Hsame & _) & _).
    rewrite Hkey, <- Hsame. by apply list_elem_of_fmap_2.
  - intros e He. destruct (Hold1 e He) as (e1 & He1 & (Hk & Hc & Hb) & Hs1 & Hel1).
    destruct (Hold' e1 He1) as (e' & He' & (Hk2 & Hc2 & Hb2) & Hs' & Hel').
    exists e'. unfold same_badge. split_and!; congruence.
  - intros e' He'.
    destruct (Hnew' e' He') as [(e1 & He1 & (Hk2 & Hc2 & Hb2) & Hs' & Hel')
                               |(x & Hx & Hkx & Hcx & Hdx & Hfx)].
    + destruct (Hnew1 e1 He1) as [(e & He & (Hk & Hc & Hb) & Hs1 & Hel1)
                                 |(Hk & Hc & Hd & Hel & Hg)].
      * left. exists e. unfold same_badge. split_and!; congruence.
      * right. exists d. split_and!; [by left|congruence..| |].
        -- rewrite Hs'. done.
        -- by apply get_None.
    + right. exists x. split_and!; [by right|done..|].
      intros Hin. apply Hfx.
      apply list_elem_of_fmap in Hin as (e & Hkey & He).
      destruct (Hold1 e He) as (e1 & He1 & (Hk & _) & _).
      rewrite Hkey, <- Hk. by apply list_elem_of_fmap_2.
Qed.

Lemma scheduleRefresh_fields (s : Service) :
  indicators (scheduleRefresh s) = indicators s ∧
  hiddenChats (scheduleRefresh s) = hiddenChats s ∧
  body (scheduleRefresh s) = body s ∧ next_node (scheduleRefresh s) = next_node s ∧
  initialized (scheduleRefresh s) = initialized s ∧
  rafPending (scheduleRefresh s) = true.
Proof. unfold scheduleRefresh. destruct (rafPending s) eqn:Hr; by split_and!. Qed.

Lemma ensureInitialized_fields (s : Service) :
  indicators (ensureInitialized s) = indicators s ∧
  hiddenChats (ensureInitialized s) = hiddenChats s ∧
  body (ensureInitialized s) = body s ∧ next_node (ensureInitialized s) = next_node s ∧
  rafPending (ensureInitialized s) = rafPending s ∧
  initialized (ensureInitialized s) = true.
Proof. unfold ensureInitialized. destruct (initialized s) eqn:Hr; by split_and!. Qed.

Lemma tidy_ext (s s' : Service) :
  indicators s' = indicators s → body s' = body s → next_node s' = next_node s →
  tidy s → tidy s'.
Proof. unfold tidy. by intros -> -> ->. Qed.

Lemma placed_ext (s s' : Service) :
  indicators s' = indicators s → hiddenChats s' = hiddenChats s →
  shown_are_placed s → shown_are_placed s'.
Proof. unfold shown_are_placed. by intros -> ->. Qed.

Lemma scheduleRefresh_tidy (s : Service) : tidy s → tidy (scheduleRefresh s).
Proof.
  destruct (scheduleRefresh_fields s) as (? & ? & ? & ? & _). by apply tidy_ext.
Qed.

Lemma scheduleRefresh_placed (s : Service) :
  shown_are_placed s → shown_are_placed (scheduleRefresh s).
Proof.
  destruct (scheduleRefresh_fields s) as (? & ? & _). by apply placed_ext.
Qed.

Lemma ensureInitialized_tidy (s : Service) : tidy s → tidy (ensureInitialized s).
Proof.
  destruct (ensureInitialized_fields s) as (? & ? & ? & ? & _). by apply tidy_ext.
Qed.

Lemma ensureInitialized_placed (s : Service) :
  shown_are_placed s → shown_are_placed (ensureInitialized s).
Proof.
  destruct (ensureInitialized_fields s) as (? & ? & _). by apply placed_ext.
Qed.

Lemma fold_upsert_placed (chat : jsstring) (ds : list ElementDescriptor) (s : Service) :
  tidy s → shown_are_placed s → shown_are_placed (foldl (upsert_descriptor chat) s ds).
Proof.
  intros Ht Hp. destruct (fold_upsert_spec chat ds s Ht) as (_ & Hh & _ & _ & _ & _ & Hnew).
  intros e' He' Hshown.
  destruct (Hnew e' He') as [(e & He & (Hk & Hc & Hb) & Hs & Hel)|(d & _ & _ & _ & Hd & _)];
    [|congruence].
  rewrite Hs in Hshown. destruct (Hp e He Hshown) as (? & ? & ? & ? & ?).
  rewrite Hh, Hc, Hs, Hel. done.
Qed.

Lemma remove_where_placed (stale : IndicatorEntry → bool) (s : Service) :
  tidy s → shown_are_placed s → shown_are_placed (remove_where stale s).
Proof.
  intros Ht Hp. destruct (remove_where_spec stale s Ht) as (_ & Hh & _ & _ & Hin).
  intros e He Hshown. apply Hin in He as [He _].
  destruct (Hp e He Hshown) as (Hnot & ? & ? & ? & ?). split_and!; try done.
  intros Hhid. apply Hnot, Hh, Hhid.
Qed.

Lemma map_entries_tidy (f : IndicatorEntry → IndicatorEntry) (s : Service) :
  (∀ e, ind_key (f e) = ind_key e ∧ ind_badge (f e) = ind_badge e) →
  tidy s → tidy (with_indicators (map f (indicators s)) s).
Proof.
  intros Hf (Hk & Hb & Hnd & Hlt). unfold tidy. cbn.
  assert (ind_key <$> map f (indicators s) = ind_key <$> indicators s) as ->.
  { clear -Hf. induction (indicators s) as [|x l IH]; [done|].
    cbn. f_equal; [apply Hf | apply IH]. }
  assert (ind_badge <$> map f (indicators s) = ind_badge <$> indicators s) as ->.
  { clear -Hf. induction (indicators s) as [|x l IH]; [done|].
    cbn. f_equal; [apply Hf | apply IH]. }
  done.
Qed.

Lemma positionBadge_same (page : Page) (scrollX scrollY : Q) (hidden : gset jsstring)
    (entry : IndicatorEntry) :
  let e' := positionBadge page scrollX scrollY hidden entry in
  ind_key e' = ind_key entry ∧ ind_badge e' = ind_badge entry ∧
  ind_chatId e' = ind_chatId entry ∧ ind_descriptor e' = ind_descriptor entry.
Proof.
  cbv zeta. unfold positionBadge.
  destruct (bool_decide _); [done|].
  destruct (match ind_element entry ≫= contained page with
            | Some element => Some element
            | None => findElementByDescriptor page (ind_descriptor entry)
            end) as [element|]; [|done].
  by destruct (Qzero _ && Qzero _).
Qed.

Lemma positionBadge_shown (page : Page) (scrollX scrollY : Q) (hidden : gset jsstring)
    (entry : IndicatorEntry) :
  let e' := positionBadge page scrollX scrollY hidden entry in
  display_block (ind_style e') = true ↔
(ind_chatId entry ∉ hidden) ∧
  ∃ element,
    ind_element e' = Some element ∧
    (Qzero (width (rect element)) && Qzero (height (rect element))) = false ∧
    style_left (ind_style e')
    = Some (left (rect element) + width (rect element) + scrollX - 4)%Q ∧
    style_top (ind_style e') = Some (top (rect element) + scrollY + 4)%Q ∧
    opaque (ind_style e') = true.
Proof.
  cbv zeta. unfold positionBadge.
  destruct (bool_decide (ind_chatId entry ∈ hidden)) eqn:Hh.
  { apply bool_decide_eq_true in Hh. cbn. split; [done|]. by intros [? _]. }
  apply bool_decide_eq_false in Hh.
  destruct (match ind_element entry ≫= contained page with
            | Some element => Some element
            | None => findElementByDescriptor page (ind_descriptor entry)
            end) as [element|].
  2: { cbn. split; [done|]. by intros [_ (? & ? & _)]. }
  destruct (Qzero _ && Qzero _) eqn:Hz; cbn.
  - split; [done|]. intros [_ (el & [= <-] & Hz' & _)]. congruence.
  - split; [|done]. intros _. split; [done|]. by exists element.
Qed.

Lemma refresh_tidy (page : Page) (scrollX scrollY : Q) (s : Service) :
  tidy s → tidy (refreshIndicators page scrollX scrollY s).
Proof.
  apply map_entries_tidy. intros e.
  by destruct (positionBadge_same page scrollX scrollY (hiddenChats s) e) as (? & ? & _).
Qed.

Lemma refresh_placed (page : Page) (scrollX scrollY : Q) (s : Service) :
  shown_are_placed (refreshIndicators page scrollX scrollY s).
Proof.
  intros e' He' Hshown. cbn in He'.
  apply list_elem_of_In, in_map_iff in He' as (e & <- & He).
  destruct (positionBadge_same page scrollX scrollY (hiddenChats s) e) as (_ & _ & -> & _).
  apply positionBadge_shown in Hshown as (Hnot & el & -> & _ & -> & -> & ->).
  by split_and!.
Qed.

Lemma hide_tidy (chat : jsstring) (s : Service) :
  tidy s → tidy (hideIndicatorsForChat chat s).
Proof.
  intros Ht. unfold hideIndicatorsForChat. apply scheduleRefresh_tidy.
  match goal with |- tidy (with_indicators (map ?f _) ?s0) =>
    apply (map_entries_tidy f s0) end.
  - intros e. by destruct (bool_decide _).
  - by eapply tidy_ext.
Qed.

Lemma hide_placed (chat : jsstring) (s : Service) :
  shown_are_placed s → shown_are_placed (hideIndicatorsForChat chat s).
Proof.
  intros Hp. unfold hideIndicatorsForChat. apply scheduleRefresh_placed.
  intros e' He' Hshown. cbn in He'.
  apply list_elem_of_In, in_map_iff in He' as (e & <- & He). apply list_elem_of_In in He.
  cbn [hiddenChats with_indicators with_hiddenChats].
  destruct (bool_decide (ind_chatId e = chat)) eqn:Hc; [done|].
  apply bool_decide_eq_false in Hc.
  destruct (Hp e He Hshown) as (Hnot & ? & ? & ? & ?). split_and!; try done.
  intros [Heq%elem_of_singleton|?]%elem_of_union; done.
Qed.

Lemma filter_out_all (l badges : list nat) :
  (∀ n, n ∈ l → n ∈ badges) →
  List.filter (fun n => negb (bool_decide (n ∈ badges))) l = [].
Proof.
  induction l as [|n l IH]; intros Hall; [done|]. cbn [List.filter].
  rewrite bool_decide_eq_true_2 by (apply Hall; by left). cbn [negb].
  apply IH. intros m Hm. apply Hall. by right.
Qed.

Lemma perform_invariant (c : Call) (s : Service) :
  tidy s ∧ shown_are_placed s → tidy (perform c s) ∧ shown_are_placed (perform c s).
Proof.
  intros [Ht Hp]. destruct c; cbn [perform].
  - (* Upsert *)
    unfold upsertIndicatorsForSession.
    pose proof (ensureInitialized_tidy s Ht) as Ht0.
    pose proof (ensureInitialized_placed s Hp) as Hp0.
    destruct (fold_upsert_spec (elementId session) (session_descriptors session) _ Ht0)
      as (Ht1 & _).
    pose proof (fold_upsert_placed (elementId session) (session_descriptors session) _ Ht0 Hp0)
      as Hp1.
    split.
    + apply scheduleRefresh_tidy. by apply remove_where_spec.
    + apply scheduleRefresh_placed. by apply remove_where_placed.
  - (* Sync *)
    unfold syncIndicatorsForSessions.
    pose proof (ensureInitialized_tidy s Ht) as Ht0.
    pose proof (ensureInitialized_placed s Hp) as Hp0.
    assert (∀ s0, tidy s0 → shown_are_placed s0 →
              tidy (foldl (fun s session =>
                             foldl (upsert_descriptor (elementId session)) s
                               (session_descriptors session)) s0 sessions) ∧
              shown_are_placed
                (foldl (fun s session =>
                          foldl (upsert_descriptor (elementId session)) s
                            (session_descriptors session)) s0 sessions)) as Hall.
    { induction sessions as [|x sessions IH]; intros s0 Hs0 Hp0'; [done|]. cbn [foldl].
      apply IH.
      - by apply fold_upsert_spec.
      - by apply fold_upsert_placed. }
    destruct (Hall _ Ht0 Hp0) as [Ht1 Hp1]. split.
    + apply scheduleRefresh_tidy. by apply remove_where_spec.
    + apply scheduleRefresh_placed. by apply remove_where_placed.
  - (* RemoveChat *)
    unfold removeIndicatorsForChat.
    set (stale := fun entry => bool_decide (ind_chatId entry = chat)).
    destruct (remove_where_spec stale s Ht) as (Ht1 & _).
    pose proof (remove_where_placed stale s Ht Hp) as Hp1. split.
    + by eapply tidy_ext.
    + intros e He Hshown. destruct (Hp1 e He Hshown) as (Hnot & ? & ? & ? & ?).
      split_and!; try done. cbn. intros [? _]%elem_of_difference. done.
  - (* Hide *)
    split; [by apply hide_tidy | by apply hide_placed].
  - (* Show *)
    unfold showIndicatorsForChat. destruct (negb _).
    + split; [by apply scheduleRefresh_tidy | by apply scheduleRefresh_placed].
    + split.
      * apply scheduleRefresh_tidy. by eapply tidy_ext.
      * apply scheduleRefresh_placed. intros e He Hshown.
        destruct (Hp e He Hshown) as (Hnot & ? & ? & ? & ?).
        split_and!; try done. cbn. intros [? _]%elem_of_difference. done.
  - (* Teardown *)
    unfold teardownElementChatIndicators. destruct (negb _); [done|]. split.
    + destruct Ht as (_ & Hb & _ & Hlt). unfold tidy. cbn.
      rewrite filter_out_all by (intros n Hn; by rewrite <- Hb).
      split_and!; [apply NoDup_nil_2 | done | apply NoDup_nil_2 |].
      intros n Hn. by apply elem_of_nil in Hn.
    + intros e He. by apply elem_of_nil in He.
  - (* PageChanged *)
    destruct (initialized s); [|done].
    split; [by apply scheduleRefresh_tidy | by apply scheduleRefresh_placed].
  - (* Frame *)
    unfold frame. destruct (rafPending s); [|done]. split.
    + apply refresh_tidy. by eapply tidy_ext.
    + apply refresh_placed.
Qed.

Lemma loaded_tidy : tidy loaded ∧ shown_are_placed loaded.
Proof.
  split.
  - unfold tidy. cbn. split_and!; [apply NoDup_nil_2|done|apply NoDup_nil_2|].
    intros n Hn. by apply elem_of_nil in Hn.
  - intros e He. by apply elem_of_nil in He.
Qed.

(** X18: whatever calls the indicator service receives after it is
    loaded, every entry of [indicators] has its own key and its own badge
    node, [document.body] holds exactly the badges of the entries, in
    their order, and a badge that is displayed belongs to a chat that is
    not hidden and has been placed at an element. *)
Theorem indicator_service_keeps_its_badges_in_order (calls : list Call) :
  let s := perform_all calls loaded in
  tidy s ∧ shown_are_placed s.
Proof.
  cbv zeta. unfold perform_all.
  assert (∀ s0, tidy s0 ∧ shown_are_placed s0 →
            tidy (foldl (fun s c => perform c s) s0 calls) ∧
            shown_are_placed (foldl (fun s c => perform c s) s0 calls)) as Hall.
  { induction calls as [|c calls IH]; intros s0 H0; [done|]. cbn [foldl].
    apply IH. by apply perform_invariant. }
  apply Hall, loaded_tidy.
Qed.

(** X19: [upsertIndicatorsForSession] on a tidy service.  Afterwards the
    service is initialised and a refresh is requested; every descriptor of
    the session has an entry under its key; every entry of the session's
    chat has the key of one of its descriptors; the entries of other chats
    keep their key, badge and style; no chat becomes hidden; and an entry
    that is new is not displayed before the next frame. *)
Theorem upsert_gives_the_session_its_badges (session : Session) (s : Service) :
  tidy s →
  let s' := upsertIndicatorsForSession session s in
  let key := getDescriptorKey (elementId session) in
  tidy s' ∧ rafPending s' = true ∧ initialized s' = true ∧
  hiddenChats s' ⊆ hiddenChats s ∧
  (∀ d, d ∈ session_descriptors session → is_Some (indicators_get (key d) s')) ∧
  (∀ e, e ∈ indicators s' → ind_chatId e = elementId session →
        ∃ d, d ∈ session_descriptors session ∧ ind_key e = key d) ∧
  (∀ e, e ∈ indicators s → ind_chatId e ≠ elementId session →
        ∃ e', e' ∈ indicators s' ∧ ind_key e' = ind_key e ∧
              ind_chatId e' = ind_chatId e ∧ ind_badge e' = ind_badge e ∧
              ind_style e' = ind_style e) ∧
  (∀ e, e ∈ indicators s' → ind_key e ∉ ind_key <$> indicators s →
        display_block (ind_style e) = false).
Proof.
  intros Ht s' key.
  pose proof (ensureInitialized_tidy s Ht) as Ht0.
  destruct (ensureInitialized_fields s) as (Hi0 & Hh0 & _ & _ & _ & Hinit0).
  set (s0 := ensureInitialized s) in *.
  destruct (fold_upsert_spec (elementId session) (session_descriptors session) s0 Ht0)
    as (Ht1 & Hh1 & _ & Hinit1 & Hk1 & Hold1 & Hnew1).
  set (s1 := foldl (upsert_descriptor (elementId session)) s0 (session_descriptors session))
    in *.
  set (stale := fun entry : IndicatorEntry =>
                  bool_decide (ind_chatId entry = elementId session)
                  && negb (seen (map key (session_descriptors session)) (ind_key entry))).
  destruct (remove_where_spec stale s1 Ht1) as (Ht2 & Hh2 & _ & Hinit2 & Hin2).
  set (s2 := remove_where stale s1) in *.
  destruct (scheduleRefresh_fields s2) as (Hi3 & Hh3 & _ & _ & Hinit3 & Hr3).
  assert (s' = scheduleRefresh s2) as Hs' by done.
  assert (∀ d, d ∈ session_descriptors session →
               seen (map key (session_descriptors session)) (key d) = true) as Hseen.
  { intros d Hd. apply bool_decide_eq_true, list_elem_of_In, in_map, list_elem_of_In, Hd. }
  rewrite Hs'. split_and!.
  - by apply scheduleRefresh_tidy.
  - done.
  - congruence.
  - rewrite Hh3. etrans; [exact Hh2|]. by rewrite Hh1, Hh0.
  - intros d Hd. apply get_is_Some. rewrite Hi3.
    pose proof (Hk1 d Hd) as (e & Hkey & He)%list_elem_of_fmap.
    fold key in Hkey. rewrite Hkey. apply list_elem_of_fmap_2, Hin2. split; [done|].
    unfold stale. rewrite <- Hkey, (Hseen d Hd). by rewrite andb_false_r.
  - intros e He Hchat. rewrite Hi3 in He. apply Hin2 in He as [He Hstale].
    unfold stale in Hstale. rewrite bool_decide_eq_true_2 in Hstale by done.
    cbn [andb] in Hstale. apply negb_false_iff, bool_decide_eq_true in Hstale.
    apply list_elem_of_In, in_map_iff in Hstale as (d & Hd & Hin).
    exists d. split; [by apply list_elem_of_In | done].
  - intros e He Hchat. rewrite <- Hi0 in He.
    destruct (Hold1 e He) as (e' & He' & (Hk & Hc & Hb) & Hs & _).
    exists e'. rewrite Hi3. split_and!; try done.
    apply Hin2. split; [done|]. unfold stale.
    rewrite bool_decide_eq_false_2 by congruence. done.
  - intros e He Hfresh. rewrite Hi3 in He. apply Hin2 in He as [He _].
    destruct (Hnew1 e He) as [(e0 & He0 & (Hk & _) & _)|(d & _ & _ & _ & Hd & _)]; [|done].
    destruct Hfresh. rewrite Hk, <- Hi0. by apply list_elem_of_fmap_2.
Qed.

Lemma upsert_gives_the_session_its_badges_witness :
  let s' := upsertIndicatorsForSession panel_session loaded in
  let key := getDescriptorKey (elementId panel_session) in
  tidy s' ∧ rafPending s' = true ∧ initialized s' = true ∧
  hiddenChats s' ⊆ hiddenChats loaded ∧
  (∀ d, d ∈ session_descriptors panel_session → is_Some (indicators_get (key d) s')) ∧
  (∀ e, e ∈ indicators s' → ind_chatId e = elementId panel_session →
        ∃ d, d ∈ session_descriptors panel_session ∧ ind_key e = key d) ∧
  (∀ e, e ∈ indicators loaded → ind_chatId e ≠ elementId panel_session →
        ∃ e', e' ∈ indicators s' ∧ ind_key e' = ind_key e ∧
              ind_chatId e' = ind_chatId e ∧ ind_badge e' = ind_badge e ∧
              ind_style e' = ind_style e) ∧
  (∀ e, e ∈ indicators s' → ind_key e ∉ ind_key <$> indicators loaded →
        display_block (ind_style e) = false).
Proof.
  exact (upsert_gives_the_session_its_badges panel_session loaded (proj1 loaded_tidy)).
Defined.

End IndicatorExtras.

